(** * pybind11-stubgen: signature extraction and stub rendering

    A shallow embedding of [pybind11_stubgen/__init__.py] and the properties
    of its signature parser, type normaliser, class ordering, renderer and
    diagnostics policy.

    Text is modelled as a list of characters whose code points are below
    256; the character classes of Python's [re] and [str] methods are
    written out for that range. *)

From Stdlib Require Import String Ascii List Arith Lia Bool ZArith Permutation Sorted.
Import ListNotations.

Open Scope string_scope.
Open Scope list_scope.
Open Scope nat_scope.

(** ** Text *)

Definition str := list ascii.

Definition text (s : string) : str := list_ascii_of_string s.
Coercion text : string >-> str.

(** Python's [+] on [str]. *)
Notation "a +++ b" := (@app ascii (a : str) (b : str))
  (at level 60, right associativity).

Definition chr (n : nat) : ascii := ascii_of_nat n.
Definition ord (c : ascii) : nat := nat_of_ascii c.

(** The double quote, the newline and the triple quote of docstrings. *)
Definition dquote : ascii := chr 34.
Definition newline : ascii := chr 10.
Definition triple_quote : str := [dquote; dquote; dquote].

Definition between (lo hi : nat) (c : ascii) : bool :=
  (lo <=? ord c) && (ord c <=? hi).

Definition one_of (cs : str) (c : ascii) : bool :=
  existsb (Ascii.eqb c) cs.

Definition none_of (cs : str) (c : ascii) : bool := negb (one_of cs c).

(** [str.isspace] for one character. *)
Definition isspace (c : ascii) : bool :=
  between 9 13 c || between 28 32 c || (ord c =? 133) || (ord c =? 160).

Definition isdecimal (c : ascii) : bool := between 48 57 c.
Definition isupper_ascii (c : ascii) : bool := between 65 90 c.
Definition islower_ascii (c : ascii) : bool := between 97 122 c.

(** [str.isalnum] for one character. *)
Definition isalnum (c : ascii) : bool :=
  isdecimal c || isupper_ascii c || islower_ascii c
  || (ord c =? 170) || (ord c =? 178) || (ord c =? 179) || (ord c =? 181)
  || (ord c =? 185) || (ord c =? 186) || between 188 190 c
  || between 192 214 c || between 216 246 c || between 248 255 c.

(** The classes [\w], [\s], [\d] and [.] of a [str] pattern. *)
Definition re_word (c : ascii) : bool := isalnum c || Ascii.eqb c "_".
Definition re_space (c : ascii) : bool := isspace c.
Definition re_digit (c : ascii) : bool := isdecimal c.
Definition re_any (c : ascii) : bool := negb (Ascii.eqb c newline).

(** [a == b] *)
Fixpoint str_eqb (a b : str) : bool :=
  match a, b with
  | [], [] => true
  | x :: a', y :: b' => Ascii.eqb x y && str_eqb a' b'
  | _, _ => false
  end.

Fixpoint startswith (p s : str) : bool :=
  match p, s with
  | [], _ => true
  | _ :: _, [] => false
  | a :: p', b :: s' => Ascii.eqb a b && startswith p' s'
  end.

Definition endswith (p s : str) : bool := startswith (rev p) (rev s).

Fixpoint lstrip_with (f : ascii -> bool) (s : str) : str :=
  match s with
  | c :: s' => if f c then lstrip_with f s' else s
  | [] => []
  end.

Definition rstrip_with (f : ascii -> bool) (s : str) : str :=
  rev (lstrip_with f (rev s)).

Definition strip_with (f : ascii -> bool) (s : str) : str :=
  rstrip_with f (lstrip_with f s).

(** [s.strip()] *)
Definition strip (s : str) : str := strip_with isspace s.

(** [sep.join(parts)] *)
Fixpoint join (sep : str) (parts : list str) : str :=
  match parts with
  | [] => []
  | [p] => p
  | p :: ps => p ++ sep ++ join sep ps
  end.

(** [s.split(sep)] for a non-empty separator: [skip] counts the characters
    of the separator still to be passed over, [cur] is the current piece in
    reverse. *)
Fixpoint split_go (sep : str) (skip : nat) (cur : str) (s : str) : list str :=
  match s with
  | [] => [rev cur]
  | c :: s' =>
      match skip with
      | S n => split_go sep n cur s'
      | O =>
          if startswith sep s
          then rev cur :: split_go sep (length sep - 1) [] s'
          else split_go sep 0 (c :: cur) s'
      end
  end.

Definition split (sep : str) (s : str) : list str := split_go sep 0 [] s.

(** [s.split(sep, maxsplit=1)] *)
Fixpoint split_once_go (sep : str) (cur : str) (s : str) : list str :=
  match s with
  | [] => [rev cur]
  | c :: s' =>
      if startswith sep s
      then [rev cur; skipn (length sep) s]
      else split_once_go sep (c :: cur) s'
  end.

Definition split_once (sep : str) (s : str) : list str := split_once_go sep [] s.

(** [s.replace(old, new)] for a non-empty [old]. *)
Fixpoint replace_go (old new : str) (skip : nat) (s : str) : str :=
  match s with
  | [] => []
  | c :: s' =>
      match skip with
      | S n => replace_go old new n s'
      | O =>
          if startswith old s
          then new ++ replace_go old new (length old - 1) s'
          else c :: replace_go old new 0 s'
      end
  end.

Definition replace (old new : str) (s : str) : str := replace_go old new 0 s.

(** [str.upper] and [str.lower] on the letters a-z and A-Z. *)
Definition upper_char (c : ascii) : ascii :=
  if islower_ascii c then chr (ord c - 32) else c.
Definition lower_char (c : ascii) : ascii :=
  if isupper_ascii c then chr (ord c + 32) else c.

(** [s.capitalize()]; its one caller passes words of ASCII letters. *)
Definition capitalize (s : str) : str :=
  match s with
  | [] => []
  | c :: s' => upper_char c :: map lower_char s'
  end.

(** Python's [<] and [<=] on [str]: lexicographic on code points. *)
Fixpoint str_ltb (a b : str) : bool :=
  match a, b with
  | [], [] => false
  | [], _ :: _ => true
  | _ :: _, [] => false
  | x :: a', y :: b' =>
      if ord x <? ord y then true
      else if ord y <? ord x then false
      else str_ltb a' b'
  end.

Definition str_leb (a b : str) : bool := negb (str_ltb b a).

(** [" " * n] for an integer [n]. *)
Definition spaces (n : Z) : str := repeat " "%char (Z.to_nat n).

(** ** Regular expressions

    The constructs used by the patterns of the source, matched the way
    Python's [re] matches them: leftmost, alternatives in order, greedy
    repetition with backtracking. *)

Inductive regex : Type :=
| Eps : regex
| Sym : (ascii -> bool) -> regex
| Cat : regex -> regex -> regex
| Alt : regex -> regex -> regex
| Star : regex -> regex            (* r*  *)
| LazyStar : regex -> regex        (* r*? *)
| Group : nat -> regex -> regex    (* the n-th capturing group *)
| NotBehind : (ascii -> bool) -> regex   (* (?<!c) *)
| NotAhead : (ascii -> bool) -> regex    (* (?!c)  *)
| Caret : regex                    (* ^ *)
| Dollar : regex.                  (* $ *)

Definition Plus (r : regex) : regex := Cat r (Star r).
Definition Opt (r : regex) : regex := Alt r Eps.
Definition Chr (c : ascii) : regex := Sym (Ascii.eqb c).

Fixpoint Lit (s : str) : regex :=
  match s with
  | [] => Eps
  | [c] => Chr c
  | c :: s' => Cat (Chr c) (Lit s')
  end.

Fixpoint Cats (rs : list regex) : regex :=
  match rs with
  | [] => Eps
  | [r] => r
  | r :: rs' => Cat r (Cats rs')
  end.

Fixpoint Alts (rs : list regex) : regex :=
  match rs with
  | [] => Eps
  | [r] => r
  | r :: rs' => Alt r (Alts rs')
  end.

(** The state of a match attempt: the character before the current
    position, the text still to be read and the groups closed so far (the
    most recent binding of a group first). *)
Record MatchState : Type := mkState {
  st_prev : option ascii;
  st_rest : str;
  st_groups : list (nat * str)
}.

Definition Cont := MatchState -> option MatchState.
Definition Matcher := MatchState -> Cont -> option MatchState.

(** The first alternative that succeeds; the second is not tried then. *)
Notation "a 'orelse' b" := (match a with Some x => Some x | None => b end)
  (at level 70, no associativity, only parsing).

Definition m_sym (p : ascii -> bool) : Matcher := fun st k =>
  match st_rest st with
  | c :: s' => if p c then k (mkState (Some c) s' (st_groups st)) else None
  | [] => None
  end.

Definition progressed (st0 st1 : MatchState) : bool :=
  length (st_rest st1) <? length (st_rest st0).

(** Greedy repetition: one more round of the body, then the rest of the
    pattern.  A round that read nothing ends the repetition: the rest of
    the pattern follows it at once. *)
Fixpoint star_loop (m : Matcher) (fuel : nat) (st : MatchState) (k : Cont)
  : option MatchState :=
  match fuel with
  | O => k st
  | S fuel' =>
      (m st (fun st1 => if progressed st st1 then star_loop m fuel' st1 k else k st1))
      orelse (k st)
  end.

(** Lazy repetition: the rest of the pattern first. *)
Fixpoint lazy_loop (m : Matcher) (fuel : nat) (st : MatchState) (k : Cont)
  : option MatchState :=
  match fuel with
  | O => k st
  | S fuel' =>
      (k st)
      orelse (m st (fun st1 => if progressed st st1 then lazy_loop m fuel' st1 k else k st1))
  end.

Definition consumed (st0 st1 : MatchState) : str :=
  firstn (length (st_rest st0) - length (st_rest st1)) (st_rest st0).

Definition close_group (n : nat) (st0 st1 : MatchState) : MatchState :=
  mkState (st_prev st1) (st_rest st1) ((n, consumed st0 st1) :: st_groups st1).

Definition test_prev (p : ascii -> bool) (st : MatchState) : bool :=
  match st_prev st with Some c => p c | None => false end.

Definition test_next (p : ascii -> bool) (st : MatchState) : bool :=
  match st_rest st with c :: _ => p c | [] => false end.

Definition at_dollar (st : MatchState) : bool :=
  match st_rest st with
  | [] => true
  | [c] => Ascii.eqb c newline
  | _ => false
  end.

Fixpoint matcher (r : regex) : Matcher :=
  match r with
  | Eps => fun st k => k st
  | Sym p => m_sym p
  | Cat a b => fun st k => matcher a st (fun st1 => matcher b st1 k)
  | Alt a b => fun st k => (matcher a st k) orelse (matcher b st k)
  | Star a => fun st k => star_loop (matcher a) (S (length (st_rest st))) st k
  | LazyStar a => fun st k => lazy_loop (matcher a) (S (length (st_rest st))) st k
  | Group n a => fun st k => matcher a st (fun st1 => k (close_group n st st1))
  | NotBehind p => fun st k => if test_prev p st then None else k st
  | NotAhead p => fun st k => if test_next p st then None else k st
  | Caret => fun st k => match st_prev st with None => k st | Some _ => None end
  | Dollar => fun st k => if at_dollar st then k st else None
  end.

(** A match object: the matched text (group 0), the text after it and the
    groups. *)
Record Match : Type := mkMatch {
  m_text : str;
  m_after : str;
  m_last : option ascii;
  m_groups : list (nat * str)
}.

Fixpoint assoc (n : nat) (l : list (nat * str)) : option str :=
  match l with
  | [] => None
  | (k, v) :: l' => if k =? n then Some v else assoc n l'
  end.

(** [m.group(n)]: [None] when the group took no part in the match. *)
Definition group (m : Match) (n : nat) : option str := assoc n (m_groups m).

(** Truth value of [m.group(n)]. *)
Definition group_truthy (m : Match) (n : nat) : bool :=
  match group m n with
  | Some (_ :: _) => true
  | _ => false
  end.

(** One attempt at the current position; [must_advance] refuses an empty
    match. *)
Definition match_here (r : regex) (must_advance : bool) (prev : option ascii) (s : str)
  : option Match :=
  let st0 := mkState prev s [] in
  match matcher r st0
          (fun st1 => if must_advance && negb (progressed st0 st1) then None else Some st1)
  with
  | Some st1 => Some (mkMatch (consumed st0 st1) (st_rest st1) (st_prev st1) (st_groups st1))
  | None => None
  end.

(** [re.match(r, s)] *)
Definition re_match (r : regex) (s : str) : option Match := match_here r false None s.

(** [re.search] from the current position: the text skipped before the
    leftmost match, and the match. *)
Fixpoint search (r : regex) (must_advance : bool) (prev : option ascii) (s : str)
  : option (str * Match) :=
  match match_here r must_advance prev s with
  | Some m => Some ([], m)
  | None =>
      match s with
      | [] => None
      | c :: s' =>
          match search r false (Some c) s' with
          | Some (skipped, m) => Some (c :: skipped, m)
          | None => None
          end
      end
  end.

(** The successive non-overlapping matches of [finditer], each with the
    text between it and the previous one, and the text after the last. *)
Fixpoint finditer_go (r : regex) (fuel : nat) (must_advance : bool)
         (prev : option ascii) (s : str) : list (str * Match) * str :=
  match fuel with
  | O => ([], s)
  | S fuel' =>
      match search r must_advance prev s with
      | None => ([], s)
      | Some (skipped, m) =>
          let '(ms, tail) :=
            finditer_go r fuel' (match m_text m with [] => true | _ => false end)
                        (m_last m) (m_after m) in
          ((skipped, m) :: ms, tail)
      end
  end.

Definition finditer (r : regex) (s : str) : list (str * Match) * str :=
  finditer_go r (2 * length s + 2) false None s.

(** [re.sub(r, repl, s)] for a replacement function. *)
Definition re_sub (r : regex) (repl : Match -> str) (s : str) : str :=
  let '(ms, tail) := finditer r s in
  concat (map (fun sm => fst sm ++ repl (snd sm)) ms) ++ tail.

(** [re.findall(r, s)] for a pattern with exactly one group. *)
Definition re_findall1 (r : regex) (s : str) : list str :=
  map (fun sm => match group (snd sm) 1 with Some g => g | None => [] end)
      (fst (finditer r s)).

(** [re.sub(r, template, s)] for the templates of the source: the empty
    template and [\g<1>]. *)
Definition re_sub_empty (r : regex) (s : str) : str := re_sub r (fun _ => []) s.

Definition re_sub_group1 (r : regex) (s : str) : str :=
  re_sub r (fun m => match group m 1 with Some g => g | None => [] end) s.

(** ** Global state, diagnostics and exceptions *)

Inductive Level : Type := DEBUG | INFO | WARNING | ERROR.

(** The class attributes of [FunctionSignature], the module switches
    [BARE_NUPMY_NDARRAY] and [USE_BOOST_PYTHON], and what was logged. *)
Record Globals : Type := mkGlobals {
  ignore_invalid_signature : bool;
  ignore_invalid_defaultarg : bool;
  signature_downgrade : bool;
  n_invalid_default_values : nat;
  n_invalid_signatures : nat;
  BARE_NUPMY_NDARRAY : bool;
  USE_BOOST_PYTHON : bool;
  logged : list (Level * str)
}.

(** The values at import time. *)
Definition initial_globals : Globals :=
  mkGlobals false false true 0 0 false false [].

Inductive exn : Type :=
| IndexError : exn
| AssertionError : exn
| KeyError : str -> exn
| AttributeError : exn
| ValueError : exn
| TypeError : exn
| MemoryError : exn
| RecursionError : exn.

Inductive result (A : Type) : Type :=
| Ok : A -> result A
| Raise : exn -> result A.
Arguments Ok {A} _.
Arguments Raise {A} _.

(** Computations that read and write the globals and may raise; what was
    written before an exception stays written. *)
Definition M (A : Type) : Type := Globals -> result A * Globals.

Definition ret {A} (a : A) : M A := fun g => (Ok a, g).
Definition raise {A} (e : exn) : M A := fun g => (Raise e, g).
Definition bind {A B} (m : M A) (f : A -> M B) : M B := fun g =>
  match m g with
  | (Ok a, g') => f a g'
  | (Raise e, g') => (Raise e, g')
  end.
Definition get : M Globals := fun g => (Ok g, g).
Definition modify (f : Globals -> Globals) : M unit := fun g => (Ok tt, f g).
Definition lift {A} (r : result A) : M A := fun g => (r, g).

Declare Scope py_scope.
Delimit Scope py_scope with py.
Notation "x <- m ;; k" := (bind m (fun x => k))
  (at level 61, m at next level, right associativity) : py_scope.
Notation "m ;;; k" := (bind m (fun _ => k))
  (at level 61, right associativity) : py_scope.
Open Scope py_scope.

Fixpoint for_each {A} (l : list A) (body : A -> M unit) : M unit :=
  match l with
  | [] => ret tt
  | x :: l' => body x ;;; for_each l' body
  end.

Fixpoint map_M {A B} (f : A -> M B) (l : list A) : M (list B) :=
  match l with
  | [] => ret []
  | x :: l' => y <- f x ;; ys <- map_M f l' ;; ret (y :: ys)
  end.

(** [logger.log(lvl, msg)] *)
Definition logger_log (lvl : Level) (msg : str) : M unit :=
  modify (fun g =>
    mkGlobals (ignore_invalid_signature g) (ignore_invalid_defaultarg g)
              (signature_downgrade g) (n_invalid_default_values g)
              (n_invalid_signatures g) (BARE_NUPMY_NDARRAY g)
              (USE_BOOST_PYTHON g) (logged g ++ [(lvl, msg)])).

Definition incr_invalid_default_values : M unit :=
  modify (fun g =>
    mkGlobals (ignore_invalid_signature g) (ignore_invalid_defaultarg g)
              (signature_downgrade g) (n_invalid_default_values g + 1)
              (n_invalid_signatures g) (BARE_NUPMY_NDARRAY g)
              (USE_BOOST_PYTHON g) (logged g)).

Definition incr_invalid_signatures : M unit :=
  modify (fun g =>
    mkGlobals (ignore_invalid_signature g) (ignore_invalid_defaultarg g)
              (signature_downgrade g) (n_invalid_default_values g)
              (n_invalid_signatures g + 1) (BARE_NUPMY_NDARRAY g)
              (USE_BOOST_PYTHON g) (logged g)).

(** [FunctionSignature.n_fatal_errors()] *)
Definition n_fatal_errors (g : Globals) : nat :=
  (if ignore_invalid_defaultarg g then 0 else n_invalid_default_values g) +
  (if ignore_invalid_signature g then 0 else n_invalid_signatures g).

(** [l[i]] *)
Definition index {A} (l : list A) (i : nat) : result A :=
  match nth_error l i with
  | Some x => Ok x
  | None => Raise IndexError
  end.

(** ** Patterns of the source *)

Definition hexdigit (c : ascii) : bool :=
  between 48 57 c || between 97 102 c || between 65 70 c.

(** Patterns are quoted with a blank between a star and a closing
    parenthesis.  [_default_pybind11_repr_re] is
    [(<(?P<class>\w+(\.\w+)* ) object at 0x[0-9a-fA-F]+>)|(<(?P<enum>\w+(.\w+)* ): \d+>)]. *)
Definition g_class : nat := 2.
Definition g_enum : nat := 5.

Definition _default_pybind11_repr_re : regex :=
  Alt
    (Group 1 (Cats [Chr "<";
                    Group g_class (Cat (Plus (Sym re_word))
                                       (Star (Group 3 (Cat (Chr ".") (Plus (Sym re_word))))));
                    Lit " object at 0x";
                    Plus (Sym hexdigit);
                    Chr ">"]))
    (Group 4 (Cats [Chr "<";
                    Group g_enum (Cat (Plus (Sym re_word))
                                      (Star (Group 6 (Cat (Sym re_any) (Plus (Sym re_word))))));
                    Lit ": ";
                    Plus (Sym re_digit);
                    Chr ">"])).

(** [replace_default_pybind11_repr]: the representations replaced by an
    ellipsis, in order, and the rewritten line.  A replacement function
    that returns [None] contributes nothing. *)
Definition replacement (m : Match) : str :=
  if group_truthy m g_class then "..."
  else match group m g_enum with Some e => e | None => [] end.

Definition replace_default_pybind11_repr (line : str) : list str * str :=
  let default_reprs :=
    flat_map (fun sm => if group_truthy (snd sm) g_class then [m_text (snd sm)] else [])
             (fst (finditer _default_pybind11_repr_re line)) in
  (default_reprs, re_sub _default_pybind11_repr_re replacement line).

(** ** FunctionSignature *)

Record FunctionSignature : Type := mkSig {
  name : str;
  args : str;
  rtype : str
}.

(** [__eq__]: name, argument text and return text agree. *)
Definition sig_eqb (a b : FunctionSignature) : bool :=
  str_eqb (name a) (name b) && str_eqb (args a) (args b) && str_eqb (rtype a) (rtype b).

(** Truth value of a [str]. *)
Definition truthy (s : str) : bool :=
  match s with [] => false | _ :: _ => true end.

Definition rbind {A B} (r : result A) (f : A -> result B) : result B :=
  match r with Ok a => f a | Raise e => Raise e end.

(** *** The Boost.Python dialect

    Fixed arguments followed by one bracketed suffix of optional arguments,
    each written [(Type)name] with an optional [ = default]. *)

(** The patterns "\[(.*?)\]$" and "\((.*?)\)". *)
Definition boost_optional_re : regex :=
  Cats [Chr "["; Group 1 (LazyStar (Sym re_any)); Chr "]"; Dollar].

Definition boost_type_re : regex :=
  Cats [Chr "("; Group 1 (LazyStar (Sym re_any)); Chr ")"].

(** The type and the name of one argument: [re.findall(...)[0]] and
    [arg.split(")")[1]] with its blanks replaced. *)
Definition boost_type_and_name (arg : str) : result (str * str) :=
  rbind (index (re_findall1 boost_type_re arg) 0) (fun type_name =>
  rbind (index (split ")" arg) 1) (fun arg_name =>
  Ok (type_name, replace " " "_" arg_name))).

Fixpoint boost_nominal_loop (num_nominal_args k : nat) (l : list str) (new_args : str)
  : result str :=
  match l with
  | [] => Ok new_args
  | arg :: l' =>
      rbind (boost_type_and_name arg) (fun tn =>
        let new_args := new_args +++ snd tn +++ ": " +++ fst tn in
        let new_args := if k <? num_nominal_args - 1 then new_args +++ ", " else new_args in
        boost_nominal_loop num_nominal_args (S k) l' new_args)
  end.

Fixpoint boost_optional_loop (num_optional_args k : nat) (l : list str) (new_args : str)
  : result str :=
  match l with
  | [] => Ok new_args
  | arg :: l' =>
      let split_arg_equal := split_once "=" arg in
      let main_arg := hd [] split_arg_equal in
      rbind (boost_type_and_name main_arg) (fun tn =>
        let new_args := new_args +++ snd tn +++ ": " +++ fst tn in
        let new_args :=
          match split_arg_equal with
          | _ :: optional_value :: _ => new_args +++ " = " +++ optional_value
          | _ => new_args
          end in
        let new_args := if k <? num_optional_args - 1 then new_args +++ ", " else new_args in
        boost_optional_loop num_optional_args (S k) l' new_args)
  end.

(** [optional_args[-1] = re.sub(']' * (n - 1) + '$', '', optional_args[-1])] *)
Definition strip_closing (n : nat) (l : list str) : list str :=
  match rev l with
  | [] => l
  | last :: front =>
      rev front ++ [re_sub_empty (Cat (Lit (repeat "]"%char (n - 1))) Dollar) last]
  end.

(** The translation of a non-empty argument text. *)
Definition boost_args (args : str) : result str :=
  let find_optional_args := re_findall1 boost_optional_re args in
  let optional_args : str := hd [] find_optional_args in
  let nominal_args : str :=
    if truthy optional_args then replace ("[" +++ optional_args +++ "]") "" args else args in
  let nominal_args : list str :=
    if truthy nominal_args then split "," nominal_args else [] in
  let num_nominal_args := length nominal_args in
  let optional_args : list str :=
    if truthy optional_args then split "[," optional_args else [] in
  let num_optional_args := length optional_args in
  let optional_args :=
    if 1 <? num_optional_args then strip_closing num_optional_args optional_args
    else optional_args in
  rbind (boost_nominal_loop num_nominal_args 0 nominal_args "") (fun new_args =>
    let new_args :=
      if (0 <? num_optional_args) && (0 <? num_nominal_args) then new_args +++ ", "
      else new_args in
    rbind (boost_optional_loop num_optional_args 0 optional_args new_args) (fun new_args =>
      Ok (replace " ," "," new_args))).

(** [template.format] with positional and keyword values, for templates made of text,
    [{}] and [{key}] fields; a dotted field such as [{sig.name}] is looked
    up under its whole text. *)
Fixpoint kwarg (key : str) (kw : list (str * str)) : result str :=
  match kw with
  | [] => Raise (KeyError key)
  | (k, v) :: kw' => if str_eqb k key then Ok v else kwarg key kw'
  end.

Fixpoint format_go (t : str) (field : option str) (positional : list str)
         (kw : list (str * str)) : result str :=
  match t with
  | [] => match field with None => Ok [] | Some _ => Raise ValueError end
  | c :: t' =>
      match field with
      | None =>
          if Ascii.eqb c "{" then format_go t' (Some []) positional kw
          else rbind (format_go t' None positional kw) (fun r => Ok (c :: r))
      | Some f =>
          if Ascii.eqb c "}" then
            match f with
            | [] =>
                match positional with
                | [] => Raise IndexError
                | v :: positional' =>
                    rbind (format_go t' None positional' kw) (fun r => Ok (v ++ r))
                end
            | _ :: _ =>
                rbind (kwarg (rev f) kw) (fun v =>
                rbind (format_go t' None positional kw) (fun r => Ok (v ++ r)))
            end
          else format_go t' (Some (c :: f)) positional kw
      end
  end.

Definition format (t : str) (positional : list str) (kw : list (str * str)) : result str :=
  format_go t None positional kw.

Definition kw (k : string) (v : str) : str * str := (text k, v).

(** *** FunctionSignature.__init__ *)

(** Lines 83-89: unsafe default values. *)
Definition validate_defaults (args : str) : M str :=
  let '(invalid_defaults, self_args) := replace_default_pybind11_repr args in
  match invalid_defaults with
  | [] => ret self_args
  | _ :: _ =>
      incr_invalid_default_values ;;;
      g <- get ;;
      let lvl := if ignore_invalid_defaultarg g then WARNING else ERROR in
      logger_log lvl "Default argument value(s) replaced with ellipses (...):" ;;;
      for_each invalid_defaults (fun invalid_default =>
        logger_log lvl ("    " +++ invalid_default)) ;;;
      ret self_args
  end.

(** Lines 91-151: with [USE_BOOST_PYTHON] the argument text handed to the
    constructor (not the one with its defaults replaced) is translated, and
    the return text is cut at its first [" :"]. *)
Definition boost_python (args self_args rtype : str) : M (str * str) :=
  g <- get ;;
  if USE_BOOST_PYTHON g then
    self_args <- (if truthy args then lift (boost_args args) else ret self_args) ;;
    ret (self_args, hd [] (split " :" rtype))
  else ret (self_args, rtype).

(** What [ast.parse] does with a candidate declaration: it returns a
    tree, it raises [SyntaxError], whose [offset] may be [None], or it
    raises another exception, as [ValueError] on a text with a NUL
    character. *)
Inductive ParseOutcome : Type :=
| Parses : ParseOutcome
| SyntaxError : option Z -> ParseOutcome
| ParseRaises : exn -> ParseOutcome.

Section Validation.

Variable ast_parse : str -> ParseOutcome.

Definition function_def_str (self : FunctionSignature) : result str :=
  format "def {sig.name}({sig.args}) -> {sig.rtype}: ..." []
         [kw "sig.name" (name self); kw "sig.args" (args self); kw "sig.rtype" (rtype self)].

(** Lines 153-168. *)
Definition validate_syntax (name0 : str) (self : FunctionSignature) : M FunctionSignature :=
  function_def_str <- lift (function_def_str self) ;;
  match ast_parse function_def_str with
  | Parses => ret self
  | ParseRaises e => raise e      (* not caught by [except SyntaxError] *)
  | SyntaxError offset =>
      incr_invalid_signatures ;;;
      g <- get ;;
      p <- (if signature_downgrade g then
              let lvl := if ignore_invalid_signature g then WARNING else ERROR in
              logger_log lvl
                "Generated stubs signature is degraded to `(*args, **kwargs) -> typing.Any` for" ;;;
              ret (mkSig name0 "*args, **kwargs" "typing.Any", lvl)
            else
              logger_log WARNING "Ignoring invalid signature:" ;;;
              ret (self, WARNING)) ;;
      let '(self, lvl) := p in
      logger_log lvl function_def_str ;;;
      match offset with
      | Some offset => logger_log lvl (spaces (offset - 1) +++ "^-- Invalid syntax")
      | None => raise TypeError   (* [e.offset - 1] on [None] *)
      end ;;;
      ret self
  end.

Definition FunctionSignature_init (name0 args0 rtype0 : str) (validate : bool)
  : M FunctionSignature :=
  if validate then
    self_args <- validate_defaults args0 ;;
    ar <- boost_python args0 self_args rtype0 ;;
    validate_syntax name0 (mkSig name0 (fst ar) (snd ar))
  else ret (mkSig name0 args0 rtype0).

End Validation.

(** *** FunctionSignature.split_arguments *)

(** [s[i:j]] for [0 <= i]. *)
Definition slice (s : str) (i j : nat) : str := firstn (j - i) (skipn i s).

(** The loop over [enumerate(self.args)]: [i] is the index of the head of
    [cs]. *)
Fixpoint split_arguments_loop (self_args : str) (i : nat) (cs : str)
         (prev_stop : nat) (brackets : Z) (splitted_args : list str)
  : result (nat * Z * list str) :=
  match cs with
  | [] => Ok (prev_stop, brackets, splitted_args)
  | c :: cs' =>
      if Ascii.eqb c "[" then
        split_arguments_loop self_args (S i) cs' prev_stop (brackets + 1) splitted_args
      else if Ascii.eqb c "]" then
        let brackets := (brackets - 1)%Z in
        if (0 <=? brackets)%Z
        then split_arguments_loop self_args (S i) cs' prev_stop brackets splitted_args
        else Raise AssertionError
      else if Ascii.eqb c "," && (brackets =? 0)%Z then
        split_arguments_loop self_args (S i) cs' (i + 1) brackets
                             (splitted_args ++ [slice self_args prev_stop i])
      else split_arguments_loop self_args (S i) cs' prev_stop brackets splitted_args
  end.

Definition split_arguments (self : FunctionSignature) : result (list str) :=
  if length (strip (args self)) =? 0 then Ok []
  else
    rbind (split_arguments_loop (args self) 0 (args self) 0 0%Z []) (fun r =>
      let '(prev_stop, brackets, splitted_args) := r in
      let splitted_args := splitted_args ++ [skipn prev_stop (args self)] in
      if (brackets =? 0)%Z then Ok splitted_args else Raise AssertionError).

(** ** Type normalisation *)

Definition numpy_sized_types : list str :=
  map text ["int8"; "int16"; "int32"; "int64";
            "float16"; "float32"; "float64";
            "complex32"; "complex64"; "longcomplex"].

Definition g_type : nat := 1.
Definition g_shape : nat := 3.

(** [replace_numpy_array] *)
Definition replace_numpy_array (bare : bool) (match_obj : Match) : str :=
  if bare then "numpy.ndarray"
  else
    let numpy_type := match group match_obj g_type with Some t => t | None => [] end in
    let numpy_type :=
      if existsb (str_eqb numpy_type) numpy_sized_types then "numpy." +++ numpy_type
      else numpy_type in
    let shape :=
      match group match_obj g_shape with
      | Some (c :: sh) => ", _Shape[" +++ (c :: sh) +++ "]"
      | _ => []
      end in
    "numpy.ndarray[" +++ numpy_type +++ shape +++ "]".

(** [replace_typing_types] *)
Definition replace_typing_types (m : Match) : str :=
  "typing." +++ capitalize (match group m g_type with Some t => t | None => [] end).

(** The keys of [GLOBAL_CLASSNAME_REPLACEMENTS], in the order of the
    dictionary:
    [numpy.ndarray\[(?P<type>[^\[\]]+)(\[(?P<shape>[^\[\]]+)\])?(?P<extra>[^][]* )\]]
    and
    [(?<!\w)(?P<type>Callable|Dict|[Ii]terator|[Ii]terable|List|Optional|Set|Tuple|Union')(?!\w)]. *)
Definition numpy_array_re : regex :=
  Cats [Lit "numpy"; Sym re_any; Lit "ndarray"; Chr "[";
        Group g_type (Plus (Sym (none_of "[]")));
        Opt (Group 2 (Cats [Chr "["; Group g_shape (Plus (Sym (none_of "[]"))); Chr "]"]));
        Group 4 (Star (Sym (none_of "][")));
        Chr "]"].

Definition typing_types_re : regex :=
  Cats [NotBehind re_word;
        Group g_type (Alts [Lit "Callable"; Lit "Dict";
                            Cat (Sym (one_of "Ii")) (Lit "terator");
                            Cat (Sym (one_of "Ii")) (Lit "terable");
                            Lit "List"; Lit "Optional"; Lit "Set"; Lit "Tuple";
                            Lit "Union'"]);
        NotAhead re_word].

Definition GLOBAL_CLASSNAME_REPLACEMENTS (bare : bool) : list (regex * (Match -> str)) :=
  [(numpy_array_re, replace_numpy_array bare); (typing_types_re, replace_typing_types)].

(** [StubsGenerator.apply_classname_replacements] *)
Definition apply_classname_replacements (bare : bool) (s : str) : str :=
  fold_left (fun s kv => re_sub (fst kv) (snd kv) s) (GLOBAL_CLASSNAME_REPLACEMENTS bare) s.

(** ** StubsGenerator: text helpers *)

Definition INDENT : str := repeat " "%char 4.

Definition _indent (line : str) : str := INDENT +++ line.

(** [StubsGenerator.indent] *)
Definition indent (lines : str) : str :=
  join [newline] (map (fun l => if truthy l then _indent l else l) (split [newline] lines)).

(** [StubsGenerator.format_docstring] *)
Definition format_docstring (docstring : str) : result str :=
  rbind (format (triple_quote +++ [newline] +++ "{}" +++ [newline] +++ triple_quote)
                [strip_with (Ascii.eqb newline) docstring] [])
        (fun s => Ok (indent s)).

(** ** Signatures from documentation strings *)

(** [no_parentheses] is [[^()]* ]; a fold is
    [({nopar}(\({inner}\))?)* ], whose two groups are numbered [n] and
    [n + 1]. *)
Definition no_parentheses : regex := Star (Sym (none_of "()")).

Definition parentheses_fold (n : nat) (inner : regex) : regex :=
  Star (Group n (Cat no_parentheses
                     (Opt (Group (S n) (Cats [Chr "("; inner; Chr ")"]))))).

Definition parentheses_one_fold : regex := parentheses_fold 8 no_parentheses.
Definition parentheses_two_fold : regex := parentheses_fold 6 parentheses_one_fold.
Definition parentheses_three_fold : regex := parentheses_fold 4 parentheses_two_fold.

Definition g_overload_number : nat := 2.
Definition g_args : nat := 3.
Definition g_rtype : nat := 10.

(** [(\s*(?P<overload_number>\d+).)?\s*{name}\s*\((?P<args>{balanced_parentheses})\)\s*->\s*(?P<rtype>[^\(\)]+)\s*];
    a member name is an identifier, which a pattern reads as itself. *)
Definition signature_regex (name0 : str) : regex :=
  Cats [Opt (Group 1 (Cats [Star (Sym re_space);
                            Group g_overload_number (Plus (Sym re_digit));
                            Sym re_any]));
        Star (Sym re_space);
        Lit name0;
        Star (Sym re_space);
        Chr "(";
        Group g_args parentheses_three_fold;
        Chr ")";
        Star (Sym re_space);
        Lit "->";
        Star (Sym re_space);
        Group g_rtype (Plus (Sym (none_of "()")));
        Star (Sym re_space)].

(** [{module_name}\.(\w+)], the dots of the module name escaped. *)
Definition module_name_re (module_name : str) : regex :=
  Cats [Lit module_name; Chr "."; Group 1 (Plus (Sym re_word))].

Definition strip_module_name (module_name : str) (s : str) : str :=
  re_sub_group1 (module_name_re module_name) s.

Definition group_or_empty (m : Match) (n : nat) : str :=
  match group m n with Some g => g | None => [] end.

(** [sorted(l, key=lambda fs: fs.args)]: the stable sort by argument
    text. *)
Fixpoint insert_by_args (x : FunctionSignature) (l : list FunctionSignature)
  : list FunctionSignature :=
  match l with
  | [] => [x]
  | y :: l' => if str_leb (args x) (args y) then x :: l else y :: insert_by_args x l'
  end.

Definition sorted_by_args (l : list FunctionSignature) : list FunctionSignature :=
  fold_right insert_by_args [] l.

Section Docstrings.

Variable ast_parse : str -> ParseOutcome.

(** [function_docstring_preprocessing_hooks] *)
Variable function_docstring_preprocessing_hooks : list (option str -> option str).

(** The order in which [list(set(signatures))] lists the distinct
    signatures: it depends on the hashes of the run. *)
Variable list_of_set : list FunctionSignature -> list FunctionSignature.

Definition apply_hooks (docstring : option str) : option str :=
  fold_left (fun d hook => hook d) function_docstring_preprocessing_hooks docstring.

(** Lines 321-327: one signature per matching line. *)
Fixpoint signatures_of_lines (name0 : str) (lines : list str) : M (list FunctionSignature) :=
  match lines with
  | [] => ret []
  | line :: lines' =>
      match re_match (signature_regex name0) line with
      | Some m =>
          sig <- FunctionSignature_init ast_parse name0
                   (group_or_empty m g_args) (group_or_empty m g_rtype) true ;;
          sigs <- signatures_of_lines name0 lines' ;;
          ret (sig :: sigs)
      | None => signatures_of_lines name0 lines'
      end
  end.

(** [StubsGenerator.function_signatures_from_docstring]; [doc] is
    [func.__doc__] and a missing [module_name] is [None]. *)
Definition function_signatures_from_docstring
           (name0 : str) (doc : option str) (module_name : option str)
  : M (list FunctionSignature) :=
  match apply_hooks doc with
  | None => ret []      (* [docstring.split] raises [AttributeError] *)
  | Some docstring =>
      signatures <- signatures_of_lines name0 (split [newline] docstring) ;;
      let signatures :=
        match module_name with
        | Some (c :: mn) =>
            map (fun sig => mkSig (name sig)
                                  (strip_module_name (c :: mn) (args sig))
                                  (strip_module_name (c :: mn) (rtype sig))) signatures
        | _ => signatures
        end in
      g <- get ;;
      let bare := BARE_NUPMY_NDARRAY g in
      let signatures :=
        map (fun sig => mkSig (name sig)
                              (apply_classname_replacements bare (args sig))
                              (apply_classname_replacements bare (rtype sig))) signatures in
      ret (sorted_by_args (list_of_set signatures))
  end.

(** The pattern of [remove_signatures], with [\w+] for the name:
    [(\s*(?P<overload_number>\d+).\s* )?\w+\s*\((?P<args>.* )\)\s*(->\s*(?P<rtype>[^\(\)]+)\s* )?]. *)
Definition remove_signature_regex : regex :=
  Cats [Opt (Group 1 (Cats [Star (Sym re_space);
                            Group 2 (Plus (Sym re_digit));
                            Sym re_any;
                            Star (Sym re_space)]));
        Plus (Sym re_word);
        Star (Sym re_space);
        Chr "(";
        Group 3 (Star (Sym re_any));
        Chr ")";
        Star (Sym re_space);
        Opt (Group 4 (Cats [Lit "->"; Star (Sym re_space);
                            Group 5 (Plus (Sym (none_of "()")));
                            Star (Sym re_space)]))].

Definition is_match (r : regex) (s : str) : bool :=
  match re_match r s with Some _ => true | None => false end.

(** [StubsGenerator.remove_signatures] *)
Definition remove_signatures (docstring : option str) : result str :=
  match docstring with
  | None => Ok []
  | Some _ =>
      match apply_hooks docstring with
      | None => Raise AttributeError
      | Some docstring =>
          let lines := split [newline; newline] docstring in
          let lines := filter (fun line => negb (str_eqb line "Overloaded function.")) lines in
          Ok (join [newline; newline]
                   (filter (fun line => negb (is_match remove_signature_regex line)) lines))
      end
  end.

(** [StubsGenerator.sanitize_docstring] *)
Definition sanitize_docstring (docstring : option str) : result str :=
  rbind (remove_signatures docstring) (fun docstring =>
    let docstring := rstrip_with (Ascii.eqb newline) docstring in
    if truthy docstring && is_match (Cats [Caret; Star (Sym re_space); Dollar]) docstring
    then Ok []
    else Ok docstring).

End Docstrings.

(** ** Renderers *)

(** What reflection tells about a documented member: its [__doc__] and
    the result of [fully_qualified_name] on it. *)
Record Member : Type := mkMember {
  member_doc : option str;
  member_qualified_name : str
}.

(** FreeFunctionStubsGenerator and ClassMemberStubsGenerator. *)
Record FunctionStubsGenerator : Type := mkFunctionStubs {
  fn_name : str;
  fn_member : Member;
  fn_module_name : option str;
  fn_signatures : list FunctionSignature
}.

Definition is_dunder (name0 : str) : bool :=
  startswith "__" name0 && endswith "__" name0.

Section Rendering.

Variable ast_parse : str -> ParseOutcome.
Variable function_docstring_preprocessing_hooks : list (option str -> option str).
Variable list_of_set : list FunctionSignature -> list FunctionSignature.

(** [FreeFunctionStubsGenerator.parse] *)
Definition function_parse (self : FunctionStubsGenerator) : M FunctionStubsGenerator :=
  signatures <- function_signatures_from_docstring ast_parse
                  function_docstring_preprocessing_hooks list_of_set
                  (fn_name self) (member_doc (fn_member self)) (fn_module_name self) ;;
  ret (mkFunctionStubs (fn_name self) (fn_member self) (fn_module_name self) signatures).

Definition log_empty_docstring (self : FunctionStubsGenerator) (docstring : str) : M unit :=
  if negb (truthy docstring) && negb (is_dunder (fn_name self))
  then logger_log DEBUG ("Docstring is empty for '" +++ member_qualified_name (fn_member self) +++ "'")
  else ret tt.

(** The loop of [FreeFunctionStubsGenerator.to_lines]; [docstring] is
    [None] once it has been printed. *)
Fixpoint free_function_lines (n_signatures : nat) (sigs : list FunctionSignature)
         (docstring : option str) (result0 : list str) : result (list str) :=
  match sigs with
  | [] => Ok result0
  | sig :: sigs' =>
      let result0 := if 1 <? n_signatures then result0 ++ [text "@typing.overload"] else result0 in
      rbind (format "def {name}({args}) -> {rtype}:" []
                    [kw "name" (name sig); kw "args" (args sig); kw "rtype" (rtype sig)])
            (fun line =>
      let result0 := result0 ++ [line] in
      match docstring with
      | Some (c :: d) =>
          rbind (format_docstring (c :: d)) (fun doc_lines =>
            free_function_lines n_signatures sigs' None (result0 ++ [doc_lines]))
      | _ => free_function_lines n_signatures sigs' docstring (result0 ++ [indent "pass"])
      end)
  end.

(** [FreeFunctionStubsGenerator.to_lines] *)
Definition free_function_to_lines (self : FunctionStubsGenerator) : M (list str) :=
  docstring <- lift (sanitize_docstring function_docstring_preprocessing_hooks
                                        (member_doc (fn_member self))) ;;
  log_empty_docstring self docstring ;;;
  lift (free_function_lines (length (fn_signatures self)) (fn_signatures self)
                            (Some docstring) []).

(** The loop of [ClassMemberStubsGenerator.to_lines]. *)
Fixpoint class_member_lines (n_signatures : nat) (sigs : list FunctionSignature)
         (docstring : option str) (result0 : list str) : result (list str) :=
  match sigs with
  | [] => Ok result0
  | sig :: sigs' =>
      rbind (if negb (startswith "self" (strip (args sig)))
             then Ok (result0 ++ [text "@staticmethod"], args sig)
             else rbind (split_arguments sig) (fun l =>
                    Ok (result0, join "," (text "self" :: tl l))))
            (fun ra =>
      let '(result0, args0) := ra in
      let result0 := if 1 <? n_signatures then result0 ++ [text "@typing.overload"] else result0 in
      let has_doc := match docstring with Some d => truthy d | None => false end in
      rbind (format "def {name}({args}) -> {rtype}: {ellipsis}" []
                    [kw "name" (name sig); kw "args" args0; kw "rtype" (rtype sig);
                     kw "ellipsis" (if has_doc then [] else "...")])
            (fun line =>
      let result0 := result0 ++ [line] in
      match docstring with
      | Some (c :: d) =>
          rbind (format_docstring (c :: d)) (fun doc_lines =>
            class_member_lines n_signatures sigs' None (result0 ++ [doc_lines]))
      | _ => class_member_lines n_signatures sigs' docstring result0
      end))
  end.

(** [ClassMemberStubsGenerator.to_lines] *)
Definition class_member_to_lines (self : FunctionStubsGenerator) : M (list str) :=
  docstring <- lift (sanitize_docstring function_docstring_preprocessing_hooks
                                        (member_doc (fn_member self))) ;;
  log_empty_docstring self docstring ;;;
  lift (class_member_lines (length (fn_signatures self)) (fn_signatures self)
                           (Some docstring) []).

End Rendering.

(** ** Properties *)

Definition NONE : nat := 0.
Definition READ_ONLY : nat := 1.
Definition WRITE_ONLY : nat := 2.
Definition READ_WRITE : nat := Nat.lor READ_ONLY WRITE_ONLY.

Record PropertySignature : Type := mkPropertySignature {
  prop_rtype : str;
  setter_args : str;
  access_type : nat
}.

(** A reflected property: [fget] and [fset] hold the accessor's [__doc__]
    when the accessor exists. *)
Record Property : Type := mkProperty {
  fget : option (option str);
  fset : option (option str);
  prop_doc : option str
}.

Record PropertyStubsGenerator : Type := mkPropertyStubs {
  ps_name : str;
  ps_prop : Property;
  ps_module_name : option str;
  ps_signature : PropertySignature
}.

(** [\s*(\w* )\((?P<args>[^()]* )\)\s*->\s*(?P<rtype>[^()]+)\s*] *)
Definition accessor_regex : regex :=
  Cats [Star (Sym re_space);
        Group 1 (Star (Sym re_word));
        Chr "(";
        Group 2 (Star (Sym (none_of "()")));
        Chr ")";
        Star (Sym re_space);
        Lit "->";
        Star (Sym re_space);
        Group 3 (Plus (Sym (none_of "()")));
        Star (Sym re_space)].

(** The first line of an accessor's documentation that is a signature. *)
Fixpoint first_accessor_match (module_name : option str) (lines : list str) : option Match :=
  match lines with
  | [] => None
  | line :: lines' =>
      let line := match module_name with
                  | Some mn => replace (mn +++ ".") "" line
                  | None => line
                  end in
      match re_match accessor_regex line with
      | Some m => Some m
      | None => first_accessor_match module_name lines'
      end
  end.

Definition accessor_match (module_name : option str) (accessor : option (option str))
  : option Match :=
  match accessor with
  | Some (Some doc) => first_accessor_match module_name (split [newline] doc)
  | _ => None
  end.

(** [StubsGenerator.property_signature_from_docstring] *)
Definition property_signature_from_docstring (bare : bool) (prop : Property)
           (module_name : option str) : PropertySignature :=
  let getter_rtype :=
    match accessor_match module_name (fget prop) with
    | Some m => group_or_empty m 3
    | None => text "None"
    end in
  let setter_args0 :=
    match accessor_match module_name (fset prop) with
    | Some m => join "," (text "self" :: tl (split "," (group_or_empty m 2)))
    | None => text "None"
    end in
  let access_type0 := NONE in
  let access_type0 :=
    match fget prop with Some _ => Nat.lor access_type0 READ_ONLY | None => access_type0 end in
  let access_type0 :=
    match fset prop with Some _ => Nat.lor access_type0 WRITE_ONLY | None => access_type0 end in
  mkPropertySignature (apply_classname_replacements bare getter_rtype)
                      (apply_classname_replacements bare setter_args0)
                      access_type0.

(** [(.* )\[returns (.+)\](.* )] *)
Definition returns_regex : regex :=
  Cats [Group 1 (Star (Sym re_any)); Lit "[returns "; Group 2 (Plus (Sym re_any));
        Chr "]"; Group 3 (Star (Sym re_any))].

Section PropertyRendering.

Variable function_docstring_preprocessing_hooks : list (option str -> option str).

(** [PropertyStubsGenerator.to_lines].  The call that builds the setter's
    [def] line closes [format] before [rtype=rtype], which is handed to
    [append]; nothing after that call is reached. *)
Definition property_to_lines (self : PropertyStubsGenerator) : result (list str) :=
  rbind (sanitize_docstring function_docstring_preprocessing_hooks
                            (prop_doc (ps_prop self))) (fun docstring =>
  let rtype0 := prop_rtype (ps_signature self) in
  let rtype0 :=
    if str_eqb rtype0 "None" then
      match re_match returns_regex docstring with
      | Some m => group_or_empty m 2
      | None => rtype0
      end
    else rtype0 in
  rbind (format ":type: {rtype}" [] [kw "rtype" rtype0]) (fun type_line =>
  let docstring_prop := join [newline; newline] [docstring; type_line] in
  rbind (format "def {field_name}(self) -> {rtype}:" []
                [kw "field_name" (ps_name self); kw "rtype" rtype0]) (fun getter =>
  rbind (format_docstring docstring_prop) (fun getter_doc =>
  let result0 := [text "@property"; getter; getter_doc] in
  if negb (str_eqb (setter_args (ps_signature self)) "None") then
    rbind (format "@{field_name}.setter" [] [kw "field_name" (ps_name self)]) (fun marker =>
    let result0 := result0 ++ [marker] in
    rbind (format "def {field_name}({args}) -> {rtype}:" []
                  [kw "field_name" (ps_name self);
                   kw "args" (setter_args (ps_signature self))]) (fun _ =>
    Raise TypeError))
  else Ok result0)))).

End PropertyRendering.

(** ** Class ordering in ModuleStubsGenerator.parse *)

Section ClassOrdering.

(** Reflected classes, the [is] test on them and [issubclass]. *)
Variable Klass : Type.
Variable is_ : Klass -> Klass -> bool.
Variable issubclass : Klass -> Klass -> bool.

(** Of a ClassStubsGenerator only [klass] takes part in the ordering. *)
Record ClassStubsGenerator : Type := mkClassStubs {
  klass : Klass
}.

Definition class_ordering (a b : ClassStubsGenerator) : Z :=
  if is_ (klass a) (klass b) then 0%Z
  else if issubclass (klass a) (klass b) then (-1)%Z
  else if issubclass (klass b) (klass a) then 1%Z
  else 0%Z.

(** [l[i] = x] for [i] in range. *)
Fixpoint set_item {A} (l : list A) (i : nat) (x : A) : list A :=
  match l, i with
  | [], _ => []
  | _ :: l', O => x :: l'
  | y :: l', S i' => y :: set_item l' i' x
  end.

(** The body of the inner loop, lines 808-811. *)
Definition reorder_step (i : nat) (classes : list ClassStubsGenerator) (j : nat)
  : list ClassStubsGenerator :=
  match nth_error classes i, nth_error classes j with
  | Some ci, Some cj =>
      if (class_ordering ci cj <? 0)%Z
      then set_item (set_item classes i cj) j ci
      else classes
  | _, _ => classes
  end.

(** [for j in range(i + 1, len(self.classes))] *)
Definition reorder_inner (n : nat) (classes : list ClassStubsGenerator) (i : nat)
  : list ClassStubsGenerator :=
  fold_left (reorder_step i) (seq (i + 1) (n - (i + 1))) classes.

(** [for i in range(len(self.classes))] *)
Definition reorder_classes (classes : list ClassStubsGenerator) : list ClassStubsGenerator :=
  let n := length classes in
  fold_left (reorder_inner n) (seq 0 n) classes.

(** [a] is a strict descendant of [b]. *)
Definition derives (a b : ClassStubsGenerator) : bool :=
  negb (is_ (klass a) (klass b)) && issubclass (klass a) (klass b).

(** One pass of the inner loop seen from the element at position [i]: the
    element left at [i] and the elements after it. *)
Fixpoint sweep (cur : ClassStubsGenerator) (rest : list ClassStubsGenerator)
  : ClassStubsGenerator * list ClassStubsGenerator :=
  match rest with
  | [] => (cur, [])
  | y :: rest' =>
      if (class_ordering cur y <? 0)%Z
      then let '(c, r) := sweep y rest' in (c, cur :: r)
      else let '(c, r) := sweep cur rest' in (c, y :: r)
  end.

(** The passes one after the other. *)
Fixpoint selection (fuel : nat) (l : list ClassStubsGenerator) : list ClassStubsGenerator :=
  match fuel, l with
  | S fuel', x :: rest => let '(c, r) := sweep x rest in c :: selection fuel' r
  | _, _ => l
  end.

End ClassOrdering.

Arguments klass {Klass} _.
Arguments mkClassStubs {Klass} _.

(** A small hierarchy for examples: [Derived] inherits from [Base], and
    [Other] stands alone. *)
Inductive ExampleClass : Type := Derived | Base | Other.

Definition example_is (a b : ExampleClass) : bool :=
  match a, b with
  | Derived, Derived | Base, Base | Other, Other => true
  | _, _ => false
  end.

Definition example_issubclass (a b : ExampleClass) : bool :=
  match a, b with
  | Derived, Base => true
  | _, _ => example_is a b
  end.

(** ** main *)

Inductive ignore_choice : Type := signature | defaultarg | all.

Definition ignore_choice_eqb (a b : ignore_choice) : bool :=
  match a, b with
  | signature, signature | defaultarg, defaultarg | all, all => true
  | _, _ => false
  end.

(** The parsed command line, as far as it reaches the engine. *)
Record Namespace (Root : Type) : Type := mkNamespace {
  non_stop : bool;
  ignore_invalid : list ignore_choice;
  skip_signature_downgrade : bool;
  bare_numpy_ndarray : bool;
  boost_python_flag : bool;
  module_names : list Root
}.
Arguments non_stop {Root} _.
Arguments ignore_invalid {Root} _.
Arguments skip_signature_downgrade {Root} _.
Arguments bare_numpy_ndarray {Root} _.
Arguments boost_python_flag {Root} _.
Arguments module_names {Root} _.

(** Lines 951-973: the switches set from the command line. *)
Definition configure {Root} (sys_args : Namespace Root) (g : Globals) : Globals :=
  let ignore := if non_stop sys_args then [all] else ignore_invalid sys_args in
  let has c := existsb (ignore_choice_eqb c) ignore in
  mkGlobals
    (if has all then true else if has signature then true else ignore_invalid_signature g)
    (if has all then true else if has defaultarg then true else ignore_invalid_defaultarg g)
    (if skip_signature_downgrade sys_args then false else signature_downgrade g)
    (n_invalid_default_values g)
    (n_invalid_signatures g)
    (if bare_numpy_ndarray sys_args then true else BARE_NUPMY_NDARRAY g)
    (if boost_python_flag sys_args then true else USE_BOOST_PYTHON g)
    (logged g).

Section Main.

(** A requested root module; what building and parsing its
    ModuleStubsGenerator does, and what writing its stubs does
    ([recursive_mkdir_walker] with [_module.write()], which renders the
    module with [to_lines]).  Either may raise. *)
Variable Root : Type.
Variable parse : Root -> M unit.
Variable write : Root -> M unit.

(** Lines 1005-1011.  The roots whose stubs were written are listed in
    order; they stay written when a later step raises, which ends the
    loop. *)
Fixpoint main_loop (names : list Root) (written : list Root) (g : Globals)
  : result unit * list Root * Globals :=
  match names with
  | [] => (Ok tt, written, g)
  | _module_name :: names' =>
      match parse _module_name g with
      | (Raise e, g1) => (Raise e, written, g1)
      | (Ok _, g1) =>
          if n_fatal_errors g1 =? 0 then
            match write _module_name g1 with
            | (Raise e, g2) => (Raise e, written, g2)
            | (Ok _, g2) => main_loop names' (written ++ [_module_name]) g2
            end
          else main_loop names' written g1
      end
  end.

Definition useful_links : M unit :=
  g <- get ;;
  (if 0 <? n_invalid_signatures g then
     logger_log INFO "Useful link: Avoiding C++ types in docstrings:" ;;;
     logger_log INFO ("      https://pybind11.readthedocs.io/en/latest/advanced/misc.html"
                      +++ "#avoiding-cpp-types-in-docstrings")
   else ret tt) ;;;
  g <- get ;;
  (if 0 <? n_invalid_default_values g then
     logger_log INFO "Useful link: Default argument representation:" ;;;
     logger_log INFO ("      https://pybind11.readthedocs.io/en/latest/advanced/functions.html"
                      +++ "#default-arguments-revisited")
   else ret tt).

(** [main]: how the run ends (the exit status, or the exception that
    leaves it), the roots whose stubs were written, and the globals. *)
Definition main (sys_args : Namespace Root) (g : Globals)
  : result nat * list Root * Globals :=
  match main_loop (module_names sys_args) [] (configure sys_args g) with
  | (Raise e, written, g1) => (Raise e, written, g1)
  | (Ok _, written, g1) =>
      match useful_links g1 with
      | (Raise e, g2) => (Raise e, written, g2)
      | (Ok _, g2) => (Ok (if 0 <? n_fatal_errors g2 then 1 else 0), written, g2)
      end
  end.

(** The steps of the loop that were completed, one root after the
    other: the root with the globals right after its parsing (the stubs
    of a root are written when the fatal count is zero then); how the loop
    ended, an exception of a parsing or of a writing ending it at once; and
    the globals then. *)
Fixpoint run_trace (names : list Root) (g : Globals)
  : list (Root * Globals) * result unit * Globals :=
  match names with
  | [] => ([], Ok tt, g)
  | n :: names' =>
      match parse n g with
      | (Raise e, g1) => ([], Raise e, g1)
      | (Ok _, g1) =>
          match (if n_fatal_errors g1 =? 0 then write n g1 else (Ok tt, g1)) with
          | (Raise e, g2) => ([], Raise e, g2)
          | (Ok _, g2) =>
              let '(t, r, g3) := run_trace names' g2 in ((n, g1) :: t, r, g3)
          end
      end
  end.

(** The loop without its test of the fatal count: every root parsed and
    then written, one after the other, until a step raises. *)
Fixpoint parse_and_write (names : list Root) (g : Globals)
  : list Root * result unit * Globals :=
  match names with
  | [] => ([], Ok tt, g)
  | n :: names' =>
      match parse n g with
      | (Raise e, g1) => ([], Raise e, g1)
      | (Ok _, g1) =>
          match write n g1 with
          | (Raise e, g2) => ([], Raise e, g2)
          | (Ok _, g2) =>
              let '(written, r, g3) := parse_and_write names' g2 in (n :: written, r, g3)
          end
      end
  end.

Definition no_fatal_errors (rg : Root * Globals) : bool :=
  n_fatal_errors (snd rg) =? 0.

End Main.

Arguments no_fatal_errors {Root} _.

(** A root module reduced to the signatures its parsing constructs: name,
    argument text and return text of each. *)
Definition parse_candidates (ast_parse : str -> ParseOutcome) (candidates : list (str * str * str))
  : M unit :=
  for_each candidates (fun c =>
    FunctionSignature_init ast_parse (fst (fst c)) (snd (fst c)) (snd c) true ;;; ret tt).

(** A parser for examples: it refuses the declaration with a C++ type and
    accepts every other text. *)
Definition example_ast_parse (s : str) : ParseOutcome :=
  if str_eqb s "def f(a: std::vector<int>) -> None: ..." then SyntaxError (Some 13%Z)
  else Parses.

(** Three roots for examples, by number: the first two construct a
    signature that parses, the third one that does not. *)
Definition example_root (root : nat) : list (str * str * str) :=
  match root with
  | 0 => [(text "g", text "a: int", text "int")]
  | 1 => [(text "h", text "", text "None")]
  | _ => [(text "f", text "a: std::vector<int>", text "None")]
  end.

(** ** Vocabulary of the properties *)

(** The character before the position reached by reading [l]. *)
Fixpoint last_char (prev : option ascii) (l : str) : option ascii :=
  match l with
  | [] => prev
  | c :: l' => last_char (Some c) l'
  end.

(** Every character of [w] is in the class [p]. *)
Definition all_in (p : ascii -> bool) (w : str) : Prop :=
  Forall (fun c => p c = true) w.

(** The class [p] does not go on at the head of [r]. *)
Definition stops (p : ascii -> bool) (r : str) : Prop :=
  match r with
  | [] => True
  | c :: _ => p c = false
  end.

(** From [g] to [g'] the switches are kept and the two counters have
    grown by [d] and [s]. *)
Definition counts (d s : nat) (g g' : Globals) : Prop :=
  ignore_invalid_signature g' = ignore_invalid_signature g /\
  ignore_invalid_defaultarg g' = ignore_invalid_defaultarg g /\
  signature_downgrade g' = signature_downgrade g /\
  n_invalid_default_values g' = n_invalid_default_values g + d /\
  n_invalid_signatures g' = n_invalid_signatures g + s /\
  BARE_NUPMY_NDARRAY g' = BARE_NUPMY_NDARRAY g /\
  USE_BOOST_PYTHON g' = USE_BOOST_PYTHON g.

(** [g'] differs from [g] in nothing but what was logged. *)
Definition only_logged (g g' : Globals) : Prop := counts 0 0 g g'.

(** A computation that returns and only logs. *)
Definition quiet {A} (m : M A) : Prop :=
  forall g, exists a g', m g = (Ok a, g') /\ only_logged g g'.

(** From [g] to [g'] no switch has changed and no counter has gone
    down. *)
Definition grown (g g' : Globals) : Prop :=
  exists d s, counts d s g g'.

(** A computation that never changes a switch and never lowers a
    counter, whether it returns or raises. *)
Definition monotone {A} (m : M A) : Prop :=
  forall g, grown g (snd (m g)).

(** The argument text and the return text that reach the syntax check of
    the constructor. *)
Definition assembled (g : Globals) (args0 rtype0 : str) : result (str * str) :=
  let self_args := snd (replace_default_pybind11_repr args0) in
  if USE_BOOST_PYTHON g then
    rbind (if truthy args0 then boost_args args0 else Ok self_args) (fun a =>
      Ok (a, hd [] (split " :" rtype0)))
  else Ok (self_args, rtype0).

(** The candidate declaration handed to the parser. *)
Definition candidate (name0 args0 rtype0 : str) : str :=
  "def " +++ name0 +++ "(" +++ args0 +++ ") -> " +++ rtype0 +++ ": ...".

(** What is logged for a candidate that failed the syntax check: the
    heading and the candidate, and the mark under the offset when the
    error carries one. *)
Definition invalid_level (g : Globals) : Level :=
  if signature_downgrade g
  then (if ignore_invalid_signature g then WARNING else ERROR)
  else WARNING.

Definition invalid_heading (g : Globals) : str :=
  if signature_downgrade g
  then text "Generated stubs signature is degraded to `(*args, **kwargs) -> typing.Any` for"
  else text "Ignoring invalid signature:".

Definition invalid_log (g : Globals) (declaration : str) (offset : option Z)
  : list (Level * str) :=
  [(invalid_level g, invalid_heading g); (invalid_level g, declaration)]
  ++ match offset with
     | Some offset => [(invalid_level g, spaces (offset - 1) +++ "^-- Invalid syntax")]
     | None => []
     end.

(** What leaves the constructor when it does not return: [IndexError]
    from the translation of the Boost.Python dialect, an exception of the
    parser that is not a [SyntaxError], or [TypeError] when the
    [SyntaxError] carries no offset. *)
Definition constructor_exception (ast_parse : str -> ParseOutcome)
           (name0 args0 rtype0 : str) (g : Globals) (e : exn) : Prop :=
  (e = IndexError /\ USE_BOOST_PYTHON g = true /\ assembled g args0 rtype0 = Raise IndexError) \/
  (exists a r, assembled g args0 rtype0 = Ok (a, r) /\
               (ast_parse (candidate name0 a r) = ParseRaises e \/
                (e = TypeError /\ ast_parse (candidate name0 a r) = SyntaxError None))).

(** The same, without the signature: the exceptions that can leave the
    construction of the signatures of a member. *)
Definition parser_raises (ast_parse : str -> ParseOutcome) (e : exn) : Prop :=
  exists declaration,
    ast_parse declaration = ParseRaises e \/
    (e = TypeError /\ ast_parse declaration = SyntaxError None).

Definition signature_exception (ast_parse : str -> ParseOutcome) (g : Globals) (e : exn)
  : Prop :=
  (e = IndexError /\ USE_BOOST_PYTHON g = true) \/ parser_raises ast_parse e.

(** The degraded signature. *)
Definition degraded (name0 : str) : FunctionSignature :=
  mkSig name0 "*args, **kwargs" "typing.Any".

(** Sorted by argument text. *)
Definition args_le (a b : FunctionSignature) : Prop :=
  str_leb (args a) (args b) = true.

(** An order of [list(set(...))] for examples: the first occurrences are
    dropped. *)
Fixpoint distinct (l : list FunctionSignature) : list FunctionSignature :=
  match l with
  | [] => []
  | x :: l' => if existsb (sig_eqb x) l' then distinct l' else x :: distinct l'
  end.

(** A signature after the module name has been stripped and the class
    names replaced (lines 330-338). *)
Definition normalized (module_name : option str) (bare : bool) (sig : FunctionSignature)
  : FunctionSignature :=
  let strip0 :=
    match module_name with
    | Some (c :: mn) => strip_module_name (c :: mn)
    | _ => fun s => s
    end in
  mkSig (name sig)
        (apply_classname_replacements bare (strip0 (args sig)))
        (apply_classname_replacements bare (strip0 (rtype sig))).

(** [st1] is reached from [st] by reading some of its text. *)
Definition reaches (st st1 : MatchState) : Prop :=
  exists w, st_rest st = w ++ st_rest st1.

(** The fuel that [finditer] needs on [s]. *)
Definition enough (must_advance : bool) (s : str) : nat :=
  2 * length s + (if must_advance then 1 else 2).

(** [re.sub] from inside a text: after the character [prev], and after an
    empty match when [must_advance] is set. *)
Definition re_sub_from (r : regex) (repl : Match -> str) (must_advance : bool)
           (prev : option ascii) (s : str) : str :=
  let '(ms, tail) := finditer_go r (enough must_advance s) must_advance prev s in
  concat (map (fun sm => fst sm ++ repl (snd sm)) ms) ++ tail.

(** [finditer] from inside a text, and the matches alone. *)
Definition finditer_from (r : regex) (must_advance : bool) (prev : option ascii) (s : str)
  : list (str * Match) * str :=
  finditer_go r (enough must_advance s) must_advance prev s.

Definition matches_from (r : regex) (must_advance : bool) (prev : option ascii) (s : str)
  : list Match :=
  map snd (fst (finditer_from r must_advance prev s)).

(** The pattern [r] reads characters of the class [c] only. *)
Fixpoint within (c : ascii -> bool) (r : regex) : Prop :=
  match r with
  | Sym p => forall x, p x = true -> c x = true
  | Cat a b | Alt a b => within c a /\ within c b
  | Star a | LazyStar a | Group _ a => within c a
  | _ => True
  end.

(** The text of the segments after the first, and the groups that the
    repetition over them closes, the last segment first. *)
Definition segments (ws : list str) : str :=
  concat (map (fun w => "."%char :: w) ws).

Definition segment_groups (n : nat) (ws : list str) : list (nat * str) :=
  rev (map (fun w => (n, "."%char :: w)) ws).

(** A non-empty run of word characters, and a dotted name made of such
    runs. *)
Definition word (w : str) : Prop := w <> [] /\ all_in re_word w.

Definition dotted (w0 : str) (ws : list str) : str := w0 ++ segments ws.

Definition name_char (c : ascii) : bool := re_word c || Ascii.eqb c ".".

(** A text without an opening angle bracket. *)
Definition no_angle (s : str) : Prop :=
  all_in (fun c => negb (Ascii.eqb c "<")) s.

(** The representations of an object and of an enum member. *)
Definition object_repr (class_name hex : str) : str :=
  "<" +++ class_name +++ " object at 0x" +++ hex +++ ">".

Definition enum_repr (enum_name digits : str) : str :=
  "<" +++ enum_name +++ ": " +++ digits +++ ">".

(** An argument text in pieces: text without an opening angle bracket,
    the representation of an object [<a.b.C object at 0x...>], and the
    representation of an enum member [<a.b.C: n>]. *)
Inductive Piece : Type :=
| Plain : str -> Piece
| ObjectRepr : str -> list str -> str -> Piece
| EnumRepr : str -> list str -> str -> Piece.

Definition piece_text (p : Piece) : str :=
  match p with
  | Plain s => s
  | ObjectRepr w0 ws hex => object_repr (dotted w0 ws) hex
  | EnumRepr w0 ws digits => enum_repr (dotted w0 ws) digits
  end.

Definition pieces_text (ps : list Piece) : str := concat (map piece_text ps).

Definition well_formed_piece (p : Piece) : Prop :=
  match p with
  | Plain s => no_angle s
  | ObjectRepr w0 ws hex =>
      word w0 /\ Forall word ws /\ hex <> [] /\ all_in hexdigit hex
  | EnumRepr w0 ws digits =>
      word w0 /\ Forall word ws /\ digits <> [] /\ all_in re_digit digits
  end.

(** What stands for a piece after the replacement, and what is recorded
    for it. *)
Definition piece_replaced (p : Piece) : str :=
  match p with
  | Plain s => s
  | ObjectRepr _ _ _ => text "..."
  | EnumRepr w0 ws _ => dotted w0 ws
  end.

Definition piece_recorded (p : Piece) : list str :=
  match p with
  | ObjectRepr w0 ws hex => [object_repr (dotted w0 ws) hex]
  | _ => []
  end.

(** What a match of the pattern adds to the list of recorded defaults. *)
Definition recorded_of (m : Match) : list str :=
  if group_truthy m g_class then [m_text m] else [].

(** The diagnostic of the recorded representations (lines 86-89). *)
Definition default_log (g : Globals) (invalid_defaults : list str) : list (Level * str) :=
  match invalid_defaults with
  | [] => []
  | _ :: _ =>
      let lvl := if ignore_invalid_defaultarg g then WARNING else ERROR in
      (lvl, text "Default argument value(s) replaced with ellipses (...):")
      :: map (fun invalid_default => (lvl, "    " +++ invalid_default)) invalid_defaults
  end.

(** A position that is not right after a word character. *)
Definition boundary (prev : option ascii) : Prop :=
  match prev with Some c => re_word c = false | None => True end.

(** [x] occurs in [s]. *)
Definition occurs (x s : str) : Prop := exists pre post, s = pre ++ x ++ post.

(** Whole identifiers rewritten one by one: the names that get the
    [typing.] qualifier, what becomes of one identifier, and of a text
    read from left to right with [cur] the identifier begun.  The pattern
    spells its last name with a quote after it, so the identifier Union
    gets the qualifier only where it stands before a quote that no word
    character follows. *)
Definition typing_names : list str :=
  map text ["Callable"; "Dict"; "Iterator"; "iterator"; "Iterable"; "iterable";
            "List"; "Optional"; "Set"; "Tuple"].

Definition rewrite_identifier (w : str) : str :=
  if existsb (str_eqb w) typing_names then "typing." +++ capitalize w else w.

Definition quoted_union (w rest : str) : bool :=
  str_eqb w "Union" &&
  match rest with
  | q :: rest' =>
      Ascii.eqb q "'" && negb (match rest' with c :: _ => re_word c | [] => false end)
  | [] => false
  end.

Fixpoint rewrite_identifiers_from (cur : str) (s : str) : str :=
  match s with
  | [] => rewrite_identifier cur
  | c :: s' =>
      if re_word c then rewrite_identifiers_from (cur ++ [c]) s'
      else (if quoted_union cur s then "typing." +++ cur else rewrite_identifier cur)
           ++ c :: rewrite_identifiers_from [] s'
  end.

Definition rewrite_identifiers (s : str) : str := rewrite_identifiers_from [] s.

(** The scalar kind as [replace_numpy_array] writes it. *)
Definition numpy_scalar (t : str) : str :=
  if existsb (str_eqb t) numpy_sized_types then "numpy." +++ t else t.

(** A qualified array type: the scalar kind, and the shape when there
    is one, with the text that follows it up to the closing bracket. *)
Record ArrayType : Type := mkArrayType {
  scalar_kind : str;
  shape_and_extra : option (str * str)
}.

Definition array_text (a : ArrayType) : str :=
  "numpy.ndarray[" +++ scalar_kind a
  +++ match shape_and_extra a with
      | Some (shape, extra) => "[" +++ shape +++ "]" +++ extra
      | None => []
      end
  +++ "]".

Definition well_formed_array (a : ArrayType) : Prop :=
  scalar_kind a <> [] /\ all_in (none_of "[]") (scalar_kind a) /\
  match shape_and_extra a with
  | Some (shape, extra) =>
      shape <> [] /\ all_in (none_of "[]") shape /\ all_in (none_of "][") extra
  | None => True
  end.

(** What the array type becomes, in the bare and in the annotated mode. *)
Definition array_rewritten (bare : bool) (a : ArrayType) : str :=
  if bare then text "numpy.ndarray"
  else "numpy.ndarray[" +++ numpy_scalar (scalar_kind a)
       +++ match shape_and_extra a with
           | Some (shape, _) => ", _Shape[" +++ shape +++ "]"
           | None => []
           end
       +++ "]".

(** A type text with array types in it: each with the text before it,
    and the text after the last. *)
Fixpoint arrays_text (ps : list (str * ArrayType)) (tail : str) : str :=
  match ps with
  | [] => tail
  | (before, a) :: ps' => before ++ array_text a ++ arrays_text ps' tail
  end.

Fixpoint arrays_rewritten (bare : bool) (ps : list (str * ArrayType)) (tail : str) : str :=
  match ps with
  | [] => tail
  | (before, a) :: ps' => before ++ array_rewritten bare a ++ arrays_rewritten bare ps' tail
  end.

(** The documentation of a routine [f] with two overloads. *)
Definition example_docstring : str :=
  "1. f(a: int) -> int" +++ [newline] +++ "2. f(a: float) -> float".

Definition example_routine : FunctionStubsGenerator :=
  mkFunctionStubs "f" (mkMember (Some example_docstring) "m.f") (Some (text "m")) [].

(** A result that, when it is an exception, is [IndexError]. *)
Definition only_IndexError {A} (r : result A) : Prop :=
  forall e, r = Raise e -> e = IndexError.

(** The bracket depth after reading [s] from depth [d]; [None] when a
    closing bracket has no opening one. *)
Fixpoint depth_after (d : nat) (s : str) : option nat :=
  match s with
  | [] => Some d
  | c :: s' =>
      if Ascii.eqb c "[" then depth_after (S d) s'
      else if Ascii.eqb c "]" then
        match d with O => None | S d' => depth_after d' s' end
      else depth_after d s'
  end.

(** Balanced square brackets. *)
Definition balanced (s : str) : bool :=
  match depth_after 0 s with Some O => true | _ => false end.

(** The number of commas of [s] outside all square brackets, read from
    depth [d]. *)
Fixpoint top_level_commas_from (d : nat) (s : str) : nat :=
  match s with
  | [] => 0
  | c :: s' =>
      if Ascii.eqb c "[" then top_level_commas_from (S d) s'
      else if Ascii.eqb c "]" then top_level_commas_from (pred d) s'
      else if Ascii.eqb c "," && (d =? 0) then S (top_level_commas_from d s')
      else top_level_commas_from d s'
  end.

Definition top_level_commas (s : str) : nat := top_level_commas_from 0 s.

(** A segment with balanced brackets and no comma outside them. *)
Definition closed_segment (seg : str) : Prop :=
  balanced seg = true /\ top_level_commas seg = 0.

(** The segments between the commas outside brackets, read from depth [d]
    with [cur] the segment begun. *)
Fixpoint split_top (d : nat) (cur : str) (s : str) : list str :=
  match s with
  | [] => [cur]
  | c :: s' =>
      if Ascii.eqb c "[" then split_top (S d) (cur ++ [c]) s'
      else if Ascii.eqb c "]" then split_top (pred d) (cur ++ [c]) s'
      else if Ascii.eqb c "," && (d =? 0) then cur :: split_top 0 [] s'
      else split_top d (cur ++ [c]) s'
  end.

(** ** Further members: involved types and modules *)

(** [FunctionSignature.argument_type]: [arg.split(":")[-1].strip()] *)
Definition argument_type (arg : str) : str := strip (last (split ":" arg) []).

(** [([a-zA-Z_][a-zA-Z0-9_]*(\.[a-zA-Z_][a-zA-Z0-9_]* )* )]: [findall]
    returns the pair of the two groups for each match, and the source keeps
    the first of the pair, the dotted name. *)
Definition identifier_start (c : ascii) : bool :=
  islower_ascii c || isupper_ascii c || Ascii.eqb c "_".

Definition identifier_char (c : ascii) : bool := identifier_start c || isdecimal c.

Definition involved_type_re : regex :=
  Group 1 (Cats [Sym identifier_start; Star (Sym identifier_char);
                 Star (Group 2 (Cats [Chr "."; Sym identifier_start;
                                      Star (Sym identifier_char)]))]).

(** [FunctionSignature.get_all_involved_types] *)
Definition get_all_involved_types (self : FunctionSignature) : result (list str) :=
  rbind (split_arguments self) (fun l =>
    Ok (flat_map (fun t => re_findall1 involved_type_re (argument_type t))
                 (rtype self :: l))).

(** [t.rindex(c)]: the index of the last [c] in [t]. *)
Fixpoint rindex_from (c : ascii) (t : str) (i : nat) (found : option nat) : option nat :=
  match t with
  | [] => found
  | x :: t' => rindex_from c t' (S i) (if Ascii.eqb x c then Some i else found)
  end.

Definition rindex (c : ascii) (t : str) : result nat :=
  match rindex_from c t 0 None with
  | Some i => Ok i
  | None => Raise ValueError
  end.

(** A [set] of texts, held as the list of its elements in the order in
    which they were added first. *)
Definition set_add (x : str) (s : list str) : list str :=
  if existsb (str_eqb x) s then s else s ++ [x].

(** The inner loop of [get_involved_modules_names]: a type without a dot
    adds nothing. *)
Definition add_modules_of_types (types : list str) (names : list str) : list str :=
  fold_left (fun names t =>
               match rindex "." t with
               | Ok i => set_add (firstn i t) names
               | Raise _ => names
               end) types names.

(** [FreeFunctionStubsGenerator.get_involved_modules_names] *)
Fixpoint involved_modules_of (sigs : list FunctionSignature) (names : list str)
  : result (list str) :=
  match sigs with
  | [] => Ok names
  | s :: sigs' =>
      rbind (get_all_involved_types s) (fun types =>
        involved_modules_of sigs' (add_modules_of_types types names))
  end.

Definition get_involved_modules_names (self : FunctionStubsGenerator) : result (list str) :=
  involved_modules_of (fn_signatures self) [].

(** [PropertySignature.setter_arg_type]: the signature is constructed
    with the defaults of the constructor, so it is validated. *)
Definition setter_arg_type (ast_parse : str -> ParseOutcome) (self : PropertySignature) : M str :=
  sig <- FunctionSignature_init ast_parse "name" (setter_args self) "None" true ;;
  l <- lift (split_arguments sig) ;;
  a <- lift (index l 1) ;;
  ret (argument_type a).

(** ** Vocabulary of the further properties *)

(** The [def] line of a free function, the marker in front of it when
    the function has [n_signatures] signatures, and the block of its
    documentation. *)
Definition def_line (sig : FunctionSignature) : str :=
  "def " +++ name sig +++ "(" +++ args sig +++ ") -> " +++ rtype sig +++ ":".

Definition overload_marker (n_signatures : nat) : list str :=
  if 1 <? n_signatures then [text "@typing.overload"] else [].

Definition documentation_block (docstring : str) : str :=
  INDENT +++ triple_quote +++ [newline]
  +++ indent (strip_with (Ascii.eqb newline) docstring) +++ [newline]
  +++ INDENT +++ triple_quote.

(** The line of an accessor's documentation as the pattern sees it: the
    module name and its dot removed (lines 358-359). *)
Definition accessor_line (module_name : option str) (line : str) : str :=
  match module_name with
  | Some mn => replace (mn +++ ".") "" line
  | None => line
  end.

(** A signature line of an accessor: an optional name, the argument
    text [a] in parentheses, an arrow and the return text [r]. *)
Definition accessor_signature (w a r : str) : str :=
  w +++ "(" +++ a +++ ") -> " +++ r.

(** ** Further members: submodules *)

(** [==] on lists of [str]. *)
Fixpoint list_str_eqb (a b : list str) : bool :=
  match a, b with
  | [], [] => true
  | x :: a', y :: b' => str_eqb x y && list_str_eqb a' b'
  | _, _ => false
  end.

(** The test of [ModuleStubsGenerator.parse] on a member that is a
    module: [m.module.__name__.split('.')[:-1] == self.module.__name__.split('.')]. *)
Definition is_submodule (member_name module_name : str) : bool :=
  list_str_eqb (removelast (split "." member_name)) (split "." module_name).

(** An argument the way Boost.Python documents it, [(Type)name] after
    some leading text such as the blank that follows a comma, and the way
    the translation writes it, [name: Type], the blanks of the name
    replaced. *)
Record BoostArgument : Type := mkBoostArgument {
  leading : str;
  type_name : str;
  arg_name : str
}.

Definition boost_argument (b : BoostArgument) : str :=
  leading b +++ "(" +++ type_name b +++ ")" +++ arg_name b.

Definition typed_argument (b : BoostArgument) : str :=
  replace " " "_" (arg_name b) +++ ": " +++ type_name b.

(** The characters that may stand in the parts of such an argument. *)
Definition boost_plain (c : ascii) : bool :=
  none_of "()[]," c && negb (Ascii.eqb c newline).

Definition plain_argument (b : BoostArgument) : Prop :=
  all_in boost_plain (leading b) /\ all_in boost_plain (type_name b) /\
  all_in boost_plain (arg_name b).

(** The signature line [name(args) -> rtype] of a routine. *)
Definition signature_line (name0 a r : str) : str :=
  name0 +++ "(" +++ a +++ ") -> " +++ r.

(** A module name as Python has them: identifiers separated by dots, so
    that the pattern made of it reads it as itself. *)
Definition module_identifier (module_name : option str) : Prop :=
  match module_name with
  | Some mn => all_in name_char mn
  | None => True
  end.

(** The return text that [PropertyStubsGenerator.to_lines] prints: the
    one of the signature, unless that is [None] and the documentation
    carries a note [[returns T]], which then gives it. *)
Definition getter_type (rtype0 docstring : str) : str :=
  if str_eqb rtype0 "None" then
    match re_match returns_regex docstring with
    | Some m => group_or_empty m 2
    | None => rtype0
    end
  else rtype0.

(** A documentation that announces the type of a property on its first
    line: [pre], the note [[returns t]], [post], and what follows the first
    line. *)
Definition returns_note (pre t post others : str) : str :=
  pre +++ "[returns " +++ t +++ "]" +++ post +++ others.

(** A text of one line without square brackets. *)
Definition bracket_free (c : ascii) : bool :=
  none_of "[]" c && re_any c.

(** The signature line of the overload [number]:
    [number. name(args) -> rtype]. *)
Definition numbered_signature_line (number name0 a r : str) : str :=
  number +++ ". " +++ signature_line name0 a r.

(** * Properties *)

(** ** Computations on the globals *)

Lemma counts_refl : forall g, counts 0 0 g g.
Proof. intros g. unfold counts. repeat split; lia. Qed.

Lemma counts_trans : forall d1 s1 d2 s2 g1 g2 g3,
  counts d1 s1 g1 g2 -> counts d2 s2 g2 g3 -> counts (d1 + d2) (s1 + s2) g1 g3.
Proof.
  unfold counts. intros d1 s1 d2 s2 g1 g2 g3 H1 H2.
  destruct H1 as (?&?&?&?&?&?&?), H2 as (?&?&?&?&?&?&?).
  repeat split; try congruence; lia.
Qed.

Lemma only_logged_refl : forall g, only_logged g g.
Proof. apply counts_refl. Qed.

Lemma only_logged_trans : forall g1 g2 g3,
  only_logged g1 g2 -> only_logged g2 g3 -> only_logged g1 g3.
Proof. intros g1 g2 g3 H1 H2. exact (counts_trans 0 0 0 0 _ _ _ H1 H2). Qed.

Lemma only_logged_fatal : forall g g',
  only_logged g g' -> n_fatal_errors g' = n_fatal_errors g.
Proof.
  unfold only_logged, counts, n_fatal_errors. intros g g' (H1&H2&_&H4&H5&_&_).
  rewrite H1, H2, H4, H5. now rewrite !Nat.add_0_r.
Qed.

Lemma quiet_ret : forall {A} (a : A), quiet (ret a).
Proof. intros A a g. exists a, g. split; [reflexivity | apply only_logged_refl]. Qed.

Lemma quiet_log : forall lvl msg, quiet (logger_log lvl msg).
Proof.
  intros lvl msg g. exists tt. eexists. split; [reflexivity|].
  unfold only_logged, counts. simpl. repeat split; lia.
Qed.

Lemma quiet_bind : forall {A B} (m : M A) (f : A -> M B),
  quiet m -> (forall a, quiet (f a)) -> quiet (bind m f).
Proof.
  intros A B m f Hm Hf g. unfold bind.
  destruct (Hm g) as (a & g1 & E1 & L1). rewrite E1.
  destruct (Hf a g1) as (b & g2 & E2 & L2).
  exists b, g2. split; [exact E2 | eapply only_logged_trans; eauto].
Qed.

Lemma quiet_get : quiet get.
Proof. intros g. exists g, g. split; [reflexivity | apply only_logged_refl]. Qed.

Lemma quiet_if : forall {A} (b : bool) (m1 m2 : M A),
  quiet m1 -> quiet m2 -> quiet (if b then m1 else m2).
Proof. intros A [] m1 m2 H1 H2; assumption. Qed.

Lemma quiet_for_each : forall {A} (l : list A) (body : A -> M unit),
  (forall x, quiet (body x)) -> quiet (for_each l body).
Proof.
  intros A l body H. induction l as [|x l IH]; simpl.
  - apply quiet_ret.
  - apply quiet_bind; [apply H | intros _; exact IH].
Qed.

Create HintDb quiet.
#[export] Hint Resolve quiet_ret quiet_log quiet_get quiet_if quiet_for_each : quiet.
#[export] Hint Extern 2 (quiet (bind _ _)) => apply quiet_bind; [|intros ?] : quiet.

Lemma bind_ok : forall {A B} (m : M A) (f : A -> M B) g a g1,
  m g = (Ok a, g1) -> bind m f g = f a g1.
Proof. intros A B m f g a g1 H. unfold bind. now rewrite H. Qed.

Lemma bind_raise : forall {A B} (m : M A) (f : A -> M B) g e g1,
  m g = (Raise e, g1) -> bind m f g = (Raise e, g1).
Proof. intros A B m f g e g1 H. unfold bind. now rewrite H. Qed.


(** ** Computations that never lower a counter *)

Lemma grown_refl : forall g, grown g g.
Proof. intros g. exists 0, 0. apply counts_refl. Qed.

Lemma grown_trans : forall g1 g2 g3, grown g1 g2 -> grown g2 g3 -> grown g1 g3.
Proof.
  intros g1 g2 g3 (d1 & s1 & H1) (d2 & s2 & H2).
  exists (d1 + d2), (s1 + s2). eapply counts_trans; eauto.
Qed.

(** The fatal count never goes down along the way. *)
Lemma grown_fatal : forall g g', grown g g' -> n_fatal_errors g <= n_fatal_errors g'.
Proof.
  unfold grown, counts, n_fatal_errors. intros g g' (d & s & H1 & H2 & _ & H4 & H5 & _).
  rewrite H1, H2, H4, H5.
  destruct (ignore_invalid_defaultarg g), (ignore_invalid_signature g); lia.
Qed.

Lemma monotone_ret : forall {A} (a : A), monotone (ret a).
Proof. intros A a g. apply grown_refl. Qed.

Lemma monotone_raise : forall {A} e, monotone (@raise A e).
Proof. intros A e g. apply grown_refl. Qed.

Lemma monotone_lift : forall {A} (r : result A), monotone (lift r).
Proof. intros A r g. apply grown_refl. Qed.

Lemma monotone_bind : forall {A B} (m : M A) (f : A -> M B),
  monotone m -> (forall a, monotone (f a)) -> monotone (bind m f).
Proof.
  intros A B m f Hm Hf g. unfold bind. specialize (Hm g).
  destruct (m g) as [[a|e] g1]; cbn [snd] in *; [|exact Hm].
  eapply grown_trans; [exact Hm | apply Hf].
Qed.

Lemma monotone_for_each : forall {A} (l : list A) (body : A -> M unit),
  (forall x, monotone (body x)) -> monotone (for_each l body).
Proof.
  intros A l body H. induction l as [|x l IH]; simpl.
  - apply monotone_ret.
  - apply monotone_bind; [apply H | intros _; exact IH].
Qed.

Lemma quiet_monotone : forall {A} (m : M A), quiet m -> monotone m.
Proof.
  intros A m H g. destruct (H g) as (a & g' & E & L). rewrite E.
  exists 0, 0. exact L.
Qed.

(** ** The matcher on known text *)

Lemma consumed_app : forall prev prev' gs gs' (w r : str),
  consumed (mkState prev (w ++ r) gs) (mkState prev' r gs') = w.
Proof.
  intros prev prev' gs gs' w r. unfold consumed. cbn [st_rest].
  rewrite length_app. replace (length w + length r - length r) with (length w) by lia.
  rewrite firstn_app, Nat.sub_diag, firstn_all. simpl. now rewrite app_nil_r.
Qed.

Lemma consumed_all : forall prev prev' gs gs' (s : str),
  consumed (mkState prev s gs) (mkState prev' [] gs') = s.
Proof.
  intros. unfold consumed. cbn [st_rest length]. rewrite Nat.sub_0_r. apply firstn_all.
Qed.

Lemma progressed_app : forall prev prev' gs gs' (w r : str),
  progressed (mkState prev (w ++ r) gs) (mkState prev' r gs') = negb (length w =? 0).
Proof.
  intros prev prev' gs gs' w r. unfold progressed. cbn [st_rest].
  rewrite length_app. destruct w; simpl.
  - apply Nat.ltb_irrefl.
  - apply Nat.ltb_lt. lia.
Qed.

Lemma skipn_length_app : forall (w r : str), skipn (length w) (w ++ r) = r.
Proof.
  intros w r. rewrite skipn_app, Nat.sub_diag, skipn_all. reflexivity.
Qed.

Lemma startswith_app : forall (l r : str), startswith l (l ++ r) = true.
Proof.
  induction l as [|c l IH]; intros r; simpl; [reflexivity|].
  now rewrite Ascii.eqb_refl, IH.
Qed.

Lemma startswith_prefix : forall (l s : str),
  startswith l s = true -> s = l ++ skipn (length l) s.
Proof.
  induction l as [|c l IH]; intros s H; simpl in *; [reflexivity|].
  destruct s as [|c' s]; [discriminate|].
  apply andb_prop in H. destruct H as [H1 H2].
  apply Ascii.eqb_eq in H1. subst c'. simpl. f_equal. now apply IH.
Qed.

(** A literal is read when the text starts with it. *)
Lemma matcher_Lit : forall l prev rest gs k,
  matcher (Lit l) (mkState prev rest gs) k =
  if startswith l rest
  then k (mkState (last_char prev l) (skipn (length l) rest) gs)
  else None.
Proof.
  induction l as [|c l IH]; intros prev rest gs k.
  - reflexivity.
  - destruct l as [|c2 l].
    + cbn [Lit matcher Chr]. unfold m_sym. cbn [st_rest st_groups].
      destruct rest as [|c' r]; [reflexivity|]. cbn [startswith last_char length skipn].
      rewrite andb_true_r.
      destruct (Ascii.eqb c c') eqn:E; [|reflexivity].
      apply Ascii.eqb_eq in E. now subst c'.
    + cbn [Lit matcher Chr]. unfold m_sym at 1. cbn [st_rest st_groups].
      destruct rest as [|c' r]; [reflexivity|].
      cbn [startswith].
      destruct (Ascii.eqb c c') eqn:E; [|reflexivity].
      apply Ascii.eqb_eq in E. subst c'. cbn [andb].
      rewrite IH. reflexivity.
Qed.

Lemma matcher_Lit_app : forall l prev r gs k,
  matcher (Lit l) (mkState prev (l ++ r) gs) k = k (mkState (last_char prev l) r gs).
Proof.
  intros l prev r gs k. rewrite matcher_Lit, startswith_app, skipn_length_app. reflexivity.
Qed.

(** One character of a class. *)
Lemma matcher_Sym_cons : forall p c prev r gs k,
  p c = true ->
  matcher (Sym p) (mkState prev (c :: r) gs) k = k (mkState (Some c) r gs).
Proof. intros p c prev r gs k H. cbn. unfold m_sym. cbn. now rewrite H. Qed.

Lemma matcher_Sym_stops : forall p prev r gs k,
  stops p r -> matcher (Sym p) (mkState prev r gs) k = None.
Proof.
  intros p prev r gs k H. cbn. unfold m_sym. cbn.
  destruct r as [|c r]; [reflexivity|]. simpl in H. now rewrite H.
Qed.

(** Greedy repetition of a class reads the whole run of the class when the
    rest of the pattern accepts what follows. *)
Lemma star_loop_greedy : forall p w prev r gs k res fuel,
  all_in p w ->
  stops p r ->
  length w < fuel ->
  k (mkState (last_char prev w) r gs) = Some res ->
  star_loop (m_sym p) fuel (mkState prev (w ++ r) gs) k = Some res.
Proof.
  intros p w. induction w as [|c w IH]; intros prev r gs k res fuel Hw Hr Hf Hk.
  - destruct fuel as [|fuel]; [simpl in Hf; lia|].
    cbn [star_loop app]. unfold m_sym. cbn [st_rest].
    destruct r as [|c r]; [exact Hk|].
    simpl in Hr. rewrite Hr. exact Hk.
  - destruct fuel as [|fuel]; [simpl in Hf; lia|].
    inversion Hw as [|? ? Hc Hw']; subst.
    cbn [star_loop app]. unfold m_sym at 1. cbn [st_rest st_groups]. rewrite Hc.
    change (c :: w ++ r) with ([c] ++ (w ++ r)).
    rewrite progressed_app. cbn [length Nat.eqb negb].
    rewrite (IH (Some c) r gs k res fuel); auto. simpl in Hf. lia.
Qed.

Lemma matcher_Star_greedy : forall p w prev r gs k res,
  all_in p w ->
  stops p r ->
  k (mkState (last_char prev w) r gs) = Some res ->
  matcher (Star (Sym p)) (mkState prev (w ++ r) gs) k = Some res.
Proof.
  intros p w prev r gs k res Hw Hr Hk. cbn [matcher st_rest].
  apply star_loop_greedy; auto. rewrite length_app. lia.
Qed.

Lemma matcher_Plus_greedy : forall p w prev r gs k res,
  w <> [] ->
  all_in p w ->
  stops p r ->
  k (mkState (last_char prev w) r gs) = Some res ->
  matcher (Plus (Sym p)) (mkState prev (w ++ r) gs) k = Some res.
Proof.
  intros p [|c w] prev r gs k res Hn Hw Hr Hk; [contradiction|].
  inversion Hw as [|? ? Hc Hw']; subst.
  unfold Plus. cbn [matcher app]. unfold m_sym at 1. cbn [st_rest st_groups]. rewrite Hc.
  apply star_loop_greedy; auto. cbn [st_rest]. rewrite length_app. lia.
Qed.

(** The first alternative that matches is taken. *)
Lemma matcher_Alt_left : forall a b st k res,
  matcher a st k = Some res -> matcher (Alt a b) st k = Some res.
Proof. intros a b st k res H. cbn [matcher]. now rewrite H. Qed.

Lemma matcher_Alt_right : forall a b st k,
  matcher a st k = None -> matcher (Alt a b) st k = matcher b st k.
Proof. intros a b st k H. cbn [matcher]. now rewrite H. Qed.

Lemma last_char_app : forall a b prev,
  last_char prev (a ++ b) = last_char (last_char prev a) b.
Proof. induction a as [|c a IH]; intros b prev; simpl; [reflexivity | apply IH]. Qed.

Lemma last_char_some : forall w c prev, last_char prev (w ++ [c]) = Some c.
Proof. intros w c prev. now rewrite last_char_app. Qed.

Lemma matcher_Cat : forall a b st k,
  matcher (Cat a b) st k = matcher a st (fun st1 => matcher b st1 k).
Proof. reflexivity. Qed.

Lemma matcher_Group : forall n a st k,
  matcher (Group n a) st k = matcher a st (fun st1 => k (close_group n st st1)).
Proof. reflexivity. Qed.

Lemma matcher_Eps : forall st k, matcher Eps st k = k st.
Proof. reflexivity. Qed.

Lemma close_group_app : forall n prev prev' gs gs' (w r : str),
  close_group n (mkState prev (w ++ r) gs) (mkState prev' r gs')
  = mkState prev' r ((n, w) :: gs').
Proof.
  intros. unfold close_group. rewrite consumed_app. reflexivity.
Qed.

Lemma close_group_eq : forall n prev prev' gs gs' (rest0 w r : str),
  rest0 = w ++ r ->
  close_group n (mkState prev rest0 gs) (mkState prev' r gs')
  = mkState prev' r ((n, w) :: gs').
Proof. intros. subst rest0. apply close_group_app. Qed.

(** [re.sub] on a text that the pattern matches as a whole, from its
    first character to its last. *)
Lemma re_sub_whole : forall r repl (s : str) m,
  s <> [] ->
  match_here r false None s = Some m ->
  m_text m = s ->
  m_after m = [] ->
  match_here r false (m_last m) [] = None ->
  re_sub r repl s = repl m.
Proof.
  intros r repl s m Hs Hm Ht Ha Hn.
  unfold re_sub, finditer. 
  replace (2 * length s + 2) with (S (S (2 * length s))) by lia.
  cbn [finditer_go].
  destruct s as [|c s]; [contradiction|].
  cbn [search]. rewrite Hm. rewrite Ha, Ht. cbn [search]. rewrite Hn.
  simpl. now rewrite !app_nil_r.
Qed.

(** [re.sub] on a text in which the pattern matches nowhere. *)
Lemma search_none : forall r (s : str) ma prev,
  (forall pre c post prev', s = pre ++ c :: post ->
     match_here r false prev' (c :: post) = None) ->
  match_here r ma prev s = None ->
  (forall prev', match_here r false prev' [] = None) ->
  search r ma prev s = None.
Proof.
  intros r s. induction s as [|c s IH]; intros ma prev Hall Hhere Hend.
  - cbn [search]. now rewrite Hhere.
  - cbn [search]. rewrite Hhere.
    rewrite IH; [reflexivity | | | exact Hend].
    + intros pre c' post prev' E. apply (Hall (c :: pre) c' post prev'). now rewrite E.
    + destruct s as [|c' s]; [apply Hend|]. apply (Hall [c] c' s (Some c)). reflexivity.
Qed.

Lemma re_sub_nowhere : forall r repl (s : str),
  search r false None s = None -> re_sub r repl s = s.
Proof.
  intros r repl s H. unfold re_sub, finditer.
  replace (2 * length s + 2) with (S (S (2 * length s))) by lia.
  cbn [finditer_go]. now rewrite H.
Qed.

(** ** Patterns that cannot match *)

(** A pattern that reads characters of a class [c] only cannot leave the
    run of [c] in which it starts; it fails when the rest of the pattern
    fails everywhere in that run. *)
Lemma star_loop_within_none : forall (m : Matcher) (c : ascii -> bool) T k,
  (forall z prev gs K,
     all_in c z ->
     (forall z1 z2 prev' gs', z = z1 ++ z2 -> K (mkState prev' (z2 ++ T) gs') = None) ->
     m (mkState prev (z ++ T) gs) K = None) ->
  forall fuel z prev gs,
    all_in c z ->
    (forall z1 z2 prev' gs', z = z1 ++ z2 -> k (mkState prev' (z2 ++ T) gs') = None) ->
    star_loop m fuel (mkState prev (z ++ T) gs) k = None.
Proof.
  intros m c T k Hm fuel.
  induction fuel as [|fuel IH]; intros z prev gs Hz Hk.
  - simpl. apply (Hk [] z). reflexivity.
  - cbn [star_loop]. rewrite Hm; [apply (Hk [] z); reflexivity | exact Hz |].
    intros z1 z2 prev' gs' E.
    assert (Hz2 : all_in c z2).
    { subst z. unfold all_in in *. rewrite Forall_app in Hz. tauto. }
    assert (Hk2 : forall z3 z4 prev'' gs'', z2 = z3 ++ z4 ->
                    k (mkState prev'' (z4 ++ T) gs'') = None).
    { intros z3 z4 prev'' gs'' E2. apply (Hk (z1 ++ z3) z4). subst. now rewrite app_assoc. }
    destruct (progressed _ _); [apply IH; assumption | apply (Hk z1 z2); exact E].
Qed.

Lemma lazy_loop_within_none : forall (m : Matcher) (c : ascii -> bool) T k,
  (forall z prev gs K,
     all_in c z ->
     (forall z1 z2 prev' gs', z = z1 ++ z2 -> K (mkState prev' (z2 ++ T) gs') = None) ->
     m (mkState prev (z ++ T) gs) K = None) ->
  forall fuel z prev gs,
    all_in c z ->
    (forall z1 z2 prev' gs', z = z1 ++ z2 -> k (mkState prev' (z2 ++ T) gs') = None) ->
    lazy_loop m fuel (mkState prev (z ++ T) gs) k = None.
Proof.
  intros m c T k Hm fuel.
  induction fuel as [|fuel IH]; intros z prev gs Hz Hk.
  - simpl. apply (Hk [] z). reflexivity.
  - cbn [lazy_loop]. rewrite (Hk [] z) by reflexivity.
    apply Hm; [exact Hz|].
    intros z1 z2 prev' gs' E.
    assert (Hz2 : all_in c z2).
    { subst z. unfold all_in in *. rewrite Forall_app in Hz. tauto. }
    assert (Hk2 : forall z3 z4 prev'' gs'', z2 = z3 ++ z4 ->
                    k (mkState prev'' (z4 ++ T) gs'') = None).
    { intros z3 z4 prev'' gs'' E2. apply (Hk (z1 ++ z3) z4). subst. now rewrite app_assoc. }
    destruct (progressed _ _); [apply IH; assumption | apply (Hk z1 z2); exact E].
Qed.

Lemma matcher_within_none : forall (c : ascii -> bool) T r,
  within c r ->
  stops c T ->
  forall z prev gs k,
    all_in c z ->
    (forall z1 z2 prev' gs', z = z1 ++ z2 -> k (mkState prev' (z2 ++ T) gs') = None) ->
    matcher r (mkState prev (z ++ T) gs) k = None.
Proof.
  intros c T r. induction r as [| p | a IHa b IHb | a IHa b IHb | a IHa | a IHa
                                | n a IHa | p | p | |]; intros Hw HT z prev gs k Hz Hk.
  - apply (Hk [] z). reflexivity.
  - cbn [matcher]. unfold m_sym. cbn [st_rest st_groups].
    destruct z as [|x z]; cbn [app].
    + destruct T as [|t T]; [reflexivity|]. simpl in HT, Hw.
      destruct (p t) eqn:E; [|reflexivity]. apply Hw in E. congruence.
    + destruct (p x); [|reflexivity]. apply (Hk [x] z). reflexivity.
  - destruct Hw as [Hwa Hwb]. rewrite matcher_Cat. apply IHa; auto.
    intros z1 z2 prev' gs' E. apply IHb; auto.
    + subst z. unfold all_in in *. rewrite Forall_app in Hz. tauto.
    + intros z3 z4 prev'' gs'' E2. apply (Hk (z1 ++ z3) z4). subst. now rewrite app_assoc.
  - destruct Hw as [Hwa Hwb]. cbn [matcher]. rewrite IHa by auto. apply IHb; auto.
  - cbn [matcher]. apply (star_loop_within_none (matcher a) c T k); auto.
  - cbn [matcher]. apply (lazy_loop_within_none (matcher a) c T k); auto.
  - rewrite matcher_Group. apply IHa; auto.
    intros z1 z2 prev' gs' E. unfold close_group. cbn [st_prev st_rest st_groups].
    apply (Hk z1 z2). exact E.
  - cbn [matcher]. destruct (test_prev _ _); [reflexivity | apply (Hk [] z); reflexivity].
  - cbn [matcher]. destruct (test_next _ _); [reflexivity | apply (Hk [] z); reflexivity].
  - cbn [matcher st_prev]. destruct prev; [reflexivity | apply (Hk [] z); reflexivity].
  - cbn [matcher]. destruct (at_dollar _); [apply (Hk [] z); reflexivity | reflexivity].
Qed.

(** ** Repetition of a compound body *)

(** One round of the body from [st] to [st1], then the repetition from
    [st1]. *)
Lemma star_loop_round : forall (m : Matcher) fuel st st1 k res,
  (forall K, K st1 = Some res -> m st K = Some res) ->
  progressed st st1 = true ->
  star_loop m fuel st1 k = Some res ->
  star_loop m (S fuel) st k = Some res.
Proof.
  intros m fuel st st1 k res Hm Hp Hs. cbn [star_loop].
  rewrite (Hm (fun st2 => if progressed st st2 then star_loop m fuel st2 k else k st2));
    [reflexivity|].
  now rewrite Hp.
Qed.

(** The repetition ends where the body does not match. *)
Lemma star_loop_end : forall (m : Matcher) fuel st k,
  (forall K, m st K = None) ->
  star_loop m fuel st k = k st.
Proof.
  intros m [|fuel] st k Hm; [reflexivity|]. cbn [star_loop]. now rewrite Hm.
Qed.

(** The repetition [(.w+)*] over the segments of a dotted name: a
    separator of the class [sep], which holds the dot, then a run of word
    characters. *)
Lemma star_loop_segments : forall (sep : ascii -> bool) n ws prev gs T k res fuel,
  sep "."%char = true ->
  Forall word ws ->
  stops re_word T ->
  (forall prev' gs' K,
     matcher (Group n (Cat (Sym sep) (Plus (Sym re_word)))) (mkState prev' T gs') K = None) ->
  length (segments ws) < fuel ->
  k (mkState (last_char prev (segments ws)) T (segment_groups n ws ++ gs)) = Some res ->
  star_loop (matcher (Group n (Cat (Sym sep) (Plus (Sym re_word))))) fuel
            (mkState prev (segments ws ++ T) gs) k = Some res.
Proof.
  intros sep n ws. induction ws as [|w ws IH]; intros prev gs T k res fuel Hsep Hws HT Hend Hf Hk.
  - cbn [segments map concat app] in *. rewrite star_loop_end by apply Hend. exact Hk.
  - destruct fuel as [|fuel]; [simpl in Hf; lia|].
    inversion Hws as [|? ? [Hwn Hww] Hws']; subst.
    unfold segments in *. cbn [map concat] in *.
    assert (Hstop : stops re_word (concat (map (fun w0 => "."%char :: w0) ws) ++ T)).
    { destruct ws as [|w' ws']; [exact HT | reflexivity]. }
    eapply (star_loop_round _ _ _
              (mkState (last_char (Some "."%char) w)
                       (concat (map (fun w0 => "."%char :: w0) ws) ++ T)
                       ((n, "."%char :: w) :: gs))).
    + intros K HK. rewrite matcher_Group, matcher_Cat.
      rewrite <- app_assoc. cbn [app].
      rewrite matcher_Sym_cons by exact Hsep.
      erewrite matcher_Plus_greedy; [reflexivity | exact Hwn | exact Hww | exact Hstop |].
      rewrite (close_group_eq n _ _ _ _ _ ("."%char :: w)
                 (concat (map (fun w0 => "."%char :: w0) ws) ++ T)) by reflexivity.
      exact HK.
    + rewrite <- app_assoc.
      rewrite (progressed_app _ _ _ _ ("."%char :: w)). reflexivity.
    + apply IH; auto.
      * rewrite length_app in Hf. simpl in Hf. lia.
      * rewrite last_char_app in Hk. cbn [last_char] in Hk.
        unfold segment_groups in *. cbn [map rev] in Hk.
        rewrite <- app_assoc in Hk. exact Hk.
Qed.

Lemma matcher_Star_segments : forall (sep : ascii -> bool) n ws prev gs T k res,
  sep "."%char = true ->
  Forall word ws ->
  stops re_word T ->
  (forall prev' gs' K,
     matcher (Group n (Cat (Sym sep) (Plus (Sym re_word)))) (mkState prev' T gs') K = None) ->
  k (mkState (last_char prev (segments ws)) T (segment_groups n ws ++ gs)) = Some res ->
  matcher (Star (Group n (Cat (Sym sep) (Plus (Sym re_word)))))
          (mkState prev (segments ws ++ T) gs) k = Some res.
Proof.
  intros sep n ws prev gs T k res Hsep Hws HT Hend Hk.
  cbn [matcher st_rest]. apply star_loop_segments; auto.
  rewrite length_app. lia.
Qed.

(** [finditer] when the pattern matches once. *)
Lemma finditer_single : forall r (s sk : str) m,
  search r false None s = Some (sk, m) ->
  m_text m <> [] ->
  search r false (m_last m) (m_after m) = None ->
  finditer r s = ([(sk, m)], m_after m).
Proof.
  intros r s sk m Hs Ht Hn. unfold finditer.
  replace (2 * length s + 2) with (S (S (2 * length s))) by lia.
  cbn [finditer_go]. rewrite Hs.
  destruct (m_text m) as [|c t]; [contradiction|]. now rewrite Hn.
Qed.

(** The leftmost match lies after a prefix in which no match starts. *)
Lemma search_after_prefix : forall r (pre s : str) prev m,
  (forall pre1 c pre2 prev', pre = pre1 ++ c :: pre2 ->
     match_here r false prev' (c :: pre2 ++ s) = None) ->
  match_here r false (last_char prev pre) s = Some m ->
  search r false prev (pre ++ s) = Some (pre, m).
Proof.
  intros r pre. induction pre as [|c pre IH]; intros s prev m Hpre Hm.
  - cbn [app last_char] in *. destruct s; cbn [search]; now rewrite Hm.
  - cbn [app search]. rewrite (Hpre [] c pre prev eq_refl).
    rewrite (IH s (Some c) m); [reflexivity | | exact Hm].
    intros pre1 c' pre2 prev' E. apply (Hpre (c :: pre1) c' pre2 prev'). now rewrite E.
Qed.

(** ** Where a match can end *)

Lemma reaches_refl : forall st, reaches st st.
Proof. intros st. exists []. reflexivity. Qed.

Lemma reaches_trans : forall a b c, reaches a b -> reaches b c -> reaches a c.
Proof.
  intros a b c [w1 H1] [w2 H2]. exists (w1 ++ w2). rewrite H1, H2. now rewrite app_assoc.
Qed.

Lemma star_loop_reaches : forall (m : Matcher),
  (forall st k res, m st k = Some res -> exists st1, reaches st st1 /\ k st1 = Some res) ->
  forall fuel st k res,
    star_loop m fuel st k = Some res -> exists st1, reaches st st1 /\ k st1 = Some res.
Proof.
  intros m Hm fuel. induction fuel as [|fuel IH]; intros st k res H.
  - exists st. split; [apply reaches_refl | exact H].
  - cbn [star_loop] in H.
    destruct (m st (fun st1 => if progressed st st1 then star_loop m fuel st1 k else k st1))
      as [x|] eqn:E.
    + injection H as ->. apply Hm in E. destruct E as (st1 & R1 & E).
      destruct (progressed st st1).
      * apply IH in E. destruct E as (st2 & R2 & E).
        exists st2. split; [eapply reaches_trans; eauto | exact E].
      * exists st1. auto.
    + exists st. split; [apply reaches_refl | exact H].
Qed.

Lemma lazy_loop_reaches : forall (m : Matcher),
  (forall st k res, m st k = Some res -> exists st1, reaches st st1 /\ k st1 = Some res) ->
  forall fuel st k res,
    lazy_loop m fuel st k = Some res -> exists st1, reaches st st1 /\ k st1 = Some res.
Proof.
  intros m Hm fuel. induction fuel as [|fuel IH]; intros st k res H.
  - exists st. split; [apply reaches_refl | exact H].
  - cbn [lazy_loop] in H.
    destruct (k st) as [x|] eqn:E.
    + injection H as ->. exists st. split; [apply reaches_refl | exact E].
    + apply Hm in H. destruct H as (st1 & R1 & H).
      destruct (progressed st st1).
      * apply IH in H. destruct H as (st2 & R2 & H).
        exists st2. split; [eapply reaches_trans; eauto | exact H].
      * exists st1. auto.
Qed.

(** A match ends at a position of the text it started in. *)
Lemma matcher_reaches : forall r st k res,
  matcher r st k = Some res -> exists st1, reaches st st1 /\ k st1 = Some res.
Proof.
  induction r as [| p | a IHa b IHb | a IHa b IHb | a IHa | a IHa
                  | n a IHa | p | p | |]; intros st k res H.
  - exists st. split; [apply reaches_refl | exact H].
  - cbn [matcher] in H. unfold m_sym in H.
    destruct (st_rest st) as [|c s] eqn:E; [discriminate|].
    destruct (p c); [|discriminate].
    eexists. split; [|exact H]. exists [c]. cbn [st_rest]. exact E.
  - rewrite matcher_Cat in H. apply IHa in H. destruct H as (st1 & R1 & H).
    apply IHb in H. destruct H as (st2 & R2 & H).
    exists st2. split; [eapply reaches_trans; eauto | exact H].
  - cbn [matcher] in H. destruct (matcher a st k) as [x|] eqn:E.
    + injection H as ->. now apply IHa.
    + now apply IHb.
  - cbn [matcher] in H. eapply star_loop_reaches; [|exact H]. exact IHa.
  - cbn [matcher] in H. eapply lazy_loop_reaches; [|exact H]. exact IHa.
  - rewrite matcher_Group in H. apply IHa in H. destruct H as (st1 & R1 & H).
    exists (close_group n st st1). split; [|exact H].
    destruct R1 as [w Hw]. exists w. exact Hw.
  - cbn [matcher] in H. destruct (test_prev p st); [discriminate|].
    exists st. split; [apply reaches_refl | exact H].
  - cbn [matcher] in H. destruct (test_next p st); [discriminate|].
    exists st. split; [apply reaches_refl | exact H].
  - cbn [matcher] in H. destruct (st_prev st); [discriminate|].
    exists st. split; [apply reaches_refl | exact H].
  - cbn [matcher] in H. destruct (at_dollar st); [|discriminate].
    exists st. split; [apply reaches_refl | exact H].
Qed.

(** A match object splits the text it was found in. *)
Lemma match_here_split : forall r ma prev (s : str) m,
  match_here r ma prev s = Some m ->
  s = m_text m ++ m_after m /\ (ma = true -> m_text m <> []).
Proof.
  intros r ma prev s m H. unfold match_here in H.
  match type of H with context [matcher r ?st0 ?k] =>
    destruct (matcher r st0 k) as [st1|] eqn:E; [|discriminate];
    apply matcher_reaches in E end.
  destruct E as (st2 & [w Hw] & E).
  injection H as <-. cbn [m_text m_after].
  destruct (ma && negb (progressed _ st2)) eqn:Ep; [discriminate|].
  injection E as ->. cbn [st_rest] in Hw.
  assert (Hc : consumed (mkState prev s []) st1 = w).
  { unfold consumed. cbn [st_rest]. rewrite Hw, length_app.
    replace (length w + length (st_rest st1) - length (st_rest st1)) with (length w) by lia.
    rewrite firstn_app, Nat.sub_diag, firstn_all. simpl. now rewrite app_nil_r. }
  rewrite Hc. split; [exact Hw|].
  intros ->. cbn [andb] in Ep. apply negb_false_iff in Ep.
  unfold progressed in Ep. cbn [st_rest] in Ep. apply Nat.ltb_lt in Ep.
  rewrite Hw, length_app in Ep. destruct w; [simpl in Ep; lia | discriminate].
Qed.

Lemma search_split : forall r (s : str) ma prev sk m,
  search r ma prev s = Some (sk, m) ->
  s = sk ++ m_text m ++ m_after m /\ (ma = true -> sk <> [] \/ m_text m <> []).
Proof.
  intros r s. induction s as [|c s IH]; intros ma prev sk m H; cbn [search] in H.
  - destruct (match_here r ma prev []) as [m'|] eqn:E; [|discriminate].
    injection H as <- <-. apply match_here_split in E. destruct E as [E1 E2].
    split; [exact E1 | auto].
  - destruct (match_here r ma prev (c :: s)) as [m'|] eqn:E.
    + injection H as <- <-. apply match_here_split in E. destruct E as [E1 E2].
      split; [exact E1 | auto].
    + destruct (search r false (Some c) s) as [[sk' m']|] eqn:E2; [|discriminate].
      injection H as <- <-. apply IH in E2. destruct E2 as [E2 _].
      split; [cbn [app]; now rewrite <- E2 | intros _; left; discriminate].
Qed.

(** [finditer] does not depend on its fuel once there is enough of it. *)
Lemma finditer_go_enough : forall r fuel1 fuel2 ma prev (s : str),
  enough ma s <= fuel1 -> enough ma s <= fuel2 ->
  finditer_go r fuel1 ma prev s = finditer_go r fuel2 ma prev s.
Proof.
  intros r fuel1. induction fuel1 as [|fuel1 IH]; intros fuel2 ma prev s H1 H2.
  - unfold enough in H1. destruct ma; lia.
  - destruct fuel2 as [|fuel2]; [unfold enough in H2; destruct ma; lia|].
    cbn [finditer_go].
    destruct (search r ma prev s) as [[sk m]|] eqn:E; [|reflexivity].
    apply search_split in E. destruct E as [Es Ea].
    assert (Hl : length s = length sk + length (m_text m) + length (m_after m))
      by (rewrite Es at 1; rewrite !length_app; lia).
    rewrite (IH fuel2); [reflexivity | |].
    + unfold enough in *. destruct (m_text m) as [|x t] eqn:Et.
      * destruct ma; [|simpl in Hl; lia].
        destruct (Ea eq_refl) as [Hsk | Hsk]; [|contradiction].
        destruct sk; [contradiction|]. simpl in Hl. lia.
      * simpl in Hl. destruct ma; lia.
    + unfold enough in *. destruct (m_text m) as [|x t] eqn:Et.
      * destruct ma; [|simpl in Hl; lia].
        destruct (Ea eq_refl) as [Hsk | Hsk]; [|contradiction].
        destruct sk; [contradiction|]. simpl in Hl. lia.
      * simpl in Hl. destruct ma; lia.
Qed.

Lemma re_sub_from_start : forall r repl (s : str),
  re_sub r repl s = re_sub_from r repl false None s.
Proof.
  intros r repl s. unfold re_sub, re_sub_from, finditer, enough. reflexivity.
Qed.

(** The two equations of [re.sub]. *)
Lemma re_sub_from_none : forall r repl ma prev (s : str),
  search r ma prev s = None -> re_sub_from r repl ma prev s = s.
Proof.
  intros r repl ma prev s H. unfold re_sub_from, enough.
  replace (2 * length s + (if ma then 1 else 2))
    with (S (2 * length s + (if ma then 0 else 1))) by (destruct ma; lia).
  cbn [finditer_go]. now rewrite H.
Qed.

Lemma re_sub_from_some : forall r repl ma prev (s sk : str) m,
  search r ma prev s = Some (sk, m) ->
  re_sub_from r repl ma prev s
  = sk ++ repl m ++
    re_sub_from r repl (match m_text m with [] => true | _ => false end)
                (m_last m) (m_after m).
Proof.
  intros r repl ma prev s sk m H. unfold re_sub_from at 1. unfold enough at 1.
  replace (2 * length s + (if ma then 1 else 2))
    with (S (2 * length s + (if ma then 0 else 1))) by (destruct ma; lia).
  cbn [finditer_go]. rewrite H.
  pose proof (search_split _ _ _ _ _ _ H) as [Es Ea].
  assert (Hl : length s = length sk + length (m_text m) + length (m_after m))
    by (rewrite Es at 1; rewrite !length_app; lia).
  unfold re_sub_from.
  rewrite (finditer_go_enough r _
             (enough (match m_text m with [] => true | _ => false end) (m_after m))).
  - destruct (finditer_go r _ _ (m_last m) (m_after m)) as [ms tail].
    cbn [map concat fst snd]. now rewrite <- !app_assoc.
  - unfold enough. destruct (m_text m) as [|x t] eqn:Et.
    + destruct ma; [|simpl in Hl; lia].
      destruct (Ea eq_refl) as [Hsk | Hsk]; [|contradiction].
      destruct sk; [contradiction|]. simpl in Hl. lia.
    + simpl in Hl. destruct ma; lia.
  - lia.
Qed.

Lemma matcher_Sym : forall p prev (rest : str) gs k,
  matcher (Sym p) (mkState prev rest gs) k
  = match rest with
    | c :: s' => if p c then k (mkState (Some c) s' gs) else None
    | [] => None
    end.
Proof. reflexivity. Qed.

(** [re.sub] past a character at which no match starts. *)
Lemma re_sub_from_cons : forall r repl ma prev c (s : str),
  match_here r ma prev (c :: s) = None ->
  re_sub_from r repl ma prev (c :: s) = c :: re_sub_from r repl false (Some c) s.
Proof.
  intros r repl ma prev c s H.
  destruct (search r false (Some c) s) as [[sk m]|] eqn:E.
  - rewrite (re_sub_from_some r repl ma prev (c :: s) (c :: sk) m)
      by (cbn [search]; now rewrite H, E).
    now rewrite (re_sub_from_some r repl false (Some c) s sk m E).
  - rewrite (re_sub_from_none r repl ma prev (c :: s)) by (cbn [search]; now rewrite H, E).
    now rewrite (re_sub_from_none r repl false (Some c) s E).
Qed.

Lemma re_sub_from_nil : forall r repl ma prev,
  match_here r ma prev [] = None -> re_sub_from r repl ma prev [] = [].
Proof.
  intros r repl ma prev H. apply re_sub_from_none. cbn [search]. now rewrite H.
Qed.

(** [re.sub] at a match that starts where the text starts. *)
Lemma re_sub_from_match : forall r repl ma prev (s : str) m,
  match_here r ma prev s = Some m ->
  re_sub_from r repl ma prev s
  = repl m ++ re_sub_from r repl (match m_text m with [] => true | _ => false end)
                          (m_last m) (m_after m).
Proof.
  intros r repl ma prev s m H.
  rewrite (re_sub_from_some r repl ma prev s [] m); [reflexivity|].
  destruct s; cbn [search]; now rewrite H.
Qed.

(** The equations of [finditer] inside a text. *)
Lemma finditer_start : forall r (s : str), finditer r s = finditer_from r false None s.
Proof. intros r s. unfold finditer, finditer_from, enough. reflexivity. Qed.

Lemma re_sub_from_finditer : forall r repl ma prev (s : str),
  re_sub_from r repl ma prev s
  = concat (map (fun sm => fst sm ++ repl (snd sm)) (fst (finditer_from r ma prev s)))
    ++ snd (finditer_from r ma prev s).
Proof.
  intros r repl ma prev s. unfold re_sub_from, finditer_from.
  now destruct (finditer_go r (enough ma s) ma prev s).
Qed.

Lemma finditer_from_none : forall r ma prev (s : str),
  search r ma prev s = None -> finditer_from r ma prev s = ([], s).
Proof.
  intros r ma prev s H. unfold finditer_from, enough.
  replace (2 * length s + (if ma then 1 else 2))
    with (S (2 * length s + (if ma then 0 else 1))) by (destruct ma; lia).
  cbn [finditer_go]. now rewrite H.
Qed.

Lemma finditer_from_some : forall r ma prev (s sk : str) m,
  search r ma prev s = Some (sk, m) ->
  finditer_from r ma prev s
  = ((sk, m) :: fst (finditer_from r (match m_text m with [] => true | _ => false end)
                                   (m_last m) (m_after m)),
     snd (finditer_from r (match m_text m with [] => true | _ => false end)
                        (m_last m) (m_after m))).
Proof.
  intros r ma prev s sk m H. unfold finditer_from at 1. unfold enough at 1.
  replace (2 * length s + (if ma then 1 else 2))
    with (S (2 * length s + (if ma then 0 else 1))) by (destruct ma; lia).
  cbn [finditer_go]. rewrite H.
  pose proof (search_split _ _ _ _ _ _ H) as [Es Ea].
  assert (Hl : length s = length sk + length (m_text m) + length (m_after m))
    by (rewrite Es at 1; rewrite !length_app; lia).
  unfold finditer_from.
  rewrite (finditer_go_enough r _
             (enough (match m_text m with [] => true | _ => false end) (m_after m))).
  - now destruct (finditer_go r _ _ (m_last m) (m_after m)) as [ms tail].
  - unfold enough. destruct (m_text m) as [|x t] eqn:Et.
    + destruct ma; [|simpl in Hl; lia].
      destruct (Ea eq_refl) as [Hsk | Hsk]; [|contradiction].
      destruct sk; [contradiction|]. simpl in Hl. lia.
    + simpl in Hl. destruct ma; lia.
  - lia.
Qed.

(** The matches past a character at which no match starts, and at a match
    that starts where the text starts. *)
Lemma matches_from_cons : forall r ma prev c (s : str),
  match_here r ma prev (c :: s) = None ->
  matches_from r ma prev (c :: s) = matches_from r false (Some c) s.
Proof.
  intros r ma prev c s H. unfold matches_from.
  destruct (search r false (Some c) s) as [[sk m]|] eqn:E.
  - rewrite (finditer_from_some r ma prev (c :: s) (c :: sk) m)
      by (cbn [search]; now rewrite H, E).
    now rewrite (finditer_from_some r false (Some c) s sk m E).
  - rewrite (finditer_from_none r ma prev (c :: s)) by (cbn [search]; now rewrite H, E).
    now rewrite (finditer_from_none r false (Some c) s E).
Qed.

Lemma matches_from_nil : forall r ma prev,
  match_here r ma prev [] = None -> matches_from r ma prev [] = [].
Proof.
  intros r ma prev H. unfold matches_from.
  rewrite finditer_from_none; [reflexivity|]. cbn [search]. now rewrite H.
Qed.

Lemma matches_from_match : forall r ma prev (s : str) m,
  match_here r ma prev s = Some m ->
  matches_from r ma prev s
  = m :: matches_from r (match m_text m with [] => true | _ => false end)
                      (m_last m) (m_after m).
Proof.
  intros r ma prev s m H. unfold matches_from.
  rewrite (finditer_from_some r ma prev s [] m); [reflexivity|].
  destruct s; cbn [search]; now rewrite H.
Qed.

(** ** The constructor of FunctionSignature *)

Lemma quiet_then_ret : forall {A B} (m : M A) (b : B),
  quiet m ->
  forall g, exists g', bind m (fun _ => ret b) g = (Ok b, g') /\ only_logged g g'.
Proof.
  intros A B m b Hm g. destruct (Hm g) as (a & g' & E & L).
  exists g'. split; [|exact L]. now rewrite (bind_ok _ _ _ _ _ E).
Qed.

Lemma counts_after_logs : forall d s g g1 g2,
  counts d s g g1 -> only_logged g1 g2 -> counts d s g g2.
Proof.
  intros d s g g1 g2 H1 H2. pose proof (counts_trans _ _ _ _ _ _ _ H1 H2) as H.
  now rewrite !Nat.add_0_r in H.
Qed.

Lemma for_each_log : forall (l : list str) lvl g,
  exists g',
    for_each l (fun x => logger_log lvl ("    " +++ x)) g = (Ok tt, g') /\
    only_logged g g' /\
    logged g' = logged g ++ map (fun x => (lvl, "    " +++ x)) l.
Proof.
  induction l as [|x l IH]; intros lvl g.
  - exists g. split; [reflexivity|]. split; [apply only_logged_refl|].
    now rewrite app_nil_r.
  - cbn [for_each].
    destruct (quiet_log lvl ("    " +++ x) g) as ([] & g1 & E1 & L1).
    rewrite (bind_ok _ _ _ _ _ E1).
    destruct (IH lvl g1) as (g' & E & L & Hl).
    exists g'. split; [exact E|]. split; [eapply only_logged_trans; eauto|].
    rewrite Hl. injection E1 as <-. cbn [logged map]. now rewrite <- app_assoc.
Qed.

(** Lines 83-89: the argument text with its unsafe defaults replaced is
    returned; when at least one default was replaced, the counter of
    invalid defaults grows by one and the diagnostic is logged. *)
Lemma validate_defaults_log : forall args0 g,
  exists g',
    validate_defaults args0 g = (Ok (snd (replace_default_pybind11_repr args0)), g') /\
    counts (match fst (replace_default_pybind11_repr args0) with [] => 0 | _ :: _ => 1 end)
           0 g g' /\
    logged g' = logged g ++ default_log g (fst (replace_default_pybind11_repr args0)).
Proof.
  intros args0 g. unfold validate_defaults.
  destruct (replace_default_pybind11_repr args0) as [[|x l] a]; cbn [fst snd].
  - exists g. split; [reflexivity|]. split; [apply counts_refl|].
    cbn [default_log]. now rewrite app_nil_r.
  - rewrite (bind_ok incr_invalid_default_values _ g tt _ eq_refl).
    match goal with |- context [bind get ?f ?g1] =>
      rewrite (bind_ok get f g1 g1 g1 eq_refl) end.
    match goal with |- context [bind (logger_log ?lvl ?msg) ?f ?g1] =>
      rewrite (bind_ok (logger_log lvl msg) f g1 tt _ eq_refl) end.
    cbn [ignore_invalid_defaultarg].
    match goal with |- context [bind (for_each ?l0 _) _ ?g2] =>
      destruct (for_each_log l0 (if ignore_invalid_defaultarg g then WARNING else ERROR) g2)
        as (g' & E & L & Hl)
    end.
    exists g'. split; [now rewrite (bind_ok _ _ _ _ _ E)|]. split.
    + eapply counts_after_logs; [|exact L].
      unfold counts. simpl. repeat split; lia.
    + rewrite Hl. cbn [logged default_log map]. rewrite <- app_assoc. reflexivity.
Qed.

Lemma validate_defaults_spec : forall args0 g,
  exists g',
    validate_defaults args0 g = (Ok (snd (replace_default_pybind11_repr args0)), g') /\
    counts (match fst (replace_default_pybind11_repr args0) with [] => 0 | _ :: _ => 1 end)
           0 g g'.
Proof.
  intros args0 g. destruct (validate_defaults_log args0 g) as (g' & E & C & _).
  exists g'. now split.
Qed.

Lemma boost_python_spec : forall args0 self_args rtype0 g,
  boost_python args0 self_args rtype0 g
  = (if USE_BOOST_PYTHON g then
       rbind (if truthy args0 then boost_args args0 else Ok self_args)
             (fun a => Ok (a, hd [] (split " :" rtype0)))
     else Ok (self_args, rtype0), g).
Proof.
  intros args0 self_args rtype0 g. unfold boost_python.
  rewrite (bind_ok get _ g g g eq_refl).
  destruct (USE_BOOST_PYTHON g); [|reflexivity].
  destruct (truthy args0); [|reflexivity].
  unfold bind, lift. destruct (boost_args args0); reflexivity.
Qed.

Lemma function_def_str_ok : forall self,
  function_def_str self = Ok (candidate (name self) (args self) (rtype self)).
Proof. intros self. reflexivity. Qed.

(** Lines 153-168 when the candidate parses. *)
Lemma validate_syntax_valid : forall ast_parse name0 self g,
  ast_parse (candidate (name self) (args self) (rtype self)) = Parses ->
  validate_syntax ast_parse name0 self g = (Ok self, g).
Proof.
  intros ast_parse name0 self g H. unfold validate_syntax.
  rewrite function_def_str_ok. unfold lift. unfold bind at 1. now rewrite H.
Qed.

(** An exception of the parser other than [SyntaxError] leaves the
    constructor as it is. *)
Lemma validate_syntax_raises : forall ast_parse name0 self g e,
  ast_parse (candidate (name self) (args self) (rtype self)) = ParseRaises e ->
  validate_syntax ast_parse name0 self g = (Raise e, g).
Proof.
  intros ast_parse name0 self g e H. unfold validate_syntax.
  rewrite function_def_str_ok. unfold lift. unfold bind at 1. now rewrite H.
Qed.

(** The globals after a candidate has failed the syntax check. *)
Lemma validate_syntax_invalid : forall ast_parse name0 self g offset,
  ast_parse (candidate (name self) (args self) (rtype self)) = SyntaxError offset ->
  exists g',
    validate_syntax ast_parse name0 self g
    = (match offset with
       | Some _ => Ok (if signature_downgrade g then degraded name0 else self)
       | None => Raise TypeError
       end, g') /\
    counts 0 1 g g' /\
    logged g' =
      logged g ++ invalid_log g (candidate (name self) (args self) (rtype self)) offset.
Proof.
  intros ast_parse name0 self g offset H. unfold validate_syntax.
  rewrite function_def_str_ok. unfold lift. unfold bind at 1. rewrite H.
  unfold invalid_log, invalid_level, invalid_heading.
  destruct g as [iis iid sd nd ns bare boost lg].
  destruct sd, offset as [offset|]; cbn.
  - eexists. split; [reflexivity|]. split.
    + unfold counts. simpl. repeat split; lia.
    + simpl. rewrite <- !app_assoc. reflexivity.
  - eexists. split; [reflexivity|]. split.
    + unfold counts. simpl. repeat split; lia.
    + simpl. rewrite <- !app_assoc. reflexivity.
  - eexists. split; [reflexivity|]. split.
    + unfold counts. simpl. repeat split; lia.
    + simpl. rewrite <- !app_assoc. reflexivity.
  - eexists. split; [reflexivity|]. split.
    + unfold counts. simpl. repeat split; lia.
    + simpl. rewrite <- !app_assoc. reflexivity.
Qed.

Lemma only_IndexError_ok : forall {A} (a : A), only_IndexError (Ok a).
Proof. intros A a e H. discriminate. Qed.

Lemma only_IndexError_index : forall {A} (l : list A) i, only_IndexError (index l i).
Proof.
  intros A l i e. unfold index. destruct (nth_error l i); intros H; [discriminate|].
  now injection H as <-.
Qed.

Lemma only_IndexError_rbind : forall {A B} (r : result A) (f : A -> result B),
  only_IndexError r -> (forall a, only_IndexError (f a)) -> only_IndexError (rbind r f).
Proof.
  intros A B [a|e0] f Hr Hf e; simpl.
  - apply Hf.
  - intros H. injection H as <-. now apply Hr.
Qed.

Create HintDb index_error.
#[export] Hint Resolve only_IndexError_ok only_IndexError_index : index_error.
#[export] Hint Extern 2 (only_IndexError (rbind _ _)) =>
  apply only_IndexError_rbind; [|intros ?] : index_error.

Lemma boost_type_and_name_raises : forall arg, only_IndexError (boost_type_and_name arg).
Proof. intros arg. unfold boost_type_and_name. auto with index_error. Qed.

Lemma boost_nominal_loop_raises : forall l n k acc,
  only_IndexError (boost_nominal_loop n k l acc).
Proof.
  induction l as [|arg l IH]; intros n k acc; simpl.
  - auto with index_error.
  - apply only_IndexError_rbind; [apply boost_type_and_name_raises | intros tn; apply IH].
Qed.

Lemma boost_optional_loop_raises : forall l n k acc,
  only_IndexError (boost_optional_loop n k l acc).
Proof.
  induction l as [|arg l IH]; intros n k acc; simpl.
  - auto with index_error.
  - apply only_IndexError_rbind; [apply boost_type_and_name_raises | intros tn; apply IH].
Qed.

Lemma boost_args_raises : forall args0, only_IndexError (boost_args args0).
Proof.
  intros args0. unfold boost_args.
  apply only_IndexError_rbind; [apply boost_nominal_loop_raises | intros a].
  apply only_IndexError_rbind; [apply boost_optional_loop_raises | intros b].
  auto with index_error.
Qed.

Lemma assembled_raises : forall g args0 rtype0,
  only_IndexError (assembled g args0 rtype0) /\
  (USE_BOOST_PYTHON g = false -> exists ar, assembled g args0 rtype0 = Ok ar).
Proof.
  intros g args0 rtype0. unfold assembled. destruct (USE_BOOST_PYTHON g).
  - split; [|discriminate].
    apply only_IndexError_rbind; [|auto with index_error].
    destruct (truthy args0); [apply boost_args_raises | auto with index_error].
  - split; [auto with index_error | eauto].
Qed.

Section ConstructorProperties.

Variable ast_parse : str -> ParseOutcome.

Local Abbreviation init := (FunctionSignature_init ast_parse).

(** The constructor up to the syntax check. *)
Lemma init_until_syntax_log : forall name0 args0 rtype0 g,
  exists g1,
    counts (match fst (replace_default_pybind11_repr args0) with [] => 0 | _ :: _ => 1 end)
           0 g g1 /\
    logged g1 = logged g ++ default_log g (fst (replace_default_pybind11_repr args0)) /\
    init name0 args0 rtype0 true g =
    match assembled g args0 rtype0 with
    | Ok (a, r) => validate_syntax ast_parse name0 (mkSig name0 a r) g1
    | Raise e => (Raise e, g1)
    end.
Proof.
  intros name0 args0 rtype0 g. unfold FunctionSignature_init.
  destruct (validate_defaults_log args0 g) as (g1 & E & C & Hl).
  exists g1. split; [exact C|]. split; [exact Hl|].
  rewrite (bind_ok _ _ _ _ _ E).
  unfold bind at 1. rewrite boost_python_spec. unfold assembled.
  assert (Hb : USE_BOOST_PYTHON g1 = USE_BOOST_PYTHON g) by apply C.
  rewrite Hb.
  destruct (USE_BOOST_PYTHON g); [|reflexivity].
  destruct (truthy args0); [destruct (boost_args args0)|]; reflexivity.
Qed.

Lemma init_until_syntax : forall name0 args0 rtype0 g,
  exists g1,
    counts (match fst (replace_default_pybind11_repr args0) with [] => 0 | _ :: _ => 1 end)
           0 g g1 /\
    init name0 args0 rtype0 true g =
    match assembled g args0 rtype0 with
    | Ok (a, r) => validate_syntax ast_parse name0 (mkSig name0 a r) g1
    | Raise e => (Raise e, g1)
    end.
Proof.
  intros name0 args0 rtype0 g.
  destruct (init_until_syntax_log name0 args0 rtype0 g) as (g1 & C & _ & E).
  exists g1. now split.
Qed.

(** What the constructor logs begins with the diagnostic of the
    defaults. *)
Lemma init_log : forall name0 args0 rtype0 g,
  exists later,
    logged (snd (init name0 args0 rtype0 true g))
    = logged g ++ default_log g (fst (replace_default_pybind11_repr args0)) ++ later.
Proof.
  intros name0 args0 rtype0 g.
  destruct (init_until_syntax_log name0 args0 rtype0 g) as (g1 & C & Hl & E). rewrite E.
  destruct (assembled g args0 rtype0) as [[a r]|e].
  - destruct (ast_parse (candidate name0 a r)) as [|offset|e] eqn:Ep.
    + rewrite (validate_syntax_valid ast_parse name0 (mkSig name0 a r) g1 Ep).
      exists []. cbn [snd]. now rewrite app_nil_r.
    + destruct (validate_syntax_invalid ast_parse name0 (mkSig name0 a r) g1 offset Ep)
        as (g' & Ev & _ & Hv).
      rewrite Ev. cbn [snd]. rewrite Hv, Hl. eexists. now rewrite <- app_assoc.
    + rewrite (validate_syntax_raises ast_parse name0 (mkSig name0 a r) g1 e Ep).
      exists []. cbn [snd]. now rewrite app_nil_r.
  - exists []. cbn [snd]. now rewrite app_nil_r.
Qed.

(** The constructor returns a signature or raises one of these; the
    counter of invalid defaults grows by one exactly when a default was
    replaced, the counter of invalid signatures by at most one, and no
    switch changes. *)
Lemma init_effect : forall name0 args0 rtype0 g,
  exists s,
    s <= 1 /\
    counts (match fst (replace_default_pybind11_repr args0) with [] => 0 | _ :: _ => 1 end)
           s g (snd (init name0 args0 rtype0 true g)) /\
    match fst (init name0 args0 rtype0 true g) with
    | Ok _ => True
    | Raise e => constructor_exception ast_parse name0 args0 rtype0 g e
    end.
Proof.
  intros name0 args0 rtype0 g.
  destruct (init_until_syntax name0 args0 rtype0 g) as (g1 & C & E). rewrite E.
  destruct (assembled_raises g args0 rtype0) as [Hr Hb].
  unfold constructor_exception.
  destruct (assembled g args0 rtype0) as [[a r]|e] eqn:Ea.
  - destruct (ast_parse (candidate name0 a r)) as [|offset|e] eqn:Ep.
    + rewrite (validate_syntax_valid ast_parse name0 (mkSig name0 a r) g1 Ep).
      exists 0. split; [lia|]. split; [exact C | exact I].
    + destruct (validate_syntax_invalid ast_parse name0 (mkSig name0 a r) g1 offset Ep)
        as (g' & Ev & Cv & _).
      rewrite Ev. exists 1. split; [lia|]. split.
      * pose proof (counts_trans _ _ _ _ _ _ _ C Cv) as H.
        rewrite Nat.add_0_r in H. now destruct offset.
      * destruct offset; cbn [fst]; [exact I|].
        right. exists a, r. split; [reflexivity|]. right. now split.
    + rewrite (validate_syntax_raises ast_parse name0 (mkSig name0 a r) g1 e Ep).
      exists 0. split; [lia|]. split; [exact C|]. cbn [fst].
      right. exists a, r. split; [reflexivity|]. now left.
  - exists 0. split; [lia|]. split; [exact C|]. simpl. left.
    assert (e = IndexError) by now apply Hr. subst e.
    split; [reflexivity|]. split; [|reflexivity].
    destruct (USE_BOOST_PYTHON g); [reflexivity|].
    destruct (Hb eq_refl) as (ar & H). discriminate.
Qed.

Lemma constructor_exception_signature : forall name0 args0 rtype0 g e,
  constructor_exception ast_parse name0 args0 rtype0 g e -> signature_exception ast_parse g e.
Proof.
  intros name0 args0 rtype0 g e [(He & Hb & _) | (a & r & _ & H)].
  - left. now split.
  - right. exists (candidate name0 a r). exact H.
Qed.

(** The constructor never changes a switch and never lowers a counter. *)
Lemma init_monotone : forall name0 args0 rtype0 validate,
  monotone (init name0 args0 rtype0 validate).
Proof.
  intros name0 args0 rtype0 [] g.
  - destruct (init_effect name0 args0 rtype0 g) as (s & _ & C & _).
    eexists _, s. exact C.
  - exists 0, 0. apply counts_refl.
Qed.

(** One signature per matching line, whatever the syntax check said. *)
Lemma signatures_of_lines_length : forall name0 lines g sigs g',
  signatures_of_lines ast_parse name0 lines g = (Ok sigs, g') ->
  length sigs = length (filter (is_match (signature_regex name0)) lines).
Proof.
  intros name0 lines. induction lines as [|line lines IH]; intros g sigs g' H.
  - injection H as <- _. reflexivity.
  - cbn [signatures_of_lines filter] in *. unfold is_match at 1.
    destruct (re_match (signature_regex name0) line) as [m|]; [|eauto].
    unfold bind at 1 in H.
    destruct (init name0 (group_or_empty m g_args) (group_or_empty m g_rtype) true g)
      as [[sig|e] g1]; [|discriminate].
    unfold bind at 1 in H.
    destruct (signatures_of_lines ast_parse name0 lines g1) as [[sigs'|e] g2] eqn:E;
      [|discriminate].
    injection H as <- _. simpl. f_equal. eauto.
Qed.

End ConstructorProperties.

(** ** Rendering a property *)

Lemma format_setter_marker : forall field_name,
  format "@{field_name}.setter" [] [kw "field_name" field_name]
  = Ok ("@" +++ field_name +++ ".setter").
Proof. reflexivity. Qed.

Lemma format_setter_def : forall field_name args0,
  format "def {field_name}({args}) -> {rtype}:" []
         [kw "field_name" field_name; kw "args" args0]
  = Raise (KeyError "rtype").
Proof. reflexivity. Qed.

Lemma format_getter_def : forall field_name rtype0,
  format "def {field_name}(self) -> {rtype}:" []
         [kw "field_name" field_name; kw "rtype" rtype0]
  = Ok ("def " +++ field_name +++ "(self) -> " +++ rtype0 +++ ":").
Proof. reflexivity. Qed.

Lemma format_type_line : forall rtype0,
  format ":type: {rtype}" [] [kw "rtype" rtype0] = Ok (":type: " +++ rtype0).
Proof. intros. cbn. now rewrite app_nil_r. Qed.

Lemma format_docstring_ok : forall docstring,
  exists lines, format_docstring docstring = Ok lines.
Proof. intros docstring. eexists. reflexivity. Qed.

Section PropertyProperties.

Variable function_docstring_preprocessing_hooks : list (option str -> option str).

Local Abbreviation to_lines := (property_to_lines function_docstring_preprocessing_hooks).

(** Without a setter the getter block is returned: the [@property] marker,
    the [def] line and the documentation. *)
Lemma property_to_lines_getter_only : forall self docstring,
  sanitize_docstring function_docstring_preprocessing_hooks (prop_doc (ps_prop self))
    = Ok docstring ->
  str_eqb (setter_args (ps_signature self)) "None" = true ->
  exists getter getter_doc,
    to_lines self = Ok [text "@property"; getter; getter_doc].
Proof.
  intros self docstring Hd Hs. unfold property_to_lines.
  rewrite Hd. cbn [rbind].
  rewrite format_type_line. cbn [rbind].
  rewrite format_getter_def. cbn [rbind].
  match goal with |- context [format_docstring ?d] =>
    destruct (format_docstring_ok d) as (lines & ->) end.
  cbn [rbind]. rewrite Hs. cbn [negb]. eauto.
Qed.

(** C1 on the code: for a property with a setter, [to_lines] does not
    return the getter block followed by a setter block, it returns no list
    at all.  Building the setter's [def] line raises [KeyError], the
    template naming a field [rtype] that [format] is not given. *)
Theorem property_to_lines_setter_raises : forall self,
  str_eqb (setter_args (ps_signature self)) "None" = false ->
  (forall lines, to_lines self <> Ok lines) /\
  (forall docstring,
     sanitize_docstring function_docstring_preprocessing_hooks (prop_doc (ps_prop self))
       = Ok docstring ->
     to_lines self = Raise (KeyError "rtype")).
Proof.
  intros self Hs.
  assert (H : forall docstring,
            sanitize_docstring function_docstring_preprocessing_hooks (prop_doc (ps_prop self))
              = Ok docstring ->
            to_lines self = Raise (KeyError "rtype")).
  { intros docstring Hd. unfold property_to_lines.
    rewrite Hd. cbn [rbind].
    rewrite format_type_line. cbn [rbind].
    rewrite format_getter_def. cbn [rbind].
    match goal with |- context [format_docstring ?d] =>
      destruct (format_docstring_ok d) as (lines & ->) end.
    cbn [rbind]. rewrite Hs. cbn [negb].
    rewrite format_setter_marker. cbn [rbind].
    rewrite format_setter_def. reflexivity. }
  split; [|exact H].
  intros lines. 
  destruct (sanitize_docstring function_docstring_preprocessing_hooks (prop_doc (ps_prop self)))
    as [d|e] eqn:Hd.
  - rewrite (H d eq_refl). discriminate.
  - unfold property_to_lines. rewrite Hd. discriminate.
Qed.

End PropertyProperties.

Lemma property_to_lines_setter_raises_witness :
  str_eqb (setter_args (mkPropertySignature "int" "self, arg0: int" READ_WRITE)) "None" = false /\
  property_to_lines []
    (mkPropertyStubs "x" (mkProperty (Some None) (Some None) (Some (text "The x.")))
                     (Some (text "m")) (mkPropertySignature "int" "self, arg0: int" READ_WRITE))
  = Raise (KeyError "rtype").
Proof.
  split; [reflexivity|].
  apply (proj2 (property_to_lines_setter_raises []
           (mkPropertyStubs "x" (mkProperty (Some None) (Some None) (Some (text "The x.")))
                            (Some (text "m")) (mkPropertySignature "int" "self, arg0: int" READ_WRITE))
           eq_refl) "The x.").
  reflexivity.
Defined.

(** ** The fatal count in main *)

Lemma useful_links_fatal : forall g,
  exists g', useful_links g = (Ok tt, g') /\ n_fatal_errors g' = n_fatal_errors g.
Proof.
  intros g.
  assert (Hq : quiet useful_links) by (unfold useful_links; auto 10 with quiet).
  destruct (Hq g) as ([] & g' & E & L).
  exists g'. split; [exact E | now apply only_logged_fatal].
Qed.

(** A root reduced to the signatures its parsing constructs never lowers
    a counter and never changes a switch. *)
Lemma parse_candidates_monotone : forall ast_parse candidates,
  monotone (parse_candidates ast_parse candidates).
Proof.
  intros ast_parse candidates. unfold parse_candidates.
  apply monotone_for_each. intros c.
  apply monotone_bind; [apply init_monotone | intros _; apply monotone_ret].
Qed.

Section MainProperties.

Variable Root : Type.
Variable parse : Root -> M unit.
Variable write : Root -> M unit.

Local Abbreviation steps := (run_trace Root parse write).
Local Abbreviation loop := (main_loop Root parse write).
Local Abbreviation run := (main Root parse write).

Lemma main_loop_trace : forall names written g,
  loop names written g
  = (snd (fst (steps names g)),
     written ++ map fst (filter no_fatal_errors (fst (fst (steps names g)))),
     snd (steps names g)).
Proof.
  induction names as [|n names IH]; intros written g.
  - simpl. now rewrite app_nil_r.
  - cbn [run_trace main_loop].
    destruct (parse n g) as [[[]|e] g1] eqn:E; [|cbn; now rewrite app_nil_r].
    destruct (n_fatal_errors g1 =? 0) eqn:F.
    + destruct (write n g1) as [[[]|e] g2]; [|cbn; now rewrite app_nil_r].
      rewrite IH. destruct (steps names g2) as [[t r] g3]. cbn [fst snd filter].
      unfold no_fatal_errors at 2. cbn [snd]. rewrite F. cbn [map fst].
      now rewrite <- app_assoc.
    + rewrite IH. destruct (steps names g1) as [[t r] g3]. cbn [fst snd filter].
      unfold no_fatal_errors at 2. cbn [snd]. now rewrite F.
Qed.

(** The roots of the completed steps are the first requested roots, and
    all of them when the loop ended without exception. *)
Lemma run_trace_roots : forall names g,
  exists rest,
    names = map fst (fst (fst (steps names g))) ++ rest /\
    (snd (fst (steps names g)) = Ok tt -> rest = []).
Proof.
  induction names as [|n names IH]; intros g.
  - exists []. split; reflexivity.
  - cbn [run_trace].
    destruct (parse n g) as [[[]|e] g1].
    + destruct (if n_fatal_errors g1 =? 0 then write n g1 else (Ok tt, g1)) as [[[]|e] g2].
      * destruct (IH g2) as (rest & H1 & H2).
        destruct (steps names g2) as [[t r] g3]. cbn [fst snd map] in *.
        exists rest. split; [now rewrite <- app_comm_cons, <- H1 | exact H2].
      * exists (n :: names). split; [reflexivity | discriminate].
    + exists (n :: names). split; [reflexivity | discriminate].
Qed.

Hypothesis parse_monotone : forall r, monotone (parse r).
Hypothesis write_monotone : forall r, monotone (write r).

(** Every later step and the end of the loop see globals grown from the
    ones the loop started with. *)
Lemma run_trace_grown : forall names g,
  Forall (fun rg => grown g (snd rg)) (fst (fst (steps names g))) /\
  grown g (snd (steps names g)).
Proof.
  induction names as [|n names IH]; intros g.
  - split; [constructor | apply grown_refl].
  - cbn [run_trace].
    pose proof (parse_monotone n g) as Hp.
    destruct (parse n g) as [[[]|e] g1]; cbn [snd] in Hp; [|split; [constructor | exact Hp]].
    assert (Hw : grown g1 (snd (if n_fatal_errors g1 =? 0 then write n g1 else (Ok tt, g1)))).
    { destruct (n_fatal_errors g1 =? 0); [apply write_monotone | apply grown_refl]. }
    destruct (if n_fatal_errors g1 =? 0 then write n g1 else (Ok tt, g1)) as [[[]|e] g2];
      cbn [snd] in Hw.
    + destruct (IH g2) as [H1 H2].
      destruct (steps names g2) as [[t r] g3]. cbn [fst snd] in *.
      assert (Hg : grown g g2) by (eapply grown_trans; eauto).
      split; [|eapply grown_trans; eauto].
      constructor; [exact Hp|].
      eapply Forall_impl; [|exact H1]. intros rg H. eapply grown_trans; eauto.
    + split; [constructor | eapply grown_trans; eauto].
Qed.

(** Once the fatal count is not zero after a root, it is not zero after
    any later root and at the end. *)
Lemma run_trace_after_fatal : forall names g before root g1 after,
  fst (fst (steps names g)) = before ++ (root, g1) :: after ->
  0 < n_fatal_errors g1 ->
  filter no_fatal_errors after = [] /\ 0 < n_fatal_errors (snd (steps names g)).
Proof.
  induction names as [|n names IH]; intros g before root g1 after Ht Hf.
  - destruct before; discriminate.
  - cbn [run_trace] in *.
    destruct (parse n g) as [[[]|e] g1']; [|destruct before; discriminate].
    destruct (n_fatal_errors g1' =? 0) eqn:F.
    + destruct (write n g1') as [[[]|e] g2]; [|destruct before; discriminate].
      destruct (steps names g2) as [[t r] g3] eqn:E. cbn [fst snd] in *.
      destruct before as [|b before]; cbn [app] in Ht.
      * injection Ht as <- <- <-. apply Nat.eqb_eq in F. lia.
      * injection Ht as _ Ht.
        specialize (IH g2 before root g1 after). rewrite E in IH. exact (IH Ht Hf).
    + destruct (steps names g1') as [[t r] g3] eqn:E. cbn [fst snd] in *.
      destruct before as [|b before]; cbn [app] in Ht.
      * injection Ht as <- <- <-.
        destruct (run_trace_grown names g1') as [H1 H2]. rewrite E in H1, H2.
        cbn [fst snd] in H1, H2. split.
        -- clear E H2. induction H1 as [|rg t Hrg _ IHt]; [reflexivity|].
           cbn [filter]. unfold no_fatal_errors at 1.
           apply grown_fatal in Hrg.
           destruct (n_fatal_errors (snd rg) =? 0) eqn:F'; [|exact IHt].
           apply Nat.eqb_eq in F'. lia.
        -- apply grown_fatal in H2. lia.
      * injection Ht as _ Ht.
        specialize (IH g1' before root g1 after). rewrite E in IH. exact (IH Ht Hf).
Qed.

End MainProperties.

(** C2, amended: the requested roots are parsed one after the other,
    and an exception of a parsing or of a writing ends the run at once.
    The fatal count is read after the parsing of each root, where it
    decides whether the stubs of that root are written (they are exactly
    when the count is zero at that moment), and once more after all roots,
    where it decides the exit status: 1 exactly when the count is not zero.
    As neither parsing nor writing lowers a counter or changes a switch, a
    root that leaves the fatal count above zero stops the writing of every
    later root, and the run that reaches its end reports failure. *)
Theorem main_fatal_count_gate :
  forall (Root : Type) (parse write : Root -> M unit) (sys_args : Namespace Root) g,
  let trace :=
    fst (fst (run_trace Root parse write (module_names sys_args) (configure sys_args g))) in
  let ending :=
    snd (fst (run_trace Root parse write (module_names sys_args) (configure sys_args g))) in
  let g' := snd (run_trace Root parse write (module_names sys_args) (configure sys_args g)) in
  (exists rest,
     module_names sys_args = map fst trace ++ rest /\ (ending = Ok tt -> rest = [])) /\
  (exists g'',
     main Root parse write sys_args g
     = (match ending with
        | Ok _ => Ok (if 0 <? n_fatal_errors g' then 1 else 0)
        | Raise e => Raise e
        end,
        map fst (filter no_fatal_errors trace), g'') /\
     n_fatal_errors g'' = n_fatal_errors g') /\
  ((forall r, monotone (parse r)) -> (forall r, monotone (write r)) ->
   forall before root g1 after,
     trace = before ++ (root, g1) :: after -> 0 < n_fatal_errors g1 ->
     filter no_fatal_errors after = [] /\ 0 < n_fatal_errors g').
Proof.
  intros Root parse write sys_args g. cbv zeta.
  split; [apply run_trace_roots|]. split.
  - unfold main. rewrite main_loop_trace. cbn [app].
    destruct (run_trace Root parse write (module_names sys_args) (configure sys_args g))
      as [[trace ending] g'].
    cbn [fst snd]. destruct ending as [[]|e].
    + destruct (useful_links_fatal g') as (g'' & Hu & Hf).
      exists g''. split; [|exact Hf]. rewrite Hu. now rewrite Hf.
    + exists g'. split; reflexivity.
  - intros Hp Hw. now apply run_trace_after_fatal.
Qed.

(** C2, as stated, on two requested roots: the first constructs a
    signature that does not parse, the second is clean.  Neither has its
    stubs written, although the second alone has. *)
Lemma main_skips_roots_once_fatal :
  let bad := [(text "f", text "a: std::vector<int>", text "None")] in
  let good := [(text "g", text "a: int", text "int")] in
  let run roots :=
    fst (main _ (parse_candidates example_ast_parse) (fun _ => ret tt)
              (mkNamespace _ false [] false false false roots) initial_globals) in
  run [bad; good] = (Ok 1, []) /\ run [good] = (Ok 0, [good]).
Proof.
  split; vm_compute; reflexivity.
Qed.

(** On four roots, the second of which constructs a signature that does
    not parse and the last of which cannot be rendered: the first is
    written, the second leaves the fatal count at one, so neither the third
    nor the fourth is written, and the run ends with status 1. *)
Lemma main_fatal_count_gate_witness :
  let parse := fun root : nat => parse_candidates example_ast_parse (example_root root) in
  let write := fun root : nat =>
                 if root =? 1 then raise (KeyError "rtype") else ret tt : M unit in
  let sys_args := mkNamespace nat false [] false false false [0; 2; 0; 1] in
  (forall r, monotone (parse r)) /\
  (forall r, monotone (write r)) /\
  exists g'',
    main nat parse write sys_args initial_globals = (Ok 1, [0], g'') /\
    0 < n_fatal_errors g''.
Proof.
  cbv zeta.
  assert (Hp : forall r, monotone (parse_candidates example_ast_parse (example_root r)))
    by (intros r; apply parse_candidates_monotone).
  assert (Hw : forall r, monotone (if r =? 1 then raise (KeyError "rtype") else ret tt : M unit))
    by (intros r; destruct (r =? 1); [apply monotone_raise | apply monotone_ret]).
  split; [exact Hp|]. split; [exact Hw|].
  destruct (main_fatal_count_gate nat
              (fun root : nat => parse_candidates example_ast_parse (example_root root))
              (fun root : nat => if root =? 1 then raise (KeyError "rtype") else ret tt)
              (mkNamespace nat false [] false false false [0; 2; 0; 1]) initial_globals)
    as (_ & (g'' & E & F) & H3).
  specialize (H3 Hp Hw).
  remember (run_trace nat
              (fun root : nat => parse_candidates example_ast_parse (example_root root))
              (fun root : nat => if root =? 1 then raise (KeyError "rtype") else ret tt)
              (module_names (mkNamespace nat false [] false false false [0; 2; 0; 1]))
              (configure (mkNamespace nat false [] false false false [0; 2; 0; 1])
                         initial_globals)) as T eqn:ET.
  vm_compute in ET. subst T. cbn [fst snd] in E, F, H3.
  exists g''. split; [exact E|]. rewrite F.
  refine (proj2 (H3 [_] 2 _ [_; _] eq_refl _)).
  vm_compute. lia.
Defined.

(** ** Deduplicated and sorted signatures *)

(** *** The order on text *)

Lemma ord_inj : forall x y, ord x = ord y -> x = y.
Proof.
  intros x y H. unfold ord in H.
  rewrite <- (ascii_nat_embedding x), <- (ascii_nat_embedding y). now rewrite H.
Qed.

Lemma str_ltb_irrefl : forall a, str_ltb a a = false.
Proof.
  induction a as [|x a IH]; simpl; [reflexivity|].
  now rewrite Nat.ltb_irrefl.
Qed.

Lemma str_ltb_trichotomy : forall a b,
  str_ltb a b = true \/ a = b \/ str_ltb b a = true.
Proof.
  induction a as [|x a IH]; intros [|y b]; simpl; auto.
  destruct (Nat.ltb_spec (ord x) (ord y)); [auto|].
  destruct (Nat.ltb_spec (ord y) (ord x)); [auto|].
  assert (x = y) by (apply ord_inj; lia). subst y.
  destruct (IH b) as [H1 | [H1 | H1]]; auto. subst b. auto.
Qed.

Lemma str_ltb_trans : forall a b c,
  str_ltb a b = true -> str_ltb b c = true -> str_ltb a c = true.
Proof.
  induction a as [|x a IH]; intros [|y b] [|z c]; simpl; try congruence.
  destruct (Nat.ltb_spec (ord x) (ord y)), (Nat.ltb_spec (ord y) (ord z));
    destruct (Nat.ltb_spec (ord x) (ord z)); try reflexivity; try lia;
    destruct (Nat.ltb_spec (ord y) (ord x)); try discriminate; try lia;
    destruct (Nat.ltb_spec (ord z) (ord y)); try discriminate; try lia;
    destruct (Nat.ltb_spec (ord z) (ord x)); try discriminate; try lia.
  apply IH.
Qed.

Lemma str_ltb_asym : forall a b, str_ltb a b = true -> str_ltb b a = false.
Proof.
  intros a b H. destruct (str_ltb b a) eqn:E; [|reflexivity].
  pose proof (str_ltb_trans _ _ _ H E) as T. now rewrite str_ltb_irrefl in T.
Qed.

Lemma str_leb_total : forall a b, str_leb a b = false -> str_leb b a = true.
Proof.
  unfold str_leb. intros a b H. apply negb_false_iff in H.
  now rewrite (str_ltb_asym _ _ H).
Qed.

Lemma str_leb_trans : forall a b c,
  str_leb a b = true -> str_leb b c = true -> str_leb a c = true.
Proof.
  unfold str_leb. intros a b c H1 H2.
  apply negb_true_iff in H1, H2. apply negb_true_iff.
  destruct (str_ltb c a) eqn:E; [|reflexivity].
  destruct (str_ltb_trichotomy b a) as [H | [H | H]].
  - congruence.
  - subst b. congruence.
  - pose proof (str_ltb_trans _ _ _ E H). congruence.
Qed.

(** *** The stable sort *)

Lemma insert_by_args_perm : forall x l, Permutation (insert_by_args x l) (x :: l).
Proof.
  intros x l. induction l as [|y l IH]; simpl; [reflexivity|].
  destruct (str_leb (args x) (args y)); [reflexivity|].
  rewrite IH. apply perm_swap.
Qed.

Lemma sorted_by_args_perm : forall l, Permutation (sorted_by_args l) l.
Proof.
  induction l as [|x l IH]; simpl; [reflexivity|].
  rewrite insert_by_args_perm. now apply perm_skip.
Qed.

Lemma insert_by_args_sorted : forall x l,
  Sorted args_le l -> Sorted args_le (insert_by_args x l).
Proof.
  intros x l H. induction H as [|y l Hs IH Hh]; simpl.
  - repeat constructor.
  - destruct (str_leb (args x) (args y)) eqn:E.
    + constructor; [constructor; assumption | constructor; exact E].
    + constructor; [exact IH|].
      destruct l as [|z l]; simpl.
      * constructor. now apply str_leb_total.
      * destruct (str_leb (args x) (args z)).
        -- constructor. now apply str_leb_total.
        -- constructor. now inversion Hh.
Qed.

Lemma sorted_by_args_sorted : forall l, StronglySorted args_le (sorted_by_args l).
Proof.
  intros l. apply Sorted_StronglySorted.
  - intros a b c. unfold args_le. apply str_leb_trans.
  - induction l as [|x l IH]; simpl; [constructor | now apply insert_by_args_sorted].
Qed.

(** *** Equality of signatures *)

Lemma str_eqb_eq : forall a b, str_eqb a b = true <-> a = b.
Proof.
  induction a as [|x a IH]; intros [|y b]; simpl; split; try congruence.
  - intros H. apply andb_prop in H. destruct H as [H1 H2].
    apply Ascii.eqb_eq in H1. apply IH in H2. congruence.
  - intros H. injection H as -> ->. rewrite Ascii.eqb_refl. simpl. now apply IH.
Qed.

Lemma sig_eqb_eq : forall a b, sig_eqb a b = true <-> a = b.
Proof.
  intros [n1 a1 r1] [n2 a2 r2]. unfold sig_eqb. simpl.
  rewrite !andb_true_iff, !str_eqb_eq. split.
  - intros [[-> ->] ->]. reflexivity.
  - intros H. injection H as -> -> ->. auto.
Qed.

Lemma distinct_In : forall l x, In x (distinct l) <-> In x l.
Proof.
  induction l as [|y l IH]; intros x; simpl; [tauto|].
  destruct (existsb (sig_eqb y) l) eqn:E.
  - rewrite IH. split; [auto|]. intros [<-|H]; [|exact H].
    apply existsb_exists in E. destruct E as (z & Hz & Hyz).
    apply sig_eqb_eq in Hyz. now subst z.
  - simpl. now rewrite IH.
Qed.

Lemma distinct_NoDup : forall l, NoDup (distinct l).
Proof.
  induction l as [|y l IH]; simpl; [constructor|].
  destruct (existsb (sig_eqb y) l) eqn:E; [exact IH|].
  constructor; [|exact IH].
  rewrite distinct_In. intros H.
  assert (existsb (sig_eqb y) l = true); [|congruence].
  apply existsb_exists. exists y. split; [exact H | now apply sig_eqb_eq].
Qed.

(** *** The list of a member *)

Section SignatureList.

Variable ast_parse : str -> ParseOutcome.
Variable function_docstring_preprocessing_hooks : list (option str -> option str).
Variable list_of_set : list FunctionSignature -> list FunctionSignature.

(** [list(set(l))] lists every member of [l] once. *)
Hypothesis list_of_set_spec : forall l,
  NoDup (list_of_set l) /\ forall x, In x (list_of_set l) <-> In x l.

Lemma signatures_of_lines_raises : forall name0 lines g,
  USE_BOOST_PYTHON (snd (signatures_of_lines ast_parse name0 lines g)) = USE_BOOST_PYTHON g /\
  match fst (signatures_of_lines ast_parse name0 lines g) with
  | Ok _ => True
  | Raise e => signature_exception ast_parse g e
  end.
Proof.
  intros name0 lines. induction lines as [|line lines IH]; intros g.
  - split; [reflexivity | exact I].
  - cbn [signatures_of_lines].
    destruct (re_match (signature_regex name0) line) as [m|]; [|apply IH].
    destruct (init_effect ast_parse name0 (group_or_empty m g_args)
                (group_or_empty m g_rtype) g) as (s & _ & C & R).
    unfold bind at 1. unfold bind at 2.
    destruct (FunctionSignature_init ast_parse name0 (group_or_empty m g_args)
                (group_or_empty m g_rtype) true g) as [[sig|e] g1]; simpl in C, R.
    + assert (Hb : USE_BOOST_PYTHON g1 = USE_BOOST_PYTHON g) by apply C.
      destruct (IH g1) as [IH1 IH2].
      unfold bind.
      destruct (signatures_of_lines ast_parse name0 lines g1) as [[sigs|e] g2]; simpl in *.
      * split; [congruence | exact I].
      * split; [congruence|].
        destruct IH2 as [[He Hb2] | Hp]; [left; split; congruence | now right].
    + simpl. split; [apply C | eapply constructor_exception_signature; exact R].
Qed.

Lemma sorted_list_of_set : forall l,
  NoDup (sorted_by_args (list_of_set l)) /\
  StronglySorted args_le (sorted_by_args (list_of_set l)).
Proof.
  intros l. split; [|apply sorted_by_args_sorted].
  eapply Permutation_NoDup; [symmetry; apply sorted_by_args_perm|].
  apply list_of_set_spec.
Qed.

Lemma function_signatures_from_docstring_sorted : forall name0 doc module_name g,
  match fst (function_signatures_from_docstring ast_parse
               function_docstring_preprocessing_hooks list_of_set
               name0 doc module_name g) with
  | Ok sigs => NoDup sigs /\ StronglySorted args_le sigs
  | Raise e => signature_exception ast_parse g e
  end.
Proof.
  intros name0 doc module_name g. unfold function_signatures_from_docstring.
  destruct (apply_hooks function_docstring_preprocessing_hooks doc) as [docstring|].
  - destruct (signatures_of_lines_raises name0 (split [newline] docstring) g) as [_ H].
    unfold bind at 1.
    destruct (signatures_of_lines ast_parse name0 (split [newline] docstring) g)
      as [[sigs|e] g1]; simpl in H; [|exact H].
    rewrite (bind_ok get _ g1 g1 g1 eq_refl). unfold ret. cbn [fst].
    apply sorted_list_of_set.
  - simpl. split; constructor.
Qed.

(** A list without repetition that holds two given signatures and no
    other is one of the two orders, and sorting settles which. *)
Lemma sorted_list_of_set_pair : forall a b,
  a <> b ->
  sorted_by_args (list_of_set [a; b]) = sorted_by_args [a; b] \/
  sorted_by_args (list_of_set [a; b]) = sorted_by_args [b; a].
Proof.
  intros a b Hab.
  destruct (list_of_set_spec [a; b]) as [Hn Hi].
  assert (Hp : Permutation [a; b] (list_of_set [a; b])).
  { apply NoDup_Permutation; [|exact Hn | intros x; symmetry; apply Hi].
    constructor; [simpl; intuition congruence|]. constructor; [simpl; tauto | constructor]. }
  apply Permutation_length_2_inv in Hp. destruct Hp as [-> | ->]; auto.
Qed.

(** The list returned, from the signatures of the lines. *)
Lemma function_signatures_from_docstring_eq : forall name0 docstring module_name g sigs g1,
  apply_hooks function_docstring_preprocessing_hooks (Some docstring) = Some docstring ->
  signatures_of_lines ast_parse name0 (split [newline] docstring) g = (Ok sigs, g1) ->
  function_signatures_from_docstring ast_parse function_docstring_preprocessing_hooks
    list_of_set name0 (Some docstring) module_name g
  = (Ok (sorted_by_args (list_of_set
           (map (normalized module_name (BARE_NUPMY_NDARRAY g1)) sigs))), g1).
Proof.
  intros name0 docstring module_name g sigs g1 Hh Hs.
  unfold function_signatures_from_docstring. rewrite Hh.
  rewrite (bind_ok _ _ _ _ _ Hs).
  rewrite (bind_ok get _ g1 g1 g1 eq_refl). unfold ret.
  do 3 f_equal.
  destruct module_name as [[|c mn]|]; [| rewrite map_map |]; reflexivity.
Qed.

End SignatureList.

Lemma init_valid : forall ast_parse name0 args0 rtype0 g,
  USE_BOOST_PYTHON g = false ->
  ast_parse (candidate name0 (snd (replace_default_pybind11_repr args0)) rtype0) = Parses ->
  exists g',
    FunctionSignature_init ast_parse name0 args0 rtype0 true g
    = (Ok (mkSig name0 (snd (replace_default_pybind11_repr args0)) rtype0), g') /\
    counts (match fst (replace_default_pybind11_repr args0) with [] => 0 | _ :: _ => 1 end)
           0 g g'.
Proof.
  intros ast_parse name0 args0 rtype0 g Hb Hp.
  destruct (init_until_syntax ast_parse name0 args0 rtype0 g) as (g1 & C & E).
  unfold assembled in E. rewrite Hb in E.
  rewrite validate_syntax_valid in E by exact Hp.
  exists g1. split; [exact E | exact C].
Qed.

Lemma example_lines :
  split [newline] example_docstring
  = [text "1. f(a: int) -> int"; text "2. f(a: float) -> float"].
Proof. reflexivity. Qed.

Lemma example_line_1 :
  exists m, re_match (signature_regex "f") "1. f(a: int) -> int" = Some m /\
            group_or_empty m g_args = "a: int" /\ group_or_empty m g_rtype = "int".
Proof. eexists. split; [vm_compute; reflexivity | split; reflexivity]. Qed.

Lemma example_line_2 :
  exists m, re_match (signature_regex "f") "2. f(a: float) -> float" = Some m /\
            group_or_empty m g_args = "a: float" /\ group_or_empty m g_rtype = "float".
Proof. eexists. split; [vm_compute; reflexivity | split; reflexivity]. Qed.

(** C5: the signature list of every routine member has no two equal
    signatures (equal in name, argument text and return text) and is
    sorted by argument text; a list is always returned, unless the
    constructor raises, on the Boost.Python dialect or with an exception
    of the parser.  The documentation with the
    lines [1. f(a: int) -> int] and [2. f(a: float) -> float] yields
    exactly two signatures, [a: float] before [a: int], and each is
    rendered after an overload marker. *)
Theorem signatures_deduplicated_and_sorted :
  forall (ast_parse : str -> ParseOutcome)
         (function_docstring_preprocessing_hooks : list (option str -> option str))
         (list_of_set : list FunctionSignature -> list FunctionSignature),
  (forall l, NoDup (list_of_set l) /\ forall x, In x (list_of_set l) <-> In x l) ->
  (forall name0 doc module_name g,
     match fst (function_signatures_from_docstring ast_parse
                  function_docstring_preprocessing_hooks list_of_set
                  name0 doc module_name g) with
     | Ok sigs => NoDup sigs /\ StronglySorted args_le sigs
     | Raise e => signature_exception ast_parse g e
     end) /\
  (forall g,
     USE_BOOST_PYTHON g = false ->
     ast_parse "def f(a: int) -> int: ..." = Parses ->
     ast_parse "def f(a: float) -> float: ..." = Parses ->
     exists parsed g',
       function_parse ast_parse [] list_of_set example_routine g = (Ok parsed, g') /\
       fn_signatures parsed = [mkSig "f" "a: float" "float"; mkSig "f" "a: int" "int"] /\
       fst (free_function_to_lines [] parsed g')
       = Ok [text "@typing.overload"; text "def f(a: float) -> float:"; text "    pass";
             text "@typing.overload"; text "def f(a: int) -> int:"; text "    pass"]).
Proof.
  intros ast_parse hooks list_of_set Hset. split.
  - apply function_signatures_from_docstring_sorted. exact Hset.
  - intros g Hb H1 H2.
    destruct example_line_1 as (m1 & R1 & A1 & T1).
    destruct example_line_2 as (m2 & R2 & A2 & T2).
    destruct (init_valid ast_parse "f" "a: int" "int" g Hb H1) as (g1 & E1 & C1).
    assert (Hb1 : USE_BOOST_PYTHON g1 = false) by (destruct C1 as (_&_&_&_&_&_&->); exact Hb).
    destruct (init_valid ast_parse "f" "a: float" "float" g1 Hb1 H2) as (g2 & E2 & C2).
    change (snd (replace_default_pybind11_repr "a: int")) with (text "a: int") in E1.
    change (snd (replace_default_pybind11_repr "a: float")) with (text "a: float") in E2.
    assert (Hl : signatures_of_lines ast_parse "f" (split [newline] example_docstring) g
                 = (Ok [mkSig "f" "a: int" "int"; mkSig "f" "a: float" "float"], g2)).
    { rewrite example_lines. cbn [signatures_of_lines].
      rewrite R1, R2, A1, T1, A2, T2.
      rewrite (bind_ok _ _ _ _ _ E1).
      unfold bind at 1. unfold bind at 1. rewrite E2. reflexivity. }
    assert (Hs : sorted_by_args
                   (list_of_set (map (normalized (Some (text "m")) (BARE_NUPMY_NDARRAY g2))
                                     [mkSig "f" "a: int" "int"; mkSig "f" "a: float" "float"]))
                 = [mkSig "f" "a: float" "float"; mkSig "f" "a: int" "int"]).
    { assert (Hn : forall bare,
                map (normalized (Some (text "m")) bare)
                    [mkSig "f" "a: int" "int"; mkSig "f" "a: float" "float"]
                = [mkSig "f" "a: int" "int"; mkSig "f" "a: float" "float"])
        by (intros []; reflexivity).
      rewrite Hn.
      destruct (sorted_list_of_set_pair list_of_set Hset
                  (mkSig "f" "a: int" "int") (mkSig "f" "a: float" "float"))
        as [-> | ->]; [discriminate | reflexivity | reflexivity]. }
    unfold function_parse.
    cbn [fn_name fn_member member_doc fn_module_name example_routine].
    rewrite (bind_ok _ _ _ _ _
               (function_signatures_from_docstring_eq ast_parse [] list_of_set
                  "f" example_docstring (Some (text "m")) g _ g2 eq_refl Hl)).
    rewrite Hs. unfold ret.
    eexists. eexists. split; [reflexivity|]. split; reflexivity.
Qed.

Lemma signatures_deduplicated_and_sorted_witness :
  (forall l, NoDup (distinct l) /\ forall x, In x (distinct l) <-> In x l) /\
  USE_BOOST_PYTHON initial_globals = false /\
  exists parsed g',
    function_parse (fun _ => Parses) [] distinct example_routine initial_globals
    = (Ok parsed, g') /\
    fn_signatures parsed = [mkSig "f" "a: float" "float"; mkSig "f" "a: int" "int"] /\
    fst (free_function_to_lines [] parsed g')
    = Ok [text "@typing.overload"; text "def f(a: float) -> float:"; text "    pass";
          text "@typing.overload"; text "def f(a: int) -> int:"; text "    pass"].
Proof.
  assert (H : forall l, NoDup (distinct l) /\ forall x, In x (distinct l) <-> In x l)
    by (intros l; split; [apply distinct_NoDup | intros x; apply distinct_In]).
  split; [exact H|]. split; [reflexivity|].
  exact (proj2 (signatures_deduplicated_and_sorted (fun _ => Parses) [] distinct H)
               initial_globals eq_refl eq_refl eq_refl).
Defined.

(** ** Candidates that fail the syntax check *)

(** C3, as stated, with the downgrade switched off: the candidate
    [def f(a: std::vector<int>) -> None: ...] does not parse, and it is
    still the one element of the member's signature list. *)
Lemma invalid_signature_kept_without_downgrade :
  let g := configure (mkNamespace unit false [] true false false []) initial_globals in
  signature_downgrade g = false /\
  example_ast_parse (candidate "f" "a: std::vector<int>" "None") = SyntaxError (Some 13%Z) /\
  fst (function_signatures_from_docstring example_ast_parse [] distinct
         "f" (Some (text "f(a: std::vector<int>) -> None")) (Some (text "m")) g)
  = Ok [mkSig "f" "a: std::vector<int>" "None"].
Proof.
  cbv zeta. split; [reflexivity|]. split; [reflexivity|]. vm_compute. reflexivity.
Qed.

Lemma assembled_grown : forall g g1 args0 rtype0,
  grown g g1 -> assembled g1 args0 rtype0 = assembled g args0 rtype0.
Proof.
  intros g g1 args0 rtype0 (d & s & C). unfold assembled.
  assert (Hb : USE_BOOST_PYTHON g1 = USE_BOOST_PYTHON g) by apply C. now rewrite Hb.
Qed.

Section InvalidCandidates.

Variable ast_parse : str -> ParseOutcome.

Local Abbreviation init := (FunctionSignature_init ast_parse).

(** The constructor on a candidate that fails the syntax check. *)
Lemma init_invalid : forall name0 args0 rtype0 g a r offset,
  assembled g args0 rtype0 = Ok (a, r) ->
  ast_parse (candidate name0 a r) = SyntaxError offset ->
  exists g',
    init name0 args0 rtype0 true g
    = (match offset with
       | Some _ => Ok (if signature_downgrade g then degraded name0 else mkSig name0 a r)
       | None => Raise TypeError
       end, g') /\
    n_invalid_signatures g' = n_invalid_signatures g + 1 /\
    exists before, logged g' = before ++ invalid_log g (candidate name0 a r) offset.
Proof.
  intros name0 args0 rtype0 g a r offset Ha Hp.
  destruct (init_until_syntax ast_parse name0 args0 rtype0 g) as (g1 & C & E).
  rewrite Ha in E.
  destruct (validate_syntax_invalid ast_parse name0 (mkSig name0 a r) g1 offset Hp)
    as (g' & Ev & Cv & Hl).
  assert (Hd : signature_downgrade g1 = signature_downgrade g) by apply C.
  assert (Hi : ignore_invalid_signature g1 = ignore_invalid_signature g) by apply C.
  assert (Hlog : invalid_log g1 (candidate name0 a r) offset
                 = invalid_log g (candidate name0 a r) offset).
  { unfold invalid_log, invalid_level, invalid_heading. now rewrite Hd, Hi. }
  cbn [name args rtype] in Hl. rewrite Hd in Ev. rewrite Hlog in Hl.
  exists g'. split; [now rewrite E|]. split.
  - destruct C as (_&_&_&_&C5&_), Cv as (_&_&_&_&Cv5&_). lia.
  - exists (logged g1). exact Hl.
Qed.

(** A line that matches has its signature in the list of the lines, made
    by the constructor from globals grown from the first ones. *)
Lemma signatures_of_lines_member : forall name0 lines g sigs g',
  signatures_of_lines ast_parse name0 lines g = (Ok sigs, g') ->
  grown g g' /\
  forall line m,
    In line lines ->
    re_match (signature_regex name0) line = Some m ->
    exists g1 sig,
      grown g g1 /\ grown (snd (init name0 (group_or_empty m g_args)
                                     (group_or_empty m g_rtype) true g1)) g' /\
      fst (init name0 (group_or_empty m g_args) (group_or_empty m g_rtype) true g1) = Ok sig /\
      In sig sigs.
Proof.
  intros name0 lines. induction lines as [|line0 lines IH]; intros g sigs g' H.
  - injection H as <- <-. split; [apply grown_refl | intros line m []].
  - cbn [signatures_of_lines] in H.
    destruct (re_match (signature_regex name0) line0) as [m0|] eqn:R0.
    + unfold bind at 1 in H.
      pose proof (init_monotone ast_parse name0 (group_or_empty m0 g_args)
                    (group_or_empty m0 g_rtype) true g) as Hg0.
      destruct (init name0 (group_or_empty m0 g_args) (group_or_empty m0 g_rtype) true g)
        as [[sig0|e] g1] eqn:E0; [|discriminate].
      cbn [snd] in Hg0.
      unfold bind at 1 in H.
      destruct (signatures_of_lines ast_parse name0 lines g1) as [[sigs'|e] g2] eqn:E;
        [|discriminate].
      injection H as <- <-.
      destruct (IH g1 sigs' g2 E) as [Hg IHm].
      split; [eapply grown_trans; eauto|].
      intros line m [<- | Hin] Rm.
      * rewrite R0 in Rm. injection Rm as <-.
        exists g, sig0. rewrite E0. cbn [fst snd].
        split; [apply grown_refl|]. split; [exact Hg|]. split; [reflexivity | now left].
      * destruct (IHm line m Hin Rm) as (g3 & sig & G1 & G2 & E3 & I3).
        exists g3, sig. split; [eapply grown_trans; eauto|].
        split; [exact G2|]. split; [exact E3 | now right].
    + destruct (IH g sigs g' H) as [Hg IHm]. split; [exact Hg|].
      intros line m [<- | Hin] Rm; [congruence|]. exact (IHm line m Hin Rm).
Qed.

End InvalidCandidates.

(** C3, amended: whenever the assembled candidate declaration fails the
    syntax check, the counter of invalid signatures grows by one; with the
    downgrade enabled the signature becomes the degraded form, arguments
    [*args, **kwargs] and return type [typing.Any]; with the downgrade
    disabled the signature is kept as it was assembled and the warning
    "Ignoring invalid signature:" is logged, followed by the candidate (a
    [SyntaxError] without offset makes the constructor raise [TypeError]
    once this is counted and logged).  The candidate is not dropped: the
    signature list returned for the member holds this signature, degraded
    or kept, with the module name stripped and the class names replaced as
    for every signature of the list. *)
Theorem invalid_signature_counted_then_degraded_or_kept :
  forall (ast_parse : str -> ParseOutcome)
         (function_docstring_preprocessing_hooks : list (option str -> option str))
         (list_of_set : list FunctionSignature -> list FunctionSignature),
  (forall l, NoDup (list_of_set l) /\ forall x, In x (list_of_set l) <-> In x l) ->
  (forall name0 args0 rtype0 g a r offset,
     assembled g args0 rtype0 = Ok (a, r) ->
     ast_parse (candidate name0 a r) = SyntaxError offset ->
     exists g',
       FunctionSignature_init ast_parse name0 args0 rtype0 true g
       = (match offset with
          | Some _ => Ok (if signature_downgrade g then degraded name0 else mkSig name0 a r)
          | None => Raise TypeError
          end, g') /\
       n_invalid_signatures g' = n_invalid_signatures g + 1 /\
       exists before, logged g' = before ++ invalid_log g (candidate name0 a r) offset) /\
  (forall name0 doc docstring module_name g sigs g' line m a r offset,
     function_signatures_from_docstring ast_parse function_docstring_preprocessing_hooks
       list_of_set name0 doc module_name g = (Ok sigs, g') ->
     apply_hooks function_docstring_preprocessing_hooks doc = Some docstring ->
     In line (split [newline] docstring) ->
     re_match (signature_regex name0) line = Some m ->
     assembled g (group_or_empty m g_args) (group_or_empty m g_rtype) = Ok (a, r) ->
     ast_parse (candidate name0 a r) = SyntaxError offset ->
     In (normalized module_name (BARE_NUPMY_NDARRAY g)
           (if signature_downgrade g then degraded name0 else mkSig name0 a r)) sigs /\
     n_invalid_signatures g < n_invalid_signatures g').
Proof.
  intros ast_parse hooks list_of_set Hset. split; [apply init_invalid|].
  intros name0 doc docstring module_name g sigs g' line m a r offset Hf Hh Hin Hm Ha Hp.
  unfold function_signatures_from_docstring in Hf. rewrite Hh in Hf.
  unfold bind at 1 in Hf.
  destruct (signatures_of_lines ast_parse name0 (split [newline] docstring) g)
    as [[sigs0|e] g1] eqn:Es; [|discriminate].
  rewrite (bind_ok get _ g1 g1 g1 eq_refl) in Hf. unfold ret in Hf.
  injection Hf as <- <-.
  destruct (signatures_of_lines_member ast_parse name0 _ g sigs0 g1 Es) as [Hg Hmem].
  destruct (Hmem line m Hin Hm) as (g2 & sig & G1 & G2 & E2 & I2).
  rewrite <- (assembled_grown g g2 _ _ G1) in Ha.
  destruct (init_invalid ast_parse name0 _ _ g2 a r offset Ha Hp) as (g3 & E3 & N3 & _).
  rewrite E3 in E2, G2. cbn [fst snd] in E2, G2.
  destruct offset as [offset|]; [|discriminate]. injection E2 as <-.
  assert (Hd : signature_downgrade g2 = signature_downgrade g)
    by (destruct G1 as (d & s & C); apply C).
  assert (Hbare : BARE_NUPMY_NDARRAY g1 = BARE_NUPMY_NDARRAY g)
    by (destruct Hg as (d & s & C); apply C).
  split.
  - eapply Permutation_in; [symmetry; apply sorted_by_args_perm|].
    apply (proj2 (Hset _)). rewrite <- Hd, <- Hbare.
    match goal with |- In _ ?l =>
      replace l with (map (normalized module_name (BARE_NUPMY_NDARRAY g1)) sigs0)
    end.
    + now apply in_map.
    + destruct module_name as [[|c mn]|]; [| rewrite map_map |]; reflexivity.
  - destruct G1 as (d1 & s1 & C1), G2 as (d2 & s2 & C2).
    destruct C1 as (_&_&_&_&C1&_), C2 as (_&_&_&_&C2&_). lia.
Qed.

Lemma invalid_signature_counted_then_degraded_or_kept_witness :
  let g := configure (mkNamespace unit false [] true false false []) initial_globals in
  (forall l, NoDup (distinct l) /\ forall x, In x (distinct l) <-> In x l) /\
  exists m,
    re_match (signature_regex "f") "f(a: std::vector<int>) -> None" = Some m /\
    assembled g (group_or_empty m g_args) (group_or_empty m g_rtype)
    = Ok (text "a: std::vector<int>", text "None") /\
    example_ast_parse (candidate "f" "a: std::vector<int>" "None") = SyntaxError (Some 13%Z) /\
    exists sigs g',
      function_signatures_from_docstring example_ast_parse [] distinct "f"
        (Some (text "f(a: std::vector<int>) -> None")) (Some (text "m")) g = (Ok sigs, g') /\
      In (mkSig "f" "a: std::vector<int>" "None") sigs /\ 0 < n_invalid_signatures g'.
Proof.
  cbv zeta.
  assert (Hset : forall l, NoDup (distinct l) /\ forall x, In x (distinct l) <-> In x l)
    by (intros l; split; [apply distinct_NoDup | apply distinct_In]).
  split; [exact Hset|].
  destruct (re_match (signature_regex "f") "f(a: std::vector<int>) -> None") as [m|] eqn:Em;
    [|vm_compute in Em; discriminate Em].
  exists m.
  assert (Hm : group_or_empty m g_args = text "a: std::vector<int>" /\
               group_or_empty m g_rtype = text "None").
  { vm_compute in Em. injection Em as <-. split; reflexivity. }
  destruct Hm as [Ha Hr]. rewrite Ha, Hr.
  split; [reflexivity|]. split; [reflexivity|]. split; [reflexivity|].
  destruct (function_signatures_from_docstring example_ast_parse [] distinct "f"
              (Some (text "f(a: std::vector<int>) -> None")) (Some (text "m"))
              (configure (mkNamespace unit false [] true false false []) initial_globals))
    as [[sigs|e] g'] eqn:Hf; [|vm_compute in Hf; discriminate Hf].
  exists sigs, g'. split; [reflexivity|].
  assert (Hin : In (text "f(a: std::vector<int>) -> None")
                   (split [newline] (text "f(a: std::vector<int>) -> None")))
    by (left; reflexivity).
  assert (Has : assembled
                  (configure (mkNamespace unit false [] true false false []) initial_globals)
                  (group_or_empty m g_args) (group_or_empty m g_rtype)
                = Ok (text "a: std::vector<int>", text "None"))
    by (rewrite Ha, Hr; reflexivity).
  exact (proj2 (invalid_signature_counted_then_degraded_or_kept
                  example_ast_parse [] distinct Hset)
           "f" (Some (text "f(a: std::vector<int>) -> None"))
           (text "f(a: std::vector<int>) -> None") (Some (text "m"))
           (configure (mkNamespace unit false [] true false false []) initial_globals)
           sigs g' (text "f(a: std::vector<int>) -> None") m
           (text "a: std::vector<int>") (text "None") (Some 13%Z)
           Hf eq_refl Hin Em Has eq_refl).
Defined.

(** ** Names of the typing module *)

(** *** Identifiers in a text *)

Lemma str_eqb_true : forall a b, str_eqb a b = true -> a = b.
Proof.
  induction a as [|x a IH]; intros [|y b] H; simpl in H; try discriminate; [reflexivity|].
  apply andb_prop in H. destruct H as [H1 H2].
  apply Ascii.eqb_eq in H1. apply IH in H2. congruence.
Qed.

Lemma str_eqb_refl : forall a, str_eqb a a = true.
Proof. induction a as [|x a IH]; simpl; [reflexivity|]. now rewrite Ascii.eqb_refl. Qed.

Lemma str_eqb_longer : forall a x b, str_eqb (a ++ x :: b) a = false.
Proof.
  induction a as [|y a IH]; intros x b; simpl; [reflexivity|].
  rewrite IH. apply andb_false_r.
Qed.

(** A literal of word characters at the start of a text begins the first
    identifier of the text. *)
Lemma literal_in_identifier : forall (L w rest : str),
  all_in re_word L -> stops re_word rest ->
  startswith L (w ++ rest) = true ->
  exists w', w = L ++ w'.
Proof.
  induction L as [|x L IH]; intros w rest HL Hr H.
  - exists w. reflexivity.
  - inversion HL as [|? ? Hx HL']; subst.
    destruct w as [|y w]; cbn [app startswith] in H.
    + destruct rest as [|c rest]; [discriminate|].
      apply andb_prop in H. destruct H as [H _]. apply Ascii.eqb_eq in H. subst c.
      simpl in Hr. congruence.
    + apply andb_prop in H. destruct H as [H1 H2]. apply Ascii.eqb_eq in H1. subst y.
      destruct (IH w rest HL' Hr H2) as (w' & ->). exists w'. reflexivity.
Qed.

Lemma test_next_stops : forall rest prev gs,
  stops re_word rest -> test_next re_word (mkState prev rest gs) = false.
Proof. intros [|c rest] prev gs H; [reflexivity | exact H]. Qed.

(** A literal of word characters followed by [(?!\w)] matches the first
    identifier of a text exactly when it is that identifier. *)
Lemma matcher_whole_word : forall (L w rest : str) prev gs k,
  all_in re_word L -> all_in re_word w -> stops re_word rest ->
  matcher (Lit L) (mkState prev (w ++ rest) gs)
          (fun st1 => if test_next re_word st1 then None else k st1)
  = if str_eqb w L then k (mkState (last_char prev w) rest gs) else None.
Proof.
  intros L w rest prev gs k HL Hw Hr. rewrite matcher_Lit.
  destruct (startswith L (w ++ rest)) eqn:E.
  - destruct (literal_in_identifier L w rest HL Hr E) as (w' & ->).
    rewrite <- app_assoc, skipn_length_app.
    destruct w' as [|c w'].
    + rewrite app_nil_r, str_eqb_refl. cbn [app].
      now rewrite test_next_stops.
    + rewrite str_eqb_longer. cbn [app test_next st_rest].
      unfold all_in in Hw. rewrite Forall_app in Hw. destruct Hw as [_ Hw].
      inversion Hw as [|? ? Hc _]; subst. now rewrite Hc.
  - destruct (str_eqb w L) eqn:Ew; [|reflexivity].
    apply str_eqb_true in Ew. subst w. now rewrite startswith_app in E.
Qed.

Lemma one_of_Ii : forall y, one_of "Ii" y = true -> y = "I"%char \/ y = "i"%char.
Proof.
  intros y H. unfold one_of in H. cbn [text list_ascii_of_string existsb] in H.
  rewrite orb_false_r in H. apply orb_prop in H.
  destruct H as [H | H]; apply Ascii.eqb_eq in H; auto.
Qed.

(** The same for [[Ii]] followed by a literal. *)
Lemma matcher_whole_word_Ii : forall (L w rest : str) prev gs k,
  all_in re_word L -> all_in re_word w -> stops re_word rest ->
  matcher (Cat (Sym (one_of "Ii")) (Lit L)) (mkState prev (w ++ rest) gs)
          (fun st1 => if test_next re_word st1 then None else k st1)
  = if str_eqb w ("I"%char :: L) || str_eqb w ("i"%char :: L)
    then k (mkState (last_char prev w) rest gs) else None.
Proof.
  intros L w rest prev gs k HL Hw Hr. rewrite matcher_Cat.
  destruct w as [|y w].
  - cbn [app str_eqb orb]. cbn [matcher]. unfold m_sym. cbn [st_rest].
    destruct rest as [|c rest]; [reflexivity|].
    destruct (one_of "Ii" c) eqn:E; [|reflexivity].
    simpl in Hr. destruct (one_of_Ii c E) as [-> | ->]; discriminate.
  - inversion Hw as [|? ? Hy Hw']; subst. cbn [app].
    destruct (one_of "Ii" y) eqn:E.
    + rewrite matcher_Sym_cons by exact E.
      rewrite (matcher_whole_word L w rest (Some y) gs k HL Hw' Hr).
      cbn [str_eqb last_char].
      destruct (one_of_Ii y E) as [-> | ->]; cbn [Ascii.eqb Bool.eqb andb orb];
        destruct (str_eqb w L); reflexivity.
    + cbn [matcher]. unfold m_sym. cbn [st_rest]. rewrite E.
      cbn [str_eqb].
      assert (H1 : Ascii.eqb y "I" = false).
      { destruct (Ascii.eqb_spec y "I") as [->|]; [discriminate | reflexivity]. }
      assert (H2 : Ascii.eqb y "i" = false).
      { destruct (Ascii.eqb_spec y "i") as [->|]; [discriminate | reflexivity]. }
      now rewrite H1, H2.
Qed.

Lemma matcher_Alt : forall a b st k,
  matcher (Alt a b) st k
  = match matcher a st k with Some x => Some x | None => matcher b st k end.
Proof. reflexivity. Qed.

Lemma matcher_NotBehind : forall p st k,
  matcher (NotBehind p) st k = if test_prev p st then None else k st.
Proof. reflexivity. Qed.

Ltac word_literal := repeat constructor.

(** The last alternative, [Union] with a quote, begins a text exactly
    when the first identifier is Union and a quote follows it. *)
Lemma union_quote_start : forall w rest : str,
  all_in re_word w -> stops re_word rest ->
  startswith "Union'" (w ++ rest)
  = str_eqb w "Union" && match rest with q :: _ => Ascii.eqb q "'" | [] => false end.
Proof.
  intros w rest Hw Hr.
  destruct (startswith "Union'" (w ++ rest)) eqn:E.
  - assert (E5 : startswith "Union" (w ++ rest) = true).
    { pose proof (startswith_prefix _ _ E) as H. rewrite H.
      exact (startswith_app "Union" ("'"%char :: skipn 6 (w ++ rest))). }
    destruct (literal_in_identifier "Union" w rest ltac:(repeat constructor) Hr E5)
      as (w' & ->).
    destruct w' as [|c w'].
    + cbn [app text list_ascii_of_string startswith] in E.
      rewrite !Ascii.eqb_refl in E. cbn [andb] in E.
      destruct rest as [|q rest']; [discriminate|].
      rewrite andb_true_r in E. rewrite Ascii.eqb_sym in E. rewrite E.
      reflexivity.
    + exfalso. unfold all_in in Hw. rewrite Forall_app in Hw. destruct Hw as [_ Hw].
      inversion Hw as [|? ? Hc _]; subst.
      cbn [app text list_ascii_of_string startswith] in E.
      rewrite !Ascii.eqb_refl in E. cbn [andb] in E.
      rewrite andb_true_r in E. apply Ascii.eqb_eq in E. subst c. discriminate.
  - symmetry. apply not_true_is_false. intros H. apply andb_prop in H. destruct H as [H1 H2].
    apply str_eqb_true in H1. subst w.
    destruct rest as [|q rest']; [discriminate|].
    apply Ascii.eqb_eq in H2. subst q.
    cbn in E. discriminate.
Qed.

(** The alternatives of the pattern on the first identifier [w] of a
    text. *)
Lemma typing_alternatives : forall (w rest : str) prev gs k,
  all_in re_word w -> stops re_word rest ->
  matcher (Alts [Lit "Callable"; Lit "Dict";
                 Cat (Sym (one_of "Ii")) (Lit "terator");
                 Cat (Sym (one_of "Ii")) (Lit "terable");
                 Lit "List"; Lit "Optional"; Lit "Set"; Lit "Tuple";
                 Lit "Union'"])
          (mkState prev (w ++ rest) gs)
          (fun st1 => if test_next re_word st1 then None else k st1)
  = if existsb (str_eqb w) typing_names
    then k (mkState (last_char prev w) rest gs)
    else if quoted_union w rest
         then k (mkState (Some "'"%char) (tl rest) gs)
         else None.
Proof.
  intros w rest prev gs k Hw Hr. cbn [Alts].
  rewrite !matcher_Alt.
  rewrite (matcher_whole_word "Callable") by (auto; word_literal).
  rewrite (matcher_whole_word "Dict") by (auto; word_literal).
  rewrite (matcher_whole_word_Ii "terator") by (auto; word_literal).
  rewrite (matcher_whole_word_Ii "terable") by (auto; word_literal).
  rewrite (matcher_whole_word "List") by (auto; word_literal).
  rewrite (matcher_whole_word "Optional") by (auto; word_literal).
  rewrite (matcher_whole_word "Set") by (auto; word_literal).
  rewrite (matcher_whole_word "Tuple") by (auto; word_literal).
  rewrite (matcher_Lit "Union'"), (union_quote_start w rest Hw Hr).
  assert (Hlast :
    (if str_eqb w "Union" && match rest with q :: _ => Ascii.eqb q "'" | [] => false end
     then (fun st1 => if test_next re_word st1 then None else k st1)
            (mkState (last_char prev "Union'") (skipn (length (text "Union'")) (w ++ rest)) gs)
     else None)
    = if quoted_union w rest then k (mkState (Some "'"%char) (tl rest) gs) else None).
  { unfold quoted_union. destruct (str_eqb w "Union") eqn:Ew; [|reflexivity].
    apply str_eqb_true in Ew. subst w. cbn [andb].
    destruct rest as [|q rest']; [reflexivity|].
    destruct (Ascii.eqb q "'") eqn:Eq; [|reflexivity].
    apply Ascii.eqb_eq in Eq. subst q. cbn [andb tl].
    change (skipn (length (text "Union'")) (text "Union" ++ "'"%char :: rest')) with rest'.
    change (last_char prev "Union'") with (Some "'"%char).
    unfold test_next. cbn [st_rest].
    destruct rest' as [|c rest'']; [reflexivity|]. destruct (re_word c); reflexivity. }
  cbv beta in Hlast. rewrite Hlast. clear Hlast.
  unfold typing_names. cbn [map existsb].
  change ("I"%char :: text "terator") with (text "Iterator").
  change ("i"%char :: text "terator") with (text "iterator").
  change ("I"%char :: text "terable") with (text "Iterable").
  change ("i"%char :: text "terable") with (text "iterable").
  set (last := if quoted_union w rest then k (mkState (Some "'"%char) (tl rest) gs) else None).
  destruct (k (mkState (last_char prev w) rest gs)) as [x|].
  - destruct (str_eqb w "Callable"); [reflexivity|].
    destruct (str_eqb w "Dict"); [reflexivity|].
    destruct (str_eqb w "Iterator"); [reflexivity|].
    destruct (str_eqb w "iterator"); [reflexivity|].
    destruct (str_eqb w "Iterable"); [reflexivity|].
    destruct (str_eqb w "iterable"); [reflexivity|].
    destruct (str_eqb w "List"); [reflexivity|].
    destruct (str_eqb w "Optional"); [reflexivity|].
    destruct (str_eqb w "Set"); [reflexivity|].
    destruct (str_eqb w "Tuple"); reflexivity.
  - assert (Hq : quoted_union w rest = true -> existsb (str_eqb w) typing_names = false).
    { unfold quoted_union. intros H. apply andb_prop in H. destruct H as [H _].
      apply str_eqb_true in H. subst w. reflexivity. }
    unfold typing_names in Hq. cbn [map existsb] in Hq.
    destruct (quoted_union w rest) eqn:Q.
    + specialize (Hq eq_refl). rewrite !orb_false_iff in Hq.
      destruct Hq as (H1&H2&H3&H4&H5&H6&H7&H8&H9&H10&_).
      now rewrite H1, H2, H3, H4, H5, H6, H7, H8, H9, H10.
    + subst last.
      destruct (str_eqb w "Callable"), (str_eqb w "Dict"), (str_eqb w "Iterator"),
        (str_eqb w "iterator"), (str_eqb w "Iterable"), (str_eqb w "iterable"),
        (str_eqb w "List"), (str_eqb w "Optional"), (str_eqb w "Set"), (str_eqb w "Tuple");
        reflexivity.
Qed.

Lemma test_prev_boundary : forall prev rest gs,
  boundary prev -> test_prev re_word (mkState prev rest gs) = false.
Proof. intros [c|] rest gs H; [exact H | reflexivity]. Qed.

(** The match at the start of an identifier. *)
Lemma typing_match_at_boundary : forall prev (w rest : str),
  boundary prev ->
  all_in re_word w -> stops re_word rest ->
  match_here typing_types_re false prev (w ++ rest)
  = if existsb (str_eqb w) typing_names
    then Some (mkMatch w rest (last_char prev w) [(g_type, w)])
    else if quoted_union w rest
         then Some (mkMatch (w ++ ["'"%char]) (tl rest) (Some "'"%char)
                            [(g_type, w ++ ["'"%char])])
         else None.
Proof.
  intros prev w rest Hb Hw Hr. unfold match_here, typing_types_re.
  cbn [Cats]. rewrite matcher_Cat, matcher_NotBehind.
  rewrite test_prev_boundary by exact Hb.
  rewrite matcher_Cat, matcher_Group.
  match goal with |- context [matcher (Alts ?l) ?st ?K] =>
    change (matcher (Alts l) st K)
      with (matcher (Alts l) st
              (fun st1 => if test_next re_word st1 then None
                          else (fun st2 => Some (close_group g_type st st2)) st1))
  end.
  rewrite typing_alternatives by assumption.
  destruct (existsb (str_eqb w) typing_names).
  - rewrite close_group_app. cbn [st_rest st_prev st_groups].
    f_equal. f_equal. apply consumed_app.
  - destruct (quoted_union w rest) eqn:Q; [|reflexivity].
    unfold quoted_union in Q. apply andb_prop in Q. destruct Q as [_ Q].
    destruct rest as [|q rest']; [discriminate|].
    apply andb_prop in Q. destruct Q as [Q _]. apply Ascii.eqb_eq in Q. subst q.
    cbn [tl].
    rewrite (close_group_eq g_type _ _ _ _ _ (w ++ ["'"%char]) rest')
      by (now rewrite <- app_assoc).
    cbn [st_rest st_prev st_groups]. f_equal. f_equal.
    change (w ++ "'"%char :: rest') with (w ++ ["'"%char] ++ rest').
    rewrite app_assoc. apply consumed_app.
Qed.

(** No match right after a word character. *)
Lemma typing_no_match_after_word : forall ma c (s : str),
  re_word c = true -> match_here typing_types_re ma (Some c) s = None.
Proof.
  intros ma c s H. unfold match_here, typing_types_re.
  cbn [Cats]. rewrite matcher_Cat, matcher_NotBehind. cbn [test_prev st_prev]. now rewrite H.
Qed.

(** *** The substitution over a whole text *)

Lemma occurs_suffix : forall (x pre s : str), occurs x s -> occurs x (pre ++ s).
Proof.
  intros x pre s (a & b & ->). exists (pre ++ a), b. now rewrite <- app_assoc.
Qed.

Lemma last_char_word : forall w prev,
  w <> [] -> all_in re_word w -> exists c, last_char prev w = Some c /\ re_word c = true.
Proof.
  induction w as [|y w IH]; intros prev Hn Hw; [contradiction|].
  inversion Hw as [|? ? Hy Hw']; subst. cbn [last_char].
  destruct w as [|z w]; [exists y; auto|].
  apply IH; [discriminate | exact Hw'].
Qed.

(** A text begins with its first identifier, which may be empty. *)
Lemma first_identifier : forall s : str,
  exists w rest, s = w ++ rest /\ all_in re_word w /\ stops re_word rest.
Proof.
  induction s as [|c s IH].
  - exists [], []. repeat split. constructor.
  - destruct (re_word c) eqn:E.
    + destruct IH as (w & rest & -> & Hw & Hr).
      exists (c :: w), rest. repeat split; [now constructor | exact Hr].
    + exists [], (c :: s). repeat split; [constructor | exact E].
Qed.

Lemma rewrite_identifiers_word : forall (w rest cur : str),
  all_in re_word w ->
  rewrite_identifiers_from cur (w ++ rest) = rewrite_identifiers_from (cur ++ w) rest.
Proof.
  induction w as [|y w IH]; intros rest cur Hw.
  - now rewrite app_nil_r.
  - inversion Hw as [|? ? Hy Hw']; subst. cbn [app rewrite_identifiers_from].
    rewrite Hy, IH by exact Hw'. now rewrite <- app_assoc.
Qed.

Lemma quoted_union_not_typing : forall w rest,
  quoted_union w rest = true -> existsb (str_eqb w) typing_names = false.
Proof.
  intros w rest H. unfold quoted_union in H. apply andb_prop in H. destruct H as [H _].
  apply str_eqb_true in H. subst w. reflexivity.
Qed.

Section TypingSubstitution.

Local Abbreviation sub := (re_sub_from typing_types_re replace_typing_types false).

Lemma typing_sub_inside_word : forall (w rest : str) c,
  re_word c = true -> all_in re_word w ->
  sub (Some c) (w ++ rest) = w ++ sub (last_char (Some c) w) rest.
Proof.
  induction w as [|y w IH]; intros rest c Hc Hw; [reflexivity|].
  inversion Hw as [|? ? Hy Hw']; subst. cbn [app last_char].
  rewrite re_sub_from_cons by now apply typing_no_match_after_word.
  now rewrite IH.
Qed.

(** What follows an identifier, once the identifier has been dealt with. *)
Lemma typing_sub_after_word : forall (rest : str) c,
  re_word c = true ->
  sub (Some c) rest
  = match rest with
    | [] => []
    | x :: s' => x :: sub (Some x) s'
    end.
Proof.
  intros [|x s'] c Hc.
  - apply re_sub_from_nil. now apply typing_no_match_after_word.
  - apply re_sub_from_cons. now apply typing_no_match_after_word.
Qed.

(** An identifier at a boundary and the separator after it. *)
Lemma typing_sub_identifier : forall (w rest : str) prev,
  boundary prev -> w <> [] -> all_in re_word w -> stops re_word rest ->
  sub prev (w ++ rest)
  = (if quoted_union w rest then "typing." +++ w else rewrite_identifier w)
    ++ match rest with
       | [] => []
       | x :: s' => x :: sub (Some x) s'
       end.
Proof.
  intros w rest prev Hb Hn Hw Hr.
  destruct (last_char_word w prev Hn Hw) as (c & Hl & Hc).
  pose proof (typing_match_at_boundary prev w rest Hb Hw Hr) as Hm.
  pose proof (quoted_union_not_typing w rest) as Hq.
  unfold rewrite_identifier.
  destruct (existsb (str_eqb w) typing_names).
  - destruct (quoted_union w rest); [now specialize (Hq eq_refl)|].
    rewrite (re_sub_from_match _ _ _ _ _ _ Hm). cbn [m_text m_last m_after].
    rewrite Hl. destruct w as [|y w]; [contradiction|].
    rewrite (typing_sub_after_word rest c Hc). reflexivity.
  - destruct (quoted_union w rest) eqn:Q.
    + rewrite (re_sub_from_match _ _ _ _ _ _ Hm). cbn [m_text m_last m_after].
      unfold quoted_union in Q. apply andb_prop in Q. destruct Q as [Qw Q].
      apply str_eqb_true in Qw. subst w.
      destruct rest as [|q rest']; [discriminate|].
      apply andb_prop in Q. destruct Q as [Q _]. apply Ascii.eqb_eq in Q. subst q.
      reflexivity.
    + destruct w as [|y w]; [contradiction|].
      inversion Hw as [|? ? Hy Hw']; subst. cbn [app] in *.
      rewrite re_sub_from_cons by exact Hm.
      rewrite typing_sub_inside_word by assumption.
      cbn [last_char] in Hl. rewrite Hl.
      now rewrite (typing_sub_after_word rest c Hc).
Qed.

Lemma typing_no_match_at_separator : forall prev (rest : str),
  boundary prev -> stops re_word rest ->
  match_here typing_types_re false prev rest = None.
Proof.
  intros prev rest Hb Hr.
  exact (typing_match_at_boundary prev [] rest Hb (Forall_nil _) Hr).
Qed.

(** The substitution of the source rewrites the identifiers one by one. *)
Lemma typing_sub_rewrites : forall n (s : str) prev,
  length s <= n -> boundary prev ->
  sub prev s = rewrite_identifiers s.
Proof.
  induction n as [|n IH]; intros s prev Hlen Hb.
  - destruct s; [|simpl in Hlen; lia].
    apply re_sub_from_nil. now apply typing_no_match_at_separator.
  - destruct (first_identifier s) as (w & rest & -> & Hw & Hr).
    unfold rewrite_identifiers. rewrite rewrite_identifiers_word by exact Hw.
    cbn [app].
    assert (Hafter : match rest with
                     | [] => []
                     | x :: s' => x :: sub (Some x) s'
                     end
                     = match rest with
                       | [] => []
                       | x :: s' => x :: rewrite_identifiers_from [] s'
                       end).
    { destruct rest as [|x s']; [reflexivity|]. f_equal.
      apply IH.
      - rewrite length_app in Hlen. simpl in Hlen. lia.
      - exact Hr. }
    destruct w as [|y w].
    + cbn [app] in *. destruct rest as [|x s'].
      * apply re_sub_from_nil. now apply typing_no_match_at_separator.
      * cbn [rewrite_identifiers_from]. pose proof Hr as Hx. simpl in Hx. rewrite Hx.
        rewrite re_sub_from_cons by now apply typing_no_match_at_separator.
        change (quoted_union [] (x :: s')) with false. cbv iota.
        change (rewrite_identifier []) with (@nil ascii). cbn [app].
        now injection Hafter as ->.
    + rewrite (typing_sub_identifier (y :: w) rest prev Hb ltac:(discriminate) Hw Hr).
      rewrite Hafter.
      destruct rest as [|x s']; cbn [rewrite_identifiers_from].
      * change (quoted_union (y :: w) []) with
          (str_eqb (y :: w) "Union" && false).
        rewrite andb_false_r. now rewrite app_nil_r.
      * pose proof Hr as Hx. simpl in Hx. now rewrite Hx.
Qed.

End TypingSubstitution.

(** *** The array pattern reads nothing without an opening of an array *)

(** A match of the array pattern begins with the name of the array
    type, any character standing for its dot, and the opening bracket. *)
Lemma numpy_array_start : forall ma prev (t : str) m,
  match_here numpy_array_re ma prev t = Some m ->
  exists c rest, t = "numpy" +++ (c :: "ndarray[" +++ rest).
Proof.
  intros ma prev t m H. unfold match_here in H.
  match type of H with context [matcher _ _ ?k] => set (final := k) in H end.
  destruct (matcher numpy_array_re (mkState prev t []) final) as [st|] eqn:Hm;
    [clear H|discriminate].
  unfold numpy_array_re in Hm. cbn [Cats] in Hm.
  rewrite matcher_Cat, matcher_Lit in Hm.
  destruct (startswith "numpy" t) eqn:E1; [|discriminate].
  apply startswith_prefix in E1.
  remember (skipn (length (text "numpy")) t) as t1 eqn:R1.
  rewrite matcher_Cat, matcher_Sym in Hm.
  destruct t1 as [|c t2]; [discriminate|].
  destruct (re_any c); [|discriminate].
  rewrite matcher_Cat, matcher_Lit in Hm.
  destruct (startswith "ndarray" t2) eqn:E2; [|discriminate].
  apply startswith_prefix in E2.
  remember (skipn (length (text "ndarray")) t2) as t3 eqn:R3.
  rewrite matcher_Cat in Hm. unfold Chr at 1 in Hm. rewrite matcher_Sym in Hm.
  destruct t3 as [|b t4]; [discriminate|].
  destruct (Ascii.eqb "[" b) eqn:E3; [|discriminate].
  apply Ascii.eqb_eq in E3. subst b.
  exists c, t4. rewrite E1, E2.
  cbn [text list_ascii_of_string app]. reflexivity.
Qed.

Lemma numpy_array_needs_bracket : forall ma prev (t : str),
  ~ occurs "ndarray[" t -> match_here numpy_array_re ma prev t = None.
Proof.
  intros ma prev t Hn.
  destruct (match_here numpy_array_re ma prev t) as [m|] eqn:E; [|reflexivity].
  exfalso. apply Hn.
  destruct (numpy_array_start ma prev t m E) as (c & rest & ->).
  exists ("numpy" +++ [c]), rest.
  cbn [text list_ascii_of_string app]. reflexivity.
Qed.

Lemma numpy_array_sub_nowhere : forall bare (s : str),
  ~ occurs "ndarray[" s -> re_sub numpy_array_re (replace_numpy_array bare) s = s.
Proof.
  intros bare s Hn. apply re_sub_nowhere. apply search_none.
  - intros pre c post prev' ->. apply numpy_array_needs_bracket.
    intros Ho. apply Hn. now apply occurs_suffix.
  - now apply numpy_array_needs_bracket.
  - intros prev'. apply numpy_array_needs_bracket.
    intros (a & b & H). destruct a; discriminate.
Qed.




(** ** Unsafe default values *)

Lemma all_in_app : forall p (a b : str), all_in p a -> all_in p b -> all_in p (a ++ b).
Proof. intros p a b Ha Hb. unfold all_in in *. rewrite Forall_app. auto. Qed.

Lemma word_name_chars : forall w, all_in re_word w -> all_in name_char w.
Proof.
  intros w H. unfold all_in in *. eapply Forall_impl; [|exact H].
  intros c Hc. unfold name_char. now rewrite Hc.
Qed.

Lemma segments_name_chars : forall ws, Forall word ws -> all_in name_char (segments ws).
Proof.
  intros ws H. induction H as [|w ws [_ Hw] _ IH]; [constructor|].
  unfold segments in *. cbn [map concat].
  constructor; [reflexivity|]. apply all_in_app; [now apply word_name_chars | exact IH].
Qed.

Lemma dotted_name_chars : forall w0 ws,
  word w0 -> Forall word ws -> all_in name_char (dotted w0 ws).
Proof.
  intros w0 ws [_ H0] Hws. unfold dotted.
  apply all_in_app; [now apply word_name_chars | now apply segments_name_chars].
Qed.

(** What follows the first run of word characters of a dotted name is not
    a word character. *)
Lemma segments_stop : forall ws (T : str), stops re_word T -> stops re_word (segments ws ++ T).
Proof. intros [|w ws] T H; [exact H | reflexivity]. Qed.

(** No match begins at a character other than the opening angle
    bracket, nor at the end of the text. *)
Lemma repr_starts_with_angle : forall c (s : str) ma prev,
  negb (Ascii.eqb c "<") = true ->
  match_here _default_pybind11_repr_re ma prev (c :: s) = None.
Proof.
  intros c s ma prev H. unfold match_here.
  assert (Hs : stops (Ascii.eqb "<") (c :: s)).
  { unfold stops. rewrite Ascii.eqb_sym. now apply negb_true_iff. }
  assert (Hm : forall k, matcher _default_pybind11_repr_re (mkState prev (c :: s) []) k = None).
  { intros k. unfold _default_pybind11_repr_re.
    rewrite matcher_Alt_right.
    - rewrite matcher_Group. cbn [Cats]. rewrite matcher_Cat.
      unfold Chr at 1. now apply matcher_Sym_stops.
    - rewrite matcher_Group. cbn [Cats]. rewrite matcher_Cat.
      unfold Chr at 1. now apply matcher_Sym_stops. }
  now rewrite Hm.
Qed.

Lemma repr_not_at_end : forall ma prev,
  match_here _default_pybind11_repr_re ma prev [] = None.
Proof. intros ma prev. reflexivity. Qed.

Lemma search_no_angle : forall (s : str) prev,
  no_angle s -> search _default_pybind11_repr_re false prev s = None.
Proof.
  intros s prev H. apply search_none.
  - intros pre c post prev' E. apply repr_starts_with_angle.
    subst s. unfold no_angle, all_in in H. rewrite Forall_app in H.
    destruct H as [_ H]. now inversion H.
  - destruct s as [|c s]; [apply repr_not_at_end|].
    apply repr_starts_with_angle. now inversion H.
  - intros prev'. apply repr_not_at_end.
Qed.

Lemma object_repr_shape : forall w0 ws hex (post : str),
  object_repr (dotted w0 ws) hex ++ post
  = "<"%char :: w0 ++ segments ws ++ (" object at 0x" +++ hex +++ (">"%char :: post)).
Proof.
  intros w0 ws hex post. unfold object_repr, dotted.
  cbn [text list_ascii_of_string app].
  repeat (rewrite <- app_assoc; cbn [app]). reflexivity.
Qed.

Lemma enum_repr_shape : forall w0 ws digits (post : str),
  enum_repr (dotted w0 ws) digits ++ post
  = "<"%char :: w0 ++ segments ws ++ (": " +++ digits +++ (">"%char :: post)).
Proof.
  intros w0 ws digits post. unfold enum_repr, dotted.
  cbn [text list_ascii_of_string app].
  repeat (rewrite <- app_assoc; cbn [app]). reflexivity.
Qed.

(** The match on the representation of an object. *)
Lemma object_repr_match : forall prev w0 ws hex (post : str),
  word w0 -> Forall word ws ->
  hex <> [] -> all_in hexdigit hex ->
  match_here _default_pybind11_repr_re false prev (object_repr (dotted w0 ws) hex ++ post)
  = Some (mkMatch (object_repr (dotted w0 ws) hex) post (Some ">"%char)
                  ((1, object_repr (dotted w0 ws) hex) :: (g_class, dotted w0 ws)
                   :: segment_groups 3 ws ++ [])).
Proof.
  intros prev w0 ws hex post [Hn0 Hw0] Hws Hhn Hh.
  unfold match_here.
  match goal with |- context [matcher _ _ ?k] => set (final := k) end.
  assert (Hm : matcher _default_pybind11_repr_re
                 (mkState prev (object_repr (dotted w0 ws) hex ++ post) []) final
               = Some (mkState (Some ">"%char) post
                         ((1, object_repr (dotted w0 ws) hex) :: (g_class, dotted w0 ws)
                          :: segment_groups 3 ws ++ []))).
  { unfold _default_pybind11_repr_re.
    apply matcher_Alt_left.
    rewrite matcher_Group. cbn [Cats]. rewrite matcher_Cat.
    rewrite object_repr_shape.
    unfold Chr at 1. rewrite matcher_Sym_cons by reflexivity.
    rewrite matcher_Cat, matcher_Group, matcher_Cat.
    erewrite matcher_Plus_greedy;
      [reflexivity | exact Hn0 | exact Hw0 | apply segments_stop; reflexivity |].
    unfold Chr at 1.
    erewrite matcher_Star_segments; [reflexivity | reflexivity | exact Hws | reflexivity | |].
    { intros prev' gs' K. rewrite matcher_Group, matcher_Cat.
      apply matcher_Sym_stops. reflexivity. }
    rewrite (close_group_eq g_class _ _ _ _ _ (dotted w0 ws)
               (" object at 0x" +++ hex +++ (">"%char :: post)))
      by (unfold dotted; now rewrite <- app_assoc).
    rewrite matcher_Cat, matcher_Lit_app.
    rewrite matcher_Cat.
    erewrite matcher_Plus_greedy; [reflexivity | exact Hhn | exact Hh | reflexivity |].
    unfold Chr. rewrite matcher_Sym_cons by reflexivity.
    rewrite (close_group_eq 1 _ _ _ _ _ (object_repr (dotted w0 ws) hex) post)
      by (rewrite <- object_repr_shape; reflexivity).
    unfold final. cbn [andb]. reflexivity. }
  rewrite Hm. f_equal. f_equal.
  apply consumed_app.
Qed.

Lemma name_char_not_blank : forall x, name_char x = true -> Ascii.eqb " " x = false.
Proof.
  intros x H. destruct (Ascii.eqb_spec " " x) as [<-|]; [discriminate | reflexivity].
Qed.

(** On the representation of an enum member the first alternative of the
    pattern fails: it cannot leave the name, and [ object at 0x] does not
    begin inside the name nor at the colon after it. *)
Lemma class_alternative_fails_on_enum : forall prev gs k w0 ws (rest : str),
  word w0 -> Forall word ws ->
  matcher (Group 1 (Cats [Chr "<";
                          Group g_class (Cat (Plus (Sym re_word))
                                             (Star (Group 3 (Cat (Chr ".") (Plus (Sym re_word))))));
                          Lit " object at 0x";
                          Plus (Sym hexdigit);
                          Chr ">"]))
          (mkState prev ("<"%char :: w0 ++ segments ws ++ (": " +++ rest)) gs) k
  = None.
Proof.
  intros prev gs k w0 ws rest H0 Hws.
  rewrite matcher_Group. cbn [Cats]. rewrite matcher_Cat.
  unfold Chr at 1. rewrite matcher_Sym_cons by reflexivity.
  rewrite matcher_Cat. rewrite app_assoc.
  apply (matcher_within_none name_char).
  - cbn [within Plus Chr]. repeat split; intros x Hx; unfold name_char.
    + now rewrite Hx.
    + now rewrite Hx.
    + apply Ascii.eqb_eq in Hx. now subst x.
    + now rewrite Hx.
    + now rewrite Hx.
  - reflexivity.
  - now apply dotted_name_chars.
  - intros z1 z2 prev' gs' E.
    unfold close_group. cbn [st_prev st_rest st_groups].
    rewrite matcher_Cat, matcher_Lit.
    assert (Hz2 : all_in name_char z2).
    { pose proof (dotted_name_chars w0 ws H0 Hws) as Hd. unfold dotted in Hd.
      rewrite E in Hd. unfold all_in in Hd. rewrite Forall_app in Hd. tauto. }
    destruct z2 as [|x z2]; [reflexivity|].
    cbn [text list_ascii_of_string app startswith].
    inversion Hz2 as [|? ? Hx _]; subst. now rewrite (name_char_not_blank x Hx).
Qed.

(** The match on the representation of an enum member. *)
Lemma enum_repr_match : forall prev w0 ws digits (post : str),
  word w0 -> Forall word ws ->
  digits <> [] -> all_in re_digit digits ->
  match_here _default_pybind11_repr_re false prev (enum_repr (dotted w0 ws) digits ++ post)
  = Some (mkMatch (enum_repr (dotted w0 ws) digits) post (Some ">"%char)
                  ((4, enum_repr (dotted w0 ws) digits) :: (g_enum, dotted w0 ws)
                   :: segment_groups 6 ws ++ [])).
Proof.
  intros prev w0 ws digits post H0 Hws Hdn Hd.
  pose proof H0 as [Hn0 Hw0].
  unfold match_here.
  match goal with |- context [matcher _ _ ?k] => set (final := k) end.
  assert (Hm : matcher _default_pybind11_repr_re
                 (mkState prev (enum_repr (dotted w0 ws) digits ++ post) []) final
               = Some (mkState (Some ">"%char) post
                         ((4, enum_repr (dotted w0 ws) digits) :: (g_enum, dotted w0 ws)
                          :: segment_groups 6 ws ++ []))).
  { unfold _default_pybind11_repr_re.
    rewrite enum_repr_shape.
    rewrite matcher_Alt_right by (apply class_alternative_fails_on_enum; assumption).
    rewrite matcher_Group. cbn [Cats]. rewrite matcher_Cat.
    unfold Chr at 1. rewrite matcher_Sym_cons by reflexivity.
    rewrite matcher_Cat, matcher_Group, matcher_Cat.
    erewrite matcher_Plus_greedy;
      [reflexivity | exact Hn0 | exact Hw0 | apply segments_stop; reflexivity |].
    erewrite matcher_Star_segments; [reflexivity | reflexivity | exact Hws | reflexivity | |].
    { intros prev' gs' K. rewrite matcher_Group, matcher_Cat.
      cbn [text list_ascii_of_string app].
      rewrite matcher_Sym_cons by reflexivity.
      unfold Plus. rewrite matcher_Cat. apply matcher_Sym_stops. reflexivity. }
    rewrite (close_group_eq g_enum _ _ _ _ _ (dotted w0 ws)
               (": " +++ digits +++ (">"%char :: post)))
      by (unfold dotted; now rewrite <- app_assoc).
    rewrite matcher_Cat, matcher_Lit_app.
    rewrite matcher_Cat.
    erewrite matcher_Plus_greedy; [reflexivity | exact Hdn | exact Hd | reflexivity |].
    unfold Chr. rewrite matcher_Sym_cons by reflexivity.
    rewrite (close_group_eq 4 _ _ _ _ _ (enum_repr (dotted w0 ws) digits) post)
      by (rewrite <- enum_repr_shape; reflexivity).
    unfold final. cbn [andb]. reflexivity. }
  rewrite Hm. f_equal. f_equal.
  apply consumed_app.
Qed.

Lemma object_repr_nonempty : forall c h, object_repr c h <> [].
Proof. intros c h. discriminate. Qed.

Lemma enum_repr_nonempty : forall e d, enum_repr e d <> [].
Proof. intros e d. discriminate. Qed.

Lemma assoc_segment_groups : forall n k ws gs,
  (n =? k) = false -> assoc k (segment_groups n ws ++ gs) = assoc k gs.
Proof.
  intros n k ws gs H. unfold segment_groups.
  induction ws as [|w l IH] using rev_ind; [reflexivity|].
  rewrite map_app, rev_app_distr. cbn [map rev app assoc]. now rewrite H.
Qed.

(** *** A text read piece by piece *)

Section Pieces.

Local Abbreviation subst_from := (re_sub_from _default_pybind11_repr_re replacement false).
Local Abbreviation found_from := (matches_from _default_pybind11_repr_re false).

(** Text without an opening angle bracket is passed over. *)
Lemma plain_passed : forall (s rest : str) prev,
  no_angle s ->
  subst_from prev (s ++ rest) = s ++ subst_from (last_char prev s) rest /\
  found_from prev (s ++ rest) = found_from (last_char prev s) rest.
Proof.
  induction s as [|c s IH]; intros rest prev H; [split; reflexivity|].
  inversion H as [|? ? Hc Hs]; subst. cbn [app last_char].
  destruct (IH rest (Some c) Hs) as [IH1 IH2].
  rewrite re_sub_from_cons by now apply repr_starts_with_angle.
  rewrite matches_from_cons by now apply repr_starts_with_angle.
  now rewrite IH1, IH2.
Qed.

Lemma object_piece : forall w0 ws hex (rest : str) prev,
  word w0 -> Forall word ws -> hex <> [] -> all_in hexdigit hex ->
  subst_from prev (object_repr (dotted w0 ws) hex ++ rest)
  = "..." +++ subst_from (Some ">"%char) rest /\
  exists m,
    found_from prev (object_repr (dotted w0 ws) hex ++ rest)
    = m :: found_from (Some ">"%char) rest /\
    recorded_of m = [object_repr (dotted w0 ws) hex].
Proof.
  intros w0 ws hex rest prev H0 Hws Hn Hh.
  pose proof (object_repr_match prev w0 ws hex rest H0 Hws Hn Hh) as Hm.
  assert (Ht : group_truthy
                 (mkMatch (object_repr (dotted w0 ws) hex) rest (Some ">"%char)
                    ((1, object_repr (dotted w0 ws) hex) :: (g_class, dotted w0 ws)
                     :: segment_groups 3 ws ++ [])) g_class = true).
  { unfold group_truthy, group. cbn [m_groups assoc g_class Nat.eqb].
    destruct H0 as [Hn0 _]. unfold dotted.
    destruct w0; [contradiction | reflexivity]. }
  split.
  - rewrite (re_sub_from_match _ _ _ _ _ _ Hm). cbn [m_text m_last m_after].
    unfold replacement. rewrite Ht. reflexivity.
  - eexists. split.
    + rewrite (matches_from_match _ _ _ _ _ Hm). cbn [m_text m_last m_after]. reflexivity.
    + unfold recorded_of. rewrite Ht. reflexivity.
Qed.

Lemma enum_piece : forall w0 ws digits (rest : str) prev,
  word w0 -> Forall word ws -> digits <> [] -> all_in re_digit digits ->
  subst_from prev (enum_repr (dotted w0 ws) digits ++ rest)
  = dotted w0 ws ++ subst_from (Some ">"%char) rest /\
  exists m,
    found_from prev (enum_repr (dotted w0 ws) digits ++ rest)
    = m :: found_from (Some ">"%char) rest /\
    recorded_of m = [].
Proof.
  intros w0 ws digits rest prev H0 Hws Hn Hd.
  pose proof (enum_repr_match prev w0 ws digits rest H0 Hws Hn Hd) as Hm.
  assert (Ht : group_truthy
                 (mkMatch (enum_repr (dotted w0 ws) digits) rest (Some ">"%char)
                    ((4, enum_repr (dotted w0 ws) digits) :: (g_enum, dotted w0 ws)
                     :: segment_groups 6 ws ++ [])) g_class = false).
  { unfold group_truthy, group. cbn [m_groups assoc g_class g_enum Nat.eqb].
    now rewrite assoc_segment_groups. }
  split.
  - rewrite (re_sub_from_match _ _ _ _ _ _ Hm). cbn [m_text m_last m_after].
    unfold replacement. rewrite Ht. unfold group. cbn [m_groups assoc g_enum Nat.eqb].
    reflexivity.
  - eexists. split.
    + rewrite (matches_from_match _ _ _ _ _ Hm). cbn [m_text m_last m_after]. reflexivity.
    + unfold recorded_of. rewrite Ht. reflexivity.
Qed.

(** The pieces one after the other. *)
Lemma pieces_replaced : forall ps prev,
  Forall well_formed_piece ps ->
  subst_from prev (pieces_text ps) = concat (map piece_replaced ps) /\
  flat_map recorded_of (found_from prev (pieces_text ps)) = flat_map piece_recorded ps.
Proof.
  induction ps as [|p ps IH]; intros prev H.
  - split.
    + apply re_sub_from_nil. apply repr_not_at_end.
    + unfold pieces_text. cbn [map concat].
      rewrite matches_from_nil by apply repr_not_at_end. reflexivity.
  - inversion H as [|? ? Hp Hps]; subst.
    unfold pieces_text in *. cbn [map concat flat_map].
    destruct p as [s | w0 ws hex | w0 ws digits]; cbn [piece_text piece_replaced piece_recorded].
    + destruct (plain_passed s (concat (map piece_text ps)) prev Hp) as [P1 P2].
      destruct (IH (last_char prev s) Hps) as [IH1 IH2].
      now rewrite P1, P2, IH1, IH2.
    + destruct Hp as (H0 & Hws & Hn & Hh).
      destruct (object_piece w0 ws hex (concat (map piece_text ps)) prev H0 Hws Hn Hh)
        as (P1 & m & P2 & Pm).
      destruct (IH (Some ">"%char) Hps) as [IH1 IH2].
      rewrite P1, P2, IH1. cbn [flat_map]. now rewrite Pm, IH2.
    + destruct Hp as (H0 & Hws & Hn & Hd).
      destruct (enum_piece w0 ws digits (concat (map piece_text ps)) prev H0 Hws Hn Hd)
        as (P1 & m & P2 & Pm).
      destruct (IH (Some ">"%char) Hps) as [IH1 IH2].
      rewrite P1, P2, IH1. cbn [flat_map]. now rewrite Pm, IH2.
Qed.

End Pieces.

(** [replace_default_pybind11_repr] on a text of such pieces. *)
Lemma replace_default_pieces : forall ps,
  Forall well_formed_piece ps ->
  replace_default_pybind11_repr (pieces_text ps)
  = (flat_map piece_recorded ps, concat (map piece_replaced ps)).
Proof.
  intros ps H. destruct (pieces_replaced ps None H) as [H1 H2].
  unfold replace_default_pybind11_repr.
  rewrite re_sub_from_start, H1. f_equal.
  rewrite finditer_start. unfold matches_from in H2.
  rewrite flat_map_concat_map in H2. rewrite map_map in H2.
  rewrite flat_map_concat_map. exact H2.
Qed.


(** An opening angle bracket that opens no representation can hide one:
    here the pattern of an enum member reads across the representation of
    an object, which is neither replaced by an ellipsis nor recorded. *)
Lemma stray_angle_hides_representation :
  replace_default_pybind11_repr "<a<X object at 0x1f>b: 3>"
  = ([], text "a<X object at 0x1f>b").
Proof. vm_compute. reflexivity. Qed.



(** ** Base classes before derived classes *)

Lemma nth_error_middle : forall {A} (pre : list A) x rest,
  nth_error (pre ++ x :: rest) (length pre) = Some x.
Proof.
  intros A pre x rest. rewrite nth_error_app2 by lia. now rewrite Nat.sub_diag.
Qed.

Lemma set_item_middle : forall {A} (pre : list A) x y rest,
  set_item (pre ++ x :: rest) (length pre) y = pre ++ y :: rest.
Proof.
  induction pre as [|p pre IH]; intros x y rest; simpl; [reflexivity | now rewrite IH].
Qed.

Lemma nth_error_second : forall {A} (pre : list A) x done y todo,
  nth_error (pre ++ x :: done ++ y :: todo) (length pre + 1 + length done) = Some y.
Proof.
  intros A pre x done y todo.
  change (pre ++ x :: done ++ y :: todo) with (pre ++ (x :: done) ++ y :: todo).
  rewrite app_assoc.
  replace (length pre + 1 + length done) with (length (pre ++ x :: done))
    by (rewrite length_app; simpl; lia).
  apply nth_error_middle.
Qed.

Lemma set_item_second : forall {A} (pre : list A) x done y z todo,
  set_item (pre ++ x :: done ++ y :: todo) (length pre + 1 + length done) z
  = pre ++ x :: done ++ z :: todo.
Proof.
  intros A pre x done y z todo.
  change (pre ++ x :: done ++ y :: todo) with (pre ++ (x :: done) ++ y :: todo).
  rewrite app_assoc.
  replace (length pre + 1 + length done) with (length (pre ++ x :: done))
    by (rewrite length_app; simpl; lia).
  rewrite set_item_middle. rewrite <- app_assoc. reflexivity.
Qed.

Section ClassOrderingProperties.

Variable Klass : Type.
Variable is_ : Klass -> Klass -> bool.
Variable issubclass : Klass -> Klass -> bool.

(** [is] is identity; [issubclass] is the reflexive and transitive
    closure of inheritance, and no two classes inherit from each other. *)
Hypothesis is_spec : forall a b, is_ a b = true <-> a = b.
Hypothesis issubclass_refl : forall a, issubclass a a = true.
Hypothesis issubclass_trans : forall a b c,
  issubclass a b = true -> issubclass b c = true -> issubclass a c = true.
Hypothesis issubclass_antisym : forall a b,
  issubclass a b = true -> issubclass b a = true -> a = b.

Local Abbreviation Gen := (ClassStubsGenerator Klass).
Local Abbreviation ordering := (class_ordering Klass is_ issubclass).
Local Abbreviation derives_ := (derives Klass is_ issubclass).
Local Abbreviation sweep_ := (sweep Klass is_ issubclass).
Local Abbreviation selection_ := (selection Klass is_ issubclass).

Lemma class_ordering_neg : forall a b : Gen,
  (ordering a b <? 0)%Z = derives_ a b.
Proof.
  intros a b. unfold class_ordering, derives.
  destruct (is_ (klass a) (klass b)); [reflexivity|].
  destruct (issubclass (klass a) (klass b)); [reflexivity|].
  destruct (issubclass (klass b) (klass a)); reflexivity.
Qed.

Lemma derives_true : forall a b : Gen,
  derives_ a b = true <-> klass a <> klass b /\ issubclass (klass a) (klass b) = true.
Proof.
  intros a b. unfold derives. rewrite andb_true_iff, negb_true_iff. split.
  - intros [H1 H2]. split; [|exact H2]. intros E. apply is_spec in E. congruence.
  - intros [H1 H2]. split; [|exact H2].
    destruct (is_ (klass a) (klass b)) eqn:E; [|reflexivity].
    apply is_spec in E. contradiction.
Qed.

Lemma derives_false : forall a b : Gen,
  derives_ a b = false -> issubclass (klass a) (klass b) = true -> klass a = klass b.
Proof.
  intros a b H1 H2. unfold derives in H1. rewrite H2, andb_true_r in H1.
  apply negb_false_iff in H1. now apply is_spec.
Qed.

(** The inner loop on the list [pre ++ cur :: done ++ todo], [todo] being
    the part that [j] has still to visit. *)
Lemma reorder_inner_sweep : forall todo pre cur done,
  fold_left (reorder_step Klass is_ issubclass (length pre))
            (seq (length pre + 1 + length done) (length todo))
            (pre ++ cur :: done ++ todo)
  = pre ++ fst (sweep_ cur todo) :: done ++ snd (sweep_ cur todo).
Proof.
  induction todo as [|y todo IH]; intros pre cur done; [reflexivity|].
  cbn [length seq fold_left sweep].
  unfold reorder_step at 2.
  rewrite nth_error_middle, nth_error_second.
  replace (S (length pre + 1 + length done)) with (length pre + 1 + length (done ++ [cur]))
    by (rewrite length_app; simpl; lia).
  destruct (ordering cur y <? 0)%Z.
  - rewrite set_item_middle, set_item_second.
    replace (pre ++ y :: done ++ cur :: todo) with (pre ++ y :: (done ++ [cur]) ++ todo)
      by (rewrite <- app_assoc; reflexivity).
    rewrite IH. destruct (sweep_ y todo). simpl. rewrite <- app_assoc. reflexivity.
  - replace (length (done ++ [cur])) with (length (done ++ [y]))
      by (rewrite !length_app; reflexivity).
    replace (pre ++ cur :: done ++ y :: todo) with (pre ++ cur :: (done ++ [y]) ++ todo)
      by (rewrite <- app_assoc; reflexivity).
    rewrite IH. destruct (sweep_ cur todo). simpl. rewrite <- app_assoc. reflexivity.
Qed.

Lemma sweep_length : forall rest cur, length (snd (sweep_ cur rest)) = length rest.
Proof.
  induction rest as [|y rest IH]; intros cur; simpl; [reflexivity|].
  destruct (ordering cur y <? 0)%Z.
  - specialize (IH y). destruct (sweep_ y rest). simpl in *. now rewrite IH.
  - specialize (IH cur). destruct (sweep_ cur rest). simpl in *. now rewrite IH.
Qed.

Lemma reorder_inner_spec : forall pre cur rest,
  reorder_inner Klass is_ issubclass (length (pre ++ cur :: rest)) (pre ++ cur :: rest) (length pre)
  = pre ++ fst (sweep_ cur rest) :: snd (sweep_ cur rest).
Proof.
  intros pre cur rest. unfold reorder_inner.
  replace (length (pre ++ cur :: rest) - (length pre + 1)) with (length rest)
    by (rewrite length_app; simpl; lia).
  pose proof (reorder_inner_sweep rest pre cur []) as H.
  simpl in H. rewrite Nat.add_0_r in H. exact H.
Qed.

(** The two loops compute [selection]. *)
Lemma reorder_outer_spec : forall k sorted rest,
  length rest = k ->
  fold_left (reorder_inner Klass is_ issubclass (length (sorted ++ rest)))
            (seq (length sorted) k) (sorted ++ rest)
  = sorted ++ selection_ k rest.
Proof.
  induction k as [|k IH]; intros sorted rest Hk.
  - destruct rest; [reflexivity | discriminate].
  - destruct rest as [|x rest]; [discriminate|]. injection Hk as Hk.
    cbn [seq fold_left selection].
    rewrite reorder_inner_spec.
    pose proof (sweep_length rest x) as Hl.
    destruct (sweep_ x rest) as [c r]. simpl in *.
    assert (Hr : length r = k) by lia.
    specialize (IH (sorted ++ [c]) r Hr).
    replace ((sorted ++ [c]) ++ r) with (sorted ++ c :: r) in IH
      by (rewrite <- app_assoc; reflexivity).
    replace (length (sorted ++ [c])) with (S (length sorted)) in IH
      by (rewrite length_app; simpl; lia).
    replace (length (sorted ++ x :: rest)) with (length (sorted ++ c :: r))
      by (rewrite !length_app; simpl; lia).
    rewrite IH. rewrite <- app_assoc. reflexivity.
Qed.

Lemma reorder_classes_selection : forall classes : list Gen,
  reorder_classes Klass is_ issubclass classes = selection_ (length classes) classes.
Proof.
  intros classes. unfold reorder_classes.
  exact (reorder_outer_spec (length classes) [] classes eq_refl).
Qed.

Lemma sweep_perm : forall rest cur,
  Permutation (fst (sweep_ cur rest) :: snd (sweep_ cur rest)) (cur :: rest).
Proof.
  induction rest as [|y rest IH]; intros cur; simpl; [reflexivity|].
  destruct (ordering cur y <? 0)%Z.
  - specialize (IH y). destruct (sweep_ y rest) as [c r]. simpl in *.
    eapply perm_trans; [apply perm_swap | apply perm_skip; exact IH].
  - specialize (IH cur). destruct (sweep_ cur rest) as [c r]. simpl in *.
    eapply perm_trans; [apply perm_swap|].
    eapply perm_trans; [apply perm_skip; exact IH | apply perm_swap].
Qed.

(** What a pass leaves in front is the element it started from or one of
    its ancestors. *)
Lemma sweep_ancestor : forall rest cur,
  issubclass (klass cur) (klass (fst (sweep_ cur rest))) = true.
Proof.
  induction rest as [|y rest IH]; intros cur; simpl; [apply issubclass_refl|].
  rewrite class_ordering_neg.
  destruct (derives_ cur y) eqn:E.
  - specialize (IH y). destruct (sweep_ y rest) as [c r]. simpl in *.
    apply derives_true in E. destruct E as [_ E]. eauto.
  - specialize (IH cur). destruct (sweep_ cur rest) as [c r]. simpl in *. exact IH.
Qed.

(** ... and it derives from none of the elements left after it. *)
Lemma sweep_maximal : forall rest cur,
  Forall (fun z => derives_ (fst (sweep_ cur rest)) z = false) (snd (sweep_ cur rest)).
Proof.
  induction rest as [|y rest IH]; intros cur; simpl; [constructor|].
  rewrite class_ordering_neg.
  destruct (derives_ cur y) eqn:E.
  - pose proof (sweep_ancestor rest y) as Ha.
    specialize (IH y). destruct (sweep_ y rest) as [c r]. simpl in *.
    constructor; [|exact IH].
    destruct (derives_ c cur) eqn:D; [|reflexivity].
    apply derives_true in E. destruct E as [_ E].
    apply derives_true in D. destruct D as [Dn D].
    exfalso. apply Dn. apply issubclass_antisym; eauto.
  - pose proof (sweep_ancestor rest cur) as Ha.
    specialize (IH cur). destruct (sweep_ cur rest) as [c r]. simpl in *.
    constructor; [|exact IH].
    destruct (derives_ c y) eqn:D; [|reflexivity].
    apply derives_true in D. destruct D as [Dn D].
    assert (Hcy : klass cur = klass y) by (apply derives_false; eauto).
    exfalso. apply Dn. apply issubclass_antisym; [exact D|].
    rewrite <- Hcy. exact Ha.
Qed.

Lemma selection_perm : forall k l, Permutation (selection_ k l) l.
Proof.
  induction k as [|k IH]; intros l; [destruct l; reflexivity|].
  destruct l as [|x rest]; [reflexivity|]. simpl.
  pose proof (sweep_perm rest x) as Hp.
  destruct (sweep_ x rest) as [c r]. simpl in *.
  rewrite IH. exact Hp.
Qed.

Lemma selection_sorted : forall k l,
  length l <= k ->
  StronglySorted (fun a z => derives_ a z = false) (selection_ k l).
Proof.
  induction k as [|k IH]; intros l Hl.
  - destruct l; [constructor | simpl in Hl; lia].
  - destruct l as [|x rest]; [constructor|]. simpl in *.
    pose proof (sweep_maximal rest x) as Hm.
    pose proof (sweep_length rest x) as Hn.
    destruct (sweep_ x rest) as [c r]. simpl in *.
    constructor.
    + apply IH. lia.
    + eapply Permutation_Forall; [|exact Hm].
      symmetry. apply selection_perm.
Qed.

Lemma StronglySorted_nth_error : forall {A} (R : A -> A -> Prop) l i j a b,
  StronglySorted R l -> i < j ->
  nth_error l i = Some a -> nth_error l j = Some b -> R a b.
Proof.
  intros A R l i j a b Hs. revert i j.
  induction Hs as [|x l Hs IH Hf]; intros i j Hij Hi Hj.
  - destruct i; discriminate.
  - destruct j as [|j]; [lia|]. simpl in Hj.
    destruct i as [|i]; simpl in Hi.
    + injection Hi as ->. rewrite Forall_forall in Hf. apply Hf.
      eapply nth_error_In; eauto.
    + apply (IH i j); auto. lia.
Qed.

(** C7: the class list after the reordering loops holds the same
    generators as before, and whenever the class of [b] is a strict
    ancestor of the class of [a], every occurrence of [b] comes before
    every occurrence of [a], whatever the discovery order; with [a]
    inheriting from [b], the discovery order [[a; b]] becomes [[b; a]]. *)
Theorem reorder_classes_bases_first : forall classes : list Gen,
  Permutation (reorder_classes Klass is_ issubclass classes) classes /\
  (forall i j a b,
     nth_error (reorder_classes Klass is_ issubclass classes) i = Some a ->
     nth_error (reorder_classes Klass is_ issubclass classes) j = Some b ->
     klass a <> klass b ->
     issubclass (klass a) (klass b) = true ->
     j < i) /\
  (forall a b : Gen,
     klass a <> klass b ->
     issubclass (klass a) (klass b) = true ->
     reorder_classes Klass is_ issubclass [a; b] = [b; a]).
Proof.
  intros classes. split; [|split].
  - rewrite reorder_classes_selection. apply selection_perm.
  - intros i j a b Hi Hj Hne Hsub.
    rewrite reorder_classes_selection in Hi, Hj.
    pose proof (selection_sorted (length classes) classes (le_n _)) as Hs.
    destruct (Nat.lt_trichotomy i j) as [Hlt | [Heq | Hgt]]; [| |exact Hgt].
    + pose proof (StronglySorted_nth_error _ _ _ _ _ _ Hs Hlt Hi Hj) as Hd.
      simpl in Hd.
      assert (Ht : derives_ a b = true) by (apply derives_true; auto).
      congruence.
    + subst j. rewrite Hi in Hj. injection Hj as ->. contradiction.
  - intros a b Hne Hsub.
    rewrite reorder_classes_selection. simpl.
    rewrite class_ordering_neg.
    assert (Ht : derives_ a b = true) by (apply derives_true; auto).
    rewrite Ht. reflexivity.
Qed.

End ClassOrderingProperties.

Lemma reorder_classes_bases_first_witness :
  (forall a b, example_is a b = true <-> a = b) /\
  (forall a, example_issubclass a a = true) /\
  (forall a b c, example_issubclass a b = true -> example_issubclass b c = true ->
                 example_issubclass a c = true) /\
  (forall a b, example_issubclass a b = true -> example_issubclass b a = true -> a = b) /\
  reorder_classes ExampleClass example_is example_issubclass
                  [mkClassStubs Derived; mkClassStubs Other; mkClassStubs Base]
  = [mkClassStubs Base; mkClassStubs Other; mkClassStubs Derived] /\
  forall i j a b,
    nth_error (reorder_classes ExampleClass example_is example_issubclass
                 [mkClassStubs Derived; mkClassStubs Other; mkClassStubs Base]) i = Some a ->
    nth_error (reorder_classes ExampleClass example_is example_issubclass
                 [mkClassStubs Derived; mkClassStubs Other; mkClassStubs Base]) j = Some b ->
    klass a <> klass b ->
    example_issubclass (klass a) (klass b) = true ->
    j < i.
Proof.
  assert (H1 : forall a b, example_is a b = true <-> a = b)
    by (intros [] []; simpl; split; congruence).
  assert (H2 : forall a, example_issubclass a a = true)
    by (intros []; reflexivity).
  assert (H3 : forall a b c, example_issubclass a b = true -> example_issubclass b c = true ->
                             example_issubclass a c = true)
    by (intros [] [] []; simpl; congruence).
  assert (H4 : forall a b, example_issubclass a b = true -> example_issubclass b a = true -> a = b)
    by (intros [] []; simpl; congruence).
  split; [exact H1|]. split; [exact H2|]. split; [exact H3|]. split; [exact H4|].
  split; [reflexivity|].
  exact (proj1 (proj2 (reorder_classes_bases_first ExampleClass example_is example_issubclass
                         H1 H2 H3 H4
                         [mkClassStubs Derived; mkClassStubs Other; mkClassStubs Base]))).
Defined.

(** ** Array types *)

Ltac read_literal :=
  rewrite matcher_Lit; cbn [text list_ascii_of_string app startswith Ascii.eqb Bool.eqb andb
                            length skipn last_char].

(** The match on an array type with a scalar kind [t], a shape [s] and
    further text [e] before the closing bracket. *)
Lemma numpy_array_match_shape : forall prev (t s e post : str),
  t <> [] -> all_in (none_of "[]") t ->
  s <> [] -> all_in (none_of "[]") s ->
  all_in (none_of "][") e ->
  match_here numpy_array_re false prev
             (("numpy.ndarray[" +++ t +++ "[" +++ s +++ "]" +++ e +++ "]") ++ post)
  = Some (mkMatch ("numpy.ndarray[" +++ t +++ "[" +++ s +++ "]" +++ e +++ "]") post
                  (Some "]"%char)
                  [(4, e); (2, "[" +++ s +++ "]"); (g_shape, s); (g_type, t)]).
Proof.
  intros prev t s e post Ht Pt Hs Ps Pe.
  unfold match_here.
  match goal with |- context [matcher _ _ ?k] => set (final := k) end.
  assert (Hshape : ("numpy.ndarray[" +++ t +++ "[" +++ s +++ "]" +++ e +++ "]") ++ post
                   = "numpy.ndarray[" +++ t +++ "[" +++ s +++ "]" +++ e +++ "]" +++ post).
  { cbn [text list_ascii_of_string app]. repeat (rewrite <- app_assoc; cbn [app]).
    reflexivity. }
  assert (Hm : matcher numpy_array_re
                 (mkState prev
                    (("numpy.ndarray[" +++ t +++ "[" +++ s +++ "]" +++ e +++ "]") ++ post) [])
                 final
               = final (mkState (Some "]"%char) post
                          [(4, e); (2, "[" +++ s +++ "]"); (g_shape, s); (g_type, t)])).
  { rewrite Hshape. unfold numpy_array_re. cbn [Cats].
    rewrite matcher_Cat. read_literal.
    rewrite matcher_Cat, matcher_Sym_cons by reflexivity.
    rewrite matcher_Cat. read_literal.
    rewrite matcher_Cat. unfold Chr at 1. rewrite matcher_Sym_cons by reflexivity.
    rewrite matcher_Cat, matcher_Group.
    erewrite matcher_Plus_greedy; [reflexivity | exact Ht | exact Pt | reflexivity |].
    rewrite close_group_app.
    rewrite matcher_Cat. unfold Opt.
    erewrite matcher_Alt_left; [reflexivity|].
    rewrite matcher_Group. cbn [Cats]. rewrite matcher_Cat.
    unfold Chr at 1. cbn [text list_ascii_of_string app].
    rewrite matcher_Sym_cons by reflexivity.
    rewrite matcher_Cat, matcher_Group.
    erewrite matcher_Plus_greedy; [reflexivity | exact Hs | exact Ps | reflexivity |].
    rewrite close_group_app.
    unfold Chr at 1. cbn [text list_ascii_of_string app].
    rewrite matcher_Sym_cons by reflexivity.
    rewrite (close_group_eq 2 _ _ _ _ _ ("[" +++ s +++ "]") (e ++ "]"%char :: post))
      by (cbn [text list_ascii_of_string app]; rewrite <- app_assoc; reflexivity).
    rewrite matcher_Cat, matcher_Group.
    erewrite matcher_Star_greedy; [reflexivity | exact Pe | reflexivity |].
    rewrite close_group_app.
    unfold Chr. cbn [text list_ascii_of_string].
    rewrite matcher_Sym_cons by reflexivity.
    reflexivity. }
  rewrite Hm. unfold final. cbn [andb].
  f_equal. f_equal. apply consumed_app.
Qed.

(** The match on an array type without a shape. *)
Lemma numpy_array_match_plain : forall prev (t post : str),
  t <> [] -> all_in (none_of "[]") t ->
  match_here numpy_array_re false prev (("numpy.ndarray[" +++ t +++ "]") ++ post)
  = Some (mkMatch ("numpy.ndarray[" +++ t +++ "]") post (Some "]"%char)
                  [(4, []); (g_type, t)]).
Proof.
  intros prev t post Ht Pt.
  unfold match_here.
  match goal with |- context [matcher _ _ ?k] => set (final := k) end.
  assert (Hshape : ("numpy.ndarray[" +++ t +++ "]") ++ post
                   = "numpy.ndarray[" +++ t +++ "]" +++ post).
  { cbn [text list_ascii_of_string app]. repeat (rewrite <- app_assoc; cbn [app]).
    reflexivity. }
  assert (Hm : matcher numpy_array_re
                 (mkState prev (("numpy.ndarray[" +++ t +++ "]") ++ post) []) final
               = final (mkState (Some "]"%char) post [(4, []); (g_type, t)])).
  { rewrite Hshape. unfold numpy_array_re. cbn [Cats].
    rewrite matcher_Cat. read_literal.
    rewrite matcher_Cat, matcher_Sym_cons by reflexivity.
    rewrite matcher_Cat. read_literal.
    rewrite matcher_Cat. unfold Chr at 1. rewrite matcher_Sym_cons by reflexivity.
    rewrite matcher_Cat, matcher_Group.
    erewrite matcher_Plus_greedy; [reflexivity | exact Ht | exact Pt | reflexivity |].
    rewrite close_group_app.
    rewrite matcher_Cat. unfold Opt.
    rewrite matcher_Alt_right.
    2: { rewrite matcher_Group. cbn [Cats]. rewrite matcher_Cat.
         unfold Chr at 1. apply matcher_Sym_stops. reflexivity. }
    rewrite matcher_Eps.
    rewrite matcher_Cat, matcher_Group.
    cbn [text list_ascii_of_string app].
    erewrite (matcher_Star_greedy _ [] _ ("]"%char :: post));
      [reflexivity | constructor | reflexivity |].
    rewrite (close_group_eq 4 _ _ _ _ _ [] ("]"%char :: post)) by reflexivity.
    unfold Chr. cbn [last_char].
    rewrite matcher_Sym_cons by reflexivity.
    unfold final. cbn [andb]. reflexivity. }
  rewrite Hm. unfold final. cbn [andb].
  f_equal. f_equal. apply consumed_app.
Qed.

(** The match on an array type, and what replaces it. *)
Lemma array_type_match : forall prev a (post : str),
  well_formed_array a ->
  exists m,
    match_here numpy_array_re false prev (array_text a ++ post) = Some m /\
    m_text m = array_text a /\ m_after m = post /\ m_last m = Some "]"%char /\
    forall bare, replace_numpy_array bare m = array_rewritten bare a.
Proof.
  intros prev [t [[s e]|]] post (Ht & Pt & Hsh); unfold array_rewritten;
    cbn [scalar_kind shape_and_extra] in *.
  - destruct Hsh as (Hs & Ps & Pe).
    assert (Etext : array_text (mkArrayType t (Some (s, e)))
                    = "numpy.ndarray[" +++ t +++ "[" +++ s +++ "]" +++ e +++ "]").
    { unfold array_text. cbn [scalar_kind shape_and_extra text list_ascii_of_string app].
      repeat (rewrite <- app_assoc; cbn [app]). reflexivity. }
    rewrite Etext.
    eexists. split; [exact (numpy_array_match_shape prev t s e post Ht Pt Hs Ps Pe)|].
    cbn [m_text m_after m_last].
    split; [reflexivity|]. split; [reflexivity|]. split; [reflexivity|].
    intros bare. unfold replace_numpy_array, group.
    cbn [m_groups assoc g_type g_shape Nat.eqb].
    destruct bare; [reflexivity|].
    destruct s as [|c s]; [contradiction|].
    unfold numpy_scalar. cbn [text list_ascii_of_string app].
    rewrite <- !app_assoc. reflexivity.
  - assert (Etext : array_text (mkArrayType t None) = "numpy.ndarray[" +++ t +++ "]").
    { unfold array_text. cbn [scalar_kind shape_and_extra text list_ascii_of_string app].
      reflexivity. }
    rewrite Etext.
    eexists. split; [exact (numpy_array_match_plain prev t post Ht Pt)|].
    cbn [m_text m_after m_last].
    split; [reflexivity|]. split; [reflexivity|]. split; [reflexivity|].
    intros bare. unfold replace_numpy_array, group.
    cbn [m_groups assoc g_type g_shape Nat.eqb].
    destruct bare; reflexivity.
Qed.

(** No match begins inside the text before an array type, when that
    text does not hold the opening of an array. *)
Lemma array_start_not_before : forall (u X rest : str) c,
  u <> [] ->
  u ++ "numpy.ndarray[" +++ X = "numpy" +++ (c :: "ndarray[" +++ rest) ->
  occurs "ndarray[" u.
Proof.
  intros u X rest c Hu H.
  cbn [text list_ascii_of_string app] in H.
  destruct u as [|c1 u]; [contradiction|].
  do 13 (destruct u as [|? u]; [exfalso; cbn [app] in H; congruence|]).
  cbn [app] in H.
  injection H as _ _ _ _ _ _ -> -> -> -> -> -> -> -> _.
  eexists [_; _; _; _; _; _], u. reflexivity.
Qed.

Lemma no_array_before : forall (before : str) a (rest : str) pre1 c pre2 prev,
  ~ occurs "ndarray[" before ->
  before = pre1 ++ c :: pre2 ->
  match_here numpy_array_re false prev (c :: pre2 ++ array_text a ++ rest) = None.
Proof.
  intros before a rest pre1 c pre2 prev Hn E.
  destruct (match_here numpy_array_re false prev (c :: pre2 ++ array_text a ++ rest))
    as [m|] eqn:Em; [|reflexivity].
  exfalso. apply Hn.
  destruct (numpy_array_start _ _ _ _ Em) as (x & rest' & Hs).
  assert (Ho : occurs "ndarray[" (c :: pre2)).
  { apply (array_start_not_before (c :: pre2)
             (scalar_kind a
              +++ match shape_and_extra a with
                  | Some (shape, extra) => "[" +++ shape +++ "]" +++ extra
                  | None => []
                  end +++ "]" +++ rest) rest' x); [discriminate|].
    rewrite <- Hs. unfold array_text.
    cbn [text list_ascii_of_string app]. repeat (rewrite <- app_assoc; cbn [app]).
    reflexivity. }
  subst before. now apply occurs_suffix.
Qed.

(** The substitution over a text with array types in it. *)
Lemma arrays_sub : forall bare ps tail prev,
  Forall (fun pa => ~ occurs "ndarray[" (fst pa) /\ well_formed_array (snd pa)) ps ->
  ~ occurs "ndarray[" tail ->
  re_sub_from numpy_array_re (replace_numpy_array bare) false prev (arrays_text ps tail)
  = arrays_rewritten bare ps tail.
Proof.
  intros bare ps tail. induction ps as [|[before a] ps IH]; intros prev H Ht.
  - cbn [arrays_text arrays_rewritten]. apply re_sub_from_none. apply search_none.
    + intros pre c post prev' ->. apply numpy_array_needs_bracket.
      intros Ho. apply Ht. now apply occurs_suffix.
    + now apply numpy_array_needs_bracket.
    + intros prev'. apply numpy_array_needs_bracket.
      intros (x & y & Hxy). destruct x; discriminate.
  - inversion H as [|? ? [Hb Ha] Hps]; subst. cbn [fst snd] in *.
    cbn [arrays_text arrays_rewritten].
    destruct (array_type_match (last_char prev before) a (arrays_text ps tail) Ha)
      as (m & Hm & Mt & Ma & Ml & Mr).
    rewrite (re_sub_from_some _ _ _ _ _ before m).
    + rewrite Mt, Ma, Ml, Mr.
      assert (Hne : (match array_text a with [] => true | _ :: _ => false end) = false)
        by reflexivity.
      rewrite Hne. now rewrite IH.
    + apply search_after_prefix; [|exact Hm].
      intros pre1 c pre2 prev' E.
      now apply (no_array_before before a _ pre1 c pre2 prev').
Qed.

(** C8, as stated, on the example of the specification: the text
    [ndarray[float32[3,3]]] is left as it is in both modes, and with the
    qualifier [numpy.] in front the annotated mode gives neither spaces in
    the shape nor the bare scalar kind. *)
Lemma array_example_not_rewritten_as_stated :
  apply_classname_replacements false "ndarray[float32[3,3]]" = "ndarray[float32[3,3]]" /\
  apply_classname_replacements true "ndarray[float32[3,3]]" = "ndarray[float32[3,3]]" /\
  apply_classname_replacements false "numpy.ndarray[float32[3,3]]"
    = "numpy.ndarray[numpy.float32, _Shape[3,3]]" /\
  apply_classname_replacements false "ndarray[float32[3,3]]"
    <> (text "ArrayType[float32, Shape[3, 3]]").
Proof. repeat split; try reflexivity. discriminate. Qed.

(** C8, amended: in a type text, every qualified array type
    [numpy.ndarray] with a scalar kind and a bracketed shape becomes, in the
    annotated mode, [numpy.ndarray[scalar, _Shape[dims]]], the sized scalar
    kinds being qualified with [numpy.], the dimensions kept as they are
    written and the text between the shape and the closing bracket dropped;
    without a shape it becomes [numpy.ndarray[scalar]].  In the bare mode
    every one of them collapses to [numpy.ndarray].  The text around the
    array types, which holds no other opening of an array ([ndarray]
    followed by a bracket), stays as it is under this rule; the rule for
    the names of the typing module then reads the result.  So
    [numpy.ndarray[float32[3,3]]] gives
    [numpy.ndarray[numpy.float32, _Shape[3,3]]] and [numpy.ndarray]. *)
Theorem numpy_array_rewritten :
  forall (bare : bool) (ps : list (str * ArrayType)) (tail : str),
  Forall (fun pa => ~ occurs "ndarray[" (fst pa) /\ well_formed_array (snd pa)) ps ->
  ~ occurs "ndarray[" tail ->
  re_sub numpy_array_re (replace_numpy_array bare) (arrays_text ps tail)
  = arrays_rewritten bare ps tail /\
  apply_classname_replacements bare (arrays_text ps tail)
  = rewrite_identifiers (arrays_rewritten bare ps tail) /\
  apply_classname_replacements false "numpy.ndarray[float32[3,3]]"
  = "numpy.ndarray[numpy.float32, _Shape[3,3]]" /\
  apply_classname_replacements true "numpy.ndarray[float32[3,3]]" = "numpy.ndarray".
Proof.
  intros bare ps tail H Ht.
  assert (Hs : re_sub numpy_array_re (replace_numpy_array bare) (arrays_text ps tail)
               = arrays_rewritten bare ps tail)
    by (rewrite re_sub_from_start; now apply arrays_sub).
  split; [exact Hs|]. split; [|split; reflexivity].
  unfold apply_classname_replacements, GLOBAL_CLASSNAME_REPLACEMENTS.
  cbn [fold_left fst snd]. rewrite Hs, re_sub_from_start.
  apply (typing_sub_rewrites _ _ None (Nat.le_refl _)). exact I.
Qed.

Lemma no_array_opening : forall s : str,
  forallb (fun i => negb (startswith "ndarray[" (skipn i s))) (seq 0 (S (length s))) = true ->
  ~ occurs "ndarray[" s.
Proof.
  intros s H (pre & post & E).
  rewrite forallb_forall in H.
  specialize (H (length pre)).
  assert (Hin : In (length pre) (seq 0 (S (length s)))).
  { apply in_seq. subst s. rewrite length_app. lia. }
  specialize (H Hin). subst s. rewrite skipn_length_app in H.
  now rewrite startswith_app in H.
Qed.

Lemma numpy_array_rewritten_witness :
  let ps := [(text "a: ", mkArrayType "float32" (Some (text "3,3", text "")));
             (text ", b: List[", mkArrayType "int32" None)] in
  Forall (fun pa => ~ occurs "ndarray[" (fst pa) /\ well_formed_array (snd pa)) ps /\
  ~ occurs "ndarray[" (text "]") /\
  arrays_text ps "]" = "a: numpy.ndarray[float32[3,3]], b: List[numpy.ndarray[int32]]" /\
  re_sub numpy_array_re (replace_numpy_array false)
         "a: numpy.ndarray[float32[3,3]], b: List[numpy.ndarray[int32]]"
  = "a: numpy.ndarray[numpy.float32, _Shape[3,3]], b: List[numpy.ndarray[numpy.int32]]".
Proof.
  cbv zeta.
  assert (H : Forall (fun pa => ~ occurs "ndarray[" (fst pa) /\ well_formed_array (snd pa))
                [(text "a: ", mkArrayType "float32" (Some (text "3,3", text "")));
                 (text ", b: List[", mkArrayType "int32" None)]).
  { repeat constructor; try discriminate; apply no_array_opening; reflexivity. }
  assert (Ht : ~ occurs "ndarray[" (text "]")) by (apply no_array_opening; reflexivity).
  split; [exact H|]. split; [exact Ht|]. split; [reflexivity|].
  exact (proj1 (numpy_array_rewritten false _ (text "]") H Ht)).
Defined.

(** ** Rendering a class member *)

(** A member whose argument text does not begin with the letters [self] is
    marked static, and a member whose first parameter is [self] is not and
    loses the annotation of its receiver. *)
Example class_member_static_and_receiver :
  forall g,
    fst (class_member_to_lines []
           (mkFunctionStubs "f" (mkMember None "m.A.f") (Some (text "m"))
                            [mkSig "f" "x: int" "None"]) g)
    = Ok [text "@staticmethod"; text "def f(x: int) -> None: ..."] /\
    fst (class_member_to_lines []
           (mkFunctionStubs "f" (mkMember None "m.A.f") (Some (text "m"))
                            [mkSig "f" "self: m.A, x: int" "None"]) g)
    = Ok [text "def f(self, x: int) -> None: ..."].
Proof. intros g. split; reflexivity. Qed.

(** C9 on the code: the static member [f(selfish: int, b: int)] has a
    first parameter that is not [self], yet it is rendered without the
    [@staticmethod] marker and with its first parameter replaced by
    [self]: the test is on the first four letters of the argument text. *)
Theorem class_member_self_prefix_not_static :
  forall g,
    fst (class_member_to_lines []
           (mkFunctionStubs "f" (mkMember None "m.A.f") (Some (text "m"))
                            [mkSig "f" "selfish: int, b: int" "None"]) g)
    = Ok [text "def f(self, b: int) -> None: ..."].
Proof. intros g. reflexivity. Qed.

(** ** Splitting an argument text (split_arguments) *)

Lemma split_top_nonempty : forall s d cur, split_top d cur s <> [].
Proof.
  induction s as [|c s IH]; intros d cur; simpl.
  - discriminate.
  - destruct (Ascii.eqb c "["); [apply IH|].
    destruct (Ascii.eqb c "]"); [apply IH|].
    destruct (Ascii.eqb c "," && (d =? 0)); [discriminate | apply IH].
Qed.

Lemma join_cons : forall sep p ps,
  ps <> [] -> join sep (p :: ps) = p ++ sep ++ join sep ps.
Proof.
  intros sep p [|q ps] H; [contradiction | reflexivity].
Qed.

Lemma split_top_join : forall s d cur, join "," (split_top d cur s) = cur ++ s.
Proof.
  induction s as [|c s IH]; intros d cur; cbn [split_top].
  - simpl. now rewrite app_nil_r.
  - destruct (Ascii.eqb c "[") eqn:Eo.
    { rewrite IH, <- app_assoc. reflexivity. }
    destruct (Ascii.eqb c "]") eqn:Ec.
    { rewrite IH, <- app_assoc. reflexivity. }
    destruct (Ascii.eqb c ",") eqn:Ek; cbn [andb].
    + destruct (d =? 0).
      * rewrite join_cons by apply split_top_nonempty.
        rewrite IH. apply Ascii.eqb_eq in Ek. subst c. reflexivity.
      * rewrite IH, <- app_assoc. reflexivity.
    + rewrite IH, <- app_assoc. reflexivity.
Qed.

Lemma split_top_length : forall s d cur,
  length (split_top d cur s) = S (top_level_commas_from d s).
Proof.
  induction s as [|c s IH]; intros d cur; simpl; [reflexivity|].
  destruct (Ascii.eqb c "["); [apply IH|].
  destruct (Ascii.eqb c "]"); [apply IH|].
  destruct (Ascii.eqb c ","); cbn [andb]; [|apply IH].
  destruct (Nat.eqb_spec d 0) as [->|_]; simpl; [now rewrite IH | apply IH].
Qed.

Lemma depth_after_app : forall a d b,
  depth_after d (a ++ b) =
  match depth_after d a with Some d' => depth_after d' b | None => None end.
Proof.
  induction a as [|c a IH]; intros d b; simpl; [reflexivity|].
  destruct (Ascii.eqb c "["); [apply IH|].
  destruct (Ascii.eqb c "]"); [destruct d; [reflexivity | apply IH] | apply IH].
Qed.

Lemma top_level_commas_from_app : forall a d d' b,
  depth_after d a = Some d' ->
  top_level_commas_from d (a ++ b) =
  top_level_commas_from d a + top_level_commas_from d' b.
Proof.
  induction a as [|c a IH]; intros d d' b H; simpl in *.
  - congruence.
  - destruct (Ascii.eqb c "["); [now apply IH|].
    destruct (Ascii.eqb c "]").
    { destruct d; [discriminate | now apply IH]. }
    destruct (Ascii.eqb c "," && (d =? 0)); simpl; [f_equal|]; now apply IH.
Qed.

Lemma closed_segment_intro : forall cur,
  depth_after 0 cur = Some 0 -> top_level_commas cur = 0 -> closed_segment cur.
Proof.
  intros cur H1 H2. split; [|exact H2]. unfold balanced. now rewrite H1.
Qed.

Lemma snoc_open_segment : forall cur c d d',
  depth_after 0 cur = Some d ->
  top_level_commas cur = 0 ->
  depth_after d [c] = Some d' ->
  top_level_commas_from d [c] = 0 ->
  depth_after 0 (cur ++ [c]) = Some d' /\ top_level_commas (cur ++ [c]) = 0.
Proof.
  intros cur c d d' Hd Hc H1 H2. split.
  - rewrite depth_after_app, Hd. exact H1.
  - unfold top_level_commas in *.
    rewrite (top_level_commas_from_app _ _ _ _ Hd), Hc, H2. reflexivity.
Qed.

Lemma split_top_closed : forall s d cur,
  depth_after 0 cur = Some d ->
  top_level_commas cur = 0 ->
  depth_after d s = Some 0 ->
  Forall closed_segment (split_top d cur s).
Proof.
  induction s as [|c s IH]; intros d cur Hd Hc Hs; simpl in *.
  - constructor; [|constructor]. apply closed_segment_intro; congruence.
  - destruct (Ascii.eqb c "[") eqn:Eo.
    { destruct (snoc_open_segment cur c d (S d)) as [A B]; auto;
        try (simpl; rewrite Eo; reflexivity). }
    destruct (Ascii.eqb c "]") eqn:Ec.
    { destruct d as [|d']; [discriminate|].
      destruct (snoc_open_segment cur c (S d') d') as [A B]; auto;
        try (simpl; rewrite Eo, Ec; reflexivity). }
    destruct (Ascii.eqb c "," && (d =? 0)) eqn:Ek.
    + apply andb_prop in Ek. destruct Ek as [_ Ek]. apply Nat.eqb_eq in Ek. subst d.
      constructor.
      * now apply closed_segment_intro.
      * apply IH; auto.
    + destruct (snoc_open_segment cur c d d) as [A B]; auto;
        try (simpl; rewrite Eo, Ec, ?Ek; reflexivity).
Qed.

Lemma slice_empty : forall (s : str) n, slice s n n = [].
Proof. intros s n. unfold slice. now rewrite Nat.sub_diag. Qed.

Lemma slice_snoc : forall (pre : str) c cs p,
  p <= length pre ->
  slice (pre ++ c :: cs) p (S (length pre)) = slice (pre ++ c :: cs) p (length pre) ++ [c].
Proof.
  intros pre c cs p Hp. unfold slice.
  rewrite skipn_app.
  replace (p - length pre) with 0 by lia. cbn [skipn].
  assert (Hl : length (skipn p pre) = length pre - p) by apply length_skipn.
  replace (S (length pre) - p) with (length (skipn p pre) + 1) by lia.
  replace (length pre - p) with (length (skipn p pre) + 0) by lia.
  rewrite !firstn_app_2. simpl. now rewrite app_nil_r.
Qed.

Lemma slice_to_end : forall (s : str) p,
  slice s p (length s) = skipn p s.
Proof.
  intros s p. unfold slice. apply firstn_all2. rewrite length_skipn. lia.
Qed.

(** The loop of the source computes [split_top]. *)
Lemma split_arguments_loop_spec : forall cs pre prev_stop d acc,
  prev_stop <= length pre ->
  depth_after d cs = Some 0 ->
  exists prev' acc',
    split_arguments_loop (pre ++ cs) (length pre) cs prev_stop (Z.of_nat d) acc
      = Ok (prev', 0%Z, acc') /\
    acc' ++ [skipn prev' (pre ++ cs)]
      = acc ++ split_top d (slice (pre ++ cs) prev_stop (length pre)) cs.
Proof.
  induction cs as [|c cs IH]; intros pre prev_stop d acc Hp Hd.
  - simpl in Hd. injection Hd as ->. simpl.
    exists prev_stop, acc. split; [reflexivity|].
    rewrite app_nil_r. now rewrite slice_to_end.
  - assert (Hnext : forall prev_stop' d' acc',
              prev_stop' <= S (length pre) ->
              depth_after d' cs = Some 0 ->
              exists prev' acc'',
                split_arguments_loop (pre ++ c :: cs) (S (length pre)) cs prev_stop'
                                     (Z.of_nat d') acc' = Ok (prev', 0%Z, acc'') /\
                acc'' ++ [skipn prev' (pre ++ c :: cs)]
                  = acc' ++ split_top d' (slice (pre ++ c :: cs) prev_stop' (S (length pre))) cs).
    { intros prev_stop' d' acc' Hp' Hd'.
      specialize (IH (pre ++ [c]) prev_stop' d' acc').
      rewrite <- app_assoc in IH. simpl in IH.
      rewrite length_app in IH. simpl in IH. rewrite Nat.add_1_r in IH.
      apply IH; auto. }
    simpl in Hd. simpl split_arguments_loop. simpl split_top.
    destruct (Ascii.eqb c "[") eqn:Eo.
    { destruct (Hnext prev_stop (S d) acc) as (p' & a' & H1 & H2); auto.
      exists p', a'. split.
      - rewrite <- H1. f_equal. lia.
      - rewrite H2, slice_snoc by assumption. reflexivity. }
    destruct (Ascii.eqb c "]") eqn:Ec.
    { destruct d as [|d']; [discriminate|].
      destruct (Hnext prev_stop d' acc) as (p' & a' & H1 & H2); auto.
      replace (Z.of_nat (S d') - 1)%Z with (Z.of_nat d') by lia.
      destruct (Z.leb_spec 0 (Z.of_nat d')); [|lia].
      exists p', a'. split; [exact H1|].
      rewrite H2, slice_snoc by assumption. reflexivity. }
    replace (Z.of_nat d =? 0)%Z with (d =? 0)
      by (destruct d; reflexivity).
    destruct (Ascii.eqb c "," && (d =? 0)) eqn:Ek.
    + apply andb_prop in Ek. destruct Ek as [_ Ek]. apply Nat.eqb_eq in Ek. subst d.
      destruct (Hnext (length pre + 1) 0 (acc ++ [slice (pre ++ c :: cs) prev_stop (length pre)]))
        as (p' & a' & H1 & H2); [lia | assumption |].
      exists p', a'. split; [exact H1|].
      rewrite H2. rewrite Nat.add_1_r, slice_empty, <- app_assoc. reflexivity.
    + destruct (Hnext prev_stop d acc) as (p' & a' & H1 & H2); auto.
      exists p', a'. split; [exact H1|].
      rewrite H2, slice_snoc by assumption. reflexivity.
Qed.

Lemma balanced_depth : forall s, balanced s = true -> depth_after 0 s = Some 0.
Proof.
  intros s. unfold balanced.
  destruct (depth_after 0 s) as [[|n]|]; intros H; [reflexivity | discriminate | discriminate].
Qed.

Lemma split_arguments_nonblank : forall sig,
  strip (args sig) <> [] ->
  balanced (args sig) = true ->
  split_arguments sig = Ok (split_top 0 [] (args sig)).
Proof.
  intros sig Hs Hb. unfold split_arguments.
  destruct (strip (args sig)) as [|x xs] eqn:E; [contradiction|]. simpl length. simpl Nat.eqb.
  destruct (split_arguments_loop_spec (args sig) [] 0 0 []) as (p' & a' & H1 & H2);
    [simpl; lia | now apply balanced_depth |].
  simpl in H1, H2. rewrite H1. simpl. rewrite H2, slice_empty. reflexivity.
Qed.

(** C10, as stated, at the argument text made of one blank: the brackets
    are balanced, no segment is returned, and joining the segments does
    not give the text back. *)
Lemma split_arguments_blank_text_lost :
  balanced " " = true /\
  split_arguments (mkSig "f" " " "None") = Ok [] /\
  join "," [] <> (" " : str).
Proof.
  split; [reflexivity|]. split; [reflexivity|]. discriminate.
Qed.

(** C10, amended: for an argument text with balanced square brackets,
    [split_arguments] returns; a blank text (empty once stripped) yields
    the empty list; any other text is split exactly at its commas outside
    all square brackets: joining the segments with a comma gives the text
    back, every segment has balanced brackets and no comma outside them,
    and there is one segment more than there are such commas. *)
Theorem split_arguments_at_top_level_commas : forall sig,
  balanced (args sig) = true ->
  exists segs,
    split_arguments sig = Ok segs /\
    (strip (args sig) = [] -> segs = []) /\
    (strip (args sig) <> [] ->
       join "," segs = args sig /\
       Forall closed_segment segs /\
       length segs = S (top_level_commas (args sig))).
Proof.
  intros sig Hb.
  destruct (strip (args sig)) as [|x xs] eqn:E.
  - exists []. split.
    + unfold split_arguments. now rewrite E.
    + split; [reflexivity | intros H; now contradiction H].
  - exists (split_top 0 [] (args sig)). split.
    + apply split_arguments_nonblank; [rewrite E; discriminate | exact Hb].
    + split; [discriminate|]. intros _. split; [|split].
      * apply split_top_join.
      * apply split_top_closed; try reflexivity. now apply balanced_depth.
      * apply split_top_length.
Qed.

Lemma split_arguments_at_top_level_commas_witness :
  balanced (args (mkSig "f" "a: Dict[str, int], b: int = 1" "None")) = true /\
  exists segs,
    split_arguments (mkSig "f" "a: Dict[str, int], b: int = 1" "None") = Ok segs /\
    (strip "a: Dict[str, int], b: int = 1" = [] -> segs = []) /\
    (strip "a: Dict[str, int], b: int = 1" <> [] ->
       join "," segs = "a: Dict[str, int], b: int = 1" /\
       Forall closed_segment segs /\
       length segs = S (top_level_commas "a: Dict[str, int], b: int = 1")).
Proof.
  split; [reflexivity|].
  apply (split_arguments_at_top_level_commas (mkSig "f" "a: Dict[str, int], b: int = 1" "None")).
  reflexivity.
Defined.

(** ** Splitting and joining at one character *)

Lemma split_char_sep : forall c cur (s : str),
  split_go [c] 0 cur (c :: s) = rev cur :: split_go [c] 0 [] s.
Proof.
  intros c cur s. cbn [split_go startswith]. rewrite Ascii.eqb_refl. reflexivity.
Qed.

Lemma split_char_other : forall c x cur (s : str),
  x <> c -> split_go [c] 0 cur (x :: s) = split_go [c] 0 (x :: cur) s.
Proof.
  intros c x cur s H. cbn [split_go startswith].
  destruct (Ascii.eqb_spec c x) as [->|_]; [contradiction | reflexivity].
Qed.

Lemma split_go_nonempty : forall sep (s : str) skip cur, split_go sep skip cur s <> [].
Proof.
  induction s as [|x s IH]; intros skip cur; cbn [split_go]; [discriminate|].
  destruct skip; [|apply IH].
  destruct (startswith sep (x :: s)); [discriminate | apply IH].
Qed.

(** The pieces before and after a separator are split on their own. *)
Lemma split_char_app : forall c (a b : str) cur,
  split_go [c] 0 cur (a ++ c :: b) = split_go [c] 0 cur a ++ split_go [c] 0 [] b.
Proof.
  intros c a b. induction a as [|x a IH]; intros cur.
  - cbn [app]. rewrite split_char_sep. reflexivity.
  - cbn [app]. destruct (Ascii.eqb_spec x c) as [->|Hx].
    + rewrite !split_char_sep, IH. reflexivity.
    + rewrite !split_char_other by exact Hx. apply IH.
Qed.

Lemma split_char_line : forall c (a : str) cur,
  ~ In c a -> split_go [c] 0 cur a = [rev cur ++ a].
Proof.
  intros c a. induction a as [|x a IH]; intros cur H.
  - cbn [split_go]. now rewrite app_nil_r.
  - rewrite split_char_other by (intros ->; apply H; now left).
    rewrite IH by (intros Hin; apply H; now right).
    cbn [rev]. now rewrite <- app_assoc.
Qed.

Lemma join_char_split : forall c (s : str) cur,
  join [c] (split_go [c] 0 cur s) = rev cur ++ s.
Proof.
  intros c s. induction s as [|x s IH]; intros cur.
  - cbn [split_go join]. now rewrite app_nil_r.
  - destruct (Ascii.eqb_spec x c) as [->|Hx].
    + rewrite split_char_sep.
      rewrite join_cons by apply split_go_nonempty.
      rewrite IH. reflexivity.
    + rewrite split_char_other by exact Hx. rewrite IH.
      cbn [rev]. now rewrite <- app_assoc.
Qed.

Lemma split_char_pieces : forall c (s : str) cur,
  ~ In c cur -> Forall (fun l => ~ In c l) (split_go [c] 0 cur s).
Proof.
  intros c s. induction s as [|x s IH]; intros cur H.
  - cbn [split_go]. constructor; [|constructor]. now rewrite <- in_rev.
  - destruct (Ascii.eqb_spec x c) as [->|Hx].
    + rewrite split_char_sep. constructor; [now rewrite <- in_rev|].
      apply IH. intros [].
    + rewrite split_char_other by exact Hx. apply IH.
      intros [->|Hin]; [now apply Hx | now apply H].
Qed.

Lemma join_app : forall sep (l1 l2 : list str),
  l1 <> [] -> l2 <> [] -> join sep (l1 ++ l2) = join sep l1 ++ sep ++ join sep l2.
Proof.
  intros sep l1 l2 H1 H2. induction l1 as [|p l1 IH]; [contradiction|].
  destruct l1 as [|q l1].
  - destruct l2 as [|r l2]; [contradiction|]. reflexivity.
  - change ((p :: q :: l1) ++ l2) with (p :: (q :: l1) ++ l2).
    change (join sep (p :: (q :: l1) ++ l2))
      with (p ++ sep ++ join sep ((q :: l1) ++ l2)).
    rewrite IH by discriminate.
    change (join sep (p :: q :: l1)) with (p ++ sep ++ join sep (q :: l1)).
    now rewrite <- !app_assoc.
Qed.

Lemma split_char_join : forall c (ls : list str),
  ls <> [] -> Forall (fun l => ~ In c l) ls -> split [c] (join [c] ls) = ls.
Proof.
  intros c ls Hn H. induction H as [|l ls Hl Hls IH]; [contradiction|].
  destruct ls as [|l' ls].
  - cbn [join]. unfold split. now rewrite split_char_line.
  - change (join [c] (l :: l' :: ls)) with (l ++ c :: join [c] (l' :: ls)).
    unfold split. rewrite split_char_app, split_char_line by exact Hl.
    cbn [rev app]. f_equal. apply IH. discriminate.
Qed.

(** ** Stripping *)

Lemma lstrip_with_stops : forall f (s : str), stops f (lstrip_with f s).
Proof.
  intros f s. induction s as [|x s IH]; cbn [lstrip_with]; [exact I|].
  destruct (f x) eqn:E; [exact IH | exact E].
Qed.

Lemma lstrip_with_fixed : forall f (s : str), stops f s -> lstrip_with f s = s.
Proof.
  intros f [|x s] H; [reflexivity|]. cbn in *. now rewrite H.
Qed.

Lemma lstrip_with_all : forall f (s : str), all_in f s -> lstrip_with f s = [].
Proof.
  intros f s H. induction H as [|x s Hx _ IH]; [reflexivity|].
  cbn [lstrip_with]. now rewrite Hx.
Qed.

Lemma lstrip_with_sub : forall f (s : str) c, In c (lstrip_with f s) -> In c s.
Proof.
  intros f s c. induction s as [|x s IH]; cbn [lstrip_with]; [auto|].
  destruct (f x); [intros H; right; now apply IH | auto].
Qed.

(** What is left by [rstrip] does not end with a stripped character. *)
Lemma rstrip_with_stops : forall f (s : str), stops f (rev (rstrip_with f s)).
Proof.
  intros f s. unfold rstrip_with. rewrite rev_involutive. apply lstrip_with_stops.
Qed.

Lemma rstrip_with_sub : forall f (s : str) c, In c (rstrip_with f s) -> In c s.
Proof.
  intros f s c H. unfold rstrip_with in H. apply in_rev in H.
  apply lstrip_with_sub in H. now apply in_rev.
Qed.

Lemma strip_with_sub : forall f (s : str) c, In c (strip_with f s) -> In c s.
Proof.
  intros f s c H. unfold strip_with in H.
  apply rstrip_with_sub in H. now apply lstrip_with_sub in H.
Qed.

(** ** Indentation and documentation blocks *)

Lemma indent_line : forall l : str,
  ~ In newline l -> indent l = if truthy l then INDENT +++ l else l.
Proof.
  intros l H. unfold indent, split. rewrite split_char_line by exact H. reflexivity.
Qed.

Lemma indent_lines : forall a b : str,
  indent (a ++ newline :: b) = indent a ++ newline :: indent b.
Proof.
  intros a b. unfold indent, split.
  rewrite split_char_app, map_app, join_app.
  - reflexivity.
  - intros H. apply map_eq_nil in H. revert H. apply split_go_nonempty.
  - intros H. apply map_eq_nil in H. revert H. apply split_go_nonempty.
Qed.

(** X1: [indent] works line by line: the lines of the text that are not
    empty get four blanks in front, the empty lines stay empty, and the
    number of lines is kept. *)
Theorem indent_line_by_line : forall ls : list str,
  Forall (fun l => ~ In newline l) ls ->
  indent (join [newline] ls)
  = join [newline] (map (fun l => if truthy l then INDENT +++ l else l) ls).
Proof.
  intros ls H. induction H as [|l ls Hl Hls IH]; [reflexivity|].
  destruct ls as [|l' ls].
  - cbn [join map]. now apply indent_line.
  - change (join [newline] (l :: l' :: ls)) with (l ++ newline :: join [newline] (l' :: ls)).
    rewrite indent_lines, IH, indent_line by exact Hl. reflexivity.
Qed.

Lemma indent_line_by_line_witness :
  indent (join [newline] [text "def f():"; text ""; text "pass"])
  = join [newline] [text "    def f():"; text ""; text "    pass"].
Proof.
  rewrite (indent_line_by_line [text "def f():"; text ""; text "pass"]).
  - reflexivity.
  - repeat constructor; vm_compute; intuition discriminate.
Defined.

(** X2: [format_docstring] never raises; the block it returns opens and
    closes with an indented triple quote on a line of its own, and between
    them stands the documentation, its outer newlines stripped, indented
    line by line. *)
Theorem format_docstring_block : forall docstring : str,
  format_docstring docstring
  = Ok (INDENT +++ triple_quote +++ [newline]
        +++ indent (strip_with (Ascii.eqb newline) docstring) +++ [newline]
        +++ INDENT +++ triple_quote).
Proof.
  intros docstring. unfold format_docstring.
  set (d := strip_with (Ascii.eqb newline) docstring).
  assert (E : format (triple_quote +++ [newline] +++ "{}" +++ [newline] +++ triple_quote) [d] []
              = Ok (triple_quote ++ newline :: d ++ newline :: triple_quote))
    by reflexivity.
  rewrite E. cbn [rbind]. rewrite !indent_lines. reflexivity.
Qed.

(** ** The type of an argument *)

Lemma last_snoc : forall (l : list str) x d, last (l ++ [x]) d = x.
Proof. intros l x d. apply last_last. Qed.

Lemma last_in : forall (l : list str) d, l <> [] -> In (last l d) l.
Proof.
  induction l as [|x l IH]; intros d H; [contradiction|].
  destruct l as [|y l]; [now left|].
  right. apply IH. discriminate.
Qed.

(** X3: [argument_type] returns the text after the last colon of the
    argument, stripped, and the whole argument stripped when it holds no
    colon; what it returns never holds a colon. *)
Theorem argument_type_after_last_colon :
  (forall arg, ~ In ":"%char (argument_type arg)) /\
  (forall pre t : str,
     ~ In ":"%char t ->
     argument_type (pre ++ ":"%char :: t) = strip t /\ argument_type t = strip t).
Proof.
  split.
  - intros arg H. unfold argument_type, strip in H. apply strip_with_sub in H.
    pose proof (split_char_pieces ":"%char arg [] (fun x => x)) as P.
    rewrite Forall_forall in P.
    apply (P (last (split ":" arg) [])); [|exact H].
    apply last_in. apply split_go_nonempty.
  - intros pre t H. unfold argument_type, split.
    change (text ":") with [":"%char].
    rewrite split_char_app, (split_char_line _ t) by exact H.
    cbn [rev app]. rewrite last_snoc. split; reflexivity.
Qed.

Lemma argument_type_after_last_colon_witness :
  argument_type "a: Dict[str, int] = {1: 2}" = "2}" /\
  argument_type (text "arg0: float") = "float" /\
  argument_type "*args" = "*args".
Proof.
  destruct argument_type_after_last_colon as [_ H].
  assert (N1 : ~ In ":"%char (text " 2}")) by (vm_compute; intuition discriminate).
  assert (N2 : ~ In ":"%char (text " float")) by (vm_compute; intuition discriminate).
  assert (N3 : ~ In ":"%char (text "*args")) by (vm_compute; intuition discriminate).
  split; [|split].
  - exact (proj1 (H (text "a: Dict[str, int] = {1") (text " 2}") N1)).
  - exact (proj1 (H (text "arg0") (text " float") N2)).
  - exact (proj2 (H [] (text "*args") N3)).
Defined.

(** ** Argument texts with unbalanced brackets *)

Lemma split_arguments_loop_depth : forall cs self_args i prev_stop d acc,
  match depth_after d cs with
  | Some d' =>
      exists p a,
        split_arguments_loop self_args i cs prev_stop (Z.of_nat d) acc
        = Ok (p, Z.of_nat d', a)
  | None =>
      split_arguments_loop self_args i cs prev_stop (Z.of_nat d) acc = Raise AssertionError
  end.
Proof.
  induction cs as [|c cs IH]; intros self_args i prev_stop d acc.
  - cbn. eauto.
  - cbn [depth_after split_arguments_loop].
    destruct (Ascii.eqb c "[").
    + replace (Z.of_nat d + 1)%Z with (Z.of_nat (S d)) by lia. apply IH.
    + destruct (Ascii.eqb c "]").
      * destruct d as [|d].
        -- reflexivity.
        -- replace (Z.of_nat (S d) - 1)%Z with (Z.of_nat d) by lia.
           replace (0 <=? Z.of_nat d)%Z with true by (symmetry; apply Z.leb_le; lia).
           apply IH.
      * destruct (Ascii.eqb c "," && (Z.of_nat d =? 0)%Z); apply IH.
Qed.

Lemma split_arguments_cases : forall sig,
  match split_arguments sig with
  | Ok segs => strip (args sig) = [] \/ balanced (args sig) = true
  | Raise e => e = AssertionError /\ strip (args sig) <> [] /\ balanced (args sig) = false
  end.
Proof.
  intros sig.
  destruct (strip (args sig)) as [|x s] eqn:Es.
  - unfold split_arguments. rewrite Es. cbn. now left.
  - assert (Hs : strip (args sig) <> []) by (rewrite Es; discriminate).
    destruct (balanced (args sig)) eqn:Eb.
    + rewrite (split_arguments_nonblank sig Hs Eb). now right.
    + unfold split_arguments. rewrite Es. cbn [length Nat.eqb].
      pose proof (split_arguments_loop_depth (args sig) (args sig) 0 0 0 []) as L.
      unfold balanced in Eb. cbn [Z.of_nat] in L.
      destruct (depth_after 0 (args sig)) as [d'|].
      * destruct L as (p & a & ->). cbn [rbind].
        destruct d' as [|d']; [discriminate|].
        replace (Z.of_nat (S d') =? 0)%Z with false by (symmetry; apply Z.eqb_neq; lia).
        repeat split; discriminate.
      * rewrite L. cbn [rbind]. repeat split; discriminate.
Qed.

(** X4: [split_arguments] returns a list exactly for the argument texts
    that are blank or have balanced square brackets; on every other text
    one of its two assertions fails. *)
Theorem split_arguments_asserts_balance : forall sig,
  match split_arguments sig with
  | Ok segs => strip (args sig) = [] \/ balanced (args sig) = true
  | Raise e => e = AssertionError /\ strip (args sig) <> [] /\ balanced (args sig) = false
  end.
Proof.
  intros sig. pose proof (split_arguments_cases sig) as H.
  destruct (split_arguments sig); exact H.
Qed.

(** ** Sanitized documentation *)

Lemma matcher_Caret_start : forall (r : str) gs k,
  matcher Caret (mkState None r gs) k = k (mkState None r gs).
Proof. reflexivity. Qed.

(** A text of blanks matches the pattern of blank texts. *)
Lemma blank_text_matches : forall s : str,
  all_in re_space s -> is_match (Cats [Caret; Star (Sym re_space); Dollar]) s = true.
Proof.
  intros s H. unfold is_match, re_match, match_here.
  match goal with |- context [matcher _ _ ?k] => set (final := k) end.
  assert (Hm : matcher (Cats [Caret; Star (Sym re_space); Dollar]) (mkState None s []) final
               = Some (mkState (last_char None s) [] [])).
  { cbn [Cats]. rewrite matcher_Cat, matcher_Caret_start, matcher_Cat.
    rewrite <- (app_nil_r s) at 1.
    apply matcher_Star_greedy; [exact H | exact I | reflexivity]. }
  now rewrite Hm.
Qed.

Lemma all_in_or_not : forall (f : ascii -> bool) (s : str),
  all_in f s \/ exists c, In c s /\ f c = false.
Proof.
  intros f s. induction s as [|x s [IH|(c & Hc & Hf)]].
  - left. constructor.
  - destruct (f x) eqn:E.
    + left. now constructor.
    + right. exists x. split; [now left | exact E].
  - right. exists c. split; [now right | exact Hf].
Qed.

Lemma rstrip_newline_end : forall s : str,
  endswith [newline] (rstrip_with (Ascii.eqb newline) s) = false.
Proof.
  intros s. unfold endswith.
  pose proof (rstrip_with_stops (Ascii.eqb newline) s) as H.
  destruct (rev (rstrip_with (Ascii.eqb newline) s)) as [|c r]; [reflexivity|].
  unfold stops in H. change (rev [newline]) with [newline].
  cbn [startswith]. rewrite H. reflexivity.
Qed.

(** X5: [sanitize_docstring] returns the empty text for a missing
    documentation; it raises only when a hook turns the documentation into
    [None], and then [AttributeError]; and the text it returns never ends
    with a newline and is either empty or holds a character that is not a
    blank. *)
Theorem sanitize_docstring_clean :
  forall (hooks : list (option str -> option str)) (doc : option str),
  (doc = None -> sanitize_docstring hooks doc = Ok []) /\
  (forall e, sanitize_docstring hooks doc = Raise e ->
             e = AttributeError /\ apply_hooks hooks doc = None) /\
  (forall d, sanitize_docstring hooks doc = Ok d ->
             endswith [newline] d = false /\
             (d = [] \/ exists c, In c d /\ isspace c = false)).
Proof.
  intros hooks doc. split; [intros ->; reflexivity|].
  unfold sanitize_docstring, remove_signatures.
  destruct doc as [doc|]; [|cbn; split; [discriminate|]].
  - destruct (apply_hooks hooks (Some doc)) as [d0|]; cbn [rbind].
    + match goal with |- context [rstrip_with _ ?x] => set (t := x) end.
      split.
      * intros e H. destruct (truthy _ && _); discriminate.
      * intros d H.
        destruct (truthy (rstrip_with (Ascii.eqb newline) t)
                  && is_match (Cats [Caret; Star (Sym re_space); Dollar])
                              (rstrip_with (Ascii.eqb newline) t)) eqn:E;
          injection H as <-; [split; [reflexivity | now left]|].
        split; [apply rstrip_newline_end|].
        destruct (rstrip_with (Ascii.eqb newline) t) as [|x r] eqn:Er; [now left|].
        right. cbn [truthy andb] in E.
        destruct (all_in_or_not re_space (x :: r)) as [Ha|Hc]; [|exact Hc].
        rewrite (blank_text_matches _ Ha) in E. discriminate.
    + split; [|discriminate]. intros e H. injection H as <-. split; reflexivity.
  - intros d H. injection H as <-. split; [reflexivity | now left].
Qed.

Lemma sanitize_docstring_clean_witness :
  endswith [newline] (text "Adds two numbers.") = false /\
  (text "Adds two numbers." = [] \/
   exists c, In c (text "Adds two numbers.") /\ isspace c = false).
Proof.
  apply (sanitize_docstring_clean []
           (Some ("add(a: int, b: int) -> int" +++ [newline; newline]
                  +++ "Adds two numbers." +++ [newline]))).
  vm_compute. reflexivity.
Defined.

(** ** The lines of a free function *)

Lemma format_def_line : forall sig,
  format "def {name}({args}) -> {rtype}:" []
         [kw "name" (name sig); kw "args" (args sig); kw "rtype" (rtype sig)]
  = Ok (def_line sig).
Proof. intros sig. reflexivity. Qed.

Lemma format_docstring_documentation_block : forall d,
  format_docstring d = Ok (documentation_block d).
Proof.
  intros d. unfold format_docstring, documentation_block.
  set (x := strip_with (Ascii.eqb newline) d).
  assert (E : format (triple_quote +++ [newline] +++ "{}" +++ [newline] +++ triple_quote) [x] []
              = Ok (triple_quote ++ newline :: x ++ newline :: triple_quote))
    by reflexivity.
  rewrite E. cbn [rbind]. rewrite !indent_lines. reflexivity.
Qed.

(** Once the documentation is printed, or when there is none, every
    signature gets [pass] for a body. *)
Lemma free_function_lines_pass : forall n sigs docstring acc,
  docstring = None \/ docstring = Some [] ->
  free_function_lines n sigs docstring acc
  = Ok (acc ++ flat_map (fun s => overload_marker n ++ [def_line s; indent "pass"]) sigs).
Proof.
  intros n sigs docstring acc Hd. revert acc.
  induction sigs as [|s sigs IH]; intros acc.
  - cbn. now rewrite app_nil_r.
  - cbn [free_function_lines flat_map]. rewrite format_def_line. cbn [rbind].
    assert (E : forall r, match docstring with
                          | Some (c :: d) =>
                              rbind (format_docstring (c :: d)) (fun doc_lines =>
                                free_function_lines n sigs None (r ++ [doc_lines]))
                          | _ => free_function_lines n sigs docstring (r ++ [indent "pass"])
                          end = free_function_lines n sigs docstring (r ++ [indent "pass"]))
      by (intros r; destruct Hd as [-> | ->]; reflexivity).
    rewrite E, IH. unfold overload_marker.
    destruct (1 <? n); repeat (rewrite <- app_assoc; cbn [app]); reflexivity.
Qed.

Lemma free_function_lines_documented : forall n s sigs c d,
  free_function_lines n (s :: sigs) (Some (c :: d)) []
  = Ok (overload_marker n ++ [def_line s; documentation_block (c :: d)]
        ++ flat_map (fun s' => overload_marker n ++ [def_line s'; indent "pass"]) sigs).
Proof.
  intros n s sigs c d. cbn [free_function_lines].
  rewrite format_def_line. cbn [rbind].
  rewrite format_docstring_documentation_block. cbn [rbind].
  rewrite free_function_lines_pass by now left.
  unfold overload_marker.
  destruct (1 <? n); repeat (rewrite <- app_assoc; cbn [app]); reflexivity.
Qed.

(** X6: [FreeFunctionStubsGenerator.to_lines] returns, for each
    signature in order, the overload marker when there are several
    signatures, the [def] line and a body; the body of the first signature
    is the documentation block when the sanitized documentation is not
    empty, and every other body is an indented [pass].  Without signatures
    there are no lines. *)
Theorem free_function_documented_once :
  forall (hooks : list (option str -> option str)) self g docstring,
  sanitize_docstring hooks (member_doc (fn_member self)) = Ok docstring ->
  fst (free_function_to_lines hooks self g)
  = Ok (let marker := overload_marker (length (fn_signatures self)) in
        match fn_signatures self with
        | [] => []
        | s :: rest =>
            marker ++ [def_line s;
                       if truthy docstring then documentation_block docstring
                       else indent "pass"]
            ++ flat_map (fun s' => marker ++ [def_line s'; indent "pass"]) rest
        end).
Proof.
  intros hooks self g docstring Hd. unfold free_function_to_lines.
  unfold bind at 1. unfold lift at 1. rewrite Hd.
  assert (Hq : quiet (log_empty_docstring self docstring))
    by (unfold log_empty_docstring; auto with quiet).
  destruct (Hq g) as ([] & g' & E & _).
  rewrite (bind_ok _ _ _ _ _ E). unfold lift. cbn [fst].
  destruct (fn_signatures self) as [|s rest] eqn:Es; [reflexivity|].
  destruct docstring as [|c d].
  - rewrite free_function_lines_pass by now right.
    cbn [flat_map app truthy]. now rewrite <- app_assoc.
  - rewrite free_function_lines_documented. reflexivity.
Qed.

Lemma free_function_documented_once_witness :
  fst (free_function_to_lines []
         (mkFunctionStubs "f" (mkMember (Some (text "Adds.")) "m.f") (Some (text "m"))
                          [mkSig "f" "a: float" "float"; mkSig "f" "a: int" "int"])
         initial_globals)
  = Ok [text "@typing.overload"; text "def f(a: float) -> float:";
        documentation_block "Adds.";
        text "@typing.overload"; text "def f(a: int) -> int:"; indent "pass"].
Proof.
  apply (free_function_documented_once []
           (mkFunctionStubs "f" (mkMember (Some (text "Adds.")) "m.f") (Some (text "m"))
                            [mkSig "f" "a: float" "float"; mkSig "f" "a: int" "int"])
           initial_globals "Adds.").
  vm_compute. reflexivity.
Defined.

(** ** Routines without a signature line *)

Lemma signatures_of_lines_none : forall ast_parse name0 lines g,
  filter (is_match (signature_regex name0)) lines = [] ->
  signatures_of_lines ast_parse name0 lines g = (Ok [], g).
Proof.
  intros ast_parse name0 lines g. induction lines as [|l lines IH]; intros H.
  - reflexivity.
  - cbn [filter] in H. unfold is_match in H at 1. cbn [signatures_of_lines].
    destruct (re_match (signature_regex name0) l); [discriminate|].
    now apply IH.
Qed.

Lemma sorted_empty_set : forall list_of_set : list FunctionSignature -> list FunctionSignature,
  (forall l, NoDup (list_of_set l) /\ forall x, In x (list_of_set l) <-> In x l) ->
  sorted_by_args (list_of_set []) = [].
Proof.
  intros list_of_set H. destruct (H []) as [_ Hin].
  destruct (list_of_set []) as [|x l]; [reflexivity|].
  exfalso. apply (Hin x). now left.
Qed.

(** X7: a routine with an identifier for a name, none of whose documentation lines is a signature of
    its name (or whose documentation is missing) is parsed without any
    diagnostic into an empty signature list, and such a routine leaves no
    line in the stubs. *)
Theorem routine_without_signature_leaves_no_line :
  forall (ast_parse : str -> ParseOutcome) (hooks : list (option str -> option str))
         (list_of_set : list FunctionSignature -> list FunctionSignature) self g,
  (forall l, NoDup (list_of_set l) /\ forall x, In x (list_of_set l) <-> In x l) ->
  all_in re_word (fn_name self) ->
  match apply_hooks hooks (member_doc (fn_member self)) with
  | Some d => filter (is_match (signature_regex (fn_name self))) (split [newline] d) = []
  | None => True
  end ->
  exists parsed,
    function_parse ast_parse hooks list_of_set self g = (Ok parsed, g) /\
    fn_signatures parsed = [] /\
    forall g1,
      fst (free_function_to_lines hooks parsed g1)
      = match sanitize_docstring hooks (member_doc (fn_member self)) with
        | Ok _ => Ok []
        | Raise e => Raise e
        end.
Proof.
  intros ast_parse hooks list_of_set self g Hset _ Hd.
  exists (mkFunctionStubs (fn_name self) (fn_member self) (fn_module_name self) []).
  split; [|split; [reflexivity|]].
  - unfold function_parse, function_signatures_from_docstring.
    destruct (apply_hooks hooks (member_doc (fn_member self))) as [d|].
    + unfold bind at 1. unfold bind at 1.
      rewrite (signatures_of_lines_none _ _ _ _ Hd).
      assert (E : forall f : FunctionSignature -> FunctionSignature,
                map f (match fn_module_name self with
                       | Some (c :: mn) =>
                           map (fun sig => mkSig (name sig)
                                             (strip_module_name (c :: mn) (args sig))
                                             (strip_module_name (c :: mn) (rtype sig))) []
                       | _ => []
                       end) = [])
        by (intros f; destruct (fn_module_name self) as [[|c mn]|]; reflexivity).
      unfold bind, get, ret. rewrite E.
      do 3 f_equal. exact (sorted_empty_set list_of_set Hset).
    + reflexivity.
  - intros g1. unfold free_function_to_lines. cbn [fn_member fn_signatures fn_name].
    unfold bind at 1. unfold lift at 1.
    destruct (sanitize_docstring hooks (member_doc (fn_member self))) as [d|e];
      [|reflexivity].
    match goal with |- context [log_empty_docstring ?s d] =>
      assert (Hq : quiet (log_empty_docstring s d))
        by (unfold log_empty_docstring; auto with quiet) end.
    destruct (Hq g1) as ([] & g' & E & _).
    rewrite (bind_ok _ _ _ _ _ E). reflexivity.
Qed.

Lemma routine_without_signature_leaves_no_line_witness :
  exists parsed,
    function_parse (fun _ => Parses) [] distinct
      (mkFunctionStubs "f" (mkMember (Some (text "Does things.")) "m.f") (Some (text "m")) [])
      initial_globals = (Ok parsed, initial_globals) /\
    fn_signatures parsed = [] /\
    forall g1,
      fst (free_function_to_lines [] parsed g1)
      = match sanitize_docstring [] (Some (text "Does things.")) with
        | Ok _ => Ok []
        | Raise e => Raise e
        end.
Proof.
  apply (routine_without_signature_leaves_no_line (fun _ => Parses) [] distinct
           (mkFunctionStubs "f" (mkMember (Some (text "Does things.")) "m.f")
                            (Some (text "m")) [])
           initial_globals).
  - intros l. split; [apply distinct_NoDup | apply distinct_In].
  - repeat constructor.
  - vm_compute. reflexivity.
Defined.

(** ** What the constructor does to the globals *)

Lemma finditer_nowhere : forall r (s : str),
  search r false None s = None -> finditer r s = ([], s).
Proof.
  intros r s H. unfold finditer.
  replace (2 * length s + 2) with (S (S (2 * length s))) by lia.
  cbn [finditer_go]. now rewrite H.
Qed.

Lemma defaults_no_angle : forall args0 : str,
  no_angle args0 -> replace_default_pybind11_repr args0 = ([], args0).
Proof.
  intros args0 H. unfold replace_default_pybind11_repr.
  rewrite (finditer_nowhere _ _ (search_no_angle args0 None H)).
  rewrite (re_sub_nowhere _ _ _ (search_no_angle args0 None H)). reflexivity.
Qed.

Lemma init_clean : forall (ast_parse : str -> ParseOutcome) name0 args0 rtype0 g,
  no_angle args0 ->
  USE_BOOST_PYTHON g = false ->
  ast_parse (candidate name0 args0 rtype0) = Parses ->
  FunctionSignature_init ast_parse name0 args0 rtype0 true g
  = (Ok (mkSig name0 args0 rtype0), g).
Proof.
  intros ast_parse name0 args0 rtype0 g Ha Hb Hp.
  unfold FunctionSignature_init, validate_defaults.
  rewrite (defaults_no_angle args0 Ha).
  rewrite (bind_ok _ _ g args0 g eq_refl).
  unfold bind at 1. rewrite boost_python_spec, Hb. cbn [fst snd].
  now apply validate_syntax_valid.
Qed.

(** X8: a signature whose argument text holds no opening angle bracket
    and whose declaration parses is constructed exactly as it is given
    (pybind11 dialect), and its construction changes no counter, no switch
    and logs nothing. *)
Theorem clean_signature_constructed_as_given :
  forall (ast_parse : str -> ParseOutcome) name0 args0 rtype0 g,
  no_angle args0 ->
  USE_BOOST_PYTHON g = false ->
  ast_parse (candidate name0 args0 rtype0) = Parses ->
  FunctionSignature_init ast_parse name0 args0 rtype0 true g
  = (Ok (mkSig name0 args0 rtype0), g).
Proof.
  intros ast_parse name0 args0 rtype0 g Ha Hb Hp. now apply init_clean.
Qed.

Lemma clean_signature_constructed_as_given_witness :
  FunctionSignature_init example_ast_parse "f" "a: int, b: float = 1.5" "int" true
                         initial_globals
  = (Ok (mkSig "f" "a: int, b: float = 1.5" "int"), initial_globals).
Proof.
  apply clean_signature_constructed_as_given.
  - repeat constructor.
  - reflexivity.
  - reflexivity.
Defined.

Lemma validate_syntax_name : forall ast_parse name0 self g,
  name self = name0 ->
  match fst (validate_syntax ast_parse name0 self g) with
  | Ok sig => name sig = name0
  | Raise _ => True
  end.
Proof.
  intros ast_parse name0 self g Hn.
  destruct (ast_parse (candidate (name self) (args self) (rtype self)))
    as [|offset|e] eqn:E.
  - now rewrite (validate_syntax_valid ast_parse name0 self g E).
  - destruct (validate_syntax_invalid ast_parse name0 self g offset E) as (g' & Ev & _).
    rewrite Ev. cbn [fst]. destruct offset; [|exact I].
    destruct (signature_downgrade g); [reflexivity | exact Hn].
  - now rewrite (validate_syntax_raises ast_parse name0 self g e E).
Qed.

(** X9: constructing a signature never changes a switch; each of the
    two counters grows by at most one, so the fatal count never goes down
    and grows by at most two; the signature returned carries the name that
    was given.  The exceptions that can leave the constructor are the
    [IndexError] of the Boost.Python dialect, an exception of the parser
    that is not a [SyntaxError] (as [ValueError] on a NUL character), and
    [TypeError] when the [SyntaxError] carries no offset.  Without
    validation nothing changes at all. *)
Theorem constructor_effect :
  forall (ast_parse : str -> ParseOutcome) name0 args0 rtype0 validate g,
  let r := FunctionSignature_init ast_parse name0 args0 rtype0 validate g in
  (exists d s, d <= 1 /\ s <= 1 /\ counts d s g (snd r)) /\
  n_fatal_errors g <= n_fatal_errors (snd r) <= n_fatal_errors g + 2 /\
  match fst r with
  | Ok sig => name sig = name0
  | Raise e => validate = true /\ constructor_exception ast_parse name0 args0 rtype0 g e
  end /\
  (validate = false -> r = (Ok (mkSig name0 args0 rtype0), g)).
Proof.
  intros ast_parse name0 args0 rtype0 validate g r.
  assert (Hc : exists d s, d <= 1 /\ s <= 1 /\ counts d s g (snd r)).
  { subst r. destruct validate.
    - destruct (init_effect ast_parse name0 args0 rtype0 g) as (s & Hs & C & _).
      eexists. exists s. split; [|split; [exact Hs | exact C]].
      destruct (fst (replace_default_pybind11_repr args0)); lia.
    - exists 0, 0. split; [lia|]. split; [lia|]. apply counts_refl. }
  split; [exact Hc|]. split; [|split].
  - destruct Hc as (d & s & Hd & Hs & C).
    destruct C as (C1 & C2 & _ & C4 & C5 & _).
    unfold n_fatal_errors. rewrite C1, C2, C4, C5.
    destruct (ignore_invalid_defaultarg g), (ignore_invalid_signature g); lia.
  - subst r. destruct validate; [|reflexivity].
    destruct (init_effect ast_parse name0 args0 rtype0 g) as (_ & _ & _ & R).
    destruct (init_until_syntax ast_parse name0 args0 rtype0 g) as (g1 & _ & E).
    destruct (fst (FunctionSignature_init ast_parse name0 args0 rtype0 true g))
      as [sig|e] eqn:Er; [|split; [reflexivity | exact R]].
    rewrite E in Er.
    destruct (assembled g args0 rtype0) as [[a r0]|e]; [|discriminate].
    pose proof (validate_syntax_name ast_parse name0 (mkSig name0 a r0) g1 eq_refl) as Hn.
    now rewrite Er in Hn.
  - intros ->. reflexivity.
Qed.

(** ** The Boost.Python dialect on pybind11 texts *)

Lemma in_join : forall sep (ps : list str) (p : str) x,
  In p ps -> In x p -> In x (join sep ps).
Proof.
  intros sep ps p x. induction ps as [|q ps IH]; intros Hp Hx; [contradiction|].
  destruct ps as [|q' ps].
  - destruct Hp as [->|[]]. exact Hx.
  - rewrite join_cons by discriminate.
    destruct Hp as [->|Hp].
    + apply in_or_app. now left.
    + apply in_or_app. right. apply in_or_app. right. now apply IH.
Qed.

Lemma split_char_sub : forall c (s p : str) x,
  In p (split [c] s) -> In x p -> In x s.
Proof.
  intros c s p x Hp Hx. pose proof (in_join [c] _ p x Hp Hx) as H.
  unfold split in H. rewrite join_char_split in H. exact H.
Qed.

(** A pattern that begins with a character finds nothing in a text
    without that character. *)
Lemma search_first_char_absent : forall c r (s : str) ma prev,
  ~ In c s -> search (Cat (Chr c) r) ma prev s = None.
Proof.
  intros c r s ma prev H.
  assert (Hm : forall ma' prev' (t : str), ~ In c t ->
                 match_here (Cat (Chr c) r) ma' prev' t = None).
  { intros ma' prev' t Ht. unfold match_here.
    match goal with |- context [matcher _ _ ?k] => set (final := k) end.
    rewrite matcher_Cat. unfold Chr. rewrite matcher_Sym.
    destruct t as [|x t]; [reflexivity|].
    destruct (Ascii.eqb_spec c x) as [->|_]; [|reflexivity].
    exfalso. apply Ht. now left. }
  apply search_none.
  - intros pre x post prev' ->. apply Hm.
    intros Hin. apply H. apply in_or_app. now right.
  - now apply Hm.
  - intros prev'. apply Hm. intros [].
Qed.

Lemma boost_type_and_name_without_parenthesis : forall arg : str,
  ~ In "("%char arg -> boost_type_and_name arg = Raise IndexError.
Proof.
  intros arg H. unfold boost_type_and_name, re_findall1, boost_type_re.
  cbn [Cats]. rewrite finditer_nowhere by now apply search_first_char_absent.
  reflexivity.
Qed.

Lemma boost_args_without_parenthesis : forall args0 : str,
  args0 <> [] -> ~ In "("%char args0 -> ~ In "["%char args0 ->
  boost_args args0 = Raise IndexError.
Proof.
  intros args0 Hn Hp Hb. unfold boost_args, re_findall1, boost_optional_re.
  cbn [Cats]. rewrite finditer_nowhere by now apply search_first_char_absent.
  cbn [fst map hd truthy].
  destruct args0 as [|a0 args0]; [contradiction|]. cbn [truthy].
  pose proof (split_go_nonempty "," (a0 :: args0) 0 []) as Hs.
  pose proof (fun p x => split_char_sub ","%char (a0 :: args0) p x) as Hsub.
  change (split_go "," 0 [] (a0 :: args0)) with (split "," (a0 :: args0)) in Hs.
  change [","%char] with (text ",") in Hsub.
  destruct (split "," (a0 :: args0)) as [|p ps]; [contradiction|].
  cbn [boost_nominal_loop].
  rewrite boost_type_and_name_without_parenthesis; [reflexivity|].
  intros Hin. apply Hp. apply (Hsub p); [now left | exact Hin].
Qed.

(** X10: with the Boost.Python dialect switched on, constructing a
    signature from a non-empty argument text without any parenthesis or
    square bracket (the way pybind11 writes arguments) raises
    [IndexError]. *)
Theorem boost_dialect_rejects_plain_arguments :
  forall (ast_parse : str -> ParseOutcome) name0 (args0 : str) rtype0 g,
  USE_BOOST_PYTHON g = true ->
  args0 <> [] -> ~ In "("%char args0 -> ~ In "["%char args0 ->
  fst (FunctionSignature_init ast_parse name0 args0 rtype0 true g) = Raise IndexError.
Proof.
  intros ast_parse name0 args0 rtype0 g Hb Hn Hp Hk.
  destruct (init_until_syntax ast_parse name0 args0 rtype0 g) as (g1 & _ & ->).
  unfold assembled. rewrite Hb.
  destruct args0 as [|a0 args0]; [contradiction|]. cbn [truthy].
  rewrite boost_args_without_parenthesis by assumption. reflexivity.
Qed.

Lemma boost_dialect_rejects_plain_arguments_witness :
  fst (FunctionSignature_init (fun _ => Parses) "f" "a: int, b: float" "int" true
         (configure (mkNamespace unit false [] false false true []) initial_globals))
  = Raise IndexError.
Proof.
  apply boost_dialect_rejects_plain_arguments.
  - reflexivity.
  - discriminate.
  - vm_compute. intuition discriminate.
  - vm_compute. intuition discriminate.
Defined.

(** ** Runs that ignore invalid expressions *)

Section IgnoringAll.

Variable Root : Type.
Variable parse : Root -> M unit.
Variable write : Root -> M unit.

Hypothesis parse_keeps_switches : forall r g,
  ignore_invalid_signature (snd (parse r g)) = ignore_invalid_signature g /\
  ignore_invalid_defaultarg (snd (parse r g)) = ignore_invalid_defaultarg g.

Hypothesis write_keeps_switches : forall r g,
  ignore_invalid_signature (snd (write r g)) = ignore_invalid_signature g /\
  ignore_invalid_defaultarg (snd (write r g)) = ignore_invalid_defaultarg g.

Lemma ignoring_no_fatal : forall g,
  ignore_invalid_signature g = true -> ignore_invalid_defaultarg g = true ->
  n_fatal_errors g = 0.
Proof. intros g Hs Hd. unfold n_fatal_errors. now rewrite Hs, Hd. Qed.

Lemma main_loop_ignoring : forall names written g,
  ignore_invalid_signature g = true ->
  ignore_invalid_defaultarg g = true ->
  main_loop Root parse write names written g
  = (snd (fst (parse_and_write Root parse write names g)),
     written ++ fst (fst (parse_and_write Root parse write names g)),
     snd (parse_and_write Root parse write names g)) /\
  n_fatal_errors (snd (parse_and_write Root parse write names g)) = 0.
Proof.
  induction names as [|n names IH]; intros written g Hs Hd.
  - cbn. rewrite app_nil_r. split; [reflexivity | now apply ignoring_no_fatal].
  - cbn [main_loop parse_and_write].
    destruct (parse_keeps_switches n g) as [K1 K2].
    destruct (parse n g) as [[[]|e] g1]; cbn [fst snd] in *.
    + rewrite Hs in K1. rewrite Hd in K2.
      rewrite (ignoring_no_fatal g1 K1 K2). cbn [Nat.eqb].
      destruct (write_keeps_switches n g1) as [W1 W2].
      destruct (write n g1) as [[[]|e] g2]; cbn [fst snd] in *.
      * rewrite K1 in W1. rewrite K2 in W2.
        destruct (IH (written ++ [n]) g2 W1 W2) as [I1 I2]. rewrite I1.
        destruct (parse_and_write Root parse write names g2) as [[w r] g3].
        cbn [fst snd] in *. split; [|exact I2]. now rewrite <- app_assoc.
      * rewrite app_nil_r. split; [reflexivity|].
        apply ignoring_no_fatal; congruence.
    + rewrite app_nil_r. split; [reflexivity|].
      apply ignoring_no_fatal; congruence.
Qed.

Lemma parse_and_write_roots : forall names g,
  snd (fst (parse_and_write Root parse write names g)) = Ok tt ->
  fst (fst (parse_and_write Root parse write names g)) = names.
Proof.
  induction names as [|n names IH]; intros g H; [reflexivity|].
  cbn [parse_and_write] in *.
  destruct (parse n g) as [[[]|e] g1]; [|discriminate].
  destruct (write n g1) as [[[]|e] g2]; [|discriminate].
  specialize (IH g2).
  destruct (parse_and_write Root parse write names g2) as [[w r] g3]. cbn [fst snd] in *.
  f_equal. now apply IH.
Qed.

(** X11: when the run ignores every invalid expression ([--non-stop],
    [--ignore-invalid all], or both [signature] and [defaultarg]) and
    neither the parsing nor the writing of a root touches the two ignore
    switches, the fatal count stays zero: every requested root is parsed and
    then written, one after the other, and the exit status is 0, unless a
    parsing or a writing raises, which ends the run with the roots written
    so far. *)
Theorem main_ignoring_all_writes_every_root : forall (sys_args : Namespace Root) g,
  non_stop sys_args = true \/ In all (ignore_invalid sys_args) \/
  (In signature (ignore_invalid sys_args) /\ In defaultarg (ignore_invalid sys_args)) ->
  let run := parse_and_write Root parse write (module_names sys_args) (configure sys_args g) in
  fst (main Root parse write sys_args g)
  = (match snd (fst run) with Ok _ => Ok 0 | Raise e => Raise e end, fst (fst run)) /\
  (snd (fst run) = Ok tt -> fst (fst run) = module_names sys_args).
Proof.
  intros sys_args g Hi.
  assert (Hc : ignore_invalid_signature (configure sys_args g) = true /\
               ignore_invalid_defaultarg (configure sys_args g) = true).
  { unfold configure. cbn [ignore_invalid_signature ignore_invalid_defaultarg].
    destruct (non_stop sys_args); [split; reflexivity|].
    destruct Hi as [Hi|[Hi|[H1 H2]]]; [discriminate| |].
    - assert (E : existsb (ignore_choice_eqb all) (ignore_invalid sys_args) = true)
        by (apply existsb_exists; exists all; split; [exact Hi | reflexivity]).
      rewrite E. split; reflexivity.
    - assert (E1 : existsb (ignore_choice_eqb signature) (ignore_invalid sys_args) = true)
        by (apply existsb_exists; exists signature; split; [exact H1 | reflexivity]).
      assert (E2 : existsb (ignore_choice_eqb defaultarg) (ignore_invalid sys_args) = true)
        by (apply existsb_exists; exists defaultarg; split; [exact H2 | reflexivity]).
      rewrite E1, E2.
      destruct (existsb (ignore_choice_eqb all) (ignore_invalid sys_args)); split; reflexivity. }
  destruct Hc as [Hs Hd]. cbv zeta. split; [|apply parse_and_write_roots].
  destruct (main_loop_ignoring (module_names sys_args) [] _ Hs Hd) as [Hl Hf].
  unfold main. rewrite Hl. cbn [app].
  destruct (parse_and_write Root parse write (module_names sys_args) (configure sys_args g))
    as [[w [[]|e]] g']; cbn [fst snd] in *; [|reflexivity].
  destruct (useful_links_fatal g') as (g'' & Hu & Hf'').
  rewrite Hu. cbn [fst]. now rewrite Hf'', Hf.
Qed.

End IgnoringAll.

Lemma parse_candidates_keeps_switches : forall ast_parse candidates g,
  ignore_invalid_signature (snd (parse_candidates ast_parse candidates g))
    = ignore_invalid_signature g /\
  ignore_invalid_defaultarg (snd (parse_candidates ast_parse candidates g))
    = ignore_invalid_defaultarg g.
Proof.
  intros ast_parse candidates g.
  destruct (parse_candidates_monotone ast_parse candidates g) as (d & s & C).
  split; apply C.
Qed.

Lemma main_ignoring_all_writes_every_root_witness :
  fst (main _ (fun root => parse_candidates example_ast_parse (example_root root))
            (fun _ => ret tt)
            (mkNamespace _ true [] false false false [2; 0]) initial_globals)
  = (Ok 0, [2; 0]).
Proof.
  refine (proj1 (main_ignoring_all_writes_every_root nat
                   (fun root => parse_candidates example_ast_parse (example_root root))
                   (fun _ => ret tt) _ _
                   (mkNamespace _ true [] false false false [2; 0]) initial_globals _)).
  - intros r g. apply parse_candidates_keeps_switches.
  - intros r g. split; reflexivity.
  - left. reflexivity.
Defined.

(** ** Properties without a setter signature *)

Lemma no_setter_text_kept : forall bare,
  apply_classname_replacements bare "None" = "None".
Proof. intros []; vm_compute; reflexivity. Qed.

(** The getter block. *)
Lemma property_getter_block : forall hooks self docstring,
  sanitize_docstring hooks (prop_doc (ps_prop self)) = Ok docstring ->
  str_eqb (setter_args (ps_signature self)) "None" = true ->
  property_to_lines hooks self
  = Ok [text "@property";
        "def " +++ ps_name self +++ "(self) -> "
          +++ getter_type (prop_rtype (ps_signature self)) docstring +++ ":";
        documentation_block
          (docstring +++ [newline; newline] +++ ":type: "
           +++ getter_type (prop_rtype (ps_signature self)) docstring)].
Proof.
  intros hooks self docstring Hd Hs. unfold property_to_lines.
  rewrite Hd. cbn [rbind].
  fold (getter_type (prop_rtype (ps_signature self)) docstring).
  rewrite format_type_line. cbn [rbind].
  rewrite format_getter_def. cbn [rbind].
  rewrite format_docstring_documentation_block. cbn [rbind].
  rewrite Hs. cbn [negb]. reflexivity.
Qed.

(** X12: a property whose setter is missing, has no documentation, or
    has a documentation without a signature line is parsed with the setter
    text [None], and is then rendered as a getter alone: the [@property]
    marker, the line [def name(self) -> T:] and the documentation block,
    which holds the sanitized documentation, an empty line and [:type: T].
    The return text [T] is the one parsed from the getter, unless that is
    [None] and a note [[returns T]] of the documentation gives it. *)
Theorem property_without_setter_signature :
  forall (hooks : list (option str -> option str)) bare name0 prop module_name docstring,
  accessor_match module_name (fset prop) = None ->
  sanitize_docstring hooks (prop_doc prop) = Ok docstring ->
  let sig := property_signature_from_docstring bare prop module_name in
  let rtype0 := getter_type (prop_rtype sig) docstring in
  setter_args sig = "None" /\
  property_to_lines hooks (mkPropertyStubs name0 prop module_name sig)
  = Ok [text "@property";
        "def " +++ name0 +++ "(self) -> " +++ rtype0 +++ ":";
        documentation_block (docstring +++ [newline; newline] +++ ":type: " +++ rtype0)] /\
  (str_eqb (prop_rtype sig) "None" = false -> rtype0 = prop_rtype sig).
Proof.
  intros hooks bare name0 prop module_name docstring Hs Hd. cbv zeta.
  assert (E : setter_args (property_signature_from_docstring bare prop module_name) = "None").
  { unfold property_signature_from_docstring. cbn [setter_args].
    rewrite Hs. apply no_setter_text_kept. }
  split; [exact E|]. split.
  - apply (property_getter_block hooks
             (mkPropertyStubs name0 prop module_name
                (property_signature_from_docstring bare prop module_name)) docstring).
    + exact Hd.
    + cbn [ps_signature]. rewrite E. reflexivity.
  - intros Hn. unfold getter_type. now rewrite Hn.
Qed.

Lemma property_without_setter_signature_witness :
  let prop := mkProperty (Some (Some (text "(self: m.A) -> int"))) None
                         (Some (text "The x.")) in
  accessor_match (Some (text "m")) (fset prop) = None /\
  sanitize_docstring [] (prop_doc prop) = Ok (text "The x.") /\
  property_to_lines []
    (mkPropertyStubs "x" prop (Some (text "m"))
       (property_signature_from_docstring false prop (Some (text "m"))))
  = Ok [text "@property";
        text "def x(self) -> int:";
        documentation_block ("The x." +++ [newline; newline] +++ ":type: int")].
Proof.
  cbv zeta.
  assert (H1 : accessor_match (Some (text "m"))
                 (fset (mkProperty (Some (Some (text "(self: m.A) -> int"))) None
                                   (Some (text "The x.")))) = None) by reflexivity.
  assert (H2 : sanitize_docstring []
                 (prop_doc (mkProperty (Some (Some (text "(self: m.A) -> int"))) None
                                       (Some (text "The x.")))) = Ok (text "The x."))
    by (vm_compute; reflexivity).
  split; [exact H1|]. split; [exact H2|].
  exact (proj1 (proj2 (property_without_setter_signature [] false "x"
                         (mkProperty (Some (Some (text "(self: m.A) -> int"))) None
                                     (Some (text "The x.")))
                         (Some (text "m")) "The x." H1 H2))).
Defined.

(** ** Stripping the module name *)

Lemma in_skipn_sub : forall (n : nat) (s : str) x, In x (skipn n s) -> In x s.
Proof.
  intros n s x H. rewrite <- (firstn_skipn n s). apply in_or_app. now right.
Qed.

Lemma module_name_match_occurs : forall (m t : str) ma prev,
  ~ occurs (m ++ ["."%char]) t ->
  match_here (module_name_re m) ma prev t = None.
Proof.
  intros m t ma prev Hn. unfold match_here.
  match goal with |- context [matcher _ _ ?k] => set (final := k) end.
  assert (Hm : matcher (module_name_re m) (mkState prev t []) final = None);
    [|now rewrite Hm].
  unfold module_name_re. cbn [Cats].
  rewrite matcher_Cat, matcher_Lit.
  destruct (startswith m t) eqn:E1; [|reflexivity].
  apply startswith_prefix in E1.
  remember (skipn (length m) t) as t1 eqn:R1.
  rewrite matcher_Cat. unfold Chr. rewrite matcher_Sym.
  destruct t1 as [|x t2]; [reflexivity|].
  destruct (Ascii.eqb_spec "."%char x) as [<-|_]; [|reflexivity].
  exfalso. apply Hn. exists [], t2. rewrite E1 at 1.
  cbn [app]. now rewrite <- app_assoc.
Qed.

Lemma occurs_nil : forall x : str, x <> [] -> ~ occurs x [].
Proof.
  intros x Hx (a & b & H). destruct a; [destruct x; [contradiction | discriminate] | discriminate].
Qed.

Lemma module_name_search_none : forall (m s : str) ma prev,
  ~ occurs (m ++ ["."%char]) s -> search (module_name_re m) ma prev s = None.
Proof.
  intros m s ma prev Hn. apply search_none.
  - intros pre c post prev' ->. apply module_name_match_occurs.
    intros Ho. apply Hn. now apply occurs_suffix.
  - now apply module_name_match_occurs.
  - intros prev'. apply module_name_match_occurs. apply occurs_nil.
    destruct m; discriminate.
Qed.

Lemma module_name_match : forall (m w post : str) prev,
  word w -> stops re_word post ->
  match_here (module_name_re m) false prev (m ++ "."%char :: w ++ post)
  = Some (mkMatch (m ++ "."%char :: w) post (last_char (Some "."%char) w) [(1, w)]).
Proof.
  intros m w post prev [Hw Pw] Hp. unfold match_here.
  match goal with |- context [matcher _ _ ?k] => set (final := k) end.
  assert (Hm : matcher (module_name_re m) (mkState prev (m ++ "."%char :: w ++ post) []) final
               = final (mkState (last_char (Some "."%char) w) post [(1, w)])).
  { unfold module_name_re. cbn [Cats].
    rewrite matcher_Cat, matcher_Lit_app.
    rewrite matcher_Cat. unfold Chr. rewrite matcher_Sym_cons by reflexivity.
    rewrite matcher_Group.
    erewrite matcher_Plus_greedy; [reflexivity | exact Hw | exact Pw | exact Hp |].
    rewrite close_group_app. reflexivity. }
  rewrite Hm. unfold final. cbn [andb]. f_equal. f_equal.
  replace (m ++ "."%char :: w ++ post) with ((m ++ "."%char :: w) ++ post)
    by (rewrite <- app_assoc; reflexivity).
  apply consumed_app.
Qed.

(** X13: for a module name made of identifiers and dots,
    [strip_module_name] leaves a text as it is when the module
    name followed by a dot does not occur in it; and it removes the module
    name and the dot in front of a name that begins the text, when no dot
    follows that name. *)
Theorem strip_module_name_prefix : forall m : str,
  module_identifier (Some m) ->
  (forall s, ~ occurs (m ++ ["."%char]) s -> strip_module_name m s = s) /\
  (forall w post : str,
     word w -> stops re_word post -> ~ In "."%char post ->
     strip_module_name m (m ++ "."%char :: w ++ post) = w ++ post).
Proof.
  intros m _. split.
  - intros s Hn. unfold strip_module_name, re_sub_group1.
    apply re_sub_nowhere. now apply module_name_search_none.
  - intros w post Hw Hp Hd. unfold strip_module_name, re_sub_group1.
    rewrite re_sub_from_start.
    rewrite (re_sub_from_match _ _ _ _ _ _ (module_name_match m w post None Hw Hp)).
    cbn [m_text m_after m_last group m_groups assoc Nat.eqb].
    rewrite re_sub_from_none; [reflexivity|].
    apply module_name_search_none.
    intros (a & b & H). apply Hd. rewrite H.
    apply in_or_app. right. apply in_or_app. left. apply in_or_app. right. now left.
Qed.

Lemma strip_module_name_prefix_witness :
  strip_module_name "pkg.core" "int" = "int" /\
  strip_module_name "pkg.core" "pkg.core.Vector, x: int" = "Vector, x: int".
Proof.
  destruct (strip_module_name_prefix "pkg.core" ltac:(repeat constructor)) as [H1 H2]. split.
  - apply H1. intros (a & b & H).
    repeat (destruct a as [|? a]; [discriminate|]; injection H as _ H).
    destruct a; discriminate.
  - apply (H2 (text "Vector") (text ", x: int")).
    + split; [discriminate | repeat constructor].
    + reflexivity.
    + vm_compute. intuition discriminate.
Defined.

(** ** Class lists that are already in order *)

Section OrderedClasses.

Variable Klass : Type.
Variable is_ : Klass -> Klass -> bool.
Variable issubclass : Klass -> Klass -> bool.

Hypothesis is_spec : forall a b, is_ a b = true <-> a = b.
Hypothesis issubclass_refl : forall a, issubclass a a = true.
Hypothesis issubclass_trans : forall a b c,
  issubclass a b = true -> issubclass b c = true -> issubclass a c = true.
Hypothesis issubclass_antisym : forall a b,
  issubclass a b = true -> issubclass b a = true -> a = b.

Local Abbreviation Gen := (ClassStubsGenerator Klass).
Local Abbreviation derives_ := (derives Klass is_ issubclass).
Local Abbreviation sweep_ := (sweep Klass is_ issubclass).
Local Abbreviation selection_ := (selection Klass is_ issubclass).

Lemma sweep_ordered : forall (rest : list Gen) cur,
  Forall (fun z => derives_ cur z = false) rest -> sweep_ cur rest = (cur, rest).
Proof.
  induction rest as [|y rest IH]; intros cur H; [reflexivity|].
  inversion H as [|? ? Hy Hr]; subst. cbn [sweep].
  rewrite class_ordering_neg, Hy, (IH cur Hr). reflexivity.
Qed.

Lemma selection_ordered : forall k (l : list Gen),
  StronglySorted (fun a z => derives_ a z = false) l -> selection_ k l = l.
Proof.
  induction k as [|k IH]; intros l H; [reflexivity|].
  destruct l as [|x rest]; [reflexivity|].
  inversion H as [|? ? Hs Hf]; subst. cbn [selection].
  rewrite (sweep_ordered rest x Hf). f_equal. now apply IH.
Qed.

(** X14: the reordering loops leave a class list as it is when no class
    of the list stands before one of its strict ancestors; so reordering
    the reordered list changes nothing. *)
Theorem reorder_classes_keeps_ordered_list : forall classes : list Gen,
  (StronglySorted (fun a z => derives_ a z = false) classes ->
   reorder_classes Klass is_ issubclass classes = classes) /\
  reorder_classes Klass is_ issubclass (reorder_classes Klass is_ issubclass classes)
  = reorder_classes Klass is_ issubclass classes.
Proof.
  intros classes.
  assert (H : forall l : list Gen,
            StronglySorted (fun a z => derives_ a z = false) l ->
            reorder_classes Klass is_ issubclass l = l).
  { intros l Hl. rewrite reorder_classes_selection. now apply selection_ordered. }
  split; [apply H|].
  apply H. rewrite reorder_classes_selection.
  apply selection_sorted; auto.
Qed.

End OrderedClasses.

Lemma reorder_classes_keeps_ordered_list_witness :
  reorder_classes ExampleClass example_is example_issubclass
                  [mkClassStubs Base; mkClassStubs Other; mkClassStubs Derived]
  = [mkClassStubs Base; mkClassStubs Other; mkClassStubs Derived].
Proof.
  assert (H1 : forall a b, example_is a b = true <-> a = b)
    by (intros [] []; simpl; split; congruence).
  assert (H2 : forall a, example_issubclass a a = true)
    by (intros []; reflexivity).
  assert (H3 : forall a b c, example_issubclass a b = true -> example_issubclass b c = true ->
                             example_issubclass a c = true)
    by (intros [] [] []; simpl; congruence).
  assert (H4 : forall a b, example_issubclass a b = true -> example_issubclass b a = true -> a = b)
    by (intros [] []; simpl; congruence).
  apply (reorder_classes_keeps_ordered_list ExampleClass example_is example_issubclass
           H1 H2 H3 H4).
  repeat constructor.
Defined.

(** ** Texts inside texts *)

Lemma occurs_refl : forall x : str, occurs x x.
Proof. intros x. exists [], []. now rewrite app_nil_r. Qed.

Lemma occurs_prefix : forall (x s post : str), occurs x s -> occurs x (s ++ post).
Proof.
  intros x s post (a & b & ->). exists a, (b ++ post). now rewrite <- !app_assoc.
Qed.

Lemma occurs_trans : forall x y z : str, occurs x y -> occurs y z -> occurs x z.
Proof.
  intros x y z Hxy (a & b & ->). apply occurs_suffix. now apply occurs_prefix.
Qed.

Lemma occurs_in : forall (x s : str) c, occurs x s -> In c x -> In c s.
Proof.
  intros x s c (a & b & ->) H. apply in_or_app. right. apply in_or_app. now left.
Qed.

Lemma lstrip_with_suffix : forall f (s : str), exists pre, s = pre ++ lstrip_with f s.
Proof.
  intros f s. induction s as [|x s (pre & IH)]; [now exists []|].
  cbn [lstrip_with]. destruct (f x); [|now exists []].
  exists (x :: pre). cbn [app]. now f_equal.
Qed.

Lemma strip_with_occurs : forall f (s : str), occurs (strip_with f s) s.
Proof.
  intros f s. unfold strip_with, rstrip_with.
  destruct (lstrip_with_suffix f s) as (pre & Hs).
  destruct (lstrip_with_suffix f (rev (lstrip_with f s))) as (post & Hr).
  exists pre, (rev post). rewrite Hs at 1. f_equal.
  rewrite <- (rev_involutive (lstrip_with f s)) at 1. rewrite Hr at 1.
  now rewrite rev_app_distr.
Qed.

Lemma split_char_last_suffix : forall c (s : str) cur,
  exists pre, rev cur ++ s = pre ++ last (split_go [c] 0 cur s) [].
Proof.
  intros c s. induction s as [|x s IH]; intros cur.
  - exists []. cbn. now rewrite app_nil_r.
  - destruct (Ascii.eqb_spec x c) as [->|Hx].
    + rewrite split_char_sep. destruct (IH []) as (pre & E). cbn [rev app] in E.
      pose proof (split_go_nonempty [c] s 0 []) as Hn.
      destruct (split_go [c] 0 [] s) as [|p ps] eqn:Ep; [contradiction|].
      change (last (rev cur :: p :: ps) []) with (last (p :: ps) []).
      exists (rev cur ++ c :: pre). rewrite <- app_assoc. cbn [app]. now rewrite E.
    + rewrite split_char_other by exact Hx. destruct (IH (x :: cur)) as (pre & E).
      exists pre. rewrite <- E. cbn [rev]. now rewrite <- app_assoc.
Qed.

Lemma argument_type_occurs : forall arg : str, occurs (argument_type arg) arg.
Proof.
  intros arg. unfold argument_type, strip.
  apply (occurs_trans _ (last (split ":" arg) [])); [apply strip_with_occurs|].
  destruct (split_char_last_suffix ":"%char arg []) as (pre & E).
  cbn [rev app] in E. exists pre, []. now rewrite app_nil_r.
Qed.

Lemma join_occurs : forall sep (ps : list str) (p : str),
  In p ps -> occurs p (join sep ps).
Proof.
  intros sep ps p. induction ps as [|q ps IH]; intros Hp; [contradiction|].
  destruct ps as [|q' ps].
  - destruct Hp as [->|[]]. apply occurs_refl.
  - rewrite join_cons by discriminate.
    destruct Hp as [->|Hp].
    + apply occurs_prefix. apply occurs_refl.
    + apply occurs_suffix. apply occurs_suffix. now apply IH.
Qed.

(** ** The matches of [finditer] *)

Lemma search_matched : forall r (s : str) ma prev sk m,
  search r ma prev s = Some (sk, m) ->
  exists ma' prev' t, match_here r ma' prev' t = Some m.
Proof.
  intros r s. induction s as [|c s IH]; intros ma prev sk m H; cbn [search] in H.
  - destruct (match_here r ma prev []) as [m0|] eqn:E; [|discriminate].
    injection H as _ <-. eauto.
  - destruct (match_here r ma prev (c :: s)) as [m0|] eqn:E.
    + injection H as _ <-. eauto.
    + destruct (search r false (Some c) s) as [[sk0 m0]|] eqn:Es; [|discriminate].
      injection H as _ <-. eapply IH; eauto.
Qed.

Lemma finditer_go_matches : forall r fuel ma prev (s : str) sk m,
  In (sk, m) (fst (finditer_go r fuel ma prev s)) ->
  occurs (m_text m) s /\ exists ma' prev' t, match_here r ma' prev' t = Some m.
Proof.
  intros r fuel. induction fuel as [|fuel IH]; intros ma prev s sk m H; [contradiction|].
  cbn [finditer_go] in H.
  destruct (search r ma prev s) as [[sk0 m0]|] eqn:Es; [|contradiction].
  destruct (search_split _ _ _ _ _ _ Es) as [Hs _].
  destruct (finditer_go r fuel _ (m_last m0) (m_after m0)) as [ms tail] eqn:Ef.
  simpl in H. destruct H as [H|H].
  - injection H as -> ->. split; [|eapply search_matched; eauto].
    rewrite Hs. now exists sk, (m_after m).
  - assert (H' : In (sk, m) (fst (finditer_go r fuel
                                    (match m_text m0 with [] => true | _ => false end)
                                    (m_last m0) (m_after m0))))
      by (rewrite Ef; exact H).
    destruct (IH _ _ _ _ _ H') as [Ho Hm]. split; [|exact Hm].
    rewrite Hs. apply occurs_suffix. now apply occurs_suffix.
Qed.

(** The first group of the pattern of involved types is the whole
    match. *)
Lemma involved_type_group : forall ma prev (t : str) m,
  match_here involved_type_re ma prev t = Some m -> group m 1 = Some (m_text m).
Proof.
  intros ma prev t m H. unfold match_here in H. cbv zeta in H.
  set (st0 := mkState prev t []) in *.
  match type of H with context [matcher _ _ ?k] => set (final := k) in * end.
  destruct (matcher involved_type_re st0 final) as [res|] eqn:E; [|discriminate].
  injection H as <-.
  unfold involved_type_re in E. rewrite matcher_Group in E.
  apply matcher_reaches in E. destruct E as (st1 & _ & E).
  unfold final in E.
  destruct (ma && negb (progressed st0 (close_group 1 st0 st1))); [discriminate|].
  injection E as <-. unfold group. cbn. reflexivity.
Qed.

Lemma findall_involved_occurs : forall (s t : str),
  In t (re_findall1 involved_type_re s) -> occurs t s.
Proof.
  intros s t H. unfold re_findall1 in H. apply in_map_iff in H.
  destruct H as ([sk m] & Ht & Hin). cbn [snd] in Ht.
  unfold finditer in Hin. apply finditer_go_matches in Hin.
  destruct Hin as [Ho (ma & prev & u & Hm)].
  rewrite (involved_type_group _ _ _ _ Hm) in Ht. now subst t.
Qed.

(** ** Involved types and modules *)

Lemma split_arguments_segments : forall sig segs seg,
  split_arguments sig = Ok segs -> In seg segs -> occurs seg (args sig).
Proof.
  intros sig segs seg H Hin.
  pose proof (split_arguments_cases sig) as C. rewrite H in C.
  destruct (strip (args sig)) as [|x r] eqn:Es.
  - unfold split_arguments in H. rewrite Es in H. injection H as <-. contradiction.
  - destruct C as [C|C]; [discriminate|].
    rewrite split_arguments_nonblank in H by (rewrite ?Es; auto; discriminate).
    injection H as <-.
    apply (join_occurs ",") in Hin. now rewrite split_top_join in Hin.
Qed.

Lemma get_all_involved_types_occur : forall self,
  match get_all_involved_types self with
  | Ok types =>
      Forall (fun t => occurs t (rtype self) \/ occurs t (args self)) types
  | Raise e => e = AssertionError
  end.
Proof.
  intros self. unfold get_all_involved_types.
  pose proof (split_arguments_cases self) as C.
  destruct (split_arguments self) as [segs|e] eqn:E; cbn [rbind]; [|apply C].
  apply Forall_forall. intros t Ht. apply in_flat_map in Ht.
  destruct Ht as (seg & Hseg & Ht). apply findall_involved_occurs in Ht.
  pose proof (occurs_trans _ _ _ Ht (argument_type_occurs seg)) as Ho.
  destruct Hseg as [<-|Hseg]; [now left|].
  right. apply (occurs_trans _ seg); [exact Ho|].
  now apply (split_arguments_segments self segs).
Qed.

Lemma rindex_from_found : forall c (t : str) i found j,
  rindex_from c t i found = Some j ->
  found = Some j \/ (i <= j /\ nth_error t (j - i) = Some c).
Proof.
  intros c t. induction t as [|x t IH]; intros i found j H; cbn [rindex_from] in H.
  - now left.
  - apply IH in H. destruct H as [H|[H1 H2]].
    + destruct (Ascii.eqb_spec x c) as [->|_]; [|now left].
      injection H as <-. right. split; [lia|]. now rewrite Nat.sub_diag.
    + right. split; [lia|].
      replace (j - i) with (S (j - S i)) by lia. exact H2.
Qed.

Lemma rindex_prefix : forall c (t : str) i,
  rindex c t = Ok i -> occurs (firstn i t ++ [c]) t.
Proof.
  intros c t i H. unfold rindex in H.
  destruct (rindex_from c t 0 None) as [j|] eqn:E; [|discriminate].
  injection H as <-. apply rindex_from_found in E.
  destruct E as [E|[_ E]]; [discriminate|]. rewrite Nat.sub_0_r in E.
  apply nth_error_split in E. destruct E as (l1 & l2 & Ht & Hl).
  exists [], l2. cbn [app]. rewrite Ht at 2. rewrite <- Hl, firstn_app, Nat.sub_diag.
  rewrite firstn_all. cbn [firstn]. rewrite app_nil_r, <- app_assoc. exact Ht.
Qed.

Lemma set_add_in : forall x s n, In n (set_add x s) -> n = x \/ In n s.
Proof.
  intros x s n H. unfold set_add in H.
  destruct (existsb (str_eqb x) s); [now right|].
  apply in_app_or in H. destruct H as [H|[<-|[]]]; auto.
Qed.

Lemma set_add_NoDup : forall x s, NoDup s -> NoDup (set_add x s).
Proof.
  intros x s H. unfold set_add.
  destruct (existsb (str_eqb x) s) eqn:E; [exact H|].
  apply NoDup_app; [exact H | repeat constructor; intros [] |].
  intros y Hy [Hxy|[]]. subst y.
  assert (Et : existsb (str_eqb x) s = true)
    by (apply existsb_exists; exists x; split; [exact Hy | apply str_eqb_refl]).
  congruence.
Qed.

Lemma add_modules_of_types_spec : forall types names,
  NoDup names ->
  NoDup (add_modules_of_types types names) /\
  forall n, In n (add_modules_of_types types names) ->
            In n names \/ exists t, In t types /\ occurs (n ++ ["."%char]) t.
Proof.
  unfold add_modules_of_types.
  induction types as [|t types IH]; intros names Hn; cbn [fold_left].
  - split; [exact Hn | auto].
  - destruct (rindex "." t) as [i|e] eqn:E.
    + destruct (IH (set_add (firstn i t) names) (set_add_NoDup _ _ Hn)) as [I1 I2].
      split; [exact I1|]. intros n Hin. apply I2 in Hin.
      destruct Hin as [Hin|(t' & Ht' & Ho)].
      * apply set_add_in in Hin. destruct Hin as [->|Hin]; [|now left].
        right. exists t. split; [now left | now apply rindex_prefix].
      * right. exists t'. split; [now right | exact Ho].
    + destruct (IH names Hn) as [I1 I2]. split; [exact I1|].
      intros n Hin. apply I2 in Hin. destruct Hin as [Hin|(t' & Ht' & Ho)]; [now left|].
      right. exists t'. split; [now right | exact Ho].
Qed.

Lemma involved_modules_of_spec : forall sigs names,
  NoDup names ->
  match involved_modules_of sigs names with
  | Ok result0 =>
      NoDup result0 /\
      forall n, In n result0 ->
        In n names \/
        exists s, In s sigs /\
                  (occurs (n ++ ["."%char]) (rtype s) \/ occurs (n ++ ["."%char]) (args s))
  | Raise e => e = AssertionError
  end.
Proof.
  induction sigs as [|s sigs IH]; intros names Hn; cbn [involved_modules_of].
  - split; [exact Hn | auto].
  - pose proof (get_all_involved_types_occur s) as T.
    destruct (get_all_involved_types s) as [types|e]; cbn [rbind]; [|exact T].
    destruct (add_modules_of_types_spec types names Hn) as [A1 A2].
    specialize (IH _ A1).
    destruct (involved_modules_of sigs (add_modules_of_types types names))
      as [result0|e]; [|exact IH].
    destruct IH as [I1 I2]. split; [exact I1|].
    intros n Hin. apply I2 in Hin. destruct Hin as [Hin|(s' & Hs' & Ho)].
    + apply A2 in Hin. destruct Hin as [Hin|(t & Ht & Ho)]; [now left|].
      right. exists s. split; [now left|].
      rewrite Forall_forall in T.
      destruct (T t Ht) as [Hr|Ha]; [left | right]; eapply occurs_trans; eauto.
    + right. exists s'. split; [now right | exact Ho].
Qed.

(** X15: [FreeFunctionStubsGenerator.get_involved_modules_names]
    returns names without repetition, and each of them stands, followed by
    a dot, in the return text or in the argument text of one of the
    signatures; so signatures without a dot involve no module.  It raises
    only the [AssertionError] of [split_arguments]. *)
Theorem involved_modules_occur_in_signatures : forall self,
  match get_involved_modules_names self with
  | Ok names =>
      NoDup names /\
      (forall n, In n names ->
         exists s, In s (fn_signatures self) /\
                   (occurs (n ++ ["."%char]) (rtype s) \/
                    occurs (n ++ ["."%char]) (args s))) /\
      ((forall s, In s (fn_signatures self) ->
                  ~ In "."%char (rtype s) /\ ~ In "."%char (args s)) ->
       names = [])
  | Raise e => e = AssertionError
  end.
Proof.
  intros self. unfold get_involved_modules_names.
  pose proof (involved_modules_of_spec (fn_signatures self) [] (NoDup_nil _)) as H.
  destruct (involved_modules_of (fn_signatures self) []) as [names|e]; [|exact H].
  destruct H as [H1 H2].
  assert (H3 : forall n, In n names ->
            exists s, In s (fn_signatures self) /\
                      (occurs (n ++ ["."%char]) (rtype s) \/
                       occurs (n ++ ["."%char]) (args s)))
    by (intros n Hn; destruct (H2 n Hn) as [[]|Hs]; exact Hs).
  split; [exact H1|]. split; [exact H3|].
  intros Hd. destruct names as [|n names]; [reflexivity|]. exfalso.
  destruct (H3 n (or_introl eq_refl)) as (s & Hs & Ho).
  destruct (Hd s Hs) as [D1 D2].
  assert (Hin : In "."%char (n ++ ["."%char])) by (apply in_or_app; right; now left).
  destruct Ho as [Ho|Ho]; [apply D1 | apply D2]; eapply occurs_in; eauto.
Qed.

Lemma involved_modules_occur_in_signatures_witness :
  get_involved_modules_names
    (mkFunctionStubs "f" (mkMember None "m.f") (Some (text "m"))
                     [mkSig "f" "a: int, b: List[float]" "bool"])
  = Ok [].
Proof.
  pose proof (involved_modules_occur_in_signatures
                (mkFunctionStubs "f" (mkMember None "m.f") (Some (text "m"))
                                 [mkSig "f" "a: int, b: List[float]" "bool"])) as H.
  destruct (get_involved_modules_names _) as [names|e] eqn:E.
  - destruct H as (_ & _ & H). rewrite H; [reflexivity|].
    intros s [<-|[]]. split; vm_compute; intuition discriminate.
  - vm_compute in E. discriminate E.
Defined.

(** ** The type of the value of a setter *)

Lemma split_top_no_comma : forall (s : str) d cur,
  top_level_commas_from d s = 0 -> split_top d cur s = [cur ++ s].
Proof.
  induction s as [|c s IH]; intros d cur H.
  - cbn. now rewrite app_nil_r.
  - cbn [split_top top_level_commas_from] in *.
    destruct (Ascii.eqb c "[").
    + rewrite IH by exact H. now rewrite <- app_assoc.
    + destruct (Ascii.eqb c "]").
      * rewrite IH by exact H. now rewrite <- app_assoc.
      * destruct (Ascii.eqb c "," && (d =? 0)); [discriminate|].
        rewrite IH by exact H. now rewrite <- app_assoc.
Qed.

Lemma lstrip_with_keeps : forall f (s : str) c,
  In c s -> f c = false -> In c (lstrip_with f s).
Proof.
  intros f s c. induction s as [|x s IH]; intros Hin Hf; [contradiction|].
  cbn [lstrip_with]. destruct (f x) eqn:Ex; [|exact Hin].
  destruct Hin as [->|Hin]; [congruence | now apply IH].
Qed.

Lemma strip_nonblank : forall (s : str) c,
  In c s -> isspace c = false -> strip s <> [].
Proof.
  intros s c Hin Hf. unfold strip, strip_with, rstrip_with.
  assert (H : In c (rev (lstrip_with isspace (rev (lstrip_with isspace s))))).
  { apply -> in_rev. apply lstrip_with_keeps; [|exact Hf].
    apply -> in_rev. now apply lstrip_with_keeps. }
  intros E. rewrite E in H. contradiction.
Qed.

(** X16: [setter_arg_type] constructs a validated signature from the
    setter text (pybind11 dialect, no unsafe default).  When the parser
    accepts the declaration, it returns the type of the second argument
    for a text that is [self] followed by a comma and one more argument,
    and raises [IndexError] for a text with balanced brackets and no comma
    outside them.  When the parser refuses the declaration, as it does for
    the text [None] of a property without setter, and the downgrade is
    enabled, it counts one invalid signature and returns the type of the
    second argument of the degraded signature, [**kwargs]. *)
Theorem setter_arg_type_of_second_argument :
  forall (ast_parse : str -> ParseOutcome) (self : PropertySignature) g,
  no_angle (setter_args self) ->
  USE_BOOST_PYTHON g = false ->
  (ast_parse (candidate "name" (setter_args self) "None") = Parses ->
   (forall arg : str,
      setter_args self = "self," +++ arg -> closed_segment arg ->
      setter_arg_type ast_parse self g = (Ok (argument_type arg), g)) /\
   (balanced (setter_args self) = true -> top_level_commas (setter_args self) = 0 ->
    setter_arg_type ast_parse self g = (Raise IndexError, g))) /\
  (forall offset,
     ast_parse (candidate "name" (setter_args self) "None") = SyntaxError (Some offset) ->
     signature_downgrade g = true ->
     exists g',
       setter_arg_type ast_parse self g = (Ok (text "**kwargs"), g') /\
       n_invalid_signatures g' = n_invalid_signatures g + 1).
Proof.
  intros ast_parse self g Ha Hb. unfold setter_arg_type. split.
  - intros Hp.
    rewrite (bind_ok _ _ _ _ _ (init_clean ast_parse "name" _ "None" g Ha Hb Hp)).
    split.
    + intros arg E [Hbal Hc]. rewrite E.
      assert (Hs : split_arguments (mkSig "name" ("self," +++ arg) "None")
                   = Ok [text "self"; arg]).
      { rewrite split_arguments_nonblank.
        - cbn [args]. cbn. now rewrite split_top_no_comma by exact Hc.
        - cbn [args]. apply (strip_nonblank _ "s"%char); [now left | reflexivity].
        - cbn [args]. unfold balanced in *. cbn. exact Hbal. }
      unfold bind at 1. unfold lift at 1. rewrite Hs. reflexivity.
    + intros Hbal Hc.
      destruct (strip (setter_args self)) as [|x r] eqn:Es.
      * unfold bind, lift, split_arguments. cbn [args]. rewrite Es. reflexivity.
      * unfold bind at 1. unfold lift at 1.
        rewrite split_arguments_nonblank by (cbn [args]; rewrite ?Es; auto; discriminate).
        cbn [args]. rewrite split_top_no_comma by exact Hc. reflexivity.
  - intros offset Hp Hd.
    destruct (init_until_syntax ast_parse "name" (setter_args self) "None" g)
      as (g1 & C & E).
    unfold assembled in E. rewrite Hb in E.
    rewrite (defaults_no_angle _ Ha) in E, C. cbn [snd fst] in E, C.
    destruct (validate_syntax_invalid ast_parse "name"
                (mkSig "name" (setter_args self) "None") g1 (Some offset) Hp)
      as (g' & Ev & Cv & _).
    assert (Hd1 : signature_downgrade g1 = true) by (destruct C as (_&_&->&_); exact Hd).
    rewrite Hd1 in Ev. rewrite Ev in E.
    exists g'. split.
    + rewrite (bind_ok _ _ _ _ _ E). reflexivity.
    + destruct C as (_&_&_&_&C5&_), Cv as (_&_&_&_&Cv5&_). lia.
Qed.

Lemma setter_arg_type_of_second_argument_witness :
  let ast_parse := fun s : str =>
    if str_eqb s "def name(None) -> None: ..." then SyntaxError (Some 10%Z) else Parses in
  setter_arg_type ast_parse (mkPropertySignature "int" "self, arg0: float" READ_WRITE)
                  initial_globals
    = (Ok (text "float"), initial_globals) /\
  exists g',
    setter_arg_type ast_parse (mkPropertySignature "int" "None" READ_ONLY) initial_globals
      = (Ok (text "**kwargs"), g') /\
    n_invalid_signatures g' = 1.
Proof.
  cbv zeta.
  assert (N1 : no_angle (text "None")) by repeat constructor.
  assert (N2 : no_angle (text "self, arg0: float")) by repeat constructor.
  split.
  - exact (proj1 (proj1 (setter_arg_type_of_second_argument _
                    (mkPropertySignature "int" "self, arg0: float" READ_WRITE) initial_globals
                    N2 eq_refl) eq_refl) (text " arg0: float") eq_refl (conj eq_refl eq_refl)).
  - exact (proj2 (setter_arg_type_of_second_argument _
                    (mkPropertySignature "int" "None" READ_ONLY) initial_globals
                    N1 eq_refl) 10%Z eq_refl eq_refl).
Defined.

(** ** Class members whose argument text cannot be split *)

Lemma format_member_def_line : forall name0 args0 rtype0 ellipsis,
  format "def {name}({args}) -> {rtype}: {ellipsis}" []
         [kw "name" name0; kw "args" args0; kw "rtype" rtype0; kw "ellipsis" ellipsis]
  = Ok ("def " +++ name0 +++ "(" +++ args0 +++ ") -> " +++ rtype0 +++ ": " +++ ellipsis).
Proof.
  intros.
  transitivity (Ok ("def " +++ name0 +++ "(" +++ args0 +++ ") -> " +++ rtype0 +++ ": "
                    +++ ellipsis +++ [])); [reflexivity|].
  now rewrite app_nil_r.
Qed.

Lemma class_member_lines_cases : forall n sigs docstring acc,
  match class_member_lines n sigs docstring acc with
  | Ok _ =>
      Forall (fun s => startswith "self" (strip (args s)) = true ->
                       balanced (args s) = true) sigs
  | Raise e =>
      e = AssertionError /\
      Exists (fun s => startswith "self" (strip (args s)) = true /\
                       balanced (args s) = false) sigs
  end.
Proof.
  intros n sigs. induction sigs as [|s sigs IH]; intros docstring acc.
  - cbn. constructor.
  - cbn [class_member_lines].
    destruct (startswith "self" (strip (args s))) eqn:Es; cbn [negb rbind].
    + pose proof (split_arguments_cases s) as C.
      destruct (split_arguments s) as [l|e]; cbn [rbind].
      * assert (Hb : balanced (args s) = true).
        { destruct C as [C|C]; [|exact C]. rewrite C in Es. discriminate. }
        rewrite format_member_def_line. cbn [rbind].
        destruct docstring as [[|c d]|].
        -- match goal with |- context [class_member_lines n sigs ?D ?A] =>
             specialize (IH D A); destruct (class_member_lines n sigs D A) as [r|e] end.
           ++ constructor; [intros _; exact Hb | exact IH].
           ++ destruct IH as [Ee IH]. subst e. split; [reflexivity | now apply Exists_cons_tl].
        -- rewrite format_docstring_documentation_block. cbn [rbind].
           match goal with |- context [class_member_lines n sigs ?D ?A] =>
             specialize (IH D A); destruct (class_member_lines n sigs D A) as [r|e] end.
           ++ constructor; [intros _; exact Hb | exact IH].
           ++ destruct IH as [Ee IH]. subst e. split; [reflexivity | now apply Exists_cons_tl].
        -- match goal with |- context [class_member_lines n sigs ?D ?A] =>
             specialize (IH D A); destruct (class_member_lines n sigs D A) as [r|e] end.
           ++ constructor; [intros _; exact Hb | exact IH].
           ++ destruct IH as [Ee IH]. subst e. split; [reflexivity | now apply Exists_cons_tl].
      * destruct C as (Ce & _ & C). subst e. split; [reflexivity|].
        apply Exists_cons_hd. now split.
    + rewrite format_member_def_line. cbn [rbind].
      destruct docstring as [[|c d]|].
      * match goal with |- context [class_member_lines n sigs ?D ?A] =>
             specialize (IH D A); destruct (class_member_lines n sigs D A) as [r|e] end.
        -- constructor; [intros H; congruence | exact IH].
        -- destruct IH as [Ee IH]. subst e. split; [reflexivity | now apply Exists_cons_tl].
      * rewrite format_docstring_documentation_block. cbn [rbind].
        match goal with |- context [class_member_lines n sigs ?D ?A] =>
             specialize (IH D A); destruct (class_member_lines n sigs D A) as [r|e] end.
        -- constructor; [intros H; congruence | exact IH].
        -- destruct IH as [Ee IH]. subst e. split; [reflexivity | now apply Exists_cons_tl].
      * match goal with |- context [class_member_lines n sigs ?D ?A] =>
             specialize (IH D A); destruct (class_member_lines n sigs D A) as [r|e] end.
        -- constructor; [intros H; congruence | exact IH].
        -- destruct IH as [Ee IH]. subst e. split; [reflexivity | now apply Exists_cons_tl].
Qed.

(** X17: [ClassMemberStubsGenerator.to_lines], once the documentation
    is sanitized, returns lines exactly when every signature whose
    argument text begins with [self] has balanced square brackets; when
    one of them has not, the assertion of [split_arguments] fails and
    [to_lines] raises [AssertionError]. *)
Theorem class_member_needs_balanced_receiver_text :
  forall (hooks : list (option str -> option str)) self g docstring,
  sanitize_docstring hooks (member_doc (fn_member self)) = Ok docstring ->
  match fst (class_member_to_lines hooks self g) with
  | Ok _ =>
      Forall (fun s => startswith "self" (strip (args s)) = true ->
                       balanced (args s) = true) (fn_signatures self)
  | Raise e =>
      e = AssertionError /\
      Exists (fun s => startswith "self" (strip (args s)) = true /\
                       balanced (args s) = false) (fn_signatures self)
  end.
Proof.
  intros hooks self g docstring Hd. unfold class_member_to_lines.
  unfold bind at 1. unfold lift at 1. rewrite Hd.
  assert (Hq : quiet (log_empty_docstring self docstring))
    by (unfold log_empty_docstring; auto with quiet).
  destruct (Hq g) as ([] & g' & E & _).
  rewrite (bind_ok _ _ _ _ _ E). unfold lift. cbn [fst].
  apply class_member_lines_cases.
Qed.

Lemma class_member_needs_balanced_receiver_text_witness :
  fst (class_member_to_lines []
         (mkFunctionStubs "f" (mkMember None "m.A.f") (Some (text "m"))
                          [mkSig "f" "self, a: List[int" "None"]) initial_globals)
  = Raise AssertionError.
Proof.
  pose proof (class_member_needs_balanced_receiver_text []
                (mkFunctionStubs "f" (mkMember None "m.A.f") (Some (text "m"))
                                 [mkSig "f" "self, a: List[int" "None"])
                initial_globals [] eq_refl) as H.
  destruct (fst (class_member_to_lines _ _ _)) as [lines|e].
  - exfalso. inversion H as [|? ? Hs _]. cbn [args] in Hs.
    specialize (Hs eq_refl). discriminate Hs.
  - destruct H as [Ee _]. subst e. reflexivity.
Defined.

(** ** A signature line *)

Lemma word_char_not_space : forall c, re_word c = true -> re_space c = false.
Proof.
  intros [[] [] [] [] [] [] [] []]; vm_compute; intros H; congruence.
Qed.

Lemma matcher_Star_unfold : forall a st k,
  matcher (Star a) st k = star_loop (matcher a) (S (length (st_rest st))) st k.
Proof. reflexivity. Qed.

Lemma matcher_Star_nothing : forall p prev (r : str) gs k res,
  stops p r ->
  k (mkState prev r gs) = Some res ->
  matcher (Star (Sym p)) (mkState prev r gs) k = Some res.
Proof.
  intros p prev r gs k res Hs Hk.
  apply (matcher_Star_greedy p [] prev r gs k res); [constructor | exact Hs | exact Hk].
Qed.

Lemma matcher_Star_nothing_none : forall p prev (r : str) gs k,
  stops p r ->
  (forall prev' gs', k (mkState prev' r gs') = None) ->
  matcher (Star (Sym p)) (mkState prev r gs) k = None.
Proof.
  intros p prev r gs k Hs Hk.
  apply (matcher_within_none p r (Star (Sym p)) (fun x H => H) Hs [] prev gs k).
  - constructor.
  - intros z1 z2 prev' gs' E. symmetry in E. apply app_eq_nil in E.
    destruct E as [_ ->]. apply Hk.
Qed.

(** The optional overload number is not read in front of a name. *)
Lemma overload_number_absent : forall prev (T : str) gs K,
  stops re_space T -> stops re_digit T ->
  matcher (Group 1 (Cats [Star (Sym re_space);
                          Group g_overload_number (Plus (Sym re_digit));
                          Sym re_any])) (mkState prev T gs) K = None.
Proof.
  intros prev T gs K Hs Hd. rewrite matcher_Group. cbn [Cats]. rewrite matcher_Cat.
  apply matcher_Star_nothing_none; [exact Hs|].
  intros prev' gs'. rewrite matcher_Cat, matcher_Group. unfold Plus.
  rewrite matcher_Cat. now apply matcher_Sym_stops.
Qed.

(** One fold of balanced parentheses on a text without parentheses that
    a closing parenthesis follows. *)
Lemma parentheses_fold_body : forall n inner (a T : str) prev gs K res,
  all_in (none_of "()") a ->
  K (mkState (last_char prev a) (")"%char :: T) ((n, a) :: gs)) = Some res ->
  matcher (Group n (Cat no_parentheses
                        (Opt (Group (S n) (Cats [Chr "("; inner; Chr ")"])))))
          (mkState prev (a ++ ")"%char :: T) gs) K = Some res.
Proof.
  intros n inner a T prev gs K res Ha HK.
  rewrite matcher_Group, matcher_Cat. unfold no_parentheses.
  apply matcher_Star_greedy; [exact Ha | reflexivity |].
  unfold Opt. rewrite matcher_Alt_right.
  - rewrite matcher_Eps, close_group_app. exact HK.
  - rewrite matcher_Group. cbn [Cats]. rewrite matcher_Cat.
    now apply matcher_Sym_stops.
Qed.

Lemma parentheses_fold_flat : forall n inner (a T : str) prev gs k res,
  all_in (none_of "()") a ->
  k (mkState (last_char prev a) (")"%char :: T)
             ((n, []) :: match a with [] => gs | _ :: _ => (n, a) :: gs end)) = Some res ->
  matcher (parentheses_fold n inner) (mkState prev (a ++ ")"%char :: T) gs) k = Some res.
Proof.
  intros n inner a T prev gs k res Ha Hk.
  unfold parentheses_fold. rewrite matcher_Star_unfold. cbn [st_rest].
  assert (Hend : forall prev' gs' fuel,
            k (mkState prev' (")"%char :: T) ((n, []) :: gs')) = Some res ->
            star_loop (matcher (Group n (Cat no_parentheses
                         (Opt (Group (S n) (Cats [Chr "("; inner; Chr ")"]))))))
                      (S fuel) (mkState prev' (")"%char :: T) gs') k = Some res).
  { intros prev' gs' fuel H. cbn [star_loop].
    rewrite (parentheses_fold_body n inner [] T prev' gs' _ res (Forall_nil _)).
    - reflexivity.
    - cbn [last_char]. unfold progressed. cbn [st_rest]. rewrite Nat.ltb_irrefl. exact H. }
  destruct a as [|x a].
  - cbn [app last_char] in *. now apply Hend.
  - rewrite length_app. cbn [length].
    replace (S (S (length a) + S (length T))) with (S (S (length a + S (length T)))) by lia.
    eapply star_loop_round.
    + intros K HK. apply parentheses_fold_body; [exact Ha | exact HK].
    + unfold progressed. cbn [st_rest]. rewrite length_app. cbn [length].
      apply Nat.ltb_lt. lia.
    + now apply Hend.
Qed.

(** The line [name(args) -> rtype], its argument text without
    parentheses, is read as a signature of [name]. *)
Lemma signature_line_match : forall name0 a r : str,
  word name0 -> stops re_digit name0 ->
  all_in (none_of "()") a ->
  r <> [] -> all_in (none_of "()") r -> stops re_space r ->
  exists m,
    re_match (signature_regex name0) (name0 +++ "(" +++ a +++ ") -> " +++ r) = Some m /\
    group_or_empty m g_args = a /\ group_or_empty m g_rtype = r.
Proof.
  intros name0 a r [Hn Hw] Hd Ha Hr Hrp Hrs.
  unfold re_match, match_here.
  match goal with |- context [matcher _ _ ?k] => set (final := k) end.
  assert (Hm : matcher (signature_regex name0)
                 (mkState None (name0 +++ "(" +++ a +++ ") -> " +++ r) []) final
               = Some (mkState (last_char (Some " "%char) r) []
                         ((g_rtype, r) :: (g_args, a) :: (4, [])
                          :: match a with [] => [] | _ :: _ => [(4, a)] end))).
  { assert (Hsp : stops re_space (name0 +++ "(" +++ a +++ ") -> " +++ r)).
    { destruct name0 as [|c0 n0]; [contradiction|].
      inversion Hw; subst. cbn. now apply word_char_not_space. }
    assert (Hdg : stops re_digit (name0 +++ "(" +++ a +++ ") -> " +++ r)).
    { destruct name0 as [|c0 n0]; [contradiction|]. exact Hd. }
    unfold signature_regex. cbn [Cats].
    rewrite matcher_Cat. unfold Opt. rewrite matcher_Alt_right
      by now apply overload_number_absent.
    rewrite matcher_Eps, matcher_Cat.
    apply matcher_Star_nothing; [exact Hsp|].
    rewrite matcher_Cat, matcher_Lit_app, matcher_Cat.
    cbn [text list_ascii_of_string app].
    apply matcher_Star_nothing; [reflexivity|].
    rewrite matcher_Cat. unfold Chr at 1. rewrite matcher_Sym_cons by reflexivity.
    rewrite matcher_Cat, matcher_Group. unfold parentheses_three_fold.
    apply parentheses_fold_flat; [exact Ha|].
    rewrite (close_group_eq g_args _ _ _ _ _ a (")"%char :: " "%char :: "-"%char :: ">"%char
                                                  :: " "%char :: r)) by reflexivity.
    rewrite matcher_Cat. unfold Chr at 1. rewrite matcher_Sym_cons by reflexivity.
    rewrite matcher_Cat.
    apply (matcher_Star_greedy re_space [" "%char] _ ("-"%char :: ">"%char :: " "%char :: r));
      [repeat constructor | reflexivity |].
    cbn [last_char].
    rewrite matcher_Cat.
    rewrite (matcher_Lit_app "->" _ (" "%char :: r)).
    rewrite matcher_Cat.
    apply (matcher_Star_greedy re_space [" "%char] _ r);
      [repeat constructor | exact Hrs |].
    cbn [last_char text list_ascii_of_string].
    rewrite matcher_Cat, matcher_Group.
    rewrite <- (app_nil_r r) at 1.
    apply matcher_Plus_greedy; [exact Hr | exact Hrp | exact I |].
    rewrite (close_group_eq g_rtype _ _ _ _ _ r []) by (now rewrite app_nil_r).
    apply matcher_Star_nothing; [exact I|].
    unfold final. cbn [andb].
    destruct a; reflexivity. }
  rewrite Hm. eexists. split; [reflexivity|].
  unfold group_or_empty, group. cbn [m_groups st_groups assoc].
  split; reflexivity.
Qed.

Lemma singleton_set : forall (list_of_set : list FunctionSignature -> list FunctionSignature) x,
  (forall l, NoDup (list_of_set l) /\ forall y, In y (list_of_set l) <-> In y l) ->
  list_of_set [x] = [x].
Proof.
  intros list_of_set x H. destruct (H [x]) as [Hn Hin].
  destruct (list_of_set [x]) as [|y l].
  - exfalso. apply (Hin x). now left.
  - assert (Hy : y = x) by (destruct (proj1 (Hin y) (or_introl eq_refl)) as [E|[]]; auto).
    subst y. destruct l as [|z l]; [reflexivity|]. exfalso.
    assert (Hz : z = x)
      by (destruct (proj1 (Hin z) (or_intror (or_introl eq_refl))) as [E|[]]; auto).
    subst z. inversion Hn as [|? ? Hnot _]. apply Hnot. now left.
Qed.

Lemma signature_line_parsed :
  forall (ast_parse : str -> ParseOutcome) (hooks : list (option str -> option str))
         (list_of_set : list FunctionSignature -> list FunctionSignature)
         (name0 a r : str) (others : list str) module_name g,
  (forall l, NoDup (list_of_set l) /\ forall x, In x (list_of_set l) <-> In x l) ->
  word name0 -> stops re_digit name0 ->
  all_in (none_of "()") a -> no_angle a ->
  r <> [] -> all_in (none_of "()") r -> stops re_space r ->
  Forall (fun l => ~ In newline l) ((signature_line name0 a r) :: others) ->
  filter (is_match (signature_regex name0)) others = [] ->
  apply_hooks hooks (Some (join [newline] ((signature_line name0 a r) :: others)))
    = Some (join [newline] ((signature_line name0 a r) :: others)) ->
  USE_BOOST_PYTHON g = false ->
  ast_parse (candidate name0 a r) = Parses ->
  function_signatures_from_docstring ast_parse hooks list_of_set name0
    (Some (join [newline] ((signature_line name0 a r) :: others)))
    module_name g
  = (Ok [normalized module_name (BARE_NUPMY_NDARRAY g) (mkSig name0 a r)], g).
Proof.
  intros ast_parse hooks list_of_set name0 a r others module_name g
         Hset Hw Hd Ha Hna Hr Hrp Hrs Hnl Hothers Hhooks Hb Hp.
  unfold signature_line in *.
  destruct (signature_line_match name0 a r Hw Hd Ha Hr Hrp Hrs) as (m & Hm & Ga & Gr).
  rewrite (function_signatures_from_docstring_eq ast_parse hooks list_of_set name0 _
             module_name g [mkSig name0 a r] g Hhooks).
  - cbn [map]. rewrite (singleton_set list_of_set _ Hset). reflexivity.
  - rewrite split_char_join by (discriminate || exact Hnl).
    cbn [signatures_of_lines]. rewrite Hm, Ga, Gr.
    rewrite (bind_ok _ _ _ _ _ (init_clean ast_parse name0 a r g Hna Hb Hp)).
    rewrite (bind_ok _ _ _ _ _ (signatures_of_lines_none ast_parse name0 others g Hothers)).
    reflexivity.
Qed.


(** X18: a documentation whose first line is [name(args) -> rtype],
    with an argument text free of parentheses and of unsafe defaults and a
    declaration that parses, and none of whose other lines is a signature
    of the name, yields exactly one signature: the name, the argument text
    and the return text of that line, the module name stripped and the
    class names replaced; nothing is counted or logged. *)
Theorem documented_signature_line :
  forall (ast_parse : str -> ParseOutcome) (hooks : list (option str -> option str))
         (list_of_set : list FunctionSignature -> list FunctionSignature)
         (name0 a r : str) (others : list str) module_name g,
  (forall l, NoDup (list_of_set l) /\ forall x, In x (list_of_set l) <-> In x l) ->
  module_identifier module_name ->
  word name0 -> stops re_digit name0 ->
  all_in (none_of "()") a -> no_angle a ->
  r <> [] -> all_in (none_of "()") r -> stops re_space r ->
  Forall (fun l => ~ In newline l) ((signature_line name0 a r) :: others) ->
  filter (is_match (signature_regex name0)) others = [] ->
  apply_hooks hooks (Some (join [newline] ((signature_line name0 a r) :: others)))
    = Some (join [newline] ((signature_line name0 a r) :: others)) ->
  USE_BOOST_PYTHON g = false ->
  ast_parse (candidate name0 a r) = Parses ->
  function_signatures_from_docstring ast_parse hooks list_of_set name0
    (Some (join [newline] ((signature_line name0 a r) :: others)))
    module_name g
  = (Ok [normalized module_name (BARE_NUPMY_NDARRAY g) (mkSig name0 a r)], g).
Proof.
  intros ast_parse hooks list_of_set name0 a r others module_name g
         Hset _ Hw Hd Ha Hna Hr Hrp Hrs Hnl Hothers Hhooks Hb Hp.
  now apply signature_line_parsed.
Qed.

Lemma documented_signature_line_witness :
  function_signatures_from_docstring (fun _ => Parses) [] distinct "scale"
    (Some (join [newline] [text "scale(v: m.Vector, k: float) -> m.Vector"; text "";
                           text "Scales a vector."]))
    (Some (text "m")) initial_globals
  = (Ok [mkSig "scale" "v: Vector, k: float" "Vector"], initial_globals).
Proof.
  apply (documented_signature_line (fun _ => Parses) [] distinct
           "scale" "v: m.Vector, k: float" "m.Vector" [text ""; text "Scales a vector."]
           (Some (text "m")) initial_globals).
  - intros l. split; [apply distinct_NoDup | apply distinct_In].
  - repeat constructor.
  - split; [discriminate | repeat constructor].
  - reflexivity.
  - repeat constructor.
  - repeat constructor.
  - discriminate.
  - repeat constructor.
  - reflexivity.
  - repeat constructor; vm_compute; intuition discriminate.
  - vm_compute. reflexivity.
  - reflexivity.
  - reflexivity.
  - reflexivity.
Defined.

(** ** The accessors of a property *)

Lemma accessor_signature_match : forall w a r : str,
  all_in re_word w ->
  all_in (none_of "()") a ->
  r <> [] -> all_in (none_of "()") r -> stops re_space r ->
  exists m,
    re_match accessor_regex (accessor_signature w a r) = Some m /\
    group_or_empty m 2 = a /\ group_or_empty m 3 = r.
Proof.
  intros w a r Hw Ha Hr Hrp Hrs.
  unfold re_match, match_here, accessor_signature.
  match goal with |- context [matcher _ _ ?k] => set (final := k) end.
  assert (Hm : matcher accessor_regex
                 (mkState None (w +++ "(" +++ a +++ ") -> " +++ r) []) final
               = Some (mkState (last_char (Some " "%char) r) []
                         [(3, r); (2, a); (1, w)])).
  { assert (Hsp : stops re_space (w +++ "(" +++ a +++ ") -> " +++ r)).
    { destruct w as [|c0 w0]; [reflexivity|].
      inversion Hw; subst. cbn. now apply word_char_not_space. }
    unfold accessor_regex. cbn [Cats].
    rewrite matcher_Cat.
    apply matcher_Star_nothing; [exact Hsp|].
    rewrite matcher_Cat, matcher_Group.
    apply matcher_Star_greedy; [exact Hw | reflexivity |].
    rewrite close_group_app.
    cbn [text list_ascii_of_string app].
    rewrite matcher_Cat. unfold Chr at 1. rewrite matcher_Sym_cons by reflexivity.
    rewrite matcher_Cat, matcher_Group.
    apply matcher_Star_greedy; [exact Ha | reflexivity |].
    rewrite close_group_app.
    rewrite matcher_Cat. unfold Chr at 1. rewrite matcher_Sym_cons by reflexivity.
    rewrite matcher_Cat.
    apply (matcher_Star_greedy re_space [" "%char] _ ("-"%char :: ">"%char :: " "%char :: r));
      [repeat constructor | reflexivity |].
    cbn [last_char].
    rewrite matcher_Cat.
    rewrite (matcher_Lit_app "->" _ (" "%char :: r)).
    rewrite matcher_Cat.
    apply (matcher_Star_greedy re_space [" "%char] _ r);
      [repeat constructor | exact Hrs |].
    cbn [last_char text list_ascii_of_string].
    rewrite matcher_Cat, matcher_Group.
    rewrite <- (app_nil_r r) at 1.
    apply matcher_Plus_greedy; [exact Hr | exact Hrp | exact I |].
    rewrite (close_group_eq 3 _ _ _ _ _ r []) by (now rewrite app_nil_r).
    apply matcher_Star_nothing; [exact I|].
    reflexivity. }
  rewrite Hm. eexists. split; [reflexivity|].
  unfold group_or_empty, group. cbn [m_groups st_groups assoc].
  split; reflexivity.
Qed.

Lemma accessor_match_first_line : forall module_name (line : str) others w a r,
  Forall (fun l => ~ In newline l) (line :: others) ->
  accessor_line module_name line = accessor_signature w a r ->
  all_in re_word w ->
  all_in (none_of "()") a ->
  r <> [] -> all_in (none_of "()") r -> stops re_space r ->
  exists m,
    accessor_match module_name (Some (Some (join [newline] (line :: others)))) = Some m /\
    group_or_empty m 2 = a /\ group_or_empty m 3 = r.
Proof.
  intros module_name line others w a r Hnl Hl Hw Ha Hr Hrp Hrs.
  destruct (accessor_signature_match w a r Hw Ha Hr Hrp Hrs) as (m & Hm & G2 & G3).
  exists m. split; [|split; assumption].
  unfold accessor_match. rewrite split_char_join by (discriminate || exact Hnl).
  cbn [first_accessor_match].
  change (match module_name with
          | Some mn => replace (mn +++ ".") "" line
          | None => line
          end) with (accessor_line module_name line).
  now rewrite Hl, Hm.
Qed.

(** X19: when the first line of the getter's documentation, the module
    name removed, is a signature line [name(args) -> rtype], the return
    text parsed for the property is [rtype] with the class names replaced;
    and when the first line of the setter's documentation is such a line,
    the setter text is its argument text with the first argument replaced
    by [self], the class names replaced. *)
Theorem property_signature_from_first_lines :
  forall bare (prop : Property) module_name (line : str) others w a r,
  Forall (fun l => ~ In newline l) (line :: others) ->
  accessor_line module_name line = accessor_signature w a r ->
  all_in re_word w ->
  all_in (none_of "()") a ->
  r <> [] -> all_in (none_of "()") r -> stops re_space r ->
  (fget prop = Some (Some (join [newline] (line :: others))) ->
   prop_rtype (property_signature_from_docstring bare prop module_name)
   = apply_classname_replacements bare r) /\
  (fset prop = Some (Some (join [newline] (line :: others))) ->
   setter_args (property_signature_from_docstring bare prop module_name)
   = apply_classname_replacements bare (join "," (text "self" :: tl (split "," a)))).
Proof.
  intros bare prop module_name line others w a r Hnl Hl Hw Ha Hr Hrp Hrs.
  destruct (accessor_match_first_line module_name line others w a r
              Hnl Hl Hw Ha Hr Hrp Hrs) as (m & Hm & G2 & G3).
  unfold property_signature_from_docstring. cbn [prop_rtype setter_args].
  split; intros E; rewrite E, Hm; [now rewrite G3 | now rewrite G2].
Qed.

Lemma property_signature_from_first_lines_witness :
  prop_rtype (property_signature_from_docstring false
                (mkProperty (Some (Some (text "(self: m.A) -> List[int]")))
                            (Some (Some (text "(self: m.A, arg0: List[int]) -> None")))
                            None)
                (Some (text "m")))
  = "typing.List[int]" /\
  setter_args (property_signature_from_docstring false
                 (mkProperty (Some (Some (text "(self: m.A) -> List[int]")))
                             (Some (Some (text "(self: m.A, arg0: List[int]) -> None")))
                             None)
                 (Some (text "m")))
  = "self, arg0: typing.List[int]".
Proof.
  split.
  - refine (proj1 (property_signature_from_first_lines false
                     (mkProperty (Some (Some (text "(self: m.A) -> List[int]")))
                                 (Some (Some (text "(self: m.A, arg0: List[int]) -> None")))
                                 None) (Some (text "m"))
                     (text "(self: m.A) -> List[int]") [] [] (text "self: A")
                     (text "List[int]") _ eq_refl _ _ _ _ _) eq_refl);
      try (repeat constructor); try discriminate.
    vm_compute. intuition discriminate.
  - refine (proj2 (property_signature_from_first_lines false
                     (mkProperty (Some (Some (text "(self: m.A) -> List[int]")))
                                 (Some (Some (text "(self: m.A, arg0: List[int]) -> None")))
                                 None) (Some (text "m"))
                     (text "(self: m.A, arg0: List[int]) -> None") [] []
                     (text "self: A, arg0: List[int]")
                     (text "None") _ eq_refl _ _ _ _ _) eq_refl);
      try (repeat constructor); try discriminate.
    vm_compute. intuition discriminate.
Defined.

(** ** Members that are submodules *)

Lemma list_str_eqb_eq : forall a b, list_str_eqb a b = true <-> a = b.
Proof.
  induction a as [|x a IH]; intros [|y b]; cbn [list_str_eqb]; split; try congruence.
  - intros H. apply andb_prop in H. destruct H as [H1 H2].
    apply str_eqb_eq in H1. apply IH in H2. congruence.
  - intros H. injection H as -> ->. apply andb_true_intro. split.
    + apply str_eqb_refl.
    + now apply IH.
Qed.

(** X20: a member module is taken for a submodule exactly when its name
    is the name of the module being parsed followed by a dot and one more
    component without a dot: the module itself, deeper descendants and
    foreign modules are not. *)
Theorem is_submodule_direct_child : forall member_name module_name : str,
  is_submodule member_name module_name = true <->
  exists c : str, ~ In "."%char c /\ member_name = module_name ++ "."%char :: c.
Proof.
  intros member_name module_name. unfold is_submodule. rewrite list_str_eqb_eq.
  change (text ".") with ["."%char]. split.
  - intros H.
    pose proof (split_go_nonempty ["."%char] member_name 0 []) as Hn.
    fold (split ["."%char] member_name) in Hn.
    pose proof (app_removelast_last [] Hn) as Hl.
    exists (last (split ["."%char] member_name) []). split.
    + pose proof (split_char_pieces "."%char member_name [] (fun x => x)) as P.
      rewrite Forall_forall in P. apply P.
      fold (split ["."%char] member_name). rewrite Hl at 2.
      apply in_or_app. right. now left.
    + pose proof (join_char_split "."%char member_name []) as J.
      fold (split ["."%char] member_name) in J. cbn [rev app] in J.
      assert (E : split ["."%char] member_name
                  = split ["."%char] module_name
                    ++ [last (split ["."%char] member_name) []])
        by (rewrite <- H; exact Hl).
      rewrite <- J at 1. rewrite E at 1.
      rewrite join_app by (discriminate || apply split_go_nonempty).
      unfold split at 1. rewrite join_char_split. reflexivity.
  - intros (c & Hc & ->). unfold split.
    rewrite split_char_app, (split_char_line _ c) by exact Hc.
    cbn [rev app]. apply removelast_last.
Qed.

(** ** The translation of the Boost.Python dialect *)

Lemma matcher_LazyStar_unfold : forall a st k,
  matcher (LazyStar a) st k = lazy_loop (matcher a) (S (length (st_rest st))) st k.
Proof. reflexivity. Qed.

(** A lazy repetition stops at the first position where the rest of the
    pattern succeeds. *)
Lemma lazy_loop_until : forall p (w T : str) gs k res,
  all_in p w ->
  forall prev fuel,
    length w < fuel ->
    (forall w1 w2, w = w1 ++ w2 -> w2 <> [] ->
       k (mkState (last_char prev w1) (w2 ++ T) gs) = None) ->
    k (mkState (last_char prev w) T gs) = Some res ->
    lazy_loop (m_sym p) fuel (mkState prev (w ++ T) gs) k = Some res.
Proof.
  intros p w T gs k res Hw. induction Hw as [|x w Hx Hw IH]; intros prev fuel Hf Hn Hk.
  - destruct fuel; cbn [lazy_loop app last_char] in *; now rewrite Hk.
  - destruct fuel as [|fuel]; [cbn in Hf; lia|].
    cbn [lazy_loop].
    pose proof (Hn [] (x :: w) eq_refl ltac:(discriminate)) as H0.
    cbn [last_char app] in H0 |- *. rewrite H0.
    unfold m_sym at 1. cbn [st_rest app st_groups]. rewrite Hx.
    unfold progressed. cbn [st_rest length].
    replace (length (w ++ T) <? S (length (w ++ T))) with true
      by (symmetry; apply Nat.ltb_lt; lia).
    apply IH.
    + cbn in Hf. lia.
    + intros w1 w2 E Hw2. apply (Hn (x :: w1) w2); [now rewrite E | exact Hw2].
    + exact Hk.
Qed.

Lemma boost_plain_spec : forall c,
  boost_plain c = true ->
  re_any c = true /\ c <> "("%char /\ c <> ")"%char /\ c <> "["%char /\ c <> "]"%char
  /\ c <> ","%char.
Proof.
  intros c H. unfold boost_plain in H. apply andb_prop in H. destruct H as [H1 H2].
  split; [exact H2|].
  unfold none_of, one_of in H1. cbn [existsb text list_ascii_of_string] in H1.
  rewrite !negb_orb in H1.
  repeat (apply andb_prop in H1; destruct H1 as [? H1]).
  repeat split; intros ->; discriminate.
Qed.

Lemma boost_plain_not_in : forall (s : str) c,
  all_in boost_plain s -> boost_plain c = false -> ~ In c s.
Proof.
  intros s c H Hc Hin. unfold all_in in H. rewrite Forall_forall in H.
  specialize (H c Hin). congruence.
Qed.

(** The type in parentheses at the head of an argument. *)
Lemma boost_type_match : forall (t rest : str) prev,
  all_in boost_plain t ->
  match_here boost_type_re false prev ("("%char :: t ++ ")"%char :: rest)
  = Some (mkMatch ("("%char :: t ++ [")"%char]) rest (Some ")"%char) [(1, t)]).
Proof.
  intros t rest prev Ht. unfold match_here.
  match goal with |- context [matcher _ _ ?k] => set (final := k) end.
  assert (Hm : matcher boost_type_re (mkState prev ("("%char :: t ++ ")"%char :: rest) []) final
               = final (mkState (Some ")"%char) rest [(1, t)])).
  { unfold boost_type_re. cbn [Cats].
    rewrite matcher_Cat. unfold Chr at 1. rewrite matcher_Sym_cons by reflexivity.
    rewrite matcher_Cat, matcher_Group, matcher_LazyStar_unfold.
    apply lazy_loop_until.
    - eapply Forall_impl; [|exact Ht]. intros c Hc. now apply boost_plain_spec.
    - cbn [st_rest]. rewrite length_app. lia.
    - intros w1 w2 E Hw2. destruct w2 as [|x w2]; [contradiction|].
      unfold close_group. cbn [st_prev st_rest st_groups app].
      unfold Chr. rewrite matcher_Sym.
      destruct (Ascii.eqb_spec ")"%char x) as [<-|_]; [|reflexivity].
      exfalso. apply (boost_plain_not_in t ")"%char Ht eq_refl).
      rewrite E. apply in_or_app. right. now left.
    - rewrite close_group_app. unfold Chr. rewrite matcher_Sym_cons by reflexivity.
      reflexivity. }
  rewrite Hm. unfold final. cbn [andb]. f_equal. f_equal.
  replace ("("%char :: t ++ ")"%char :: rest) with (("("%char :: t ++ [")"%char]) ++ rest)
    by (cbn [app]; rewrite <- app_assoc; reflexivity).
  apply consumed_app.
Qed.

Lemma boost_type_absent : forall c (s : str) ma prev,
  c <> "("%char -> match_here boost_type_re ma prev (c :: s) = None.
Proof.
  intros c s ma prev Hc. unfold match_here, boost_type_re. cbn [Cats].
  rewrite matcher_Cat. unfold Chr at 1. rewrite matcher_Sym.
  destruct (Ascii.eqb_spec "("%char c) as [E|_]; [congruence | reflexivity].
Qed.

Lemma boost_type_and_name_plain : forall b : BoostArgument,
  plain_argument b ->
  boost_type_and_name (boost_argument b)
  = Ok (type_name b, replace " " "_" (arg_name b)).
Proof.
  intros [pre t n] (Hp & Ht & Hn). cbn [leading type_name arg_name] in *.
  unfold boost_type_and_name, boost_argument.
  cbn [leading type_name arg_name text list_ascii_of_string app].
  assert (Hf : exists l,
            re_findall1 boost_type_re (pre ++ "("%char :: t ++ ")"%char :: n) = t :: l).
  { unfold re_findall1, finditer.
    replace (2 * length (pre ++ "("%char :: t ++ ")"%char :: n) + 2)
      with (S (2 * length (pre ++ "("%char :: t ++ ")"%char :: n) + 1)) by lia.
    cbn [finditer_go].
    rewrite (search_after_prefix boost_type_re pre _ None _
               ltac:(intros pre1 c pre2 prev' E; apply boost_type_absent;
                     intros ->; apply (boost_plain_not_in pre "("%char Hp eq_refl);
                     rewrite E; apply in_or_app; right; now left)
               (boost_type_match t n (last_char None pre) Ht)).
    destruct (finditer_go boost_type_re _ _ _ _) as [ms tail].
    cbn [fst map snd]. eexists. reflexivity. }
  destruct Hf as (l & ->). cbn [index nth_error rbind].
  assert (Hs : split ")" (pre ++ "("%char :: t ++ ")"%char :: n)
               = [pre ++ "("%char :: t; n]).
  { unfold split. change (text ")") with [")"%char].
    replace (pre ++ "("%char :: t ++ ")"%char :: n)
      with ((pre ++ "("%char :: t) ++ ")"%char :: n)
      by (rewrite <- app_assoc; reflexivity).
    rewrite split_char_app, !split_char_line.
    - reflexivity.
    - now apply boost_plain_not_in.
    - intros Hin. apply in_app_or in Hin. destruct Hin as [Hin|[E|Hin]].
      + revert Hin. now apply boost_plain_not_in.
      + discriminate.
      + revert Hin. now apply boost_plain_not_in. }
  change [")"%char] with (text ")"). rewrite Hs. reflexivity.
Qed.

Lemma boost_nominal_loop_plain : forall (l : list BoostArgument) num k acc,
  Forall plain_argument l ->
  num = k + length l ->
  boost_nominal_loop num k (map boost_argument l) acc
  = Ok (acc ++ join ", " (map typed_argument l)).
Proof.
  induction l as [|b l IH]; intros num k acc H Hnum.
  - cbn. now rewrite app_nil_r.
  - inversion H as [|? ? Hb Hl]; subst.
    cbn [map boost_nominal_loop].
    rewrite (boost_type_and_name_plain b Hb). cbn [rbind fst snd].
    rewrite (IH (k + length (b :: l)) (S k) _ Hl) by (cbn [length]; lia).
    f_equal. fold (typed_argument b).
    destruct l as [|b' l].
    + replace (k <? k + length [b] - 1) with false
        by (symmetry; apply Nat.ltb_ge; cbn [length]; lia).
      cbn [map join]. now rewrite app_nil_r.
    + replace (k <? k + length (b :: b' :: l) - 1) with true
        by (symmetry; apply Nat.ltb_lt; cbn [length]; lia).
      rewrite (join_cons ", " (typed_argument b) (map typed_argument (b' :: l)))
        by discriminate.
      now rewrite <- !app_assoc.
Qed.

Lemma boost_argument_plain : forall b : BoostArgument,
  plain_argument b ->
  ~ In ","%char (boost_argument b) /\ ~ In "["%char (boost_argument b).
Proof.
  intros [pre t n] (Hp & Ht & Hn). unfold boost_argument.
  cbn [leading type_name arg_name text list_ascii_of_string app] in *.
  split; intros Hin;
    (apply in_app_or in Hin; destruct Hin as [Hin|[E|Hin]];
       [revert Hin; now apply boost_plain_not_in | discriminate |];
     apply in_app_or in Hin; destruct Hin as [Hin|[E|Hin]];
       [revert Hin; now apply boost_plain_not_in | discriminate |];
     revert Hin; now apply boost_plain_not_in).
Qed.

Lemma in_join_inv : forall (sep : str) (ps : list str) x,
  In x (join sep ps) -> In x sep \/ exists p, In p ps /\ In x p.
Proof.
  intros sep ps x. induction ps as [|p ps IH]; intros H; [contradiction|].
  destruct ps as [|q ps].
  - right. exists p. split; [now left | exact H].
  - rewrite join_cons in H by discriminate.
    apply in_app_or in H. destruct H as [H|H].
    + right. exists p. split; [now left | exact H].
    + apply in_app_or in H. destruct H as [H|H]; [now left|].
      destruct (IH H) as [Hs|(p' & Hp' & Hx)]; [now left|].
      right. exists p'. split; [now right | exact Hx].
Qed.

(** X21: the translation of the Boost.Python dialect turns a list of
    arguments [(Type)name], separated by commas and without optional
    part, into the arguments [name: Type] separated by a comma and a
    blank: the text in front of the parenthesis is dropped, the blanks of
    a name are replaced by underscores, and in the end a blank before a
    comma is dropped. *)
Theorem boost_args_translates_nominal_arguments : forall l : list BoostArgument,
  l <> [] ->
  Forall plain_argument l ->
  boost_args (join "," (map boost_argument l))
  = Ok (replace " ," "," (join ", " (map typed_argument l))).
Proof.
  intros l Hl H.
  assert (Hpieces : Forall (fun p => ~ In ","%char p) (map boost_argument l)).
  { apply Forall_forall. intros p Hp. apply in_map_iff in Hp.
    destruct Hp as (b & <- & Hb). rewrite Forall_forall in H.
    now apply boost_argument_plain, H. }
  assert (Hbr : ~ In "["%char (join "," (map boost_argument l))).
  { intros Hin. apply in_join_inv in Hin.
    destruct Hin as [[E|[]]|(p & Hp & Hx)]; [discriminate|].
    apply in_map_iff in Hp. destruct Hp as (b & <- & Hb).
    rewrite Forall_forall in H.
    now apply (boost_argument_plain b (H b Hb)). }
  assert (Hne : join "," (map boost_argument l) <> []).
  { destruct l as [|b l]; [contradiction|].
    intros E. assert (Hin : In "("%char (join "," (map boost_argument (b :: l)))).
    { apply (in_join _ _ (boost_argument b)); [now left|].
      unfold boost_argument. apply in_or_app. right. now left. }
    rewrite E in Hin. contradiction. }
  assert (Hopt : re_findall1 boost_optional_re (join "," (map boost_argument l)) = []).
  { unfold re_findall1, boost_optional_re. cbn [Cats].
    rewrite finditer_nowhere by now apply search_first_char_absent. reflexivity. }
  unfold boost_args. rewrite Hopt. cbn [hd truthy].
  assert (Htr : truthy (join "," (map boost_argument l)) = true)
    by (destruct (join "," (map boost_argument l)); [contradiction | reflexivity]).
  rewrite Htr.
  change (text ",") with [","%char] in *.
  rewrite split_char_join
    by (exact Hpieces || (destruct l; [contradiction | discriminate])).
  cbn [length Nat.ltb Nat.leb]. change (text "") with (@nil ascii).
  rewrite (boost_nominal_loop_plain l (length (map boost_argument l)) 0 [] H)
    by (now rewrite length_map).
  cbn [rbind app andb boost_optional_loop]. reflexivity.
Qed.

Lemma boost_args_translates_nominal_arguments_witness :
  boost_args "(int)a, (std::string)the name" = Ok (text "a: int, the_name: std::string").
Proof.
  apply (boost_args_translates_nominal_arguments
           [mkBoostArgument "" "int" "a"; mkBoostArgument " " "std::string" "the name"]).
  - discriminate.
  - repeat constructor.
Defined.

(** ** Splitting at a separator of several characters *)

Lemma split_go_absent : forall (sep s : str) cur,
  sep <> [] -> ~ occurs sep s -> split_go sep 0 cur s = [rev cur ++ s].
Proof.
  intros sep s. induction s as [|x s IH]; intros cur Hsep Hn.
  - cbn. now rewrite app_nil_r.
  - cbn [split_go].
    destruct (startswith sep (x :: s)) eqn:E.
    + exfalso. apply Hn. apply startswith_prefix in E.
      exists [], (skipn (length sep) (x :: s)). exact E.
    + rewrite IH; [|exact Hsep|].
      * cbn [rev]. now rewrite <- app_assoc.
      * intros Ho. apply Hn. now apply (occurs_suffix _ [x]).
Qed.

Lemma split_paragraph : forall c (line body : str) cur,
  ~ In c line ->
  split_go [c; c] 0 cur (line ++ c :: c :: body)
  = (rev cur ++ line) :: split_go [c; c] 0 [] body.
Proof.
  intros c line body. induction line as [|x line IH]; intros cur H.
  - cbn [app split_go startswith]. rewrite !Ascii.eqb_refl. cbn [andb length Nat.sub].
    now rewrite app_nil_r.
  - cbn [app split_go startswith].
    destruct (Ascii.eqb_spec c x) as [->|_]; [exfalso; apply H; now left|].
    cbn [andb]. rewrite IH by (intros Hin; apply H; now right).
    cbn [rev]. now rewrite <- app_assoc.
Qed.

(** ** Greedy repetition that gives characters back *)

Lemma star_loop_sym_none : forall p (T : str) gs k,
  stops p T ->
  forall (z : str) prev fuel,
    all_in p z ->
    (forall z1 z2 prev', z = z1 ++ z2 -> k (mkState prev' (z2 ++ T) gs) = None) ->
    star_loop (m_sym p) fuel (mkState prev (z ++ T) gs) k = None.
Proof.
  intros p T gs k HT z. induction z as [|x z IH]; intros prev fuel Hz Hk.
  - pose proof (Hk [] [] prev eq_refl) as H0. cbn [app] in H0 |- *.
    destruct fuel as [|fuel]; cbn [star_loop]; [exact H0|].
    unfold m_sym. cbn [st_rest]. rewrite H0.
    destruct T as [|t T]; [reflexivity|]. unfold stops in HT. now rewrite HT.
  - inversion Hz as [|? ? Hx Hz']; subst.
    pose proof (Hk [] (x :: z) prev eq_refl) as H0. cbn [app] in H0 |- *.
    destruct fuel as [|fuel]; cbn [star_loop]; [exact H0|].
    unfold m_sym at 1. cbn [st_rest st_groups]. rewrite Hx.
    unfold progressed. cbn [st_rest length].
    replace (length (z ++ T) <? S (length (z ++ T))) with true
      by (symmetry; apply Nat.ltb_lt; lia).
    rewrite IH; [exact H0 | exact Hz'|].
    intros z1 z2 prev' E. apply (Hk (x :: z1) z2 prev'). now rewrite E.
Qed.

Lemma star_loop_backtrack : forall p (w2 T : str) gs k res,
  all_in p w2 -> stops p T ->
  (forall u v prev', w2 = u ++ v -> u <> [] -> k (mkState prev' (v ++ T) gs) = None) ->
  forall (w1 : str) prev fuel,
    all_in p w1 ->
    length (w1 ++ w2) < fuel ->
    k (mkState (last_char prev w1) (w2 ++ T) gs) = Some res ->
    star_loop (m_sym p) fuel (mkState prev (w1 ++ w2 ++ T) gs) k = Some res.
Proof.
  intros p w2 T gs k res Hw2 HT Hfail w1.
  induction w1 as [|x w1 IH]; intros prev fuel Hw1 Hf Hk.
  - cbn [app last_char] in *.
    destruct fuel as [|fuel]; [lia|]. cbn [star_loop].
    destruct w2 as [|y w2].
    + cbn [app] in *. unfold m_sym. cbn [st_rest].
      destruct T as [|t T]; [now rewrite Hk|]. unfold stops in HT. now rewrite HT, Hk.
    + inversion Hw2 as [|? ? Hy Hw2']; subst.
      unfold m_sym at 1. cbn [st_rest st_groups app]. rewrite Hy.
      unfold progressed. cbn [st_rest length].
      replace (length (w2 ++ T) <? S (length (w2 ++ T))) with true
        by (symmetry; apply Nat.ltb_lt; lia).
      rewrite (star_loop_sym_none p T gs k HT w2 (Some y) fuel Hw2').
      * exact Hk.
      * intros z1 z2 prev' E. apply (Hfail (y :: z1) z2 prev'); [now rewrite E | discriminate].
  - inversion Hw1 as [|? ? Hx Hw1']; subst.
    destruct fuel as [|fuel]; [cbn in Hf; lia|]. cbn [star_loop app].
    unfold m_sym at 1. cbn [st_rest st_groups]. rewrite Hx.
    unfold progressed. cbn [st_rest length].
    replace (length (w1 ++ w2 ++ T) <? S (length (w1 ++ w2 ++ T))) with true
      by (symmetry; apply Nat.ltb_lt; lia).
    rewrite (IH (Some x) fuel Hw1'); [reflexivity | cbn in Hf; lia | exact Hk].
Qed.

(** ** The signature line in the documentation *)

Lemma remove_overload_number_absent : forall prev (T : str) gs K,
  stops re_space T -> stops re_digit T ->
  matcher (Group 1 (Cats [Star (Sym re_space);
                          Group 2 (Plus (Sym re_digit));
                          Sym re_any;
                          Star (Sym re_space)])) (mkState prev T gs) K = None.
Proof.
  intros prev T gs K Hs Hd. rewrite matcher_Group. cbn [Cats]. rewrite matcher_Cat.
  apply matcher_Star_nothing_none; [exact Hs|].
  intros prev' gs'. rewrite matcher_Cat, matcher_Group. unfold Plus.
  rewrite matcher_Cat. now apply matcher_Sym_stops.
Qed.

Lemma all_in_not_in : forall (s : str) c,
  ~ In c s -> all_in (fun x => negb (Ascii.eqb x c)) s.
Proof.
  intros s c H. apply Forall_forall. intros x Hx.
  destruct (Ascii.eqb_spec x c) as [->|_]; [contradiction | reflexivity].
Qed.

Lemma signature_line_removed : forall name0 a r : str,
  word name0 -> stops re_digit name0 ->
  all_in (none_of "()") a ->
  r <> [] -> all_in (none_of "()") r -> stops re_space r ->
  ~ In newline (signature_line name0 a r) ->
  is_match remove_signature_regex (signature_line name0 a r) = true.
Proof.
  intros name0 a r [Hn Hw] Hd Ha Hr Hrp Hrs Hnl.
  unfold is_match, re_match, match_here, signature_line in *.
  match goal with |- context [matcher _ _ ?k] => set (final := k) end.
  assert (Hany : all_in re_any (name0 +++ "(" +++ a +++ ") -> " +++ r))
    by (apply all_in_not_in in Hnl; exact Hnl).
  assert (Hany_a : all_in re_any a).
  { unfold all_in in *. rewrite Forall_forall in *. intros x Hx. apply Hany.
    apply in_or_app. right. apply in_or_app. right. apply in_or_app. now left. }
  assert (Hany_r : all_in re_any (") -> " +++ r)).
  { unfold all_in in *. rewrite Forall_forall in *. intros x Hx. apply Hany.
    apply in_or_app. right. apply in_or_app. right. apply in_or_app. now right. }
  assert (Hm : exists res,
            matcher remove_signature_regex
              (mkState None (name0 +++ "(" +++ a +++ ") -> " +++ r) []) final = Some res).
  { eexists.
    assert (Hsp : stops re_space (name0 +++ "(" +++ a +++ ") -> " +++ r)).
    { destruct name0 as [|c0 n0]; [contradiction|].
      inversion Hw; subst. cbn. now apply word_char_not_space. }
    assert (Hdg : stops re_digit (name0 +++ "(" +++ a +++ ") -> " +++ r)).
    { destruct name0 as [|c0 n0]; [contradiction|]. exact Hd. }
    unfold remove_signature_regex. cbn [Cats].
    rewrite matcher_Cat. unfold Opt at 1. rewrite matcher_Alt_right
      by now apply remove_overload_number_absent.
    rewrite matcher_Eps, matcher_Cat.
    apply matcher_Plus_greedy; [exact Hn | exact Hw | reflexivity |].
    cbn [text list_ascii_of_string app].
    rewrite matcher_Cat.
    apply matcher_Star_nothing; [reflexivity|].
    rewrite matcher_Cat. unfold Chr at 1. rewrite matcher_Sym_cons by reflexivity.
    rewrite matcher_Cat, matcher_Group, matcher_Star_unfold.
    change (a ++ ")"%char :: " "%char :: "-"%char :: ">"%char :: " "%char :: r)
      with (a ++ (")"%char :: " "%char :: "-"%char :: ">"%char :: " "%char :: r)).
    rewrite <- (app_nil_r (")"%char :: " "%char :: "-"%char :: ">"%char :: " "%char :: r)).
    apply (star_loop_backtrack re_any _ [] _ _ _ Hany_r I).
    - intros u v prev' E Hu. rewrite (app_nil_r v) in *.
      unfold close_group. cbn [st_prev st_rest st_groups].
      rewrite matcher_Cat. unfold Chr at 1. rewrite matcher_Sym.
      destruct v as [|x v]; [reflexivity|].
      destruct (Ascii.eqb_spec ")"%char x) as [<-|_]; [|reflexivity].
      exfalso. destruct u as [|y u]; [contradiction|].
      injection E as _ E.
      assert (Hin : In ")"%char (" "%char :: "-"%char :: ">"%char :: " "%char :: r))
        by (rewrite E; apply in_or_app; right; now left).
      destruct Hin as [Hin|[Hin|[Hin|[Hin|Hin]]]]; try discriminate.
      unfold all_in in Hrp. rewrite Forall_forall in Hrp.
      specialize (Hrp _ Hin). discriminate.
    - exact Hany_a.
    - cbn [st_rest]. rewrite !length_app. cbn [length app].
      rewrite ?length_app. change (length (text ") -> ")) with 5. cbn [length]. lia.
    - cbn [text list_ascii_of_string app]. rewrite (app_nil_r r).
      rewrite (close_group_eq 3 _ _ _ _ _ a (")"%char :: " "%char :: "-"%char :: ">"%char
                                                :: " "%char :: r)) by reflexivity.
      rewrite matcher_Cat. unfold Chr at 1. rewrite matcher_Sym_cons by reflexivity.
      rewrite matcher_Cat.
      apply (matcher_Star_greedy re_space [" "%char] _ ("-"%char :: ">"%char :: " "%char :: r));
        [repeat constructor | reflexivity |].
      cbn [last_char].
      unfold Opt. apply matcher_Alt_left.
      rewrite matcher_Group. cbn [Cats]. rewrite matcher_Cat.
      rewrite (matcher_Lit_app "->" _ (" "%char :: r)).
      rewrite matcher_Cat.
      apply (matcher_Star_greedy re_space [" "%char] _ r);
        [repeat constructor | exact Hrs |].
      cbn [last_char text list_ascii_of_string].
      rewrite matcher_Cat, matcher_Group.
      rewrite <- (app_nil_r r) at 1.
      apply matcher_Plus_greedy; [exact Hr | exact Hrp | exact I |].
      rewrite (close_group_eq 5 _ _ _ _ _ r []) by (now rewrite app_nil_r).
      apply matcher_Star_nothing; [exact I|].
      reflexivity. }
  destruct Hm as (res & ->). reflexivity.
Qed.

Lemma leading_run : forall (p : ascii -> bool) (s : str),
  exists w rest, s = w ++ rest /\ all_in p w /\ stops p rest.
Proof.
  intros p s. induction s as [|c s IH].
  - exists [], []. repeat split. constructor.
  - destruct (p c) eqn:E.
    + destruct IH as (w & rest & -> & Hw & Hr).
      exists (c :: w), rest. repeat split; [now constructor | exact Hr].
    + exists [], (c :: s). repeat split; [constructor | exact E].
Qed.

(** A text with a character that is not a blank does not match the
    pattern of blank texts. *)
Lemma text_not_blank : forall (d : str) c,
  In c d -> isspace c = false ->
  is_match (Cats [Caret; Star (Sym re_space); Dollar]) d = false.
Proof.
  intros d c Hin Hc.
  destruct (leading_run re_space d) as (z & T & -> & Hz & HT).
  assert (HTn : T <> []).
  { intros ->. rewrite app_nil_r in Hin. unfold all_in in Hz.
    rewrite Forall_forall in Hz. specialize (Hz c Hin). unfold re_space in Hz. congruence. }
  unfold is_match, re_match, match_here.
  match goal with |- context [matcher _ _ ?k] => set (final := k) end.
  assert (Hm : matcher (Cats [Caret; Star (Sym re_space); Dollar])
                 (mkState None (z ++ T) []) final = None); [|now rewrite Hm].
  cbn [Cats]. rewrite matcher_Cat, matcher_Caret_start, matcher_Cat.
  apply (matcher_within_none re_space T (Star (Sym re_space)) (fun x H => H) HT z None []);
    [exact Hz|].
  intros z1 z2 prev' gs' E.
  assert (Hd : at_dollar (mkState prev' (z2 ++ T) gs') = false).
  { unfold at_dollar. cbn [st_rest].
    destruct T as [|t T]; [contradiction|]. unfold stops in HT.
    destruct z2 as [|y z2]; cbn [app].
    - destruct T; [|reflexivity].
      destruct (Ascii.eqb_spec t newline) as [->|_]; [discriminate HT | reflexivity].
    - destruct (z2 ++ t :: T) eqn:Ez; [|reflexivity].
      destruct z2; discriminate. }
  change (matcher Dollar (mkState prev' (z2 ++ T) gs') final)
    with (if at_dollar (mkState prev' (z2 ++ T) gs')
          then final (mkState prev' (z2 ++ T) gs') else None).
  now rewrite Hd.
Qed.

Lemma rstrip_with_keeps : forall f (s : str) c,
  In c s -> f c = false -> In c (rstrip_with f s).
Proof.
  intros f s c Hin Hf. unfold rstrip_with. apply -> in_rev.
  apply lstrip_with_keeps; [|exact Hf]. now apply -> in_rev.
Qed.

Lemma sanitize_signature_paragraph :
  forall (hooks : list (option str -> option str)) (name0 a r body : str),
  word name0 -> stops re_digit name0 ->
  all_in (none_of "()") a ->
  r <> [] -> all_in (none_of "()") r -> stops re_space r ->
  ~ In newline (signature_line name0 a r) ->
  ~ occurs [newline; newline] body ->
  body <> "Overloaded function." ->
  is_match remove_signature_regex body = false ->
  (exists c, In c body /\ isspace c = false) ->
  apply_hooks hooks (Some (signature_line name0 a r ++ newline :: newline :: body))
    = Some (signature_line name0 a r ++ newline :: newline :: body) ->
  sanitize_docstring hooks (Some (signature_line name0 a r ++ newline :: newline :: body))
  = Ok (rstrip_with (Ascii.eqb newline) body).
Proof.
  intros hooks name0 a r body Hw Hd Ha Hr Hrp Hrs Hnl Hpar Hov Hbody (c & Hc & Hsp) Hhooks.
  unfold sanitize_docstring, remove_signatures. rewrite Hhooks.
  unfold split. rewrite split_paragraph by exact Hnl.
  rewrite split_go_absent by (discriminate || exact Hpar).
  cbn [rev app filter].
  assert (E1 : str_eqb (signature_line name0 a r) "Overloaded function." = false).
  { destruct (str_eqb (signature_line name0 a r) "Overloaded function.") eqn:E; [|reflexivity].
    apply str_eqb_true in E. exfalso.
    assert (Hin : In "("%char (signature_line name0 a r))
      by (unfold signature_line; apply in_or_app; right; now left).
    rewrite E in Hin. vm_compute in Hin. intuition discriminate. }
  assert (E2 : str_eqb body "Overloaded function." = false).
  { destruct (str_eqb body "Overloaded function.") eqn:E; [|reflexivity].
    apply str_eqb_true in E. contradiction. }
  rewrite E1, E2. cbn [negb filter].
  rewrite (signature_line_removed name0 a r Hw Hd Ha Hr Hrp Hrs Hnl), Hbody.
  cbn [negb join rbind].
  rewrite (text_not_blank (rstrip_with (Ascii.eqb newline) body) c).
  - now rewrite andb_false_r.
  - apply rstrip_with_keeps; [exact Hc|].
    destruct (Ascii.eqb_spec newline c) as [<-|_]; [discriminate Hsp | reflexivity].
  - exact Hsp.
Qed.


(** X22: a documentation made of the signature line
    [name(args) -> rtype], an empty line and one paragraph of text that is
    neither a signature nor the notice of overloads, and that holds a
    character other than a blank, is sanitized to that paragraph, its
    trailing newlines removed: the signature line is dropped. *)
Theorem signature_line_dropped_from_documentation :
  forall (hooks : list (option str -> option str)) (name0 a r body : str),
  word name0 -> stops re_digit name0 ->
  all_in (none_of "()") a ->
  r <> [] -> all_in (none_of "()") r -> stops re_space r ->
  ~ In newline (signature_line name0 a r) ->
  ~ occurs [newline; newline] body ->
  body <> "Overloaded function." ->
  is_match remove_signature_regex body = false ->
  (exists c, In c body /\ isspace c = false) ->
  apply_hooks hooks (Some (signature_line name0 a r ++ newline :: newline :: body))
    = Some (signature_line name0 a r ++ newline :: newline :: body) ->
  sanitize_docstring hooks (Some (signature_line name0 a r ++ newline :: newline :: body))
  = Ok (rstrip_with (Ascii.eqb newline) body).
Proof.
  intros hooks name0 a r body Hw Hd Ha Hr Hrp Hrs Hnl Hpar Hov Hbody Hc Hhooks.
  now apply sanitize_signature_paragraph.
Qed.

Lemma signature_line_dropped_from_documentation_witness :
  sanitize_docstring []
    (Some (text "add(a: int, b: int) -> int" ++ newline :: newline
           :: (text "Adds two numbers." ++ [newline])))
  = Ok (text "Adds two numbers.").
Proof.
  apply (signature_line_dropped_from_documentation [] "add" "a: int, b: int" "int"
           (text "Adds two numbers." ++ [newline])).
  - split; [discriminate | repeat constructor].
  - reflexivity.
  - repeat constructor.
  - discriminate.
  - repeat constructor.
  - reflexivity.
  - vm_compute. intuition discriminate.
  - intros (x & y & H).
    repeat (destruct x as [|? x]; [discriminate|]; injection H as _ H).
    destruct x; discriminate.
  - discriminate.
  - vm_compute. reflexivity.
  - exists "A"%char. split; [now left | reflexivity].
  - reflexivity.
Defined.

(** ** From the documentation of a routine to its stub *)

Lemma signature_regex_not_empty : forall name0 : str,
  name0 <> [] -> is_match (signature_regex name0) [] = false.
Proof.
  intros name0 Hn. unfold is_match, re_match, match_here.
  match goal with |- context [matcher _ _ ?k] => set (final := k) end.
  assert (Hm : matcher (signature_regex name0) (mkState None [] []) final = None);
    [|now rewrite Hm].
  unfold signature_regex. cbn [Cats].
  rewrite matcher_Cat. unfold Opt. rewrite matcher_Alt_right
    by (apply overload_number_absent; exact I).
  rewrite matcher_Eps, matcher_Cat.
  apply matcher_Star_nothing_none; [exact I|].
  intros prev' gs'. rewrite matcher_Cat, matcher_Lit.
  destruct name0; [contradiction | reflexivity].
Qed.

(** X23: a routine documented by its signature line
    [name(args) -> rtype], an empty line and one paragraph of text is
    parsed into the one signature of that line, and rendered as the [def]
    line of the normalized signature followed by the block of the
    paragraph: the stub shows the text and not the signature line. *)
Theorem documented_routine_stub :
  forall (ast_parse : str -> ParseOutcome) (hooks : list (option str -> option str))
         (list_of_set : list FunctionSignature -> list FunctionSignature)
         (name0 a r body qualified_name : str) module_name g,
  let doc := signature_line name0 a r ++ newline :: newline :: body in
  (forall l, NoDup (list_of_set l) /\ forall x, In x (list_of_set l) <-> In x l) ->
  module_identifier module_name ->
  word name0 -> stops re_digit name0 ->
  all_in (none_of "()") a -> no_angle a ->
  r <> [] -> all_in (none_of "()") r -> stops re_space r ->
  ~ In newline (signature_line name0 a r) ->
  ~ occurs [newline; newline] body ->
  body <> "Overloaded function." ->
  is_match remove_signature_regex body = false ->
  filter (is_match (signature_regex name0)) (split [newline] body) = [] ->
  (exists c, In c body /\ isspace c = false) ->
  apply_hooks hooks (Some doc) = Some doc ->
  USE_BOOST_PYTHON g = false ->
  ast_parse (candidate name0 a r) = Parses ->
  exists parsed,
    function_parse ast_parse hooks list_of_set
      (mkFunctionStubs name0 (mkMember (Some doc) qualified_name) module_name []) g
    = (Ok parsed, g) /\
    fn_signatures parsed
    = [normalized module_name (BARE_NUPMY_NDARRAY g) (mkSig name0 a r)] /\
    fst (free_function_to_lines hooks parsed g)
    = Ok [def_line (normalized module_name (BARE_NUPMY_NDARRAY g) (mkSig name0 a r));
          documentation_block (rstrip_with (Ascii.eqb newline) body)].
Proof.
  intros ast_parse hooks list_of_set name0 a r body qualified_name module_name g doc
         Hset _ Hw Hd Ha Hna Hr Hrp Hrs Hnl Hpar Hov Hbody Hlines Hc Hhooks Hb Hp.
  assert (Edoc : doc = join [newline] (signature_line name0 a r :: [] :: split [newline] body)).
  { subst doc.
    pose proof (split_go_nonempty [newline] body 0 []) as Hne.
    fold (split [newline] body) in Hne.
    rewrite join_cons by discriminate. rewrite join_cons by exact Hne.
    unfold split. rewrite join_char_split. reflexivity. }
  assert (Hsig : function_signatures_from_docstring ast_parse hooks list_of_set name0
                   (Some doc) module_name g
                 = (Ok [normalized module_name (BARE_NUPMY_NDARRAY g) (mkSig name0 a r)], g)).
  { rewrite Edoc in Hhooks |- *.
    apply signature_line_parsed; try assumption.
    - constructor; [exact Hnl|]. constructor; [intros []|].
      apply (split_char_pieces newline body [] (fun x => x)).
    - cbn [filter]. rewrite signature_regex_not_empty by apply Hw. exact Hlines. }
  eexists. split; [|split].
  - unfold function_parse. cbn [fn_name fn_member member_doc fn_module_name].
    rewrite (bind_ok _ _ _ _ _ Hsig). reflexivity.
  - reflexivity.
  - unfold free_function_to_lines. cbn [fn_member member_doc fn_signatures fn_name].
    unfold bind at 1. unfold lift at 1. unfold doc.
    rewrite (sanitize_signature_paragraph hooks name0 a r body
               Hw Hd Ha Hr Hrp Hrs Hnl Hpar Hov Hbody Hc Hhooks).
    match goal with |- context [log_empty_docstring ?s ?d] =>
      assert (Hq : quiet (log_empty_docstring s d))
        by (unfold log_empty_docstring; auto with quiet) end.
    destruct (Hq g) as ([] & g' & E & _).
    rewrite (bind_ok _ _ _ _ _ E). unfold lift. cbn [fst length].
    destruct Hc as (c & Hc & Hsp).
    assert (Hin : In c (rstrip_with (Ascii.eqb newline) body)).
    { apply rstrip_with_keeps; [exact Hc|].
      destruct (Ascii.eqb_spec newline c) as [<-|_]; [discriminate Hsp | reflexivity]. }
    destruct (rstrip_with (Ascii.eqb newline) body) as [|x d]; [contradiction|].
    rewrite free_function_lines_documented. reflexivity.
Qed.

Lemma documented_routine_stub_witness :
  exists parsed,
    function_parse (fun _ => Parses) [] distinct
      (mkFunctionStubs "scale"
         (mkMember (Some (signature_line "scale" "v: m.Vector, k: float" "m.Vector"
                          ++ newline :: newline :: (text "Scales a vector." ++ [newline])))
                   "m.scale")
         (Some (text "m")) []) initial_globals
    = (Ok parsed, initial_globals) /\
    fn_signatures parsed = [mkSig "scale" "v: Vector, k: float" "Vector"] /\
    fst (free_function_to_lines [] parsed initial_globals)
    = Ok [text "def scale(v: Vector, k: float) -> Vector:";
          documentation_block "Scales a vector."].
Proof.
  apply (documented_routine_stub (fun _ => Parses) [] distinct
           "scale" "v: m.Vector, k: float" "m.Vector" (text "Scales a vector." ++ [newline])
           "m.scale" (Some (text "m")) initial_globals).
  - intros l. split; [apply distinct_NoDup | apply distinct_In].
  - repeat constructor.
  - split; [discriminate | repeat constructor].
  - reflexivity.
  - repeat constructor.
  - repeat constructor.
  - discriminate.
  - repeat constructor.
  - reflexivity.
  - vm_compute. intuition discriminate.
  - intros (x & y & H).
    repeat (destruct x as [|? x]; [discriminate|]; injection H as _ H).
    destruct x; discriminate.
  - discriminate.
  - vm_compute. reflexivity.
  - vm_compute. reflexivity.
  - exists "S"%char. split; [now left | reflexivity].
  - reflexivity.
  - reflexivity.
  - reflexivity.
Defined.

(** ** The type of a property announced in its documentation *)

Lemma bracket_free_spec : forall c,
  bracket_free c = true -> re_any c = true /\ c <> "["%char /\ c <> "]"%char.
Proof.
  intros c H. unfold bracket_free in H. apply andb_prop in H. destruct H as [H1 H2].
  split; [exact H2|].
  unfold none_of, one_of in H1. cbn [existsb text list_ascii_of_string] in H1.
  rewrite !negb_orb in H1.
  repeat (apply andb_prop in H1; destruct H1 as [? H1]).
  split; intros ->; discriminate.
Qed.

Lemma bracket_free_any : forall s : str, all_in bracket_free s -> all_in re_any s.
Proof.
  intros s H. eapply Forall_impl; [|exact H]. intros c Hc. now apply bracket_free_spec.
Qed.

Lemma bracket_free_head : forall (s T : str) c,
  all_in bracket_free s -> stops re_any T -> c = "["%char \/ c = "]"%char ->
  forall u v, s = u ++ v -> startswith [c] (v ++ T) = false.
Proof.
  intros s T c Hs HT Hc u v E.
  destruct v as [|x v]; cbn [app].
  - destruct T as [|t T]; [reflexivity|]. unfold stops in HT. cbn [startswith].
    destruct (Ascii.eqb_spec c t) as [<-|_]; [|reflexivity].
    destruct Hc as [-> | ->]; discriminate HT.
  - cbn [startswith].
    destruct (Ascii.eqb_spec c x) as [<-|_]; [|reflexivity].
    exfalso. unfold all_in in Hs. rewrite Forall_forall in Hs.
    assert (Hin : In c s) by (rewrite E; apply in_or_app; right; now left).
    destruct (bracket_free_spec c (Hs c Hin)) as (_ & H1 & H2).
    destruct Hc; contradiction.
Qed.

Lemma no_open_bracket_after : forall (R others v u : str),
  R = u ++ v -> ~ In "["%char R -> stops re_any others ->
  startswith "[returns " (v ++ others) = false.
Proof.
  intros R others v u E Hn Ho.
  destruct (v ++ others) as [|x w] eqn:Ev; [reflexivity|].
  cbn [text list_ascii_of_string startswith].
  destruct (Ascii.eqb_spec "["%char x) as [<-|_]; [|reflexivity].
  exfalso. destruct v as [|v0 v]; cbn [app] in Ev.
  - subst others. discriminate Ho.
  - injection Ev as -> _. apply Hn. rewrite E. apply in_or_app. right. now left.
Qed.

(** The note is found on the first line, and its type is the second
    group. *)
Lemma returns_note_match : forall pre t post others : str,
  all_in re_any pre ->
  t <> [] -> all_in bracket_free t ->
  all_in bracket_free post ->
  stops re_any others ->
  exists m,
    re_match returns_regex (returns_note pre t post others) = Some m /\
    group_or_empty m 2 = t.
Proof.
  intros pre t post others Hpre Ht Pt Ppost Hothers.
  unfold re_match, match_here, returns_note.
  match goal with |- context [matcher _ _ ?k] => set (final := k) end.
  cbn [text list_ascii_of_string app].
  assert (Hm : matcher returns_regex
                 (mkState None (pre ++ "["%char :: "r"%char :: "e"%char :: "t"%char
                                  :: "u"%char :: "r"%char :: "n"%char :: "s"%char :: " "%char
                                  :: t ++ "]"%char :: post ++ others) []) final
               = Some (mkState (last_char (Some "]"%char) post) others
                               [(3, post); (2, t); (1, pre)])).
  { destruct t as [|t0 t']; [contradiction|].
    inversion Pt as [|? ? Pt0 Pt']; subst.
    unfold returns_regex. cbn [Cats].
    rewrite matcher_Cat, matcher_Group, matcher_Star_unfold. cbn [st_rest].
    set (line := "["%char :: "r"%char :: "e"%char :: "t"%char :: "u"%char :: "r"%char
                 :: "n"%char :: "s"%char :: " "%char :: (t0 :: t') ++ "]"%char :: post).
    replace ("["%char :: "r"%char :: "e"%char :: "t"%char :: "u"%char :: "r"%char :: "n"%char
             :: "s"%char :: " "%char :: (t0 :: t') ++ "]"%char :: post ++ others)
      with (line ++ others)
      by (unfold line; cbn [app]; rewrite <- app_assoc; reflexivity).
    assert (Hline : all_in re_any line).
    { unfold line. repeat (constructor; [reflexivity|]).
      apply Forall_app. split; [now apply bracket_free_any|].
      constructor; [reflexivity | now apply bracket_free_any]. }
    apply (star_loop_backtrack re_any line others [] _ _ Hline Hothers).
    - intros u v prev' E Hu.
      unfold close_group. cbn [st_prev st_rest st_groups].
      rewrite matcher_Cat, matcher_Lit.
      replace (startswith "[returns " (v ++ others)) with false; [reflexivity|].
      symmetry. destruct u as [|y u]; [contradiction|].
      unfold line in E. injection E as _ E.
      apply (no_open_bracket_after _ others v u E); [|exact Hothers].
      intros Hin.
      repeat (destruct Hin as [Hin|Hin]; [discriminate|]).
      change (t0 :: t' ++ "]"%char :: post) with ((t0 :: t') ++ "]"%char :: post) in Hin.
      apply in_app_or in Hin. destruct Hin as [Hin|[Hin|Hin]]; try discriminate.
      + unfold all_in in Pt. rewrite Forall_forall in Pt.
        now destruct (bracket_free_spec _ (Pt _ Hin)) as (_ & H & _).
      + unfold all_in in Ppost. rewrite Forall_forall in Ppost.
        now destruct (bracket_free_spec _ (Ppost _ Hin)) as (_ & H & _).
    - exact Hpre.
    - cbn [app]. rewrite !length_app. cbn [length]. lia.
    - cbn [app].
      rewrite (close_group_eq 1 _ _ _ _ _ pre (line ++ others)) by reflexivity.
      unfold line. cbn [app].
      rewrite matcher_Cat.
      rewrite matcher_Lit.
      cbn [text list_ascii_of_string app startswith Ascii.eqb Bool.eqb andb
           length skipn last_char].
      rewrite matcher_Cat, matcher_Group. unfold Plus.
      rewrite matcher_Cat, matcher_Sym_cons
        by (now destruct (bracket_free_spec _ Pt0)).
      rewrite matcher_Star_unfold. cbn [st_rest].
      rewrite <- (app_assoc t' ("]"%char :: post) others).
      apply (star_loop_backtrack re_any ("]"%char :: post) others).
      + constructor; [reflexivity | now apply bracket_free_any].
      + exact Hothers.
      + intros u v prev' E Hu.
        unfold close_group. cbn [st_prev st_rest st_groups].
        rewrite matcher_Cat. unfold Chr at 1. rewrite matcher_Sym.
        destruct u as [|y u]; [contradiction|]. injection E as _ E.
        pose proof (bracket_free_head post others "]"%char Ppost Hothers
                      (or_intror eq_refl) u v E) as Hh.
        destruct (v ++ others) as [|x w]; [reflexivity|].
        cbn [startswith] in Hh. rewrite andb_true_r in Hh. now rewrite Hh.
      + now apply bracket_free_any.
      + rewrite !length_app. cbn [length]. lia.
      + cbn [app].
        rewrite (close_group_eq 2 _ _ _ _ _ (t0 :: t') ("]"%char :: post ++ others))
          by (cbn [app]; reflexivity).
        rewrite matcher_Cat. unfold Chr at 1. rewrite matcher_Sym_cons by reflexivity.
        rewrite matcher_Group.
        apply matcher_Star_greedy; [now apply bracket_free_any | exact Hothers |].
        rewrite close_group_app. reflexivity. }
  rewrite Hm. eexists. split; [reflexivity|].
  unfold group_or_empty, group. cbn [m_groups st_groups assoc]. reflexivity.
Qed.



(** ** The receiver of a class member *)

Lemma split_top_first_segment : forall (first rest : str) d cur,
  depth_after d first = Some 0 ->
  top_level_commas_from d first = 0 ->
  split_top d cur (first ++ ","%char :: rest) = (cur ++ first) :: split_top 0 [] rest.
Proof.
  induction first as [|c first IH]; intros rest d cur Hd Hc.
  - cbn in Hd. injection Hd as ->. cbn. now rewrite app_nil_r.
  - cbn [app split_top depth_after top_level_commas_from] in *.
    destruct (Ascii.eqb c "[").
    + rewrite IH by assumption. now rewrite <- app_assoc.
    + destruct (Ascii.eqb c "]").
      * destruct d as [|d]; [discriminate|]. cbn [pred] in *.
        rewrite IH by assumption. now rewrite <- app_assoc.
      * destruct (Ascii.eqb c "," && (d =? 0)); [discriminate|].
        rewrite IH by assumption. now rewrite <- app_assoc.
Qed.

Lemma startswith_strip_nonblank : forall p s : str,
  p <> [] -> startswith p (strip s) = true -> strip s <> [].
Proof.
  intros p s Hp H E. rewrite E in H. destruct p; [contradiction | discriminate].
Qed.

(** X25: a class member with one signature whose argument text begins
    with [self] is rendered without [@staticmethod]; when its first
    argument is followed by a comma outside brackets and the rest of the
    text has balanced brackets, the first argument is replaced by [self]
    and the rest is kept character for character.  The line ends with
    [...] when the documentation is empty, and the documentation block
    follows it otherwise. *)
Theorem class_member_receiver_replaced :
  forall (hooks : list (option str -> option str)) name0 member module_name
         (first rest rtype0 docstring : str) g,
  sanitize_docstring hooks (member_doc member) = Ok docstring ->
  startswith "self" (strip (first ++ ","%char :: rest)) = true ->
  closed_segment first ->
  balanced rest = true ->
  fst (class_member_to_lines hooks
         (mkFunctionStubs name0 member module_name
                          [mkSig name0 (first ++ ","%char :: rest) rtype0]) g)
  = Ok (("def " +++ name0 +++ "(self," +++ rest +++ ") -> " +++ rtype0 +++ ": "
         +++ (if truthy docstring then [] else "..."))
        :: (if truthy docstring then [documentation_block docstring] else [])).
Proof.
  intros hooks name0 member module_name first rest rtype0 docstring g
         Hd Hself [Hb1 Hc1] Hb2.
  unfold class_member_to_lines. cbn [fn_member fn_signatures fn_name].
  unfold bind at 1. unfold lift at 1. rewrite Hd.
  match goal with |- context [log_empty_docstring ?s ?d] =>
    assert (Hq : quiet (log_empty_docstring s d))
      by (unfold log_empty_docstring; auto with quiet) end.
  destruct (Hq g) as ([] & g' & E & _).
  rewrite (bind_ok _ _ _ _ _ E). unfold lift. cbn [fst length class_member_lines args].
  rewrite Hself. cbn [negb].
  assert (Hbal : balanced (first ++ ","%char :: rest) = true).
  { unfold balanced in *. rewrite depth_after_app.
    destruct (depth_after 0 first) as [[|d]|]; try discriminate.
    cbn [depth_after Ascii.eqb Bool.eqb]. exact Hb2. }
  rewrite split_arguments_nonblank;
    [|cbn [args]; now apply (startswith_strip_nonblank "self") | exact Hbal].
  cbn [args rbind].
  rewrite split_top_first_segment;
    [|now apply balanced_depth | exact Hc1].
  cbn [tl app].
  pose proof (split_top_nonempty rest 0 []) as Hne.
  rewrite join_cons by exact Hne. rewrite split_top_join. cbn [app Nat.ltb Nat.leb].
  rewrite format_member_def_line. cbn [rbind name rtype].
  destruct docstring as [|c d]; cbn [truthy].
  - reflexivity.
  - rewrite format_docstring_documentation_block. cbn [rbind class_member_lines].
    reflexivity.
Qed.

Lemma class_member_receiver_replaced_witness :
  fst (class_member_to_lines []
         (mkFunctionStubs "get" (mkMember None "m.A.get") (Some (text "m"))
                          [mkSig "get" "self: m.A, key: Dict[str, int]" "int"])
         initial_globals)
  = Ok [text "def get(self, key: Dict[str, int]) -> int: ..."].
Proof.
  apply (class_member_receiver_replaced [] "get" (mkMember None "m.A.get") (Some (text "m"))
           "self: m.A" " key: Dict[str, int]" "int" [] initial_globals).
  - reflexivity.
  - reflexivity.
  - split; reflexivity.
  - reflexivity.
Defined.

(** ** The signature line of an overload *)

Lemma digit_not_space : forall c, re_digit c = true -> re_space c = false.
Proof.
  intros [[] [] [] [] [] [] [] []]; vm_compute; intros H; congruence.
Qed.

(** The pattern after the optional overload number, on blanks [sp]
    followed by the signature line. *)
Lemma signature_after_number : forall (name0 a r sp : str) prev gs final res,
  word name0 ->
  all_in re_space sp ->
  all_in (none_of "()") a ->
  r <> [] -> all_in (none_of "()") r -> stops re_space r ->
  final (mkState (last_char (Some " "%char) r) []
                 ((g_rtype, r) :: (g_args, a) :: (4, [])
                  :: match a with [] => gs | _ :: _ => (4, a) :: gs end)) = Some res ->
  matcher (Cats [Star (Sym re_space);
                 Lit name0;
                 Star (Sym re_space);
                 Chr "(";
                 Group g_args parentheses_three_fold;
                 Chr ")";
                 Star (Sym re_space);
                 Lit "->";
                 Star (Sym re_space);
                 Group g_rtype (Plus (Sym (none_of "()")));
                 Star (Sym re_space)])
          (mkState prev (sp ++ signature_line name0 a r) gs) final = Some res.
Proof.
  intros name0 a r sp prev gs final res [Hn Hw] Hsp Ha Hr Hrp Hrs Hfinal.
  unfold signature_line. cbn [Cats].
  assert (Hstop : stops re_space (name0 +++ "(" +++ a +++ ") -> " +++ r)).
  { destruct name0 as [|c0 n0]; [contradiction|].
    inversion Hw; subst. cbn. now apply word_char_not_space. }
  rewrite matcher_Cat.
  apply matcher_Star_greedy; [exact Hsp | exact Hstop |].
  rewrite matcher_Cat, matcher_Lit_app, matcher_Cat.
  cbn [text list_ascii_of_string app].
  apply matcher_Star_nothing; [reflexivity|].
  rewrite matcher_Cat. unfold Chr at 1. rewrite matcher_Sym_cons by reflexivity.
  rewrite matcher_Cat, matcher_Group. unfold parentheses_three_fold.
  apply parentheses_fold_flat; [exact Ha|].
  rewrite (close_group_eq g_args _ _ _ _ _ a (")"%char :: " "%char :: "-"%char :: ">"%char
                                                :: " "%char :: r)) by reflexivity.
  rewrite matcher_Cat. unfold Chr at 1. rewrite matcher_Sym_cons by reflexivity.
  rewrite matcher_Cat.
  apply (matcher_Star_greedy re_space [" "%char] _ ("-"%char :: ">"%char :: " "%char :: r));
    [repeat constructor | reflexivity |].
  cbn [last_char].
  rewrite matcher_Cat.
  rewrite (matcher_Lit_app "->" _ (" "%char :: r)).
  rewrite matcher_Cat.
  apply (matcher_Star_greedy re_space [" "%char] _ r);
    [repeat constructor | exact Hrs |].
  cbn [last_char text list_ascii_of_string].
  rewrite matcher_Cat, matcher_Group.
  rewrite <- (app_nil_r r) at 1.
  apply matcher_Plus_greedy; [exact Hr | exact Hrp | exact I |].
  rewrite (close_group_eq g_rtype _ _ _ _ _ r []) by (now rewrite app_nil_r).
  apply matcher_Star_nothing; [exact I|].
  exact Hfinal.
Qed.

Lemma numbered_signature_line_match : forall number name0 a r : str,
  number <> [] -> all_in re_digit number ->
  word name0 ->
  all_in (none_of "()") a ->
  r <> [] -> all_in (none_of "()") r -> stops re_space r ->
  exists m,
    re_match (signature_regex name0) (numbered_signature_line number name0 a r) = Some m /\
    group_or_empty m g_args = a /\ group_or_empty m g_rtype = r /\
    group_or_empty m g_overload_number = number.
Proof.
  intros number name0 a r Hnum Pnum Hw Ha Hr Hrp Hrs.
  unfold re_match, match_here, numbered_signature_line.
  match goal with |- context [matcher _ _ ?k] => set (final := k) end.
  assert (Hm : matcher (signature_regex name0)
                 (mkState None (number +++ ". " +++ signature_line name0 a r) []) final
               = Some (mkState (last_char (Some " "%char) r) []
                         ((g_rtype, r) :: (g_args, a) :: (4, [])
                          :: match a with
                             | [] => [(1, number ++ ["."%char]); (g_overload_number, number)]
                             | _ :: _ => [(4, a); (1, number ++ ["."%char]);
                                          (g_overload_number, number)]
                             end))).
  { assert (Hsp : stops re_space (number +++ ". " +++ signature_line name0 a r)).
    { destruct number as [|d0 n0]; [contradiction|].
      inversion Pnum; subst. cbn. now apply digit_not_space. }
    unfold signature_regex. cbn [Cats].
    rewrite matcher_Cat. unfold Opt. apply matcher_Alt_left.
    rewrite matcher_Group. cbn [Cats]. rewrite matcher_Cat.
    apply matcher_Star_nothing; [exact Hsp|].
    rewrite matcher_Cat, matcher_Group.
    apply matcher_Plus_greedy; [exact Hnum | exact Pnum | reflexivity |].
    rewrite close_group_app.
    cbn [text list_ascii_of_string app].
    rewrite matcher_Sym_cons by reflexivity.
    rewrite (close_group_eq 1 _ _ _ _ _ (number ++ ["."%char])
               (" "%char :: signature_line name0 a r))
      by (rewrite <- app_assoc; reflexivity).
    apply (signature_after_number name0 a r [" "%char] _ _ final _ Hw
             ltac:(repeat constructor) Ha Hr Hrp Hrs).
    unfold final. cbn [andb]. destruct a; reflexivity. }
  rewrite Hm. eexists. split; [reflexivity|].
  unfold group_or_empty, group. cbn [m_groups st_groups].
  destruct a; cbn [assoc Nat.eqb g_args g_rtype g_overload_number]; repeat split.
Qed.

(** X26: the signature line of an overload, [number. name(args) ->
    rtype], is read like the line without number: a documentation whose
    first line it is, and none of whose other lines is a signature of the
    name, yields the one signature with the name, the argument text and the
    return text of the line, normalized. *)
Theorem numbered_signature_line_parsed :
  forall (ast_parse : str -> ParseOutcome) (hooks : list (option str -> option str))
         (list_of_set : list FunctionSignature -> list FunctionSignature)
         (number name0 a r : str) (others : list str) module_name g,
  (forall l, NoDup (list_of_set l) /\ forall x, In x (list_of_set l) <-> In x l) ->
  module_identifier module_name ->
  number <> [] -> all_in re_digit number ->
  word name0 ->
  all_in (none_of "()") a -> no_angle a ->
  r <> [] -> all_in (none_of "()") r -> stops re_space r ->
  Forall (fun l => ~ In newline l) (numbered_signature_line number name0 a r :: others) ->
  filter (is_match (signature_regex name0)) others = [] ->
  apply_hooks hooks (Some (join [newline] (numbered_signature_line number name0 a r :: others)))
    = Some (join [newline] (numbered_signature_line number name0 a r :: others)) ->
  USE_BOOST_PYTHON g = false ->
  ast_parse (candidate name0 a r) = Parses ->
  function_signatures_from_docstring ast_parse hooks list_of_set name0
    (Some (join [newline] (numbered_signature_line number name0 a r :: others)))
    module_name g
  = (Ok [normalized module_name (BARE_NUPMY_NDARRAY g) (mkSig name0 a r)], g).
Proof.
  intros ast_parse hooks list_of_set number name0 a r others module_name g
         Hset _ Hnum Pnum Hw Ha Hna Hr Hrp Hrs Hnl Hothers Hhooks Hb Hp.
  destruct (numbered_signature_line_match number name0 a r Hnum Pnum Hw Ha Hr Hrp Hrs)
    as (m & Hm & Ga & Gr & _).
  rewrite (function_signatures_from_docstring_eq ast_parse hooks list_of_set name0 _
             module_name g [mkSig name0 a r] g Hhooks).
  - cbn [map]. rewrite (singleton_set list_of_set _ Hset). reflexivity.
  - rewrite split_char_join by (discriminate || exact Hnl).
    cbn [signatures_of_lines]. rewrite Hm, Ga, Gr.
    rewrite (bind_ok _ _ _ _ _ (init_clean ast_parse name0 a r g Hna Hb Hp)).
    rewrite (bind_ok _ _ _ _ _ (signatures_of_lines_none ast_parse name0 others g Hothers)).
    reflexivity.
Qed.

Lemma numbered_signature_line_parsed_witness :
  function_signatures_from_docstring (fun _ => Parses) [] distinct "add"
    (Some (join [newline] [text "2. add(a: float, b: float) -> float"; text "";
                           text "Adds floats."]))
    (Some (text "m")) initial_globals
  = (Ok [mkSig "add" "a: float, b: float" "float"], initial_globals).
Proof.
  apply (numbered_signature_line_parsed (fun _ => Parses) [] distinct
           "2" "add" "a: float, b: float" "float" [text ""; text "Adds floats."]
           (Some (text "m")) initial_globals).
  - intros l. split; [apply distinct_NoDup | apply distinct_In].
  - repeat constructor.
  - discriminate.
  - repeat constructor.
  - split; [discriminate | repeat constructor].
  - repeat constructor.
  - repeat constructor.
  - discriminate.
  - repeat constructor.
  - reflexivity.
  - repeat constructor; vm_compute; intuition discriminate.
  - vm_compute. reflexivity.
  - reflexivity.
  - reflexivity.
  - reflexivity.
Defined.
